(** * Prism tokenizer of astro-community/code: a shallow embedding.

    The development follows [prism.ts] (the grammar-driven tokenizer, the
    language registry helpers, the hook registry and the stringifier), the
    module that exports [highlightText], and [prism-lang-tsx.ts] (the
    tag-context walker).

    Conventions.
    - A JavaScript string is a list of code units ([str]); [slice] and
      [length] are the JavaScript ones.
    - A JavaScript object used as an ordered map is an association list in
      [Object.keys] order (token names are not integer-like, so that order is
      the insertion order).
    - Grammar objects are shared and may be cyclic, so they live in a store
      and are named by an identifier ([gid]); [inside] and [rest] hold
      identifiers.
    - Loops that the source writes with [for]/[while] over a mutable list are
      functions with a fuel argument; [Timeout] means the fuel ran out,
      [Thrown] that the JavaScript code raised. *)

From Stdlib Require Import String Ascii List Arith Bool Lia PeanoNat.
From Stdlib Require Import Decimal DecimalString.
From Stdlib Require Import ZArith.
Import ListNotations.

Set Implicit Arguments.

(** ** Strings *)

Definition str := list ascii.

Definition lit (s : string) : str := list_ascii_of_string s.

(** [s.slice(a, b)] for non-negative [a] and [b]. *)
Definition slice (s : str) (a b : nat) : str := firstn (b - a) (skipn a s).

(** [s.slice(a)] for a non-negative [a]. *)
Definition slice_from (s : str) (a : nat) : str := skipn a s.

Definition str_eqb (a b : str) : bool :=
  if list_eq_dec ascii_dec a b then true else false.

(** A string is truthy when it is not empty. *)
Definition truthy (s : str) : bool :=
  match s with [] => false | _ :: _ => true end.

(** The decimal rendering of an array index, as a template literal gives it. *)
Definition decimal (n : nat) : str :=
  lit (NilEmpty.string_of_uint (Nat.to_uint n)).

(** ** Outcomes *)

Inductive Error :=
| TypeError
| NoGrammarError (language : str).

Inductive outcome (A : Type) :=
| Done (a : A)
| Thrown (e : Error)
| Timeout.

Arguments Done {A} a.
Arguments Thrown {A} e.
Arguments Timeout {A}.

Definition bind {A B} (x : outcome A) (f : A -> outcome B) : outcome B :=
  match x with
  | Done a => f a
  | Thrown e => Thrown e
  | Timeout => Timeout
  end.

Notation "x <- e ;; k" := (bind e (fun x => k))
  (at level 61, e at next level, right associativity).

(** ** Regular expressions

    A [RegExp] is modelled by what [exec] observes of it: the search for the
    leftmost match that starts at or after a position.  [m0] is [match[0]],
    [m1] is [match[1]] (absent when the first group did not take part or the
    pattern has none).  The two facts every JavaScript engine guarantees are
    part of the type: a match starts at or after the position the search
    began, and [match[0]] is the part of the input it covers. *)

Record Match := mkMatch {
  index : nat;
  m0 : str;
  m1 : option str
}.

Definition search_sound (f : nat -> str -> option Match) : Prop :=
  forall p s m, f p s = Some m ->
    p <= index m /\
    index m + length (m0 m) <= length s /\
    m0 m = slice s (index m) (index m + length (m0 m)).

Record RegExp := mkRegExp {
  search : nat -> str -> option Match;
  global : bool;
  sticky : bool;
  search_ok : search_sound search
}.

(** [pattern.exec(text)] with [pattern.lastIndex = lastIndex]: only a global
    or sticky expression honours [lastIndex]. *)
Definition exec (pattern : RegExp) (lastIndex : nat) (text : str) : option Match :=
  search pattern (if global pattern || sticky pattern then lastIndex else 0) text.

(** [RegExp(pattern.source, flags + 'g')], where [flags] are the flags
    [i], [m], [s], [u], [y] of the expression: the same search, now global.
    An expression is taken to carry no flag outside [g], [i], [m], [s], [u],
    [y], so the rewrite drops none. *)
Definition with_global (pattern : RegExp) : RegExp :=
  {| search := search pattern; global := true; sticky := sticky pattern;
     search_ok := search_ok pattern |}.

Definition matchPattern (pattern : RegExp) (pos : nat) (text : str)
    (lookbehind : bool) : option Match :=
  match exec pattern pos text with
  | Some m =>
      match lookbehind, m1 m with
      | true, Some (c :: g) =>
          (* change the match to remove the text matched by the lookbehind group *)
          let lookbehindLength := length (c :: g) in
          Some {| index := index m + lookbehindLength;
                  m0 := slice_from (m0 m) lookbehindLength;
                  m1 := m1 m |}
      | _, _ => Some m
      end
  | None => None
  end.

(** *** A small backtracking engine for the expressions of the examples *)

Module Re.

Inductive re :=
| Eps
| Chr (f : ascii -> bool)
| Cat (a b : re)
| Alt (a b : re)
| Star (a : re)
| Bol
| Eol
| Ahead (a : re)
| NotAhead (a : re).

Definition Plus (a : re) : re := Cat a (Star a).
Definition Opt (a : re) : re := Alt a Eps.

(** [run r i s k]: match [r] against the suffix [s] that starts at offset
    [i], then continue with [k]; the result is the end offset of the whole
    match.  Alternatives are tried left to right, a star takes as many
    iterations as it can and refuses an empty one. *)
Fixpoint run (r : re) (i : nat) (s : str) (k : nat -> str -> option nat)
    {struct r} : option nat :=
  match r with
  | Eps => k i s
  | Chr f =>
      match s with
      | c :: s' => if f c then k (S i) s' else None
      | [] => None
      end
  | Cat a b => run a i s (fun i' s' => run b i' s' k)
  | Alt a b =>
      match run a i s k with
      | Some e => Some e
      | None => run b i s k
      end
  | Star a =>
      (fix loop (n : nat) (i : nat) (s : str) {struct n} : option nat :=
         match n with
         | 0 => k i s
         | S n' =>
             match run a i s (fun i' s' => if i <? i' then loop n' i' s' else None) with
             | Some e => Some e
             | None => k i s
             end
         end) (S (length s)) i s
  | Bol => if i =? 0 then k i s else None
  | Eol => match s with [] => k i s | _ :: _ => None end
  | Ahead a =>
      match run a i s (fun i' _ => Some i') with
      | Some _ => k i s
      | None => None
      end
  | NotAhead a =>
      match run a i s (fun i' _ => Some i') with
      | Some _ => None
      | None => k i s
      end
  end.

(** Try the start offsets [i], [i+1], ..., [i+n] in turn. *)
Fixpoint scan (r : re) (s : str) (n i : nat) : option Match :=
  match run r i (skipn i s) (fun e _ => Some e) with
  | Some e => Some {| index := i; m0 := slice s i e; m1 := None |}
  | None =>
      match n with
      | 0 => None
      | S n' => scan r s n' (S i)
      end
  end.

Definition find (r : re) (p : nat) (s : str) : option Match :=
  if p <=? length s then scan r s (length s - p) p else None.

Lemma firstn_length_firstn (A : Type) (n : nat) (l : list A) :
  firstn (length (firstn n l)) l = firstn n l.
Proof.
  revert l; induction n as [|n IH]; intros [|x l]; simpl; try reflexivity.
  now rewrite IH.
Qed.

Lemma scan_sound r s : forall n i m,
  i + n <= length s -> scan r s n i = Some m ->
  i <= index m /\ index m + length (m0 m) <= length s /\
  m0 m = slice s (index m) (index m + length (m0 m)).
Proof.
  induction n as [|n IH]; intros i m Hi; simpl;
    destruct (run r i (skipn i s) (fun e _ => Some e)) as [e|] eqn:E; intros H;
    try discriminate.
  - injection H as <-; simpl. unfold slice.
    rewrite length_firstn, length_skipn. split; [lia|]. split; [lia|].
    replace (i + Nat.min (e - i) (length s - i) - i) with
      (length (firstn (e - i) (skipn i s))).
    + now rewrite firstn_length_firstn.
    + rewrite length_firstn, length_skipn. lia.
  - injection H as <-; simpl. unfold slice.
    rewrite length_firstn, length_skipn. split; [lia|]. split; [lia|].
    replace (i + Nat.min (e - i) (length s - i) - i) with
      (length (firstn (e - i) (skipn i s))).
    + now rewrite firstn_length_firstn.
    + rewrite length_firstn, length_skipn. lia.
  - apply IH in H; [|lia]. intuition lia.
Qed.

Lemma find_sound r : search_sound (find r).
Proof.
  intros p s m. unfold find.
  destruct (p <=? length s) eqn:E; [|discriminate].
  apply Nat.leb_le in E. intros H. apply scan_sound in H; [exact H | lia].
Qed.

(** The expression with source [r] and the flag [g] when [g] is set. *)
Definition regexp (r : re) (g : bool) : RegExp :=
  {| search := find r; global := g; sticky := false; search_ok := find_sound r |}.

(** Character classes. *)
Definition among (c : string) : ascii -> bool :=
  fun a => existsb (Ascii.eqb a) (lit c).
Definition between (lo hi : nat) : ascii -> bool :=
  fun a => (lo <=? nat_of_ascii a) && (nat_of_ascii a <=? hi).
(** [\w] *)
Definition word : ascii -> bool :=
  fun a => between 97 122 a || between 65 90 a || between 48 57 a || among "_" a.
(** [\s], on the code units below 256 *)
Definition space : ascii -> bool :=
  fun a => between 9 13 a || (nat_of_ascii a =? 32) || (nat_of_ascii a =? 160).
(** [\d] *)
Definition digit : ascii -> bool := between 48 57.
(** [.]: anything but a line terminator *)
Definition dot : ascii -> bool :=
  fun a => negb ((nat_of_ascii a =? 10) || (nat_of_ascii a =? 13)).
(** A negated class. *)
Definition non (f : ascii -> bool) : ascii -> bool := fun a => negb (f a).
(** The union of two classes. *)
Definition either (f g : ascii -> bool) : ascii -> bool := fun a => f a || g a.
(** The class of one code unit, given by its number. *)
Definition chr (n : nat) : ascii -> bool := fun a => nat_of_ascii a =? n.
(** A literal string. *)
Fixpoint Lit (s : str) : re :=
  match s with
  | [] => Eps
  | c :: s' => Cat (Chr (Ascii.eqb c)) (Lit s')
  end.

End Re.

(** ** Token model *)

(** [alias?: string | string[]] *)
Inductive Alias :=
| ANone
| AOne (a : str)
| AMany (l : list str).

(** An element of a token stream is a plain string or a [Token]; the content
    of a token is a string or a nested stream. *)
Inductive Elem :=
| EStr (s : str)
| ETok (t : Token)
with Token :=
| mkToken (type : str) (content : Content) (alias : Alias) (length : nat)
with Content :=
| CStr (s : str)
| CArr (l : list Elem).

Definition TokenStream := list Elem.

Definition type (t : Token) : str := let 'mkToken ty _ _ _ := t in ty.
Definition content (t : Token) : Content := let 'mkToken _ c _ _ := t in c.
Definition alias (t : Token) : Alias := let 'mkToken _ _ a _ := t in a.
Definition tlength (t : Token) : nat := let 'mkToken _ _ _ n := t in n.

(** [new Token(type, content, alias, matchedStr)]: the alias defaults to the
    empty array, and [length] is [(matchedStr || '').length | 0] (the
    [| 0] changes nothing below 2^31, which bounds the length of a string). *)
Definition new_Token (type : str) (content : Content) (alias : option Alias)
    (matchedStr : option str) : Token :=
  mkToken type content
    (match alias with Some a => a | None => AMany [] end)
    (List.length (match matchedStr with Some s => s | None => [] end)).

(** [value.length] of a list node holding a string or a token. *)
Definition elem_length (e : Elem) : nat :=
  match e with
  | EStr s => List.length s
  | ETok t => tlength t
  end.

Definition is_string (e : Elem) : bool :=
  match e with EStr _ => true | ETok _ => false end.

(** ** Grammars *)

Definition gid := nat.

Record GrammarToken := mkGrammarToken {
  pattern : RegExp;
  lookbehind : bool;
  greedy : bool;
  gt_alias : Alias;
  inside : option gid
}.

(** A bare [RegExp] used as a rule: every option reads as [undefined]. *)
Definition bare (r : RegExp) : GrammarToken :=
  {| pattern := r; lookbehind := false; greedy := false; gt_alias := ANone;
     inside := None |}.

(** The value under a token name: a falsy value, one rule, or an array. *)
Inductive GValue :=
| GFalsy
| GOne (p : GrammarToken)
| GArr (ps : list GrammarToken).

Record Grammar := mkGrammar {
  rules : list (str * GValue);
  rest : option gid
}.

Definition Store := gid -> Grammar.

Definition upd (st : Store) (g : gid) (G : Grammar) : Store :=
  fun h => if Nat.eqb h g then G else st h.

(** [o[k] = v] on an ordered object: an existing key keeps its place. *)
Fixpoint obj_set {V : Type} (o : list (str * V)) (k : str) (v : V) : list (str * V) :=
  match o with
  | [] => [(k, v)]
  | (k', v') :: o' =>
      if str_eqb k' k then (k', v) :: o' else (k', v') :: obj_set o' k v
  end.

(** [for (const token in src) dst[token] = src[token]] *)
Definition obj_assign {V : Type} (dst src : list (str * V)) : list (str * V) :=
  fold_left (fun o kv => obj_set o (fst kv) (snd kv)) src dst.

(** ** The mutable span list

    The doubly-linked list is the list of the values between its two
    sentinels.  A node is named by its rank: [0] is [head], [k] the [k]-th
    node, and a rank past the last node is [tail].  [list.length] is the
    number of nodes, which is what the source keeps in its counter
    ([addAfter] adds one, [removeRange] subtracts what it unlinked). *)

Definition LinkedList := list Elem.

Definition node_value (list : LinkedList) (node : nat) : option Elem :=
  match node with
  | 0 => None
  | S i => nth_error list i
  end.

(** Returns the list and the new node. *)
Definition addAfter (list : LinkedList) (node : nat) (value : Elem) : LinkedList * nat :=
  (firstn node list ++ value :: skipn node list, S node).

Definition removeRange (list : LinkedList) (node count : nat) : LinkedList :=
  firstn node list ++ skipn (node + count) list.

Definition toArray (list : LinkedList) : TokenStream := list.

(** ** The matching engine *)

Record RematchOptions := mkRematch {
  cause : str;
  reach : nat
}.

(** The state a [matchGrammar] invocation works on: the grammar store (nested
    tokenization may merge a [rest] into a grammar object), the span list and
    the caller's rematch object. *)
Record MG := mkMG {
  st : Store;
  tokenList : LinkedList;
  rematch : option RematchOptions
}.

(** [`${token},${j}`] *)
Definition cause_tag (token : str) (j : nat) : str :=
  token ++ lit "," ++ decimal j.

(** [rematch && rematch.cause === `${token},${j}`] *)
Definition is_cause (rm : option RematchOptions) (token : str) (j : nat) : bool :=
  match rm with
  | Some r => str_eqb (cause r) (cause_tag token j)
  | None => false
  end.

(** [rematch && pos >= rematch.reach] *)
Definition reached (rm : option RematchOptions) (pos : nat) : bool :=
  match rm with
  | Some r => reach r <=? pos
  | None => false
  end.

(** [if (rematch && reach > rematch.reach) rematch.reach = reach] *)
Definition extend_reach (rm : option RematchOptions) (reach' : nat) : option RematchOptions :=
  match rm with
  | Some r =>
      if reach r <? reach' then Some {| cause := cause r; reach := reach' |}
      else Some r
  | None => None
  end.

(** The walk to the node that contains the start of a greedy match:
    [while (from >= p) { currentNode = currentNode.next; p += currentNode.value.length }].
    [after] holds the values of the nodes that follow [currentNode]; stepping
    onto [tail] reads [null.length], which raises. *)
Fixpoint find_node (after : list Elem) (currentNode p from : nat) : option (nat * nat) :=
  if p <=? from then
    match after with
    | [] => None
    | e :: after' => find_node after' (S currentNode) (p + elem_length e) from
    end
  else Some (currentNode, p).

(** The nodes a greedy match covers:
    [for (k = currentNode; k !== tail && (p < to || typeof k.value === 'string'); k = k.next)
       { ++removeCount; p += k.value.length }].
    [nodes] holds the values from [currentNode] on. *)
Fixpoint span (nodes : list Elem) (removeCount p to : nat) : nat * nat :=
  match nodes with
  | [] => (removeCount, p)
  | k :: nodes' =>
      if (p <? to) || is_string k
      then span nodes' (S removeCount) (p + elem_length k) to
      else (removeCount, p)
  end.

(** The values of the rules under a token name:
    [Array.isArray(patterns) ? patterns : [patterns]], nothing for a falsy value. *)
Definition patterns_of (v : GValue) : option (list GrammarToken) :=
  match v with
  | GFalsy => None
  | GOne p => Some [p]
  | GArr ps => Some ps
  end.

Definition opt_alias (a : Alias) : option Alias :=
  match a with ANone => None | _ => Some a end.

(** What one turn of the innermost loop of [matchGrammar] decides, before
    anything is written. *)
Inductive Turn :=
| TExit (returned : bool)       (* the loop ends; [returned] when by [return] *)
| TRaise                        (* a property of [null] is read *)
| TContinue (currentNode pos : nat)   (* on to this node, at this offset *)
| TMatch (currentNode pos : nat) (str0 : str) (mt : Match) (removeCount : nat).

(** The head of the loop body, down to the match: the loop condition, the
    reach of a rematch, the safety valve, the skip over a [Token], and the
    greedy or plain match.  [TContinue] is the loop's update
    [pos += currentNode.value.length, currentNode = currentNode.next]
    already applied. *)
Definition turn (text : str) (patternObj : GrammarToken) (s0 : MG)
    (currentNode pos : nat) : Turn :=
  let list0 := tokenList s0 in
  match node_value list0 currentNode with
  | None => TExit false                                (* currentNode is tail *)
  | Some value =>
    if reached (rematch s0) pos then TExit false                   (* break *)
    else if List.length text <? List.length list0 then TExit true  (* ABORT *)
    else
      match value with
      | ETok _ => TContinue (S currentNode) (pos + elem_length value)
      | EStr str0 =>
        if greedy patternObj then
          match matchPattern (with_global (pattern patternObj)) pos text
                  (lookbehind patternObj) with
          | None => TExit false
          | Some mt =>
            if List.length text <=? index mt then TExit false
            else
              let from := index mt in
              let to := index mt + List.length (m0 mt) in
              (* find the node that contains the match *)
              match find_node (skipn currentNode list0) currentNode
                      (pos + elem_length value) from with
              | None => TRaise
              | Some (currentNode', p) =>
                match node_value list0 currentNode' with
                | None => TRaise
                | Some value' =>
                  (* adjust pos (and p) *)
                  let pos' := p - elem_length value' in
                  match value' with
                  | ETok _ =>
                      (* the match starts inside another Token, which is invalid *)
                      TContinue (S currentNode') (pos' + elem_length value')
                  | EStr _ =>
                      (* find the last node which is affected by this match *)
                      let '(count, p') := span (skipn (pred currentNode') list0) 1 pos' to in
                      let removeCount := pred count in
                      TMatch currentNode' pos' (slice text pos' p')
                        {| index := index mt - pos'; m0 := m0 mt; m1 := m1 mt |}
                        removeCount
                  end
                end
              end
          end
        else
          match matchPattern (pattern patternObj) 0 str0 (lookbehind patternObj) with
          | None => TContinue (S currentNode) (pos + elem_length value)
          | Some mt => TMatch currentNode pos str0 mt 1
          end
      end
  end.

(** The writes to the list after a match: [before] goes in when it is not
    empty, [removeCount] nodes go out, the new token goes in, then [after]
    when it is not empty.  Returns the list, the node of the token and the
    offset of the token. *)
Definition splice (list0 : LinkedList) (currentNode pos : nat) (str0 : str)
    (mt : Match) (removeCount : nat) (wrapped : Elem) : LinkedList * nat * nat :=
  let from := index mt in
  let matchStr := m0 mt in
  let before := slice str0 0 from in
  let after := slice_from str0 (from + List.length matchStr) in
  let removeFrom := pred currentNode in
  let '(list1, removeFrom1, pos1) :=
    if truthy before
    then let '(l, n) := addAfter list0 removeFrom (EStr before) in
         (l, n, pos + List.length before)
    else (list0, removeFrom, pos) in
  let list2 := removeRange list1 removeFrom1 removeCount in
  let '(list3, currentNode1) := addAfter list2 removeFrom1 wrapped in
  let list4 :=
    if truthy after then fst (addAfter list3 currentNode1 (EStr after)) else list3 in
  (list4, currentNode1, pos1).

Section MatchGrammar.

(** [Prism.tokenize], which the engine calls on the text of a match whose
    rule has an [inside] grammar. *)
Variable tokenize_ : Store -> str -> gid -> outcome (Store * TokenStream).

Variable text : str.

(** The rules of the grammar object, in [Object.keys] order.  No key of the
    object is written to while [matchGrammar] runs on it: only
    [Prism.tokenize] writes keys to a grammar, only when it has a [rest], and
    it has removed the [rest] of this one before it called [matchGrammar].
    The one write of [matchGrammar] itself,
    [patternObj.pattern = RegExp(source, flags + 'g')] on a greedy rule whose
    expression is not global, is not recorded in the store: a rule stays
    greedy, every use of a greedy rule goes through [with_global] (see
    [turn]), and [with_global] leaves a global expression as it is. *)
Variable grammar : list (str * GValue).

(** [mgNodes] is the innermost loop (over the nodes of the list) for the
    rule [patternObj], the [j]-th of [token]; [mgPatterns] the loop over
    the rules of one token name; [mgKeys] the loop over the token names.
    The boolean of a result tells that the invocation executed [return]. *)
Fixpoint mgNodes (fuel : nat) (token : str) (j : nat) (patternObj : GrammarToken)
    (s0 : MG) (currentNode pos : nat) {struct fuel} : outcome (MG * bool) :=
  match fuel with
  | 0 => Timeout
  | S fuel' =>
    match turn text patternObj s0 currentNode pos with
    | TExit returned => Done (s0, returned)
    | TRaise => Thrown TypeError
    | TContinue currentNode' pos' =>
        mgNodes fuel' token j patternObj s0 currentNode' pos'
    | TMatch currentNode pos str0 mt removeCount =>
        let matchStr := m0 mt in
        let reach0 := pos + List.length str0 in
        let rm1 := extend_reach (rematch s0) reach0 in
        r <- match inside patternObj with
             | Some g =>
                 r <- tokenize_ (st s0) matchStr g ;;
                 Done (fst r, CArr (snd r))
             | None => Done (st s0, CStr matchStr)
             end ;;
        let wrapped :=
          ETok (new_Token token (snd r) (opt_alias (gt_alias patternObj)) (Some matchStr)) in
        let '(list4, currentNode1, pos1) :=
          splice (tokenList s0) currentNode pos str0 mt removeCount wrapped in
        s1 <- (if 1 <? removeCount then
                 (* at least one Token object was removed: rematch *)
                 let nestedRematch := {| cause := cause_tag token j; reach := reach0 |} in
                 n <- mgKeys fuel' grammar
                        {| st := fst r; tokenList := list4; rematch := Some nestedRematch |}
                        (pred currentNode1) pos1 ;;
                 (* the reach might have been extended because of the rematching *)
                 Done {| st := st n; tokenList := tokenList n;
                         rematch := match rematch n with
                                    | Some nr => extend_reach rm1 (reach nr)
                                    | None => rm1
                                    end |}
               else Done {| st := fst r; tokenList := list4; rematch := rm1 |}) ;;
        mgNodes fuel' token j patternObj s1 (S currentNode1) (pos1 + elem_length wrapped)
    end
  end

with mgPatterns (fuel : nat) (token : str) (patterns : list GrammarToken) (j : nat)
    (s0 : MG) (startNode startPos : nat) {struct fuel} : outcome (MG * bool) :=
  match fuel with
  | 0 => Timeout
  | S fuel' =>
    match patterns with
    | [] => Done (s0, false)
    | patternObj :: patterns' =>
        if is_cause (rematch s0) token j then Done (s0, true)
        else
          r <- mgNodes fuel' token j patternObj s0 (S startNode) startPos ;;
          if snd r then Done r
          else mgPatterns fuel' token patterns' (S j) (fst r) startNode startPos
    end
  end

with mgKeys (fuel : nat) (keys : list (str * GValue))
    (s0 : MG) (startNode startPos : nat) {struct fuel} : outcome MG :=
  match fuel with
  | 0 => Timeout
  | S fuel' =>
    match keys with
    | [] => Done s0
    | (token, v) :: keys' =>
        match patterns_of v with
        | None => mgKeys fuel' keys' s0 startNode startPos
        | Some patterns =>
            r <- mgPatterns fuel' token patterns 0 s0 startNode startPos ;;
            if snd r then Done (fst r)
            else mgKeys fuel' keys' (fst r) startNode startPos
        end
    end
  end.

(** [matchGrammar(text, tokenList, grammar, startNode, startPos, rematch)] *)
Definition matchGrammar (fuel : nat) (s0 : MG) (startNode startPos : nat) : outcome MG :=
  mgKeys fuel grammar s0 startNode startPos.

End MatchGrammar.

(** The store once [Prism.tokenize] has merged the [rest] of the grammar [g]
    into it and deleted it:
    [for (const token in rest) grammar[token] = rest[token]; delete grammar.rest]. *)
Definition merged (st0 : Store) (g : gid) : Store :=
  match rest (st0 g) with
  | Some r =>
      upd st0 g {| rules := obj_assign (rules (st0 g)) (rules (st0 r)); rest := None |}
  | None => st0
  end.

(** [Prism.tokenize(text, grammar)]: merge and delete [grammar.rest], start
    the list with the whole text, match, and flatten. *)
Fixpoint tokenize (fuel : nat) (st0 : Store) (text : str) (grammar : gid)
    {struct fuel} : outcome (Store * TokenStream) :=
  match fuel with
  | 0 => Timeout
  | S fuel' =>
    let st1 := merged st0 grammar in
    let tokenList0 := fst (addAfter [] 0 (EStr text)) in
    r <- matchGrammar (tokenize fuel') text (rules (st1 grammar)) fuel'
           {| st := st1; tokenList := tokenList0; rematch := None |} 0 0 ;;
    Done (st r, toArray (tokenList r))
  end.

(** ** Hooks *)

(** The environment of the [before-tokenize] and [after-tokenize] hooks.
    [tokens] is assigned between the two; before that it reads as the empty
    stream here. *)
Record TokenizeEnv := mkTokenizeEnv {
  code : str;
  env_grammar : option gid;
  language : str;
  tokens : TokenStream
}.

(** The environment of the [wrap] hook. *)
Record WrapEnv := mkWrapEnv {
  w_type : str;
  w_content : str;
  w_tag : str;
  w_classes : list str;
  w_attributes : list (str * str);
  w_language : str
}.

(** A callback receives the environment object and may rewrite what it
    reaches, or raise: it maps the state it is given to an outcome.  For
    the hooks that [Prism.highlight] runs the state is the store of the
    grammars with the environment object. *)
Definition HookCallback (E : Type) := E -> outcome E.

(** [hooks.all], at the three names this code runs. *)
Record Hooks := mkHooks {
  before_tokenize : list (HookCallback (Store * TokenizeEnv));
  after_tokenize : list (HookCallback (Store * TokenizeEnv));
  wrap : list (HookCallback (Store * WrapEnv))
}.

(** [hooks.run(name, env)]: the callbacks in registration order, up to the
    first that raises; nothing when none is registered. *)
Fixpoint hooks_run {E : Type} (callbacks : list (HookCallback E)) (env : E) : outcome E :=
  match callbacks with
  | [] => Done env
  | callback :: callbacks' => e <- callback env ;; hooks_run callbacks' e
  end.

(** ** Stringifier *)

Definition dquote : ascii := ascii_of_nat 34.

Fixpoint join (sep : str) (l : list str) : str :=
  match l with
  | [] => []
  | [x] => x
  | x :: l' => x ++ sep ++ join sep l'
  end.

(** [s.replace(/dq/g, '&quot;')], where [dq] is the double quote *)
Definition escape_quotes (s : str) : str :=
  flat_map (fun c => if Ascii.eqb c dquote then lit "&quot;" else [c]) s.

Section Stringify.

Variable hooks : Hooks.
Variable language_ : str.

(** The markup of a token once its content is rendered: [if (aliases)]
    skips an absent alias and the empty string, not the empty array. *)
Definition render (st : Store) (t : Token) (inner : str) : outcome (Store * str) :=
  let env := {| w_type := type t;
                w_content := inner;
                w_tag := lit "span";
                w_classes := [lit "token"; type t] ++
                  match alias t with
                  | ANone => []
                  | AOne a => if truthy a then [a] else []
                  | AMany l => l
                  end;
                w_attributes := [];
                w_language := language_ |} in
  r <- hooks_run (wrap hooks) (st, env) ;;
  let env := snd r in
  let attributes :=
    flat_map (fun nv => lit " " ++ fst nv ++ lit "=" ++ [dquote] ++
                        escape_quotes (snd nv) ++ [dquote])
             (w_attributes env) in
  Done (fst r,
        lit "<" ++ w_tag env ++ lit " class=" ++ [dquote] ++
        join (lit " ") (w_classes env) ++ [dquote] ++ attributes ++ lit ">" ++
        w_content env ++ lit "</" ++ w_tag env ++ lit ">").

(** [Token.stringify(o, language)] on an element, a token, a content: the
    content of a token is rendered before its own [wrap] hooks run, and the
    elements of a stream from left to right. *)
Fixpoint stringify_elem (st : Store) (e : Elem) : outcome (Store * str) :=
  match e with
  | EStr s => Done (st, s)
  | ETok t => stringify_token st t
  end
with stringify_token (st : Store) (t : Token) : outcome (Store * str) :=
  match t with
  | mkToken _ c _ _ => r <- stringify_content st c ;; render (fst r) t (snd r)
  end
with stringify_content (st : Store) (c : Content) : outcome (Store * str) :=
  match c with
  | CStr s => Done (st, s)
  | CArr l =>
      (fix each (st : Store) (l : list Elem) : outcome (Store * str) :=
         match l with
         | [] => Done (st, [])
         | e :: l' =>
             r <- stringify_elem st e ;;
             r' <- each (fst r) l' ;;
             Done (fst r', snd r ++ snd r')
         end) st l
  end.

Definition stringify (st : Store) (o : TokenStream) : outcome (Store * str) :=
  stringify_content st (CArr o).

End Stringify.

(** [tokens.replace(/&/g, '&amp;').replace(/</g, '&lt;').replace(/\u00a0/g, ' ')] *)
Definition encode_str (s : str) : str :=
  flat_map (fun c =>
    if Ascii.eqb c (ascii_of_nat 38) then lit "&amp;"
    else if Ascii.eqb c (ascii_of_nat 60) then lit "&lt;"
    else if Ascii.eqb c (ascii_of_nat 160) then lit " "
    else [c]) s.

(** [util.encode] *)
Fixpoint encode_elem (e : Elem) : Elem :=
  match e with
  | EStr s => EStr (encode_str s)
  | ETok t => ETok (encode_token t)
  end
with encode_token (t : Token) : Token :=
  match t with
  | mkToken ty c a _ => new_Token ty (encode_content c) (Some a) None
  end
with encode_content (c : Content) : Content :=
  match c with
  | CStr s => CStr (encode_str s)
  | CArr l => CArr (map encode_elem l)
  end.

Definition encode (o : TokenStream) : TokenStream := map encode_elem o.

(** ** [Prism.highlight] and [highlightText] *)

Definition highlight (fuel : nat) (hooks : Hooks) (st0 : Store)
    (text : str) (grammar : option gid) (language0 : str) : outcome (Store * str) :=
  let env := {| code := text; env_grammar := grammar; language := language0; tokens := [] |} in
  b <- hooks_run (before_tokenize hooks) (st0, env) ;;
  let env := snd b in
  match env_grammar env with
  | None => Thrown (NoGrammarError (language env))
  | Some g =>
      r <- tokenize fuel (fst b) (code env) g ;;
      let env := {| code := code env; env_grammar := env_grammar env;
                    language := language env; tokens := snd r |} in
      a <- hooks_run (after_tokenize hooks) (fst r, env) ;;
      let env := snd a in
      stringify hooks (language env) (fst a) (encode (tokens env))
  end.

(** The names every object inherits from [Object.prototype]. *)
Definition object_prototype : list str :=
  map lit ["constructor"; "__defineGetter__"; "__defineSetter__"; "hasOwnProperty";
           "__lookupGetter__"; "__lookupSetter__"; "isPrototypeOf";
           "propertyIsEnumerable"; "toString"; "valueOf"; "__proto__";
           "toLocaleString"]%string.

(** The names [Prism.languages] inherits: the methods of [LanguageMethods],
    and what every object inherits. *)
Definition language_members : list str :=
  map lit ["extend"; "insertBefore"; "DFS"]%string ++ object_prototype.

(** [name in Object.getPrototypeOf(Prism.languages)] *)
Definition is_member (name : str) : bool := existsb (str_eqb name) language_members.

(** [Prism.languages] is an instance of [LanguageMethods] with the grammars
    as its own properties: a property read finds a registered grammar, or
    else a member inherited through the prototype chain (the methods
    [extend], [insertBefore], [DFS], the constructor, and what every object
    inherits).  An inherited member is a function or the prototype object:
    it is truthy, and as a grammar it has no enumerable key and no [rest].
    [inherited] gives the identifier of each of the [language_members]. *)
Record Languages := mkLanguages {
  registered : list (str * gid);
  inherited : list (str * gid)
}.

Fixpoint obj_get {V : Type} (o : list (str * V)) (k : str) : option V :=
  match o with
  | [] => None
  | (k', v) :: o' => if str_eqb k' k then Some v else obj_get o' k
  end.

(** [Prism.languages[language]] *)
Definition languages_get (languages : Languages) (name : str) : option gid :=
  match obj_get (registered languages) name with
  | Some g => Some g
  | None => obj_get (inherited languages) name
  end.

Definition highlightText (fuel : nat) (hooks : Hooks) (languages : Languages)
    (st0 : Store) (text : str) (language0 : str) : outcome (Store * str) :=
  match languages_get languages language0 with
  | Some grammar => highlight fuel hooks st0 text (Some grammar) language0
  | None => Done (st0, text)
  end.

(** ** The language registry as an object graph

    [insertBefore] and [DFS] work on object identity, so here the registry
    is a heap of objects: a value is a reference to a plain object, a
    reference to an array, or another value, which [DFS] does not enter:
    [undefined], [null], a string, or a [RegExp], a boolean or a number.
    Of the last three the heap holds the identity only (two of them are
    [===] when they have the same identifier; [NaN] is left out); they
    have no enumerable property of their own. *)

(** What the model says of a call: its outcome, or nothing, when the call
    reaches a value that the heap does not hold (a function, a prototype
    object, the wrapper object of a string, a boolean or a number). *)
Inductive reply (A : Type) :=
| Reply (o : outcome A)
| Outside.

Arguments Reply {A} o.
Arguments Outside {A}.

Module Registry.

Definition loc := nat.

Inductive Other :=
| OUndefined
| ONull
| OString (s : str)
| OAtom (id : nat).

Inductive Value :=
| VObject (l : loc)
| VArray (l : loc)
| VOther (x : Other).

Definition other_eqb (a b : Other) : bool :=
  match a, b with
  | OUndefined, OUndefined => true
  | ONull, ONull => true
  | OString s, OString s' => str_eqb s s'
  | OAtom i, OAtom i' => Nat.eqb i i'
  | _, _ => false
  end.

(** [a === b] *)
Definition value_eqb (a b : Value) : bool :=
  match a, b with
  | VObject l, VObject l' => Nat.eqb l l'
  | VArray l, VArray l' => Nat.eqb l l'
  | VOther x, VOther x' => other_eqb x x'
  | _, _ => false
  end.

(** The own enumerable properties of an object, in [Object.keys] order (the
    indices, for an array). *)
Definition Obj := list (str * Value).

Record Heap := mkHeap {
  objs : loc -> Obj;
  next : loc
}.

Definition keys (o : Obj) : list str := map fst o.

(** [o[k] = v] *)
Definition heap_set (h : Heap) (o : loc) (k : str) (v : Value) : Heap :=
  {| objs := fun l => if Nat.eqb l o then obj_set (objs h o) k v else objs h l;
     next := next h |}.

(** [{}] *)
Definition heap_new (h : Heap) : Heap * loc :=
  ({| objs := fun l => if Nat.eqb l (next h) then [] else objs h l;
      next := S (next h) |}, next h).

Definition hasOwn (o : Obj) (k : str) : bool :=
  match obj_get o k with Some _ => true | None => false end.

(** The code units of a string under their indices. *)
Definition string_entries (s : str) : Obj :=
  map (fun ic => (decimal (fst ic), VOther (OString [snd ic])))
      (combine (seq 0 (List.length s)) s).

(** [Object.keys(v)] with the values under the keys, for a value that is
    not [undefined] or [null]: the entries of an object or an array, the
    code units of a string, and nothing for another value. *)
Definition entries (h : Heap) (v : Value) : option Obj :=
  match v with
  | VObject l | VArray l => Some (objs h l)
  | VOther (OString s) => Some (string_entries s)
  | VOther (OAtom _) => Some []
  | VOther OUndefined | VOther ONull => None
  end.

Section DFS.

(** The callback receives the key and the value, and writes to the heap. *)
Variable callback : str -> option Value -> Heap -> Heap.

(** [DFS(o, callback, type, visited)], at the keys still to visit. *)
Fixpoint DFS_keys (fuel : nat) (o : loc) (ks : list str) (h : Heap)
    (visited : list loc) {struct fuel} : outcome (Heap * list loc) :=
  match fuel with
  | 0 => Timeout
  | S fuel' =>
    match ks with
    | [] => Done (h, visited)
    | i :: ks' =>
        let h1 := callback i (obj_get (objs h o) i) h in
        let property := obj_get (objs h1 o) i in
        r <- match property with
             | Some (VObject p) | Some (VArray p) =>
                 if existsb (Nat.eqb p) visited then Done (h1, visited)
                 else DFS_keys fuel' p (keys (objs h1 p)) h1 (p :: visited)
             | _ => Done (h1, visited)
             end ;;
        DFS_keys fuel' o ks' (fst r) (snd r)
    end
  end.

Definition DFS (fuel : nat) (o : loc) (h : Heap) : outcome (Heap * list loc) :=
  DFS_keys fuel o (keys (objs h o)) h [].

End DFS.

(** The object [insertBefore] builds: the keys of [grammar] in order, with
    those of [insert] right before [before], and without the keys of
    [grammar] that [insert] also has. *)
Fixpoint build_ret (grammar : Obj) (all : Obj) (before : str) (insert : Obj) (ret : Obj) : Obj :=
  match grammar with
  | [] => ret
  | (token, v) :: grammar' =>
      let ret1 :=
        if str_eqb token before
        then fold_left (fun r newToken =>
                          match obj_get insert newToken with
                          | Some w => obj_set r newToken w
                          | None => r
                          end) (keys insert) ret
        else ret in
      let ret2 :=
        if hasOwn insert token then ret1
        else match obj_get all token with
             | Some w => obj_set ret1 token w
             | None => ret1
             end in
      build_ret grammar' all before insert ret2
  end.

(** [insertBefore(inside, before, insert, root)], called on
    [Prism.languages], the object [languages]; [insert] and [root] are
    plain objects.  Returns the heap and the new object.  [Object.keys]
    raises a [TypeError] on [undefined] and [null], which is also what a
    key reads as that [root] neither has nor inherits; a key that [root]
    inherits reads as a function or a prototype object, outside the
    heap. *)
Definition insertBefore (fuel : nat) (languages : loc) (h : Heap)
    (inside before : str) (insert : loc) (root : loc) : reply (Heap * loc) :=
  match obj_get (objs h root) inside with
  | Some v =>
      match entries h v with
      | Some grammar =>
          let '(h1, ret) := heap_new h in
          let h2 :=
            {| objs := fun l =>
                 if Nat.eqb l ret
                 then build_ret grammar grammar before (objs h insert) []
                 else objs h1 l;
               next := next h1 |} in
          let old := obj_get (objs h2 root) inside in
          let h3 := heap_set h2 root inside (VObject ret) in
          (* Update references in other language definitions *)
          Reply
            (r <- DFS (fun key value hh =>
                         match value, old with
                         | Some v, Some o =>
                             if value_eqb v o && negb (str_eqb key inside)
                             then heap_set hh languages key (VObject ret)
                             else hh
                         | _, _ => hh
                         end) fuel languages h3 ;;
             Done (fst r, ret))
      | None => Reply (Thrown TypeError)
      end
  | None => if is_member inside then Outside else Reply (Thrown TypeError)
  end.

End Registry.

(** ** The tag-context walker of [prism-lang-tsx.ts] *)

Module TagWalker.

Record OpenedTag := mkOpenedTag {
  tagName : str;
  openedBraces : nat
}.

(** [stringifyToken] *)
Fixpoint stringifyToken (token : Elem) : str :=
  match token with
  | EStr s => s
  | ETok (mkToken _ (CStr s) _ _) => s
  | ETok (mkToken _ (CArr l) _ _) =>
      (fix each (l : list Elem) : str :=
         match l with
         | [] => []
         | e :: l' => stringifyToken e ++ each l'
         end) l
  end.

(** [stringifyToken(x)] where [x] may be [undefined]. *)
Definition stringifyToken_opt (token : option Elem) : str :=
  match token with
  | Some e => stringifyToken e
  | None => []
  end.

(** [c[i]] on a content: an element of the array, or a one-unit string. *)
Definition content_get (c : Content) (i : nat) : option Elem :=
  match c with
  | CStr s => option_map (fun ch => EStr [ch]) (nth_error s i)
  | CArr l => nth_error l i
  end.

(** [x.content === s], for an element [x]. *)
Definition content_is (x : Elem) (s : str) : bool :=
  match x with
  | ETok (mkToken _ (CStr c) _ _) => str_eqb c s
  | _ => false
  end.

(** [x.type === s], for an element [x]. *)
Definition type_is (x : Elem) (s : str) : bool :=
  match x with
  | ETok t => str_eqb (type t) s
  | EStr _ => false
  end.

(** [openedTags[openedTags.length - 1]] is the head of the list. *)
Definition bump (d : nat -> nat) (openedTags : list OpenedTag) : list OpenedTag :=
  match openedTags with
  | top :: below => {| tagName := tagName top; openedBraces := d (openedBraces top) |} :: below
  | [] => []
  end.

Definition top_braces (openedTags : list OpenedTag) : option nat :=
  match openedTags with
  | top :: _ => Some (openedBraces top)
  | [] => None
  end.

(** The two brace branches and the final [else] of the walker. *)
Definition brace_step (t : Token) (openedTags : list OpenedTag) : list OpenedTag * bool :=
  match openedTags with
  | top :: _ =>
      if str_eqb (type t) (lit "punctuation") && content_is (ETok t) (lit "{")
      then
        (* Here we might have entered a TSX context inside a tag *)
        (bump S openedTags, false)
      else if (0 <? openedBraces top) && str_eqb (type t) (lit "punctuation")
              && content_is (ETok t) (lit "}")
      then
        (* Here we might have left a TSX context inside a tag *)
        (bump pred openedTags, false)
      else (openedTags, true)
  | [] => (openedTags, true)
  end.

(** [token.type === 'tag' && token.content[0] && token.content[0].type === 'tag']:
    the first nested element, when the test holds. *)
Definition tag_head (t : Token) : option Token :=
  match content t with
  | CArr (ETok inner :: _) =>
      if str_eqb (type t) (lit "tag") && str_eqb (type inner) (lit "tag")
      then Some inner else None
  | _ => None
  end.

(** [token.content[token.content.length - 1]] *)
Definition content_last (c : Content) : option Elem :=
  match c with
  | CArr l => last (map Some l) None
  | CStr s => option_map (fun ch => EStr [ch]) (last (map Some s) None)
  end.

(** What the walker does with a token that is not a string: the new stack
    and [notTagNorBrace]. *)
Definition classify (t : Token) (openedTags : list OpenedTag) : outcome (list OpenedTag * bool) :=
  match tag_head t with
  | Some inner =>
      (* We found a tag, now find its kind *)
      match content_get (content inner) 0 with
      | None => Thrown TypeError
      | Some first =>
        if content_is first (lit "</") then
          (* Closing tag *)
          match openedTags with
          | top :: below =>
              if str_eqb (tagName top) (stringifyToken_opt (content_get (content inner) 1))
              then Done (below, false)            (* Pop matching opening tag *)
              else Done (openedTags, false)
          | [] => Done (openedTags, false)
          end
        else
          match content_last (content t) with
          | None => Thrown TypeError
          | Some lastElem =>
            if content_is lastElem (lit "/>") then
              (* Autoclosed tag, ignore *)
              Done (openedTags, false)
            else
              (* Opening tag *)
              Done ({| tagName := stringifyToken_opt (content_get (content inner) 1);
                       openedBraces := 0 |} :: openedTags, false)
          end
      end
  | None => Done (brace_step t openedTags)
  end.

(** [typeof x === 'string' || x.type === 'plain-text'] *)
Definition mergeable (x : Elem) : bool :=
  is_string x || type_is x (lit "plain-text").

(** [tokens.splice(i, 1)] *)
Definition splice1 (tokens : list Elem) (i : nat) : list Elem :=
  firstn i tokens ++ skipn (S i) tokens.

(** [tokens[i] = v], for an index within the array. *)
Definition set_at (tokens : list Elem) (i : nat) (v : Elem) : list Elem :=
  firstn i tokens ++ v :: skipn (S i) tokens.

(** The replacement of the plain text at index [i] and of its mergeable
    neighbours by one [plain-text] token; returns the array and the index
    of the new token. *)
Definition merge_plain (tokens : list Elem) (i : nat) (token : Elem) : list Elem * nat :=
  let plainText := stringifyToken token in
  let '(tokens1, plainText1) :=
    match nth_error tokens (S i) with
    | Some nxt =>
        if mergeable nxt
        then (splice1 tokens (S i), plainText ++ stringifyToken nxt)
        else (tokens, plainText)
    | None => (tokens, plainText)
    end in
  let '(tokens2, plainText2, i2) :=
    match i with
    | S i' =>
        match nth_error tokens1 i' with
        | Some prv =>
            if mergeable prv
            then (splice1 tokens1 i', stringifyToken prv ++ plainText1, i')
            else (tokens1, plainText1, i)
        | None => (tokens1, plainText1, i)
        end
    | 0 => (tokens1, plainText1, i)
    end in
  (set_at tokens2 i2
     (ETok (new_Token (lit "plain-text") (CStr plainText2) None (Some plainText2))), i2).

Fixpoint walkTokens (fuel : nat) (tokens : list Elem) {struct fuel} : outcome (list Elem) :=
  match fuel with
  | 0 => Timeout
  | S fuel' => walk_from fuel' tokens 0 []
  end

with walk_from (fuel : nat) (tokens : list Elem) (i : nat) (openedTags : list OpenedTag)
    {struct fuel} : outcome (list Elem) :=
  match fuel with
  | 0 => Timeout
  | S fuel' =>
    match nth_error tokens i with
    | None => Done tokens
    | Some token =>
      c <- match token with
           | ETok t => classify t openedTags
           | EStr _ => Done (openedTags, false)
           end ;;
      let openedTags1 := fst c in
      let notTagNorBrace := snd c in
      let '(tokens1, i1, replaced) :=
        if (notTagNorBrace || is_string token) &&
           match top_braces openedTags1 with Some 0 => true | _ => false end
        then let '(l, k) := merge_plain tokens i token in (l, k, true)
        else (tokens, i, false) in
      tokens2 <- match token with
                 | ETok (mkToken ty (CArr l) a n) =>
                     (* the nested array is walked in place: the change shows
                        only when the token is still in [tokens] *)
                     w <- walkTokens fuel' l ;;
                     Done (if replaced then tokens1
                           else set_at tokens1 i1 (ETok (mkToken ty (CArr w) a n)))
                 | _ => Done tokens1
                 end ;;
      walk_from fuel' tokens2 (S i1) openedTags1
    end
  end.

End TagWalker.

(** The hook that [prism-lang-tsx.ts] registers:
    [Prism.hooks.add('after-tokenize', (env) =>
       { if (env.language !== 'tsx') return; walkTokens(env.tokens) })].
    The walk rewrites the array [env.tokens] itself; [fuel] is the fuel of
    the walk. *)
Definition tsx_after_tokenize (fuel : nat) : HookCallback (Store * TokenizeEnv) :=
  fun se =>
    let env := snd se in
    if str_eqb (language env) (lit "tsx") then
      toks <- TagWalker.walkTokens fuel (tokens env) ;;
      Done (fst se, {| code := code env; env_grammar := env_grammar env;
                       language := language env; tokens := toks |})
    else Done se.

(** ** [highlightTextNode]: ranges over a text node

    [new StaticRange({startContainer: node, startOffset, endContainer: node,
    endOffset})] has the one text node as both containers, so a range is its
    two offsets.  [CSS.highlights] is a [Map] from a name to a [Highlight],
    which is a [Set] of ranges; every range is a new object, so [add] always
    adds, and both keep the insertion order. *)

Record StaticRange := mkStaticRange {
  startOffset : nat;
  endOffset : nat
}.

Definition Highlight := list StaticRange.

Definition HighlightRegistry := list (str * Highlight).

(** [if (highlights.has(type)) highlights.get(type).add(range)
     else highlights.set(type, new Highlight(range))] *)
Definition add_range (highlights : HighlightRegistry) (type : str)
    (range : StaticRange) : HighlightRegistry :=
  match obj_get highlights type with
  | Some h => obj_set highlights type (h ++ [range])
  | None => obj_set highlights type [range]
  end.

(** One turn of the loop of [_highlightTextNode], on the element [token];
    for a [Token] the nested call runs on [[].concat(token.content)], which
    is the content array, or the one-element array of the content string. *)
Fixpoint highlight_token (token : Elem) (type : str) (index : nat)
    (highlights : HighlightRegistry) : HighlightRegistry :=
  match token with
  | EStr s =>
      add_range highlights type
        {| startOffset := index; endOffset := index + List.length s |}
  | ETok (mkToken ty (CStr s) _ _) =>
      add_range highlights ty
        {| startOffset := index; endOffset := index + List.length s |}
  | ETok (mkToken ty (CArr l) _ _) =>
      (fix each (l : list Elem) (index : nat) (highlights : HighlightRegistry)
         : HighlightRegistry :=
         match l with
         | [] => highlights
         | e :: l' => each l' (index + elem_length e) (highlight_token e ty index highlights)
         end) l index highlights
  end.

(** [_highlightTextNode(node, tokens, type, index, highlights)]:
    [for (const token of tokens) { ...; index += token.length }]. *)
Fixpoint _highlightTextNode (tokens : TokenStream) (type : str) (index : nat)
    (highlights : HighlightRegistry) : HighlightRegistry :=
  match tokens with
  | [] => highlights
  | token :: tokens' =>
      _highlightTextNode tokens' type (index + elem_length token)
        (highlight_token token type index highlights)
  end.

(** [highlightTextNode(text, lang)], with [data] the [text.data] of the node
    and [css_highlights] what [globalThis.CSS?.highlights] holds: when it is
    [undefined] the ranges go to the [new Map] of the default parameter,
    which nothing else sees.  No hook runs, and a language that is not
    registered is no error. *)
Definition highlightTextNode (fuel : nat) (languages : Languages) (st0 : Store)
    (data : str) (lang : str) (css_highlights : option HighlightRegistry)
    : outcome (Store * option HighlightRegistry) :=
  match languages_get languages lang with
  | Some grammar =>
      r <- tokenize fuel st0 data grammar ;;
      Done (fst r, option_map (_highlightTextNode (snd r) (lit "source") 0) css_highlights)
  | None => Done (st0, css_highlights)
  end.

(** ** The span list, node by node

    [LinkedList] as the source has it: nodes that point to each other,
    between the two sentinels [head] and [tail], and a counter.  A node is
    named by its address in a store of nodes; [null] is [None].  The
    counter is an integer, as [list.length -= removedCount] makes it. *)

Module Linked.

Definition node := nat.

Record Node := mkNode {
  value : option Elem;
  prev : option node;
  next : option node
}.

Record LinkedList := mkLinkedList {
  nodes : node -> Node;
  fresh : node;
  head : node;
  tail : node;
  length : Z
}.

Definition set_next (n : Node) (x : option node) : Node :=
  {| value := value n; prev := prev n; next := x |}.

Definition set_prev (n : Node) (x : option node) : Node :=
  {| value := value n; prev := x; next := next n |}.

(** [n.field = x] on the node at address [a]. *)
Definition write (f : node -> Node) (a : node) (n : Node) : node -> Node :=
  fun b => if Nat.eqb b a then n else f b.

(** [new LinkedList()]: [head] is node 0, [tail] is node 1. *)
Definition new_LinkedList : LinkedList :=
  {| nodes := fun a =>
       match a with
       | 0 => {| value := None; prev := None; next := Some 1 |}
       | _ => {| value := None; prev := Some 0; next := None |}
       end;
     fresh := 2; head := 0; tail := 1; length := 0%Z |}.

(** [addAfter(list, node, value)]: with [node.next] being [null] (at
    [tail]) the write [next.prev = newNode] raises, before anything is
    changed. *)
Definition addAfter (list : LinkedList) (node_ : node) (v : Elem)
    : outcome (LinkedList * node) :=
  match next (nodes list node_) with
  | None => Thrown TypeError
  | Some nx =>
      let newNode := fresh list in
      let nodes1 :=
        write (nodes list) newNode
          {| value := Some v; prev := Some node_; next := Some nx |} in
      (* node.next = next.prev = newNode *)
      let nodes2 := write nodes1 nx (set_prev (nodes1 nx) (Some newNode)) in
      let nodes3 := write nodes2 node_ (set_next (nodes2 node_) (Some newNode)) in
      Done ({| nodes := nodes3; fresh := S (fresh list); head := head list;
               tail := tail list; length := (length list + 1)%Z |},
            newNode)
  end.

(** The loop of [removeRange]:
    [while (removedCount < count && next !== list.tail)
       { next = next.next; ++removedCount }],
    with [remaining] for [count - removedCount]. *)
Fixpoint removeRange_walk (list : LinkedList) (nx : option node)
    (remaining removedCount : nat) : outcome (option node * nat) :=
  match remaining with
  | 0 => Done (nx, removedCount)
  | S remaining' =>
      match nx with
      | None => Thrown TypeError
      | Some n =>
          if Nat.eqb n (tail list) then Done (nx, removedCount)
          else removeRange_walk list (next (nodes list n)) remaining' (S removedCount)
      end
  end.

(** [removeRange(list, node, count)] *)
Definition removeRange (list : LinkedList) (node_ : node) (count : nat)
    : outcome LinkedList :=
  r <- removeRange_walk list (next (nodes list node_)) count 0 ;;
  match fst r with
  | None => Thrown TypeError
  | Some nx =>
      let nodes1 := write (nodes list) node_ (set_next (nodes list node_) (Some nx)) in
      let nodes2 := write nodes1 nx (set_prev (nodes1 nx) (Some node_)) in
      Done {| nodes := nodes2; fresh := fresh list; head := head list;
              tail := tail list;
              length := (length list - Z.of_nat (snd r))%Z |}
  end.

(** The loop of [toArray]:
    [while (node !== list.tail) { array.push(node.value); node = node.next }]. *)
Fixpoint toArray_from (fuel : nat) (list : LinkedList) (nd : option node)
    (array : List.list (option Elem)) : outcome (List.list (option Elem)) :=
  match fuel with
  | 0 => Timeout
  | S fuel' =>
      match nd with
      | None => Thrown TypeError
      | Some n =>
          if Nat.eqb n (tail list) then Done array
          else toArray_from fuel' list (next (nodes list n))
                 (array ++ [value (nodes list n)])
      end
  end.

Definition toArray (fuel : nat) (list : LinkedList) : outcome (List.list (option Elem)) :=
  toArray_from fuel list (next (nodes list (head list))) [].

End Linked.

(** ** The hook registry by name

    [hooks.all] is a plain object from a hook name to the array of its
    callbacks.  A name that [Object.prototype] defines ([constructor],
    [toString], ...) reads as the inherited member when the object has no
    such key of its own: a function, which has no [push], is not iterable,
    and has its number of parameters as [length] (for [__proto__] the
    prototype object, whose [length] is [undefined]: it counts as 0 here). *)

Record HookTable (E : Type) := mkHookTable {
  registered_hooks : list (str * list (HookCallback E));
  inherited_hooks : list (str * nat)
}.

(** [hooks.add(name, callback)]:
    [allHooks[name] = allHooks[name] || []; allHooks[name].push(callback)]. *)
Definition hooks_add {E : Type} (all : HookTable E) (name : str)
    (callback : HookCallback E) : outcome (HookTable E) :=
  match obj_get (registered_hooks all) name with
  | Some callbacks =>
      Done {| registered_hooks := obj_set (registered_hooks all) name (callbacks ++ [callback]);
              inherited_hooks := inherited_hooks all |}
  | None =>
      match obj_get (inherited_hooks all) name with
      | Some _ => Thrown TypeError
      | None =>
          Done {| registered_hooks := obj_set (registered_hooks all) name [callback];
                  inherited_hooks := inherited_hooks all |}
      end
  end.

(** [hooks.run(name, env)]:
    [if (!callbacks || !callbacks.length) return;
     for (const callback of callbacks) callback(env)]. *)
Definition hooks_run_name {E : Type} (all : HookTable E) (name : str) (env : E)
    : outcome E :=
  match obj_get (registered_hooks all) name with
  | Some callbacks => hooks_run callbacks env
  | None =>
      match obj_get (inherited_hooks all) name with
      | Some n => if n =? 0 then Done env else Thrown TypeError
      | None => Done env
      end
  end.

(** ** [util.clone] on the object graph

    [util.type(o)] is ['Object'] for a plain object and ['Array'] for an
    array; every other value is returned as it is.  [visited] is the map
    from an object to its clone.  The keys of [o] are read once
    ([Object.keys(o)], the indices of an array), and [o] itself is never
    written to, so every key still has its value when it is read. *)

Module Util.

Import Registry.

(** [visited.get(o)] *)
Fixpoint visited_get (visited : list (loc * loc)) (o : loc) : option loc :=
  match visited with
  | [] => None
  | (k, c) :: visited' => if Nat.eqb k o then Some c else visited_get visited' o
  end.

(** [clone] returns the value, the heap and the map; [clone_keys] is the
    loop [for (const key of Object.keys(o)) clone[key] = util.clone(o[key], visited)]
    at the keys still to copy, from the object [o] into its clone [c]. *)
Fixpoint clone (fuel : nat) (o : Value) (h : Heap) (visited : list (loc * loc))
    {struct fuel} : outcome (Value * Heap * list (loc * loc)) :=
  match fuel with
  | 0 => Timeout
  | S fuel' =>
    match o with
    | VObject l =>
        match visited_get visited l with
        | Some c => Done (VObject c, h, visited)
        | None =>
            let '(h1, c) := heap_new h in
            r <- clone_keys fuel' l (keys (objs h1 l)) c h1 ((l, c) :: visited) ;;
            Done (VObject c, fst r, snd r)
        end
    | VArray l =>
        match visited_get visited l with
        | Some c => Done (VArray c, h, visited)
        | None =>
            let '(h1, c) := heap_new h in
            r <- clone_keys fuel' l (keys (objs h1 l)) c h1 ((l, c) :: visited) ;;
            Done (VArray c, fst r, snd r)
        end
    | VOther _ => Done (o, h, visited)
    end
  end

with clone_keys (fuel : nat) (o : loc) (ks : list str) (c : loc) (h : Heap)
    (visited : list (loc * loc)) {struct fuel} : outcome (Heap * list (loc * loc)) :=
  match fuel with
  | 0 => Timeout
  | S fuel' =>
    match ks with
    | [] => Done (h, visited)
    | key :: ks' =>
        match obj_get (objs h o) key with
        | Some v =>
            r <- clone fuel' v h visited ;;
            let '(v', h', visited') := r in
            clone_keys fuel' o ks' c (heap_set h' c key v') visited'
        | None => clone_keys fuel' o ks' c h visited
        end
    end
  end.

End Util.

(** ** [LanguageMethods.extend]

    [Object.assign(target, source)] reads each own enumerable key of
    [source], in order, and writes it into [target]. *)
Definition object_assign (h : Registry.Heap) (target source : Registry.loc)
    : Registry.Heap :=
  fold_left (fun hh key =>
               match obj_get (Registry.objs hh source) key with
               | Some w => Registry.heap_set hh target key w
               | None => hh
               end) (Registry.keys (Registry.objs h source)) h.

(** [extend(id, redef)] is [Object.assign(util.clone(Prism.languages[id]), redef)];
    [languages] is the object [Prism.languages] and [redef] a plain object.
    [util.clone] returns a value that is no object or array as it is.  On
    [undefined] and [null] [Object.assign] raises a [TypeError], and a name
    that [Prism.languages] neither has nor inherits reads as [undefined];
    on any other such value, and on an inherited member, it writes to the
    value itself or to its wrapper object, outside the heap. *)
Definition extend (fuel : nat) (languages : Registry.loc) (h : Registry.Heap)
    (id : str) (redef : Registry.loc) : reply (Registry.Heap * Registry.Value) :=
  match obj_get (Registry.objs h languages) id with
  | Some (Registry.VOther Registry.OUndefined) | Some (Registry.VOther Registry.ONull) =>
      Reply (Thrown TypeError)
  | Some (Registry.VOther _) => Outside
  | Some v =>
      Reply
        (r <- Util.clone fuel v h [] ;;
         match fst (fst r) with
         | Registry.VObject c | Registry.VArray c =>
             Done (object_assign (snd (fst r)) c redef, fst (fst r))
         | Registry.VOther _ => Thrown TypeError
         end)
  | None => if is_member id then Outside else Reply (Thrown TypeError)
  end.

(** * Notions used in the statements *)

(** The sum of the lengths of the elements of a stream. *)
Definition sumlen (l : list Elem) : nat := list_sum (map elem_length l).

(** The offset in the text at which the node after node [n] starts. *)
Definition offset (l : list Elem) (n : nat) : nat := sumlen (firstn n l).

(** The list covers the text, and [pos] is the offset at which
    [currentNode] starts. *)
Definition ok_at (text : str) (L : LinkedList) (currentNode pos : nat) : Prop :=
  sumlen L = List.length text /\ 1 <= currentNode /\
  pred currentNode <= List.length L /\ pos = offset L (pred currentNode).

(** The first [n] nodes are the same in both lists. *)
Definition kept (L L' : LinkedList) (n : nat) : Prop := firstn n L' = firstn n L.

(** What a loop of the engine leaves, started at node [c]: the list covers
    the text, the nodes before [c] are untouched, and so is [c] when it is
    a [Token]; and nothing is raised. *)
Definition cover_post (text : str) (L : LinkedList) (c : nat) (A : Type)
    (proj : A -> MG) (r : outcome A) : Prop :=
  match r with
  | Done a =>
      sumlen (tokenList (proj a)) = List.length text /\
      kept L (tokenList (proj a)) (pred c) /\
      (forall t, node_value L c = Some (ETok t) -> kept L (tokenList (proj a)) c)
  | Thrown _ => False
  | Timeout => True
  end.

Definition starts_str (l : list Elem) : bool :=
  match l with
  | EStr _ :: _ => true
  | _ => false
  end.

Fixpoint tidy (l : list Elem) : bool :=
  match l with
  | [] => true
  | EStr s :: r => truthy s && negb (starts_str r) && tidy r
  | ETok _ :: r => tidy r
  end.

Definition tidy_post (A : Type) (proj : A -> MG) (r : outcome A) : Prop :=
  match r with
  | Done a => tidy (tokenList (proj a)) = true
  | _ => True
  end.

Definition no_empty_string (stream : TokenStream) : Prop :=
  forall i, nth_error stream i <> Some (EStr []).

Definition no_adjacent_strings (stream : TokenStream) : Prop :=
  forall i a b,
    nth_error stream i = Some (EStr a) -> nth_error stream (S i) = Some (EStr b) -> False.

(** Fuel that lets [matchGrammar] run through its rules when no rule
    matches anything. *)
Fixpoint valve_fuel (keys : list (str * GValue)) : nat :=
  match keys with
  | [] => 1
  | (_, v) :: keys' =>
      S (match patterns_of v with
         | Some ps => List.length ps + 2
         | None => 0
         end + valve_fuel keys')
  end.

Definition rules_below (rank : gid -> nat) (k : nat) (rs : list (str * GValue)) : Prop :=
  forall token v ps po h,
    In (token, v) rs -> patterns_of v = Some ps -> In po ps ->
    inside po = Some h -> rank h < k.

Definition ranked (rank : gid -> nat) (st0 : Store) : Prop :=
  forall g,
    rules_below rank (rank g) (rules (st0 g)) /\
    (forall r, rest (st0 g) = Some r -> rank r <= rank g).

(** The tag of every rule of a grammar, in the order the loops try them. *)
Definition rule_tags (token : str) (n : nat) : list str :=
  map (cause_tag token) (seq 0 n).

Fixpoint tags (keys : list (str * GValue)) : list str :=
  match keys with
  | [] => []
  | (token, v) :: keys' =>
      match patterns_of v with
      | Some ps => rule_tags token (List.length ps)
      | None => []
      end ++ tags keys'
  end.

(** The place of the first rule with the tag [c], or the number of rules. *)
Fixpoint first_hit (c : str) (l : list str) : nat :=
  match l with
  | [] => 0
  | t :: l' => if str_eqb c t then 0 else S (first_hit c l')
  end.

(** How far an invocation goes through the rules: to the first rule with
    the tag of its cause, or through all of them. *)
Definition limit (grammar : list (str * GValue)) (rm : option RematchOptions) : nat :=
  match rm with
  | Some r => first_hit (cause r) (tags grammar)
  | None => List.length (tags grammar)
  end.

Definition same_cause (rm rm' : option RematchOptions) : Prop :=
  option_map cause rm' = option_map cause rm.

Definition cause_post (rm : option RematchOptions) (A : Type) (proj : A -> MG)
    (r : outcome A) : Prop :=
  match r with
  | Done a => same_cause rm (rematch (proj a))
  | _ => True
  end.


(** The stream of a result of [tokenize]. *)
Definition stream_of (o : outcome (Store * TokenStream)) : outcome TokenStream :=
  match o with
  | Done r => Done (snd r)
  | Thrown e => Thrown e
  | Timeout => Timeout
  end.

(** The text of a stream: [tokens.map(stringifyToken).join('')]. *)
Definition flat (l : list Elem) : str := concat (map TagWalker.stringifyToken l).

(** A token is well formed when its [length] is the length of its text, and
    so for the tokens of its content, at every depth. *)
Fixpoint well_formed (e : Elem) : bool :=
  match e with
  | EStr _ => true
  | ETok (mkToken _ (CStr s) _ n) => n =? List.length s
  | ETok (mkToken _ (CArr l) _ n) =>
      (n =? List.length (TagWalker.stringifyToken e)) &&
      (fix all (l : list Elem) : bool :=
         match l with
         | [] => true
         | x :: l' => well_formed x && all l'
         end) l
  end.

(** The list reads as the text, and its tokens are well formed. *)
Definition lossless (text : str) (L : list Elem) : Prop :=
  flat L = text /\ forallb well_formed L = true.

(** The state of a loop of the engine at which termination is shown. *)
Definition good (Inv : Store -> Prop) (text : str) (s0 : MG) (c pos : nat) : Prop :=
  ok_at text (tokenList s0) c pos /\ tidy (tokenList s0) = true /\
  lossless text (tokenList s0) /\ Inv (st s0).

(** [s] is a part of [text]. *)
Definition substring (s text : str) : Prop := exists a b, text = a ++ s ++ b.

(** [m] is what a match of the rule can be on a part of [text]: the value
    of [match[0]] once [matchPattern] has run on it, from whatever
    position, with the expression as it is or made global. *)
Definition yields (po : GrammarToken) (text m : str) : Prop :=
  exists s pos mt,
    substring s text /\
    (matchPattern (pattern po) pos s (lookbehind po) = Some mt \/
     matchPattern (with_global (pattern po)) pos s (lookbehind po) = Some mt) /\
    m0 mt = m.

(** Nested tokenization descends: on the texts [W] allows for a grammar,
    what a rule of the grammar can match is a text allowed for its
    [inside], with a smaller measure; and [rest] leads to a grammar that
    allows the text as well, with no greater measure. *)
Definition descends (W : gid -> str -> Prop) (mu : gid -> str -> nat) (st0 : Store) : Prop :=
  forall g text, W g text ->
    (forall token v ps po h m,
       In (token, v) (rules (st0 g)) -> patterns_of v = Some ps -> In po ps ->
       inside po = Some h -> yields po text m ->
       W h m /\ mu h m < mu g text) /\
    (forall r, rest (st0 g) = Some r -> W r text /\ mu r text <= mu g text).

(** The type of every token of the list is among [names]. *)
Definition typed (names : list str) (L : list Elem) : Prop :=
  forall t, In (ETok t) L -> In (type t) names.

(** What a loop of the engine leaves of a property [P] of the list. *)
Definition keeps_post (P : LinkedList -> Prop) (A : Type) (proj : A -> MG)
    (r : outcome A) : Prop :=
  match r with
  | Done a => P (tokenList (proj a))
  | _ => True
  end.

(** The plain strings of an element in text order, each with the name it is
    registered under (the type of the token it lies directly in) and its
    range, for an element that starts at [index]. *)
Fixpoint spans_of (e : Elem) (type : str) (index : nat) : list (str * StaticRange) :=
  match e with
  | EStr s => [(type, {| startOffset := index; endOffset := index + List.length s |})]
  | ETok (mkToken ty (CStr s) _ _) =>
      [(ty, {| startOffset := index; endOffset := index + List.length s |})]
  | ETok (mkToken ty (CArr l) _ _) =>
      (fix each (l : list Elem) (index : nat) : list (str * StaticRange) :=
         match l with
         | [] => []
         | x :: l' => spans_of x ty index ++ each l' (index + elem_length x)
         end) l index
  end.

Fixpoint spans (tokens : list Elem) (type : str) (index : nat) : list (str * StaticRange) :=
  match tokens with
  | [] => []
  | e :: tokens' => spans_of e type index ++ spans tokens' type (index + elem_length e)
  end.

(** The ranges follow one another from [a] to [b]. *)
Fixpoint chain (a : nat) (l : list StaticRange) (b : nat) : Prop :=
  match l with
  | [] => a = b
  | r :: l' => startOffset r = a /\ a <= endOffset r /\ chain (endOffset r) l' b
  end.

(** The ranges registered under a name. *)
Definition ranges_under (highlights : HighlightRegistry) (name : str) : list StaticRange :=
  match obj_get highlights name with
  | Some h => h
  | None => []
  end.

(** The ranges among [l] that go under a name. *)
Definition under (name : str) (l : list (str * StaticRange)) : list StaticRange :=
  map snd (filter (fun tr => str_eqb (fst tr) name) l).

(** Fuel that lets [walkTokens] go through a stream: one unit for every
    element, and for a token with a nested stream what the walk of that
    stream takes. *)
Fixpoint walk_cost (e : Elem) : nat :=
  match e with
  | ETok (mkToken _ (CArr l) _ _) =>
      2 + (fix sum (l : list Elem) : nat :=
             match l with
             | [] => 0
             | x :: l' => S (walk_cost x) + sum l'
             end) l
  | _ => 0
  end.

Definition walk_fuel (tokens : list Elem) : nat :=
  S (list_sum (map (fun e => S (walk_cost e)) tokens)).


(** Every reference held in the heap leads to an object that has been
    allocated. *)
Definition closed (h : Registry.Heap) : Prop :=
  forall l k p,
    obj_get (Registry.objs h l) k = Some (Registry.VObject p) \/
    obj_get (Registry.objs h l) k = Some (Registry.VArray p) ->
    p < Registry.next h.

(** The number of allocated objects that a traversal has not entered. *)
Definition unvisited (h : Registry.Heap) (visited : list Registry.loc) : nat :=
  List.length (filter (fun l => negb (existsb (Nat.eqb l) visited))
                 (seq 0 (Registry.next h))).

(** The nodes of [l] are linked in a row: each points to the next, and the
    next points back. *)
Fixpoint seg (f : Linked.node -> Linked.Node) (l : list Linked.node) : Prop :=
  match l with
  | a :: l' =>
      match l' with
      | b :: _ =>
          Linked.next (f a) = Some b /\ Linked.prev (f b) = Some a /\ seg f l'
      | [] => True
      end
  | [] => True
  end.

(** The nodes [l] are distinct, allocated, and linked in a row. *)
Definition row (L : Linked.LinkedList) (l : list Linked.node) : Prop :=
  NoDup l /\ (forall n, In n l -> n < Linked.fresh L) /\ seg (Linked.nodes L) l.

(** The linked list holds the values [vs], in the nodes [ns] between [head]
    and [tail], and its counter is their number. *)
Definition holds (L : Linked.LinkedList) (ns : list Linked.node) (vs : list Elem) : Prop :=
  row L (Linked.head L :: ns ++ [Linked.tail L]) /\
  Linked.next (Linked.nodes L (Linked.tail L)) = None /\
  map (fun n => Linked.value (Linked.nodes L n)) ns = map Some vs /\
  Linked.length L = Z.of_nat (List.length ns).

(** The node of rank [k]: [head] for [0], then the nodes in order. *)
Definition rank_node (L : Linked.LinkedList) (ns : list Linked.node) (k : nat)
    : Linked.node :=
  nth k (Linked.head L :: ns) (Linked.tail L).

(** [k in o], for an ordered object. *)
Definition has_key {V : Type} (o : list (str * V)) (k : str) : bool :=
  match obj_get o k with Some _ => true | None => false end.

(** No token of the element, at any depth, is a [tag] token that starts
    with a [tag] token: the walker sees no tag in it. *)
Fixpoint tagless (e : Elem) : bool :=
  match e with
  | EStr _ => true
  | ETok (mkToken ty (CStr s) a n) =>
      match TagWalker.tag_head (mkToken ty (CStr s) a n) with
      | Some _ => false
      | None => true
      end
  | ETok (mkToken ty (CArr l) a n) =>
      match TagWalker.tag_head (mkToken ty (CArr l) a n) with
      | Some _ => false
      | None =>
          (fix all (l : list Elem) : bool :=
             match l with
             | [] => true
             | x :: l' => tagless x && all l'
             end) l
      end
  end.

(** The value holds no reference, or a reference to an object below [n]. *)
Definition below (n : nat) (v : Registry.Value) : Prop :=
  match v with
  | Registry.VObject p | Registry.VArray p => p < n
  | Registry.VOther _ => True
  end.

(** The counterpart of a value under the map [visited]: the clone of the
    object it refers to, of the same kind, and the value itself when it is
    no reference. *)
Definition renamed (visited : list (Registry.loc * Registry.loc))
    (v : Registry.Value) : option Registry.Value :=
  match v with
  | Registry.VObject p => option_map Registry.VObject (Util.visited_get visited p)
  | Registry.VArray p => option_map Registry.VArray (Util.visited_get visited p)
  | Registry.VOther _ => Some v
  end.

(** The object [c] is a copy of the object [l]: the same keys in the same
    order, and under each key the counterpart of the value. *)
Definition copy_of (h : Registry.Heap) (visited : list (Registry.loc * Registry.loc))
    (l c : Registry.loc) : Prop :=
  Registry.keys (Registry.objs h c) = Registry.keys (Registry.objs h l) /\
  forall k v, obj_get (Registry.objs h l) k = Some v ->
    exists v', renamed visited v = Some v' /\ obj_get (Registry.objs h c) k = Some v'.

(** No object has a key twice. *)
Definition distinct_keys (h : Registry.Heap) : Prop :=
  forall l, NoDup (Registry.keys (Registry.objs h l)).

(** The number of objects below [n] that have no clone yet. *)
Definition uncloned (n : nat) (visited : list (Registry.loc * Registry.loc)) : nat :=
  List.length (filter (fun x => match Util.visited_get visited x with
                                | Some _ => false
                                | None => true
                                end) (seq 0 n)).

(** The map from objects to clones only grows. *)
Definition extends (visited visited' : list (Registry.loc * Registry.loc)) : Prop :=
  forall x c, Util.visited_get visited x = Some c -> Util.visited_get visited' x = Some c.

(** While the objects below [n0] are being cloned: they are as in [h0],
    and the map sends them to distinct objects allocated since, each of
    which is the clone of one of them. *)
Definition clone_state (n0 : nat) (h0 h : Registry.Heap)
    (visited : list (Registry.loc * Registry.loc)) : Prop :=
  n0 <= Registry.next h /\
  (forall x, x < n0 -> Registry.objs h x = Registry.objs h0 x) /\
  (forall l c, Util.visited_get visited l = Some c -> l < n0 /\ n0 <= c < Registry.next h) /\
  (forall l l' c, Util.visited_get visited l = Some c ->
     Util.visited_get visited l' = Some c -> l = l') /\
  (forall c, n0 <= c < Registry.next h -> exists l, Util.visited_get visited l = Some c).

(** Every object that has a clone and is not in [stack], the objects whose
    keys are being copied, has been copied. *)
Definition copied (h : Registry.Heap) (visited : list (Registry.loc * Registry.loc))
    (stack : list Registry.loc) : Prop :=
  forall l c, Util.visited_get visited l = Some c -> ~ In l stack -> copy_of h visited l c.

(** The keys [dn] of [l] have been copied into [c], and no other. *)
Definition partial_copy (h : Registry.Heap) (visited : list (Registry.loc * Registry.loc))
    (l c : Registry.loc) (dn : list str) : Prop :=
  Registry.keys (Registry.objs h c) = dn /\
  forall k v, In k dn -> obj_get (Registry.objs h l) k = Some v ->
    exists v', renamed visited v = Some v' /\ obj_get (Registry.objs h c) k = Some v'.

(** The callbacks, applied in turn, take the state [e] to [e']: each of
    them returns. *)
Inductive runs {E : Type} : list (HookCallback E) -> E -> E -> Prop :=
| runs_nil (e : E) : runs [] e e
| runs_cons (c : HookCallback E) (cs : list (HookCallback E)) (e e1 e2 : E) :
    c e = Done e1 -> runs cs e1 e2 -> runs (c :: cs) e e2.

(** One of the callbacks raises [err], those before it having returned. *)
Inductive raises {E : Type} : list (HookCallback E) -> E -> Error -> Prop :=
| raises_here (c : HookCallback E) (cs : list (HookCallback E)) (e : E) (err : Error) :
    c e = Thrown err -> raises (c :: cs) e err
| raises_later (c : HookCallback E) (cs : list (HookCallback E)) (e e1 : E) (err : Error) :
    c e = Done e1 -> raises cs e1 err -> raises (c :: cs) e err.

(** Every callback of the list returns, whatever it is given. *)
Definition returning {E : Type} (callbacks : list (HookCallback E)) : Prop :=
  forall c, In c callbacks -> forall e, exists e', c e = Done e'.

(** The environment that [Prism.highlight] builds, before and after
    [tokenize]. *)
Definition env_before (text : str) (grammar : option gid) (language0 : str) : TokenizeEnv :=
  {| code := text; env_grammar := grammar; language := language0; tokens := [] |}.

Definition env_after (env : TokenizeEnv) (toks : TokenStream) : TokenizeEnv :=
  {| code := code env; env_grammar := env_grammar env; language := language env;
     tokens := toks |}.

(** The registry inherits the members of [LanguageMethods] and of
    [Object.prototype], and no other. *)
Definition registry_shape (languages : Languages) : Prop :=
  map fst (inherited languages) = language_members.

(** * Example data *)

Module Examples.

Import Re.

Definition rule (r : RegExp) : GValue := GOne (bare r).

Definition greedy_rule (r : RegExp) : GValue :=
  GOne {| pattern := r; lookbehind := false; greedy := true; gt_alias := ANone;
          inside := None |}.

(** A store in which every identifier names the same grammar object. *)
Definition only (G : Grammar) : Store := fun _ => G.

(** [{"a": /x/, "b": /x/}] *)
Definition x_re : RegExp := regexp (Lit (lit "x")) false.
Definition ab_grammar : Grammar :=
  {| rules := [(lit "a", rule x_re); (lit "b", rule x_re)]; rest := None |}.

(** [{"word": /\w+/, "phrase": {pattern: /\w+\s\w+/, greedy: true}}] *)
Definition word_re : RegExp := regexp (Plus (Chr word)) false.
Definition phrase_re : RegExp :=
  regexp (Cat (Plus (Chr word)) (Cat (Chr space) (Plus (Chr word)))) false.
Definition phrase_grammar : Grammar :=
  {| rules := [(lit "word", rule word_re); (lit "phrase", greedy_rule phrase_re)];
     rest := None |}.

Definition word_token (s : string) : Elem :=
  ETok (mkToken (lit "word") (CStr (lit s)) (AMany []) (String.length s)).

(** [{"phrase": {pattern: /\s\w+\s/, greedy: true}}] after ["word"]: a greedy
    match that starts in a plain string and runs over a token. *)
Definition inner_re : RegExp :=
  regexp (Cat (Chr space) (Cat (Plus (Chr word)) (Chr space))) false.
Definition inner_grammar : Grammar :=
  {| rules := [(lit "word", rule word_re); (lit "phrase", greedy_rule inner_re)];
     rest := None |}.


(** [{"e": /x*/}]: a rule that matches the empty string everywhere. *)
Definition empty_re : RegExp := regexp (Star (Chr (Ascii.eqb "x"%char))) false.
Definition empty_grammar : Grammar :=
  {| rules := [(lit "e", rule empty_re)]; rest := None |}.


Definition no_hooks : Hooks :=
  {| before_tokenize := []; after_tokenize := []; wrap := [] |}.

(** [Prism.languages] as [prism.ts] leaves it: [plaintext] registered, and
    the members of [LanguageMethods] and of [Object.prototype] inherited.
    Object 0 is the grammar [plaintext: {}]; objects 1 to 15 are the
    inherited members, which have no enumerable key. *)
Definition prism_languages : Languages :=
  {| registered := [(lit "plaintext", 0)];
     inherited := combine language_members (seq 1 (List.length language_members)) |}.

Definition prism_store : Store := only {| rules := []; rest := None |}.

End Examples.




Definition empty_token : Elem := ETok (mkToken (lit "e") (CStr []) (AMany []) 0).

Definition rendered_x : str :=
  lit "<span class=" ++ [dquote] ++ lit "token a" ++ [dquote] ++ lit ">x</span>".

Module RegistryExample.

Import Registry.

(** Object 0 is [Prism.languages], with the languages [markup] (object 1)
    and [other] (object 2); the rule [other.tag] (object 3) has the grammar
    [markup] as its [inside]; object 4 holds the rules to insert. *)
Definition heap0 : Heap :=
  {| objs := fun l =>
       match l with
       | 0 => [(lit "markup", VObject 1); (lit "other", VObject 2)]
       | 1 => [(lit "tag", VOther (OAtom 10)); (lit "comment", VOther (OAtom 11))]
       | 2 => [(lit "tag", VObject 3)]
       | 3 => [(lit "pattern", VOther (OAtom 12)); (lit "inside", VObject 1)]
       | 4 => [(lit "style", VOther (OAtom 13))]
       | _ => []
       end;
     next := 5 |}.

(** [Prism.languages.insertBefore('markup', 'comment', {style: ...})] *)
Definition after_insert : reply (Heap * loc) :=
  insertBefore 20 0 heap0 (lit "markup") (lit "comment") 4 0.

End RegistryExample.

Module Tsx.

Import Re.

(** The expressions that [prism-lang-tsx.ts] builds. *)

Definition quote2 : ascii -> bool := chr 34.
Definition quote1 : ascii -> bool := chr 39.
Definition backslash : ascii -> bool := chr 92.
Definition any : ascii -> bool := fun _ => true.
Definition upper : ascii -> bool := between 65 90.
Definition L (s : string) : re := Lit (lit s).

(** [space = /(?:\s|\/\/.*(?!.)|\/\*(?:[^*]|\*(?!\/))\*\/)/] *)
Definition space_re : re :=
  Alt (Chr space)
    (Alt (Cat (L "//") (Cat (Star (Chr dot)) (NotAhead (Chr dot))))
         (Cat (L "/*")
            (Cat (Alt (Chr (non (among "*")))
                      (Cat (Chr (among "*")) (NotAhead (Chr (among "/")))))
                 (L "*/")))).

(** [braces = /(?:\{(?:\{(?:\{[^{}]*\}|[^{}])*\}|[^{}])*\})/] *)
Definition no_brace : ascii -> bool := non (among "{}").
Definition braces_re : re :=
  Cat (L "{")
    (Cat (Star (Alt (Cat (L "{")
                       (Cat (Star (Alt (Cat (L "{") (Cat (Star (Chr no_brace)) (L "}")))
                                       (Chr no_brace)))
                            (L "}")))
                    (Chr no_brace)))
         (L "}")).

(** [spread = /(?:\{<S>*\.{3}(?:[^{}]|<BRACES>)*\})/] *)
Definition spread_re : re :=
  Cat (L "{")
    (Cat (Star space_re)
       (Cat (L "...") (Cat (Star (Alt (Chr no_brace) braces_re)) (L "}")))).

(** A quoted string with escapes: [q(?:\\[\s\S]|[^\\q])*q]. *)
Definition quoted (q : ascii -> bool) : re :=
  Cat (Chr q)
    (Cat (Star (Alt (Cat (Chr backslash) (Chr any)) (Chr (non (either backslash q)))))
         (Chr q)).

(** The [tag] pattern:
    [<\/?(?:[\w.:-]+(?:<S>+(?:[\w.:$-]+(?:=(?:dq|sq|[^\s{'dq/>=]+|<BRACES>))?|<SPREAD>))*<S>*\/?)?>],
    where [dq] and [sq] are the quoted strings. *)
Definition tag_re : re :=
  Cat (L "<")
    (Cat (Opt (L "/"))
       (Cat (Opt
               (Cat (Plus (Chr (either word (among ".:-"))))
                  (Cat (Star
                          (Cat (Plus space_re)
                             (Alt (Cat (Plus (Chr (either word (among ".:$-"))))
                                     (Opt (Cat (L "=")
                                             (Alt (quoted quote2)
                                                (Alt (quoted quote1)
                                                   (Alt (Plus (Chr (non (either space
                                                                    (either (among "{'/>=") quote2)))))
                                                        braces_re))))))
                                  spread_re)))
                       (Cat (Star space_re) (Opt (L "/"))))))
            (L ">"))).

(** [tag.inside.tag.pattern = /^<\/?[^\s>\/]*/] *)
Definition tag_name_re : re :=
  Cat Bol (Cat (L "<") (Cat (Opt (L "/")) (Star (Chr (non (either space (among ">/"))))))).

(** [tag.inside['attr-value'].pattern = /=(?!\{)(?:dq|sq|[^\s'dq>]+)/] *)
Definition attr_value_re : re :=
  Cat (L "=")
    (Cat (NotAhead (L "{"))
       (Alt (quoted quote2)
          (Alt (quoted quote1)
             (Plus (Chr (non (either space (either (among "'>") quote2)))))))).

(** [tag.inside.tag.inside['class-name']]: an upper-case letter and word
    characters, then any number of dotted such names, from the start to the
    end of the input. *)
Definition class_name_re : re :=
  Cat Bol
    (Cat (Chr upper)
       (Cat (Star (Chr word))
          (Cat (Star (Cat (L ".") (Cat (Chr upper) (Star (Chr word))))) Eol))).

(** [/=<BRACES>/] and [/^=(?=\{)/] *)
Definition script_re : re := Cat (L "=") braces_re.
Definition script_punctuation_re : re := Cat Bol (Cat (L "=") (Ahead (L "{"))).

Definition plain_rule (r : re) (i : option gid) : GValue :=
  GOne {| pattern := regexp r false; lookbehind := false; greedy := false;
          gt_alias := ANone; inside := i |}.

(** Modelled from the spec: the grammar of the tag-embedded-expression
    language.  [prism-lang-tsx.ts] builds it from the [markup] and
    [typescript] rule tables, which are not in [src/]; the rules it sets
    itself are as it writes them ([tag], the nested [tag], [attr-value],
    [class-name], [spread], [script]), and of the two absent tables only
    what the texts below exercise is given, as Prism publishes it: the
    punctuation and attribute names of a tag, and the numbers and the
    punctuation of the expression language.  Grammar 0 is the language,
    1 is [tag.inside], 2 is [tag.inside.tag.inside], 3 is [script.inside]
    (whose [rest] is the language), 4 is [attr-name.inside]. *)
Definition store : Store := fun g =>
  match g with
  | 0 => {| rules :=
              [(lit "tag", GOne {| pattern := regexp tag_re false; lookbehind := false;
                                   greedy := true; gt_alias := ANone; inside := Some 1 |});
               (lit "number", plain_rule (Plus (Chr digit)) None);
               (lit "punctuation", plain_rule (Chr (among "{}[];(),.:")) None)];
            rest := None |}
  | 1 => {| rules :=
              [(lit "tag", plain_rule tag_name_re (Some 2));
               (lit "script",
                GOne {| pattern := regexp script_re false; lookbehind := false;
                        greedy := false; gt_alias := AOne (lit "language-typescript");
                        inside := Some 3 |});
               (lit "special-attr", GArr []);
               (lit "attr-value", plain_rule attr_value_re None);
               (lit "punctuation", plain_rule (Cat (Opt (L "/")) (L ">")) None);
               (lit "spread", plain_rule spread_re (Some 0));
               (lit "attr-name",
                plain_rule (Plus (Chr (non (either space (among ">/"))))) (Some 4))];
            rest := None |}
  | 2 => {| rules :=
              [(lit "punctuation", plain_rule (Cat Bol (Cat (L "<") (Opt (L "/")))) None);
               (lit "namespace",
                plain_rule (Cat Bol (Cat (Plus (Chr (non (either space (among ">/:")))))
                                         (L ":"))) None);
               (lit "class-name", plain_rule class_name_re None)];
            rest := None |}
  | 3 => {| rules :=
              [(lit "script-punctuation",
                GOne {| pattern := regexp script_punctuation_re false; lookbehind := false;
                        greedy := false; gt_alias := AOne (lit "punctuation");
                        inside := None |})];
            rest := Some 0 |}
  | _ => {| rules :=
              [(lit "namespace",
                plain_rule (Cat Bol (Cat (Plus (Chr (non (either space (among ">/:")))))
                                         (L ":"))) None)];
            rest := None |}
  end.



End Tsx.

Module WalkerExample.

Definition tok (ty : string) (c : Content) (n : nat) : Elem :=
  ETok (mkToken (lit ty) c (AMany []) n).

Definition punct (s : string) : Elem := tok "punctuation" (CStr (lit s)) (String.length s).

Definition name_Foo (p : string) : Elem :=
  tok "tag" (CArr [punct p; tok "class-name" (CStr (lit "Foo")) 3]) (String.length p + 3).

(** The token of [<Foo bar={1}>] *)
Definition open_Foo : Elem :=
  tok "tag"
    (CArr [name_Foo "<";
           EStr (lit " ");
           tok "attr-name" (CArr [EStr (lit "bar")]) 3;
           ETok (mkToken (lit "script")
                   (CArr [ETok (mkToken (lit "script-punctuation") (CStr (lit "="))
                                  (AOne (lit "punctuation")) 1);
                          punct "{"; tok "number" (CStr (lit "1")) 1; punct "}"])
                   (AOne (lit "language-typescript")) 4);
           punct ">"]) 13.

(** The tokens of [<Foo>] and of [</Foo>] *)
Definition bare_Foo : Elem := tok "tag" (CArr [name_Foo "<"; punct ">"]) 5.
Definition close_Foo : Elem := tok "tag" (CArr [name_Foo "</"; punct ">"]) 6.

(** The token of [<Bar />] *)
Definition self_Bar : Elem :=
  tok "tag"
    (CArr [tok "tag" (CArr [punct "<"; tok "class-name" (CStr (lit "Bar")) 3]) 4;
           EStr (lit " ");
           punct "/>"]) 7.

Definition plain (s : string) : Elem :=
  ETok (mkToken (lit "plain-text") (CStr (lit s)) (AMany []) (String.length s)).

Definition text_Foo : str := lit "<Foo bar={1}> some text {expr} </Foo>".
Definition stream_Foo : TokenStream :=
  [open_Foo; EStr (lit " some text "); punct "{"; EStr (lit "expr"); punct "}";
   EStr (lit " "); close_Foo].

(** A body that holds a token of the expression grammar, a number. *)
Definition text_number : str := lit "<Foo>a 1 b</Foo>".
Definition stream_number : TokenStream :=
  [bare_Foo; EStr (lit "a "); tok "number" (CStr (lit "1")) 1; EStr (lit " b"); close_Foo].

Definition text_Bar : str := lit "<Bar /> some text".
Definition stream_Bar : TokenStream := [self_Bar; EStr (lit " some text")].

End WalkerExample.


(** A registry with one language, [words], whose grammar is object 0. *)
Definition words_languages : Languages :=
  {| registered := [(lit "words", 0)]; inherited := [] |}.

(** The heap that the call [RegistryExample.after_insert] leaves. *)
Definition heap_after_insert : Registry.Heap :=
  match RegistryExample.after_insert with
  | Reply (Done (h, _)) => h
  | _ => RegistryExample.heap0
  end.

(** The list after [new LinkedList()] and [addAfter(list, list.head, "ab")]:
    the string is in node 2. *)
Definition linked_one : Linked.LinkedList :=
  match Linked.addAfter Linked.new_LinkedList 0 (EStr (lit "ab")) with
  | Done (L, _) => L
  | _ => Linked.new_LinkedList
  end.


(** [util.clone(Prism.languages)] on the registry of the example: the
    value returned, the heap and the map from objects to clones. *)
Definition clone_of_languages
    : Registry.Value * Registry.Heap * list (Registry.loc * Registry.loc) :=
  match Util.clone 30 (Registry.VObject 0) RegistryExample.heap0 [] with
  | Done r => r
  | _ => (Registry.VOther (Registry.OAtom 0), RegistryExample.heap0, [])
  end.

(** [Prism.languages.extend('other', {style: ...})] on the registry of the
    example. *)
Definition extend_other : Registry.Heap * Registry.Value :=
  match extend 30 0 RegistryExample.heap0 (lit "other") 4 with
  | Reply (Done r) => r
  | _ => (RegistryExample.heap0, Registry.VOther (Registry.OAtom 0))
  end.

(** Grammar 0 is [{tag: {pattern: /x/, inside: {tag: /^/}}}], grammar 1 its
    [inside]; and the hooks of a page that loads [prism-lang-tsx.ts]. *)
Definition empty_tag_store : Store := fun g =>
  match g with
  | 0 => {| rules := [(lit "tag", GOne {| pattern := Examples.x_re; lookbehind := false;
                                          greedy := false; gt_alias := ANone;
                                          inside := Some 1 |})];
            rest := None |}
  | _ => {| rules := [(lit "tag", Examples.rule (Re.regexp Re.Bol false))]; rest := None |}
  end.

Definition tsx_hooks : Hooks :=
  {| before_tokenize := []; after_tokenize := [tsx_after_tokenize 20]; wrap := [] |}.

(** * Properties *)

(** ** Lengths and offsets *)


Lemma sumlen_app a b : sumlen (a ++ b) = sumlen a + sumlen b.
Proof. unfold sumlen. now rewrite map_app, list_sum_app. Qed.

Lemma sumlen_cons e l : sumlen (e :: l) = elem_length e + sumlen l.
Proof. reflexivity. Qed.

Lemma sumlen_split n l : sumlen l = offset l n + sumlen (skipn n l).
Proof. unfold offset. now rewrite <- sumlen_app, firstn_skipn. Qed.

Lemma offset_all l n : List.length l <= n -> offset l n = sumlen l.
Proof. intros H. unfold offset. now rewrite firstn_all2. Qed.

Lemma offset_S l n e :
  nth_error l n = Some e -> offset l (S n) = offset l n + elem_length e.
Proof.
  revert l; induction n as [|n IH]; intros [|x l]; simpl; try discriminate.
  - intros [= ->]. unfold offset. simpl. rewrite !sumlen_cons.
    destruct l; simpl; unfold sumlen; simpl; lia.
  - intros H. unfold offset in *. simpl. rewrite !sumlen_cons.
    specialize (IH l H). simpl in IH. lia.
Qed.

Lemma offset_mono l n m : n <= m -> offset l n <= offset l m.
Proof.
  intros H. unfold offset.
  replace (firstn n l) with (firstn n (firstn m l)).
  - rewrite (sumlen_split n (firstn m l)). unfold offset. lia.
  - rewrite firstn_firstn. f_equal. lia.
Qed.

Lemma offset_le l n : offset l n <= sumlen l.
Proof. rewrite (sumlen_split n l). lia. Qed.

Lemma offset_prefix l l' n m :
  firstn n l' = firstn n l -> m <= n -> offset l' m = offset l m.
Proof.
  intros H Hm. unfold offset.
  replace (firstn m l') with (firstn m (firstn n l')) by (rewrite firstn_firstn; f_equal; lia).
  replace (firstn m l) with (firstn m (firstn n l)) by (rewrite firstn_firstn; f_equal; lia).
  now rewrite H.
Qed.

Lemma firstn_prefix (A : Type) (l l' : list A) n m :
  firstn n l' = firstn n l -> m <= n -> firstn m l' = firstn m l.
Proof.
  intros H Hm.
  replace (firstn m l') with (firstn m (firstn n l')) by (rewrite firstn_firstn; f_equal; lia).
  replace (firstn m l) with (firstn m (firstn n l)) by (rewrite firstn_firstn; f_equal; lia).
  now rewrite H.
Qed.

Lemma prefix_length (A : Type) (l l' : list A) n :
  firstn n l' = firstn n l -> n <= List.length l -> n <= List.length l'.
Proof.
  intros H Hn. apply (f_equal (@List.length A)) in H.
  rewrite !length_firstn in H. lia.
Qed.

Lemma prefix_nth (A : Type) (l l' : list A) n i :
  firstn n l' = firstn n l -> i < n -> nth_error l' i = nth_error l i.
Proof.
  intros H Hi.
  assert (E : nth_error (firstn n l') i = nth_error (firstn n l) i) by now rewrite H.
  rewrite !nth_error_firstn in E.
  apply Nat.ltb_lt in Hi. now rewrite Hi in E.
Qed.

Lemma slice_length s a b : b <= List.length s -> List.length (slice s a b) = b - a.
Proof. intros H. unfold slice. rewrite length_firstn, length_skipn. lia. Qed.

Lemma truthy_false s : truthy s = false -> s = [].
Proof. destruct s; [reflexivity | discriminate]. Qed.

Lemma truthy_true s : truthy s = true -> s <> [] /\ 0 < List.length s.
Proof. destruct s; [discriminate | simpl; split; [discriminate | lia]]. Qed.

(** ** The list operations *)

Lemma firstn_at_app (A : Type) (n : nat) (P X : list A) :
  List.length P = n -> firstn n (P ++ X) = P.
Proof.
  intros <-. induction P as [|x P IH]; simpl; [now destruct X | now rewrite IH].
Qed.

Lemma skipn_at_app (A : Type) (n k : nat) (P X : list A) :
  List.length P = n -> skipn (n + k) (P ++ X) = skipn k X.
Proof.
  intros <-. induction P as [|x P IH]; simpl; [reflexivity | exact IH].
Qed.

Lemma skipn_at_app0 (A : Type) (n : nat) (P X : list A) :
  List.length P = n -> skipn n (P ++ X) = X.
Proof.
  intros H. rewrite <- (Nat.add_0_r n). now rewrite skipn_at_app.
Qed.

(** The list after [splice], written out. *)
Lemma splice_eq list0 c pos str0 mt rc w :
  1 <= c -> pred c <= List.length list0 ->
  let before := slice str0 0 (index mt) in
  let after := slice_from str0 (index mt + List.length (m0 mt)) in
  splice list0 c pos str0 mt rc w =
  (firstn (pred c) list0
     ++ (if truthy before then [EStr before] else [])
     ++ w :: (if truthy after then [EStr after] else [])
     ++ skipn (pred c + rc) list0,
   (if truthy before then S c else c),
   (if truthy before then pos + List.length before else pos)).
Proof.
  intros Hc Hl before after. unfold splice, addAfter, removeRange.
  fold before. fold after.
  assert (HP : List.length (firstn (pred c) list0) = pred c)
    by (rewrite length_firstn; lia).
  set (P := firstn (pred c) list0) in *.
  destruct (truthy before) eqn:Eb; cbn [fst snd].
  - assert (HP1 : List.length (P ++ [EStr before]) = S (pred c))
      by (rewrite length_app; simpl; lia).
    replace (P ++ EStr before :: skipn (pred c) list0)
      with ((P ++ [EStr before]) ++ skipn (pred c) list0)
      by (now rewrite <- app_assoc).
    rewrite (firstn_at_app _ _ HP1), (skipn_at_app _ _ _ HP1), skipn_skipn.
    rewrite (firstn_at_app _ _ HP1), (skipn_at_app0 _ _ HP1).
    replace (S (pred c)) with c by lia.
    replace (rc + pred c) with (pred c + rc) by lia.
    destruct (truthy after) eqn:Ea; cbn [fst snd].
    + assert (HP2 : List.length ((P ++ [EStr before]) ++ [w]) = S c)
        by (rewrite length_app; simpl; lia).
      replace ((P ++ [EStr before]) ++ w :: skipn (pred c + rc) list0)
        with (((P ++ [EStr before]) ++ [w]) ++ skipn (pred c + rc) list0)
        by (now rewrite <- !app_assoc).
      rewrite (firstn_at_app _ _ HP2), (skipn_at_app0 _ _ HP2).
      now rewrite <- !app_assoc.
    + now rewrite <- !app_assoc.
  - rewrite (firstn_at_app _ _ HP), (skipn_at_app0 _ _ HP).
    replace (S (pred c)) with c by lia.
    destruct (truthy after) eqn:Ea; cbn [fst snd].
    + assert (HP2 : List.length (P ++ [w]) = c)
        by (rewrite length_app; simpl; lia).
      replace (P ++ w :: skipn (pred c + rc) list0)
        with ((P ++ [w]) ++ skipn (pred c + rc) list0)
        by (now rewrite <- !app_assoc).
      rewrite (firstn_at_app _ _ HP2), (skipn_at_app0 _ _ HP2).
      now rewrite <- !app_assoc.
    + reflexivity.
Qed.

Lemma nth_error_lt (A : Type) (l : list A) n x :
  nth_error l n = Some x -> n < List.length l.
Proof. intros H. apply nth_error_Some. congruence. Qed.

Lemma skipn_cons_nth (A : Type) (l : list A) n e r :
  skipn n l = e :: r -> nth_error l n = Some e /\ skipn (S n) l = r /\ n < List.length l.
Proof.
  revert l; induction n as [|n IH]; intros [|x l]; simpl; try discriminate.
  - intros [= -> ->]. repeat split; lia.
  - intros H. destruct (IH _ H) as (H1 & H2 & H3). repeat split; auto; lia.
Qed.

Lemma skipn_nil_length (A : Type) (l : list A) n :
  skipn n l = [] -> List.length l <= n.
Proof.
  intros H. apply (f_equal (@List.length A)) in H. rewrite length_skipn in H.
  simpl in H. lia.
Qed.

(** The walk to the node that contains the start of a greedy match stops on
    the first node whose end lies beyond [from]. *)
Lemma find_node_spec L from : forall n c c' p',
  List.length L - c <= n ->
  find_node (skipn c L) c (offset L c) from = Some (c', p') ->
  c <= c' /\ (c' <= List.length L \/ c' = c) /\ p' = offset L c' /\ from < p' /\
  (c' = c \/ offset L (pred c') <= from).
Proof.
  induction n as [|n IH]; intros c c' p' Hn H.
  - destruct (skipn c L) as [|e r] eqn:E.
    + simpl in H. destruct (offset L c <=? from) eqn:Ef; [discriminate|].
      injection H as <- <-. apply Nat.leb_gt in Ef. repeat split; auto.
    + apply skipn_cons_nth in E. lia.
  - destruct (skipn c L) as [|e r] eqn:E; simpl in H;
      destruct (offset L c <=? from) eqn:Ef; try discriminate.
    + injection H as <- <-. apply Nat.leb_gt in Ef. repeat split; auto.
    + apply skipn_cons_nth in E. destruct E as (E1 & E2 & E3).
      rewrite <- E2, <- (offset_S _ _ E1) in H.
      apply IH in H; [|lia].
      destruct H as (H1 & H2 & H3 & H4 & H5).
      apply Nat.leb_le in Ef.
      repeat split; auto; try lia.
      right. destruct H5 as [->|H5]; [exact Ef | exact H5].
    + injection H as <- <-. apply Nat.leb_gt in Ef. repeat split; auto.
Qed.

Lemma find_node_some L from : forall n c,
  List.length L - c <= n -> from < sumlen L ->
  find_node (skipn c L) c (offset L c) from <> None.
Proof.
  induction n as [|n IH]; intros c Hn Hf.
  - destruct (skipn c L) as [|e r] eqn:E.
    + simpl. apply skipn_nil_length in E.
      rewrite (offset_all _ E).
      destruct (sumlen L <=? from) eqn:Ef; [apply Nat.leb_le in Ef; lia | discriminate].
    + apply skipn_cons_nth in E. lia.
  - destruct (skipn c L) as [|e r] eqn:E; simpl.
    + apply skipn_nil_length in E. rewrite (offset_all _ E).
      destruct (sumlen L <=? from) eqn:Ef; [apply Nat.leb_le in Ef; lia | discriminate].
    + destruct (offset L c <=? from); [|discriminate].
      apply skipn_cons_nth in E. destruct E as (E1 & E2 & E3).
      rewrite <- E2, <- (offset_S _ _ E1). apply IH; [lia | exact Hf].
Qed.

(** The nodes a greedy match covers end at the first node that is a
    [Token] and starts at or after the end of the match. *)
Lemma span_spec L to : forall n i rc rc' p',
  List.length L - i <= n ->
  span (skipn i L) rc (offset L i) to = (rc', p') ->
  rc <= rc' /\ (i + (rc' - rc) <= List.length L \/ rc' = rc) /\
  p' = offset L (i + (rc' - rc)) /\
  (forall k, nth_error L (i + (rc' - rc)) = Some k -> is_string k = false /\ to <= p') /\
  (forall k, nth_error L i = Some k -> is_string k = true -> rc < rc').
Proof.
  assert (Hend : forall i rc, skipn i L = [] ->
    rc <= rc /\ (i + (rc - rc) <= List.length L \/ rc = rc) /\
    offset L i = offset L (i + (rc - rc)) /\
    (forall k, nth_error L (i + (rc - rc)) = Some k -> is_string k = false /\ to <= offset L i) /\
    (forall k, nth_error L i = Some k -> is_string k = true -> rc < rc)).
  { intros i rc E. apply skipn_nil_length in E.
    rewrite Nat.sub_diag, Nat.add_0_r.
    split; [lia|]. split; [now right|]. split; [reflexivity|].
    split; intros k Hk; apply nth_error_lt in Hk; lia. }
  induction n as [|n IH]; intros i rc rc' p' Hn H.
  - destruct (skipn i L) as [|e r] eqn:E.
    + simpl in H. injection H as <- <-. now apply Hend.
    + apply skipn_cons_nth in E. lia.
  - destruct (skipn i L) as [|e r] eqn:E; simpl in H.
    + injection H as <- <-. now apply Hend.
    + apply skipn_cons_nth in E. destruct E as (E1 & E2 & E3).
      destruct ((offset L i <? to) || is_string e) eqn:Ec.
      * rewrite <- E2, <- (offset_S _ _ E1) in H.
        apply IH in H; [|lia].
        destruct H as (H1 & H2 & H3 & H4 & H5).
        replace (S i + (rc' - S rc)) with (i + (rc' - rc)) in * by lia.
        split; [lia|]. split; [lia|]. split; [exact H3|].
        split; [exact H4|]. intros; lia.
      * injection H as <- <-.
        rewrite Nat.sub_diag, Nat.add_0_r. apply orb_false_iff in Ec.
        destruct Ec as [Ec1 Ec2]. apply Nat.ltb_ge in Ec1.
        split; [lia|]. split; [now right|]. split; [reflexivity|].
        split.
        -- intros k Hk. rewrite E1 in Hk. injection Hk as <-. now split.
        -- intros k Hk Hs. rewrite E1 in Hk. injection Hk as <-. congruence.
Qed.

(** A match that ends within a string node followed by a [Token] covers
    that node alone. *)
Lemma span_one L to i rc s :
  nth_error L i = Some (EStr s) ->
  to <= offset L i + List.length s ->
  (forall k, nth_error L (S i) = Some k -> is_string k = false) ->
  span (skipn i L) rc (offset L i) to = (S rc, offset L (S i)).
Proof.
  intros Hi Hto Hnext.
  destruct (skipn i L) as [|e r] eqn:E.
  { apply skipn_nil_length in E. apply nth_error_lt in Hi. lia. }
  apply skipn_cons_nth in E. destruct E as (E1 & E2 & _).
  rewrite Hi in E1. injection E1 as <-.
  simpl. rewrite orb_true_r. rewrite (offset_S _ _ Hi). simpl elem_length.
  destruct r as [|k r']; [reflexivity|].
  simpl.
  apply skipn_cons_nth in E2. destruct E2 as (E2 & _).
  rewrite (Hnext _ E2).
  replace (offset L i + List.length s <? to) with false
    by (symmetry; apply Nat.ltb_ge; lia).
  reflexivity.
Qed.

(** A match that [matchPattern] returns starts at or after the position
    the search honours and, unless it is empty, ends within the text. *)
Lemma matchPattern_spec r p s lb m :
  matchPattern r p s lb = Some m ->
  (if global r || sticky r then p else 0) <= index m /\
  (List.length (m0 m) = 0 \/ index m + List.length (m0 m) <= List.length s).
Proof.
  unfold matchPattern, exec.
  destruct (search r _ s) as [m'|] eqn:E; [|discriminate].
  apply (search_ok r) in E. destruct E as (E1 & E2 & _).
  assert (Hsame : (if global r || sticky r then p else 0) <= index m' /\
    (List.length (m0 m') = 0 \/ index m' + List.length (m0 m') <= List.length s))
    by (split; [exact E1 | right; exact E2]).
  destruct lb; [|now intros [= <-]].
  destruct (m1 m') as [[|c g]|]; [now intros [= <-]| |now intros [= <-]].
  pose proof (length_skipn (List.length (c :: g)) (m0 m')) as Hs.
  intros [= <-]. unfold slice_from. simpl in *.
  split; [lia|].
  destruct (Nat.le_gt_cases (List.length (m0 m')) (S (List.length g))); [left|right]; lia.
Qed.

(** ** One turn of the loop *)


Lemma node_value_nth L c e :
  node_value L c = Some e -> 1 <= c /\ nth_error L (pred c) = Some e /\ c <= List.length L.
Proof.
  destruct c as [|c]; simpl; [discriminate|].
  intros H. pose proof (nth_error_lt _ _ H). repeat split; auto; lia.
Qed.

Lemma node_offset L c e :
  node_value L c = Some e -> offset L c = offset L (pred c) + elem_length e.
Proof.
  intros H. apply node_value_nth in H. destruct H as (H1 & H2 & _).
  rewrite <- (offset_S _ _ H2). f_equal. lia.
Qed.

Lemma turn_spec text po s0 c pos :
  let L := tokenList s0 in
  ok_at text L c pos ->
  match turn text po s0 c pos with
  | TExit _ => True
  | TRaise => False
  | TContinue c' pos' => c < c' /\ ok_at text L c' pos'
  | TMatch cn p str0 mt rc =>
      c <= cn /\ ok_at text L cn p /\ pos <= p /\
      (exists s, node_value L cn = Some (EStr s)) /\
      1 <= rc /\ pred cn + rc <= List.length L /\
      offset L (pred cn + rc) = p + List.length str0 /\
      (List.length (m0 mt) = 0 \/ index mt + List.length (m0 mt) <= List.length str0) /\
      List.length L <= List.length text /\
      (forall k, nth_error L (pred cn + rc) = Some k -> is_string k = false \/ rc = 1) /\
      (forall s, node_value L cn = Some (EStr s) ->
         index mt + List.length (m0 mt) <= List.length s ->
         (forall k, nth_error L cn = Some k -> is_string k = false) -> rc = 1)
  end.
Proof.
  intros L (Hsum & Hc & Hl & Hpos). unfold turn. fold L.
  destruct (node_value L c) as [value|] eqn:Ev; [|exact I].
  destruct (reached (rematch s0) pos); [exact I|].
  destruct (List.length text <? List.length L) eqn:Evalve; [exact I|].
  apply Nat.ltb_ge in Evalve.
  pose proof (node_offset _ _ Ev) as Hoff.
  pose proof (node_value_nth _ _ Ev) as (_ & Hnth & Hcl).
  destruct value as [str0|t].
  2:{ split; [lia|]. unfold ok_at. simpl pred. repeat split; auto; lia. }
  destruct (greedy po) eqn:Eg.
  - destruct (matchPattern _ pos text _) as [mt|] eqn:Em; [|exact I].
    destruct (List.length text <=? index mt) eqn:Eend; [exact I|].
    apply Nat.leb_gt in Eend.
    apply matchPattern_spec in Em. simpl in Em. destruct Em as [Em1 Em2].
    replace (pos + elem_length (EStr str0)) with (offset L c) by lia.
    pose proof (@find_node_some L (index mt) (List.length L - c) c (Nat.le_refl _)) as Hsome.
    destruct (find_node (skipn c L) c (offset L c) (index mt)) as [[c' p]|] eqn:Ef.
    2:{ apply Hsome; [lia | reflexivity]. }
    apply (@find_node_spec L (index mt) (List.length L - c)) in Ef; [|lia].
    destruct Ef as (F1 & F2 & F3 & F4 & F5).
    assert (Hc' : c' <= List.length L) by lia.
    destruct (node_value L c') as [value'|] eqn:Ev'.
    2:{ destruct c' as [|c']; [lia|]. simpl in Ev'.
        apply nth_error_None in Ev'. lia. }
    pose proof (node_offset _ _ Ev') as Hoff'.
    pose proof (node_value_nth _ _ Ev') as (Hc1 & Hnth' & _).
    assert (Hp' : p - elem_length value' = offset L (pred c')) by lia.
    rewrite Hp'.
    assert (Hfrom : offset L (pred c') <= index mt).
    { destruct F5 as [->|F5]; [lia | exact F5]. }
    assert (Hmono : pos <= offset L (pred c')).
    { rewrite Hpos. apply offset_mono. lia. }
    destruct value' as [s'|t'].
    2:{ split; [lia|]. unfold ok_at. simpl pred. repeat split; auto; lia. }
    destruct (span (skipn (pred c') L) 1 (offset L (pred c'))
                (index mt + List.length (m0 mt))) as [count p'] eqn:Es.
    pose proof Es as Es0.
    apply (@span_spec L _ (List.length L - pred c')) in Es; [|lia].
    destruct Es as (S1 & S2 & S3 & S4 & S5).
    specialize (S5 _ Hnth' eq_refl).
    assert (Hcnt : pred c' + pred count <= List.length L) by lia.
    replace (pred c' + (count - 1)) with (pred c' + pred count) in * by lia.
    assert (Hto : index mt + List.length (m0 mt) <= p').
    { destruct (nth_error L (pred c' + pred count)) as [k|] eqn:Ek.
      - now apply (S4 k).
      - apply nth_error_None in Ek. rewrite S3, (offset_all _ Ek). lia. }
    assert (Hp'le : p' <= List.length text) by (rewrite S3, <- Hsum; apply offset_le).
    assert (Hp'ge : offset L (pred c') <= p')
      by (rewrite S3; apply offset_mono; lia).
    cbn [index m0].
    split; [lia|]. split; [unfold ok_at; repeat split; auto; lia|].
    split; [lia|]. split; [eauto|]. split; [lia|]. split; [lia|].
    rewrite (slice_length _ _ Hp'le).
    split; [lia|]. split; [lia|]. split; [lia|].
    split.
    { intros k Hk. left. now apply (S4 k). }
    intros s Hsn Hfit Hnext.
    rewrite Ev' in Hsn. injection Hsn as <-.
    assert (Hone : span (skipn (pred c') L) 1 (offset L (pred c'))
                     (index mt + List.length (m0 mt)) = (2, offset L (S (pred c')))).
    { apply span_one with (s := s'); auto; [lia|].
      replace (S (pred c')) with c' by lia. exact Hnext. }
    rewrite Hone in Es0. injection Es0 as <- _. reflexivity.
  - destruct (matchPattern _ 0 str0 _) as [mt|] eqn:Em.
    2:{ split; [lia|]. unfold ok_at. simpl pred. repeat split; auto; lia. }
    apply matchPattern_spec in Em. destruct Em as [_ Em2].
    split; [lia|]. split; [unfold ok_at; repeat split; auto; lia|].
    split; [lia|]. split; [eauto|]. split; [lia|]. split; [lia|].
    replace (pred c + 1) with c by lia. simpl in Hoff.
    split; [lia|]. split; [exact Em2|]. split; [lia|].
    split; [intros; now right | intros; reflexivity].
Qed.

Lemma pieces_length (str0 : str) (mt : Match) :
  List.length (m0 mt) = 0 \/ index mt + List.length (m0 mt) <= List.length str0 ->
  List.length (slice str0 0 (index mt)) + List.length (m0 mt)
  + List.length (slice_from str0 (index mt + List.length (m0 mt))) = List.length str0.
Proof.
  unfold slice, slice_from. rewrite length_firstn, !length_skipn. simpl. lia.
Qed.

Lemma sumlen_opt (s : str) :
  sumlen (if truthy s then [EStr s] else []) = List.length s.
Proof. destruct s; unfold sumlen; simpl; lia. Qed.

Lemma length_opt (s : str) :
  List.length (if truthy s then [EStr s] else []) = (if truthy s then 1 else 0).
Proof. destruct s; reflexivity. Qed.

(** What the writes after a match leave: the text is still covered, the
    nodes before the match are untouched, and the new token sits at the
    returned node and offset. *)
Lemma splice_spec L cn p str0 mt rc w :
  1 <= cn -> pred cn + rc <= List.length L ->
  p = offset L (pred cn) ->
  offset L (pred cn + rc) = p + List.length str0 ->
  (List.length (m0 mt) = 0 \/ index mt + List.length (m0 mt) <= List.length str0) ->
  elem_length w = List.length (m0 mt) ->
  forall L4 cn1 p1, splice L cn p str0 mt rc w = (L4, cn1, p1) ->
  sumlen L4 = sumlen L /\
  firstn (pred cn) L4 = firstn (pred cn) L /\
  cn <= cn1 /\ node_value L4 cn1 = Some w /\
  p1 = offset L4 (pred cn1) /\ cn1 <= List.length L4 /\
  p1 = p + List.length (slice str0 0 (index mt)) /\
  List.length L4 + rc
  = List.length L + 1 + (if truthy (slice str0 0 (index mt)) then 1 else 0)
    + (if truthy (slice_from str0 (index mt + List.length (m0 mt))) then 1 else 0).
Proof.
  intros Hcn Hrc Hp Hoff Hm Hw L4 cn1 p1 H.
  rewrite splice_eq in H by lia. cbv zeta in H.
  set (before := slice str0 0 (index mt)) in *.
  set (after := slice_from str0 (index mt + List.length (m0 mt))) in *.
  pose proof (pieces_length str0 mt Hm) as Hpieces. fold before after in Hpieces.
  injection H as <- <- <-.
  assert (HP : List.length (firstn (pred cn) L) = pred cn) by (rewrite length_firstn; lia).
  pose proof (sumlen_split (pred cn + rc) L) as Hs. rewrite Hoff in Hs.
  split.
  { rewrite !sumlen_app, sumlen_cons, sumlen_app, !sumlen_opt.
    fold (offset L (pred cn)). lia. }
  split.
  { now rewrite (firstn_at_app _ _ HP). }
  split.
  { destruct (truthy before); lia. }
  split.
  { destruct (truthy before) eqn:Eb.
    - simpl node_value. rewrite nth_error_app2 by lia. rewrite HP.
      replace (cn - pred cn) with 1 by lia. reflexivity.
    - destruct cn as [|cn]; [lia|]. simpl node_value. simpl pred in *.
      rewrite nth_error_app2 by lia. rewrite HP, Nat.sub_diag. reflexivity. }
  split.
  { unfold offset. destruct (truthy before) eqn:Eb.
    - simpl pred.
      replace (firstn (pred cn) L ++ [EStr before] ++ w :: (if truthy after then [EStr after] else []) ++ skipn (pred cn + rc) L)
        with ((firstn (pred cn) L ++ [EStr before]) ++ w :: (if truthy after then [EStr after] else []) ++ skipn (pred cn + rc) L)
        by (now rewrite <- app_assoc).
      rewrite firstn_at_app by (rewrite length_app; simpl; lia).
      rewrite sumlen_app. fold (offset L (pred cn)).
      change (sumlen [EStr before]) with (List.length before + 0). lia.
    - simpl app. rewrite (firstn_at_app _ _ HP). fold (offset L (pred cn)). lia. }
  split.
  { rewrite !length_app. simpl. rewrite !length_app, HP, length_opt.
    destruct (truthy before); simpl; lia. }
  split.
  { destruct (truthy before) eqn:Eb; [reflexivity|].
    apply truthy_false in Eb. rewrite Eb. simpl. lia. }
  rewrite !length_app. simpl. rewrite !length_app, HP, !length_opt, length_skipn.
  lia.
Qed.

(** ** The engine keeps the list a cover of the text *)


Lemma kept_refl L n : kept L L n.
Proof. reflexivity. Qed.

Lemma kept_le L L' n m : kept L L' n -> m <= n -> kept L L' m.
Proof. intros H Hm. exact (firstn_prefix _ _ H Hm). Qed.

Lemma kept_trans A B C n : kept A B n -> kept B C n -> kept A C n.
Proof. unfold kept. congruence. Qed.

Lemma kept_node L L' n c :
  kept L L' n -> 1 <= c <= n -> node_value L' c = node_value L c.
Proof.
  intros H Hc. destruct c as [|c]; [lia|]. simpl.
  eapply prefix_nth; [exact H | lia].
Qed.


Section Cover.

Variable tokenize_ : Store -> str -> gid -> outcome (Store * TokenStream).
Variable text : str.
Variable grammar : list (str * GValue).

Hypothesis tokenize_safe : forall st0 s g e, tokenize_ st0 s g <> Thrown e.

Lemma cover_step : forall fuel,
  (forall token j po s0 c pos,
     ok_at text (tokenList s0) c pos ->
     cover_post text (tokenList s0) c fst
       (mgNodes tokenize_ text grammar fuel token j po s0 c pos)) /\
  (forall token ps j s0 sn sp,
     ok_at text (tokenList s0) (S sn) sp ->
     cover_post text (tokenList s0) (S sn) fst
       (mgPatterns tokenize_ text grammar fuel token ps j s0 sn sp)) /\
  (forall keys s0 sn sp,
     ok_at text (tokenList s0) (S sn) sp ->
     cover_post text (tokenList s0) (S sn) (fun s => s)
       (mgKeys tokenize_ text grammar fuel keys s0 sn sp)).
Proof.
  induction fuel as [|fuel (IHn & IHp & IHk)].
  { repeat split; intros; exact I. }
  split; [|split].
  - (* the loop over the nodes *)
    intros token j po s0 c pos Hok. simpl mgNodes.
    pose proof (turn_spec po s0 Hok) as Ht. cbv zeta in Ht.
    destruct (turn text po s0 c pos) as [b| |c' pos'|cn p str0 mt rc].
    + simpl. repeat split; auto. apply (proj1 Hok).
    + exact Ht.
    + destruct Ht as [Hlt Hok'].
      specialize (IHn token j po s0 c' pos' Hok').
      unfold cover_post in *.
      destruct (mgNodes _ _ _ fuel token j po s0 c' pos') as [[s' b]| |]; auto.
      destruct IHn as (I1 & I2 & I3). simpl in *.
      split; [exact I1|]. split; [apply (kept_le I2); lia|].
      intros t _. apply (kept_le I2); lia.
    + destruct Ht as (Hle & Hokn & Hpos & [s Hs] & Hrc & Hrcl & Hoff & Hm & Hvalve & _).
      destruct Hokn as (Hsum & Hcn & Hcnl & Hp).
      set (tk := match inside po with
                 | Some g => r <- tokenize_ (st s0) (m0 mt) g ;; Done (fst r, CArr (snd r))
                 | None => Done (st s0, CStr (m0 mt))
                 end).
      assert (Htk : forall e, tk <> Thrown e).
      { intros e. unfold tk. destruct (inside po) as [g|]; [|discriminate].
        pose proof (@tokenize_safe (st s0) (m0 mt) g) as Hsafe.
        destruct (tokenize_ (st s0) (m0 mt) g) as [r| e'|]; simpl; try discriminate.
        exfalso. apply (Hsafe e'). reflexivity. }
      destruct tk as [r|e|]; [|exfalso; now apply (Htk e)|exact I].
      cbn [bind].
      set (w := ETok (new_Token token (snd r) (opt_alias (gt_alias po)) (Some (m0 mt)))).
      destruct (splice (tokenList s0) cn p str0 mt rc w) as [[list4 cn1] p1] eqn:Esp.
      apply splice_spec in Esp; auto.
      destruct Esp as (P1 & P2 & P3 & P4 & P5 & P6 & P7 & P8).
      assert (Hnotc : forall t, node_value (tokenList s0) c = Some (ETok t) -> c <= pred cn).
      { intros t Hc'. destruct (Nat.eq_dec c cn) as [->|]; [congruence | lia]. }
      pose proof (node_offset _ _ P4) as Hoffw.
      (* the rest of the loop, from the list [Ln] *)
      assert (Hrest : forall s1,
        sumlen (tokenList s1) = List.length text ->
        kept list4 (tokenList s1) cn1 ->
        cover_post text (tokenList s0) c fst
          (mgNodes tokenize_ text grammar fuel token j po s1 (S cn1) (p1 + elem_length w))).
      { intros s1 Hs1 Hk1.
        assert (Hok1 : ok_at text (tokenList s1) (S cn1) (p1 + elem_length w)).
        { unfold ok_at. simpl pred. split; [exact Hs1|]. split; [lia|].
          split; [apply (prefix_length _ _ Hk1); lia|].
          rewrite (offset_prefix _ _ Hk1 (Nat.le_refl _)). lia. }
        specialize (IHn token j po s1 (S cn1) (p1 + elem_length w) Hok1).
        unfold cover_post in *.
        destruct (mgNodes _ _ _ fuel token j po s1 (S cn1) _) as [[s' b]| |]; auto.
        destruct IHn as (I1 & I2 & _). simpl in *.
        assert (Hall : kept (tokenList s0) (tokenList s') (pred cn)).
        { apply kept_trans with list4; [exact P2|].
          apply kept_trans with (tokenList s1);
            [apply (kept_le Hk1); lia | apply (kept_le I2); lia]. }
        split; [exact I1|]. split; [apply (kept_le Hall); lia|].
        intros t Hc'. apply (kept_le Hall). now apply (Hnotc t). }
      destruct (1 <? rc).
      * assert (Hokk : ok_at text list4 (S (pred cn1)) p1).
        { unfold ok_at. simpl pred. repeat split; auto; lia. }
        specialize (IHk grammar
          {| st := fst r; tokenList := list4;
             rematch := Some {| cause := cause_tag token j; reach := p + List.length str0 |} |}
          (pred cn1) p1 Hokk).
        unfold cover_post in IHk. cbn [tokenList] in IHk.
        destruct (mgKeys _ _ _ fuel grammar _ (pred cn1) p1) as [n| |]; [|exact IHk|exact I].
        destruct IHk as (K1 & K2 & K3). cbn [bind].
        apply Hrest; [exact K1|].
        replace (S (pred cn1)) with cn1 in K3 by lia.
        unfold w in P4. apply (K3 _ P4).
      * cbn [bind]. apply Hrest; [cbn [tokenList]; lia | apply kept_refl].
  - (* the loop over the rules of one token name *)
    intros token ps j s0 sn sp Hok. simpl mgPatterns.
    destruct ps as [|po ps]; [simpl; repeat split; auto; apply (proj1 Hok)|].
    destruct (is_cause (rematch s0) token j);
      [simpl; repeat split; auto; apply (proj1 Hok)|].
    specialize (IHn token j po s0 (S sn) sp Hok).
    unfold cover_post in *.
    destruct (mgNodes _ _ _ fuel token j po s0 (S sn) sp) as [[s1 b]| |]; auto.
    cbn [bind snd fst] in *. destruct IHn as (I1 & I2 & I3).
    destruct b; [repeat split; auto|].
    assert (Hok1 : ok_at text (tokenList s1) (S sn) sp).
    { destruct Hok as (H1 & H2 & H3 & H4). unfold ok_at. simpl pred in *.
      split; [exact I1|]. split; [lia|].
      split; [apply (prefix_length _ _ I2); lia|].
      rewrite (offset_prefix _ _ I2 (Nat.le_refl _)). exact H4. }
    specialize (IHp token ps (S j) s1 sn sp Hok1).
    destruct (mgPatterns _ _ _ fuel token ps (S j) s1 sn sp) as [[s2 b2]| |]; auto.
    cbn [fst] in *. destruct IHp as (J1 & J2 & J3).
    split; [exact J1|]. split; [exact (kept_trans I2 J2)|].
    intros t Ht. specialize (I3 t Ht).
    apply (kept_trans I3). apply (J3 t).
    rewrite (kept_node I3); [exact Ht | lia].
  - (* the loop over the token names *)
    intros keys s0 sn sp Hok. simpl mgKeys.
    destruct keys as [|[token v] keys]; [simpl; repeat split; auto; apply (proj1 Hok)|].
    destruct (patterns_of v) as [ps|]; [|apply IHk; exact Hok].
    specialize (IHp token ps 0 s0 sn sp Hok).
    unfold cover_post in *.
    destruct (mgPatterns _ _ _ fuel token ps 0 s0 sn sp) as [[s1 b]| |]; auto.
    cbn [bind snd fst] in *. destruct IHp as (I1 & I2 & I3).
    destruct b; [repeat split; auto|].
    assert (Hok1 : ok_at text (tokenList s1) (S sn) sp).
    { destruct Hok as (H1 & H2 & H3 & H4). unfold ok_at. simpl pred in *.
      split; [exact I1|]. split; [lia|].
      split; [apply (prefix_length _ _ I2); lia|].
      rewrite (offset_prefix _ _ I2 (Nat.le_refl _)). exact H4. }
    specialize (IHk keys s1 sn sp Hok1).
    destruct (mgKeys _ _ _ fuel keys s1 sn sp) as [s2| |]; auto.
    destruct IHk as (J1 & J2 & J3).
    split; [exact J1|]. split; [exact (kept_trans I2 J2)|].
    intros t Ht. specialize (I3 t Ht).
    apply (kept_trans I3). apply (J3 t).
    rewrite (kept_node I3); [exact Ht | lia].
Qed.

End Cover.

(** ** The shape of the list: no empty string, no two strings in a row *)


Lemma tidy_tail P Y : tidy (P ++ Y) = true -> tidy Y = true.
Proof.
  induction P as [|[s|t] P IH]; simpl; auto.
  intros H. apply andb_true_iff in H. destruct H as [_ H]. auto.
Qed.

Lemma tidy_skipn n l : tidy l = true -> tidy (skipn n l) = true.
Proof.
  intros H. rewrite <- (firstn_skipn n l) in H. exact (tidy_tail _ _ H).
Qed.

Lemma tidy_new_tail P s R X :
  tidy (P ++ EStr s :: R) = true -> tidy X = true -> tidy (P ++ X) = true.
Proof.
  induction P as [|[a|t] P IH]; simpl; auto.
  intros H HX. apply andb_true_iff in H. destruct H as [H H3].
  apply andb_true_iff in H. destruct H as [H1 H2].
  rewrite H1, (IH H3 HX). simpl.
  destruct P as [|x P]; simpl in *; [discriminate|].
  now rewrite H2.
Qed.

Lemma tidy_str_inv s R :
  tidy (EStr s :: R) = true -> starts_str R = false /\ tidy R = true.
Proof.
  simpl. intros H. apply andb_true_iff in H. destruct H as [H H3].
  apply andb_true_iff in H. destruct H as [H1 H2].
  split; [now destruct (starts_str R) | exact H3].
Qed.

Lemma starts_str_nth l :
  (forall k, nth_error l 0 = Some k -> is_string k = false) -> starts_str l = false.
Proof.
  destruct l as [|[s|t] l]; simpl; auto. intros H. now apply (H (EStr s)).
Qed.

(** The writes after a match keep the list tidy. *)
Lemma tidy_splice L cn rc s before after w :
  node_value L cn = Some (EStr s) -> tidy L = true -> 1 <= rc ->
  (forall k, nth_error L (pred cn + rc) = Some k -> is_string k = false \/ rc = 1) ->
  is_string w = false ->
  tidy (firstn (pred cn) L
          ++ (if truthy before then [EStr before] else [])
          ++ w :: (if truthy after then [EStr after] else [])
          ++ skipn (pred cn + rc) L) = true.
Proof.
  intros Hn Ht Hrc Hfol Hw.
  apply node_value_nth in Hn. destruct Hn as (Hc & Hnth & Hcl).
  pose proof (firstn_skipn_middle _ _ Hnth) as Hmid.
  replace (S (pred cn)) with cn in Hmid by lia.
  set (R := skipn (pred cn + rc) L).
  assert (HR : tidy R = true) by (apply tidy_skipn; exact Ht).
  assert (HR0 : starts_str (skipn cn L) = false /\ tidy (skipn cn L) = true).
  { apply (tidy_str_inv s). apply (tidy_tail (firstn (pred cn) L)).
    now rewrite Hmid. }
  assert (HRs : starts_str R = false).
  { apply starts_str_nth. intros k Hk. unfold R in Hk.
    rewrite nth_error_skipn, Nat.add_0_r in Hk.
    destruct (Hfol k Hk) as [H|H]; [exact H|].
    subst rc. replace (pred cn + 1) with cn in Hk by lia.
    destruct HR0 as [HR0 _].
    destruct (skipn cn L) as [|k' r'] eqn:E; [apply skipn_nil_length in E; apply nth_error_lt in Hk; lia|].
    apply skipn_cons_nth in E. destruct E as (E & _).
    rewrite E in Hk. injection Hk as <-. now destruct k'. }
  rewrite <- Hmid in Ht.
  eapply tidy_new_tail; [exact Ht|].
  destruct w as [ws|wt]; [discriminate|].
  destruct (truthy before) eqn:Eb, (truthy after) eqn:Ea; simpl;
    rewrite ?Eb, ?Ea, ?HRs, ?HR; reflexivity.
Qed.

Section Tidy.

Variable tokenize_ : Store -> str -> gid -> outcome (Store * TokenStream).
Variable text : str.
Variable grammar : list (str * GValue).

Hypothesis tokenize_safe : forall st0 s g e, tokenize_ st0 s g <> Thrown e.


Lemma tidy_step : forall fuel,
  (forall token j po s0 c pos,
     ok_at text (tokenList s0) c pos -> tidy (tokenList s0) = true ->
     tidy_post fst (mgNodes tokenize_ text grammar fuel token j po s0 c pos)) /\
  (forall token ps j s0 sn sp,
     ok_at text (tokenList s0) (S sn) sp -> tidy (tokenList s0) = true ->
     tidy_post fst (mgPatterns tokenize_ text grammar fuel token ps j s0 sn sp)) /\
  (forall keys s0 sn sp,
     ok_at text (tokenList s0) (S sn) sp -> tidy (tokenList s0) = true ->
     tidy_post (fun s => s) (mgKeys tokenize_ text grammar fuel keys s0 sn sp)).
Proof.
  induction fuel as [|fuel (IHn & IHp & IHk)].
  { repeat split; intros; exact I. }
  destruct (@cover_step tokenize_ text grammar tokenize_safe fuel) as (Cn & Cp & Ck).
  split; [|split].
  - intros token j po s0 c pos Hok Htidy. simpl mgNodes.
    pose proof (turn_spec po s0 Hok) as Ht. cbv zeta in Ht.
    destruct (turn text po s0 c pos) as [b| |c' pos'|cn p str0 mt rc].
    + exact Htidy.
    + exact I.
    + apply IHn; [apply Ht | exact Htidy].
    + destruct Ht as (Hle & Hokn & Hpos & [s Hs] & Hrc & Hrcl & Hoff & Hm & Hvalve & Hfol & _).
      destruct Hokn as (Hsum & Hcn & Hcnl & Hp).
      destruct (match inside po with
                | Some g => r <- tokenize_ (st s0) (m0 mt) g ;; Done (fst r, CArr (snd r))
                | None => Done (st s0, CStr (m0 mt))
                end) as [r|e|]; [|exact I|exact I].
      cbn [bind].
      set (w := ETok (new_Token token (snd r) (opt_alias (gt_alias po)) (Some (m0 mt)))).
      destruct (splice (tokenList s0) cn p str0 mt rc w) as [[list4 cn1] p1] eqn:Esp.
      pose proof Esp as Esp'.
      apply splice_spec in Esp; auto.
      destruct Esp as (P1 & P2 & P3 & P4 & P5 & P6 & P7 & P8).
      rewrite splice_eq in Esp' by lia. cbv zeta in Esp'.
      assert (Htidy4 : tidy list4 = true).
      { injection Esp' as <- _ _. now apply tidy_splice with (s := s). }
      pose proof (node_offset _ _ P4) as Hoffw.
      assert (Hrest : forall s1,
        sumlen (tokenList s1) = List.length text ->
        kept list4 (tokenList s1) cn1 -> tidy (tokenList s1) = true ->
        tidy_post fst
          (mgNodes tokenize_ text grammar fuel token j po s1 (S cn1) (p1 + elem_length w))).
      { intros s1 Hs1 Hk1 Ht1. apply IHn; [|exact Ht1].
        unfold ok_at. simpl pred. split; [exact Hs1|]. split; [lia|].
        split; [apply (prefix_length _ _ Hk1); lia|].
        rewrite (offset_prefix _ _ Hk1 (Nat.le_refl _)). lia. }
      destruct (1 <? rc).
      * assert (Hokk : ok_at text list4 (S (pred cn1)) p1).
        { unfold ok_at. simpl pred. repeat split; auto; lia. }
        set (sk := {| st := fst r; tokenList := list4;
             rematch := Some {| cause := cause_tag token j; reach := p + List.length str0 |} |}).
        specialize (IHk grammar sk (pred cn1) p1 Hokk Htidy4).
        specialize (Ck grammar sk (pred cn1) p1 Hokk).
        unfold cover_post, tidy_post in IHk, Ck. cbn [tokenList sk] in Ck.
        destruct (mgKeys _ _ _ fuel grammar sk (pred cn1) p1) as [n| |]; [|exact I|exact I].
        destruct Ck as (K1 & K2 & K3). cbn [bind].
        apply Hrest; [exact K1| |exact IHk].
        replace (S (pred cn1)) with cn1 in K3 by lia.
        unfold w in P4. apply (K3 _ P4).
      * cbn [bind]. apply Hrest; [cbn [tokenList]; lia | apply kept_refl | exact Htidy4].
  - intros token ps j s0 sn sp Hok Htidy. simpl mgPatterns.
    destruct ps as [|po ps]; [exact Htidy|].
    destruct (is_cause (rematch s0) token j); [exact Htidy|].
    specialize (IHn token j po s0 (S sn) sp Hok Htidy).
    specialize (Cn token j po s0 (S sn) sp Hok).
    unfold cover_post, tidy_post in *.
    destruct (mgNodes _ _ _ fuel token j po s0 (S sn) sp) as [[s1 b]| |]; auto.
    cbn [bind snd fst] in *. destruct Cn as (I1 & I2 & I3).
    destruct b; [exact IHn|].
    apply IHp; [|exact IHn].
    destruct Hok as (H1 & H2 & H3 & H4). unfold ok_at. simpl pred in *.
    split; [exact I1|]. split; [lia|].
    split; [apply (prefix_length _ _ I2); lia|].
    rewrite (offset_prefix _ _ I2 (Nat.le_refl _)). exact H4.
  - intros keys s0 sn sp Hok Htidy. simpl mgKeys.
    destruct keys as [|[token v] keys]; [exact Htidy|].
    destruct (patterns_of v) as [ps|]; [|apply IHk; assumption].
    specialize (IHp token ps 0 s0 sn sp Hok Htidy).
    specialize (Cp token ps 0 s0 sn sp Hok).
    unfold cover_post, tidy_post in *.
    destruct (mgPatterns _ _ _ fuel token ps 0 s0 sn sp) as [[s1 b]| |]; auto.
    cbn [bind snd fst] in *. destruct Cp as (I1 & I2 & I3).
    destruct b; [exact IHp|].
    apply IHk; [|exact IHp].
    destruct Hok as (H1 & H2 & H3 & H4). unfold ok_at. simpl pred in *.
    split; [exact I1|]. split; [lia|].
    split; [apply (prefix_length _ _ I2); lia|].
    rewrite (offset_prefix _ _ I2 (Nat.le_refl _)). exact H4.
Qed.

End Tidy.

(** ** More fuel changes no result *)

Section Mono.

Variables tok tok' : Store -> str -> gid -> outcome (Store * TokenStream).
Variable text : str.
Variable grammar : list (str * GValue).

Hypothesis tok_le : forall st0 s g r, tok st0 s g = Done r -> tok' st0 s g = Done r.

Lemma mg_mono : forall fuel,
  (forall fuel' token j po s0 c pos r, fuel <= fuel' ->
     mgNodes tok text grammar fuel token j po s0 c pos = Done r ->
     mgNodes tok' text grammar fuel' token j po s0 c pos = Done r) /\
  (forall fuel' token ps j s0 sn sp r, fuel <= fuel' ->
     mgPatterns tok text grammar fuel token ps j s0 sn sp = Done r ->
     mgPatterns tok' text grammar fuel' token ps j s0 sn sp = Done r) /\
  (forall fuel' keys s0 sn sp r, fuel <= fuel' ->
     mgKeys tok text grammar fuel keys s0 sn sp = Done r ->
     mgKeys tok' text grammar fuel' keys s0 sn sp = Done r).
Proof.
  induction fuel as [|fuel (IHn & IHp & IHk)].
  { repeat split; intros; discriminate. }
  split; [|split].
  - intros [|fuel'] token j po s0 c pos r Hle; [lia|].
    assert (Hle' : fuel <= fuel') by lia.
    simpl mgNodes.
    destruct (turn text po s0 c pos) as [b| |c' pos'|cn p str0 mt rc];
      [intros E; exact E | intros E; exact E | |].
    + apply IHn; exact Hle'.
    + assert (Htk : forall x, match inside po with
                | Some g => r <- tok (st s0) (m0 mt) g ;; Done (fst r, CArr (snd r))
                | None => Done (st s0, CStr (m0 mt))
                end = Done x ->
                match inside po with
                | Some g => r <- tok' (st s0) (m0 mt) g ;; Done (fst r, CArr (snd r))
                | None => Done (st s0, CStr (m0 mt))
                end = Done x).
      { intros x. destruct (inside po) as [g|]; auto.
        destruct (tok (st s0) (m0 mt) g) as [y| |] eqn:E; try discriminate.
        now rewrite (tok_le E). }
      destruct (match inside po with
                | Some g => r <- tok (st s0) (m0 mt) g ;; Done (fst r, CArr (snd r))
                | None => Done (st s0, CStr (m0 mt))
                end) as [x| |]; try discriminate.
      rewrite (Htk x eq_refl). cbn [bind].
      destruct (splice _ _ _ _ _ _ _) as [[list4 cn1] p1].
      destruct (1 <? rc).
      * destruct (mgKeys tok _ _ fuel _ _ _ _) as [n| |] eqn:E; try discriminate.
        rewrite (IHk fuel' _ _ _ _ _ Hle' E). cbn [bind].
        apply IHn; exact Hle'.
      * cbn [bind]. apply IHn; exact Hle'.
  - intros [|fuel'] token ps j s0 sn sp r Hle; [lia|].
    assert (Hle' : fuel <= fuel') by lia.
    simpl mgPatterns.
    destruct ps as [|po ps]; [intros H; exact H|].
    destruct (is_cause (rematch s0) token j); [intros H; exact H|].
    destruct (mgNodes tok _ _ fuel _ _ _ _ _ _) as [[s1 b]| |] eqn:E; try discriminate.
    rewrite (IHn fuel' _ _ _ _ _ _ _ Hle' E). cbn [bind snd fst].
    destruct b; [intros H; exact H | apply IHp; exact Hle'].
  - intros [|fuel'] keys s0 sn sp r Hle; [lia|].
    assert (Hle' : fuel <= fuel') by lia.
    simpl mgKeys.
    destruct keys as [|[token v] keys]; [intros H; exact H|].
    destruct (patterns_of v) as [ps|]; [|apply IHk; exact Hle'].
    destruct (mgPatterns tok _ _ fuel _ _ _ _ _ _) as [[s1 b]| |] eqn:E; try discriminate.
    rewrite (IHp fuel' _ _ _ _ _ _ _ Hle' E). cbn [bind snd fst].
    destruct b; [intros H; exact H | apply IHk; exact Hle'].
Qed.

End Mono.

Lemma tokenize_unfold fuel st0 text g :
  tokenize (S fuel) st0 text g =
  (r <- matchGrammar (tokenize fuel) text (rules (merged st0 g g)) fuel
          {| st := merged st0 g; tokenList := [EStr text]; rematch := None |} 0 0 ;;
   Done (st r, toArray (tokenList r))).
Proof. reflexivity. Qed.

Lemma tokenize_mono : forall fuel fuel' st0 text g r,
  fuel <= fuel' -> tokenize fuel st0 text g = Done r -> tokenize fuel' st0 text g = Done r.
Proof.
  induction fuel as [|fuel IH]; intros [|fuel'] st0 text g r Hle; try discriminate; [lia|].
  assert (Hle' : fuel <= fuel') by lia.
  rewrite !tokenize_unfold. unfold matchGrammar.
  set (st1 := merged st0 g).
  destruct (mgKeys (tokenize fuel) _ _ fuel _ _ _ _) as [n| |] eqn:E; try discriminate.
  assert (Hsub : forall st2 s h x, tokenize fuel st2 s h = Done x -> tokenize fuel' st2 s h = Done x)
    by (intros; now apply IH).
  destruct (@mg_mono (tokenize fuel) (tokenize fuel') text (rules (st1 g)) Hsub fuel)
    as (_ & _ & Hk).
  now rewrite (Hk fuel' _ _ _ _ _ Hle' E).
Qed.

(** ** [tokenize] raises nothing, and its stream covers the text *)

Lemma tokenize_safe : forall fuel st0 text g e, tokenize fuel st0 text g <> Thrown e.
Proof.
  induction fuel as [|fuel IH]; intros st0 text g e; [discriminate|].
  rewrite !tokenize_unfold. unfold matchGrammar.
  set (st1 := merged st0 g).
  destruct (@cover_step (tokenize fuel) text (rules (st1 g)) IH fuel) as (_ & _ & Hk).
  specialize (Hk (rules (st1 g)) {| st := st1; tokenList := [EStr text]; rematch := None |} 0 0).
  unfold cover_post in Hk. cbn [tokenList] in Hk.
  destruct (mgKeys _ _ _ fuel _ _ 0 0) as [n|e'|]; try discriminate.
  exfalso. apply Hk. unfold ok_at, offset, sumlen. simpl. repeat split; lia.
Qed.

Lemma ok_at_start text : ok_at text [EStr text] 1 0.
Proof. unfold ok_at, offset, sumlen. simpl. repeat split; lia. Qed.

Lemma tokenize_cover fuel st0 text g st' stream :
  tokenize fuel st0 text g = Done (st', stream) -> sumlen stream = List.length text.
Proof.
  destruct fuel as [|fuel]; [discriminate|].
  rewrite !tokenize_unfold. unfold matchGrammar.
  set (st1 := merged st0 g).
  destruct (@cover_step (tokenize fuel) text (rules (st1 g)) (tokenize_safe fuel) fuel)
    as (_ & _ & Hk).
  specialize (Hk (rules (st1 g)) {| st := st1; tokenList := [EStr text]; rematch := None |} 0 0
                 (ok_at_start text)).
  unfold cover_post in Hk.
  destruct (mgKeys _ _ _ fuel _ _ 0 0) as [n| |]; try discriminate.
  cbn [bind]. intros [= _ <-]. apply Hk.
Qed.

Lemma tokenize_tidy fuel st0 text g st' stream :
  text <> [] ->
  tokenize fuel st0 text g = Done (st', stream) -> tidy stream = true.
Proof.
  intros Hne. destruct fuel as [|fuel]; [discriminate|].
  rewrite !tokenize_unfold. unfold matchGrammar.
  set (st1 := merged st0 g).
  destruct (@tidy_step (tokenize fuel) text (rules (st1 g)) (tokenize_safe fuel) fuel)
    as (_ & _ & Hk).
  specialize (Hk (rules (st1 g)) {| st := st1; tokenList := [EStr text]; rematch := None |} 0 0
                 (ok_at_start text)).
  unfold tidy_post in Hk.
  destruct (mgKeys _ _ _ fuel _ _ 0 0) as [n| |]; try discriminate.
  cbn [bind]. intros [= _ <-]. apply Hk.
  simpl. destruct text; [congruence | reflexivity].
Qed.

(** ** The safety valve *)

Lemma turn_valve text po s0 c pos :
  List.length text < List.length (tokenList s0) ->
  exists b, turn text po s0 c pos = TExit b.
Proof.
  intros H. unfold turn.
  destruct (node_value (tokenList s0) c); [|now exists false].
  destruct (reached (rematch s0) pos); [now exists false|].
  apply Nat.ltb_lt in H. rewrite H. now exists true.
Qed.


Section Valve.

Variable tokenize_ : Store -> str -> gid -> outcome (Store * TokenStream).
Variable text : str.
Variable grammar : list (str * GValue).
Variable s0 : MG.

Hypothesis too_long : List.length text < List.length (tokenList s0).

Lemma valve_nodes fuel token j po c pos :
  exists b, mgNodes tokenize_ text grammar (S fuel) token j po s0 c pos = Done (s0, b).
Proof.
  simpl. destruct (turn_valve text po s0 c pos too_long) as [b ->]. now exists b.
Qed.

Lemma valve_patterns token sn sp : forall ps fuel j,
  List.length ps + 1 < fuel ->
  exists b, mgPatterns tokenize_ text grammar fuel token ps j s0 sn sp = Done (s0, b).
Proof.
  induction ps as [|po ps IH]; intros [|fuel] j Hf; try lia.
  - now exists false.
  - simpl in *. destruct (is_cause (rematch s0) token j); [now exists true|].
    destruct fuel as [|fuel]; [lia|].
    destruct (valve_nodes fuel token j po (S sn) sp) as [b ->].
    cbn [bind snd fst]. destruct b; [now exists true|].
    apply IH. lia.
Qed.

Lemma valve_keys sn sp : forall keys fuel,
  valve_fuel keys <= fuel ->
  mgKeys tokenize_ text grammar fuel keys s0 sn sp = Done s0.
Proof.
  induction keys as [|[token v] keys IH]; intros [|fuel] Hf; simpl in Hf; try lia.
  - reflexivity.
  - simpl. destruct (patterns_of v) as [ps|]; [|apply IH; lia].
    destruct (valve_patterns token sn sp ps (fuel := fuel) 0) as [b ->]; [lia|].
    cbn [bind snd fst]. destruct b; [reflexivity|]. apply IH. lia.
Qed.

End Valve.

(** The tokenization of the empty text: the list [[""]] is longer than the
    text, so the valve ends every loop at once. *)
Lemma tokenize_empty st0 g fuel :
  valve_fuel (rules (merged st0 g g)) < fuel ->
  tokenize fuel st0 [] g = Done (merged st0 g, [EStr []]).
Proof.
  intros Hf. destruct fuel as [|fuel]; [lia|].
  rewrite tokenize_unfold. unfold matchGrammar.
  rewrite valve_keys; [reflexivity | simpl; lia | lia].
Qed.

(** ** Objects, tags and causes *)


Lemma str_eqb_eq a b : str_eqb a b = true <-> a = b.
Proof. unfold str_eqb. destruct (list_eq_dec ascii_dec a b); split; congruence. Qed.

Lemma str_eqb_refl a : str_eqb a a = true.
Proof. now apply str_eqb_eq. Qed.

Lemma obj_set_In (V : Type) (o : list (str * V)) k v k' v' :
  In (k', v') (obj_set o k v) -> In (k', v') o \/ (k', v') = (k, v).
Proof.
  induction o as [|[k0 v0] o IH]; simpl.
  - intros [H|[]]. right. now symmetry.
  - destruct (str_eqb k0 k) eqn:E; simpl.
    + intros [H|H]; [|left; now right].
      apply str_eqb_eq in E. subst k0. right. now symmetry.
    + intros [H|H]; [left; now left|].
      destruct (IH H) as [H'|H']; [left; now right | now right].
Qed.

Lemma obj_assign_In (V : Type) (src dst : list (str * V)) k v :
  In (k, v) (obj_assign dst src) -> In (k, v) dst \/ In (k, v) src.
Proof.
  unfold obj_assign. revert dst.
  induction src as [|[k0 v0] src IH]; intros dst; simpl; [now left|].
  intros H. apply IH in H. destruct H as [H|H]; [|right; now right].
  apply obj_set_In in H. destruct H as [H|H]; [now left | right; left; now symmetry].
Qed.

Lemma rules_below_le rank k k' rs :
  rules_below rank k rs -> k <= k' -> rules_below rank k' rs.
Proof.
  intros H Hk token v ps po h H1 H2 H3 H4.
  specialize (H token v ps po h H1 H2 H3 H4). lia.
Qed.

Lemma merged_ranked rank st0 g : ranked rank st0 -> ranked rank (merged st0 g).
Proof.
  intros H. unfold merged.
  destruct (rest (st0 g)) as [r|] eqn:Er; [|exact H].
  intros h. unfold upd. destruct (Nat.eqb h g) eqn:E.
  - apply Nat.eqb_eq in E. subst h. simpl. split; [|discriminate].
    intros token v ps po h' H1 H2 H3 H4.
    apply obj_assign_In in H1. destruct H1 as [H1|H1].
    + exact (proj1 (H g) token v ps po h' H1 H2 H3 H4).
    + pose proof (proj1 (H r) token v ps po h' H1 H2 H3 H4).
      pose proof (proj2 (H g) r Er). lia.
  - exact (H h).
Qed.


Lemma first_hit_nth c : forall l p,
  nth_error l p = Some c -> first_hit c l <= p.
Proof.
  induction l as [|t l IH]; intros [|p]; simpl; try discriminate.
  - intros [= ->]. now rewrite str_eqb_refl.
  - intros H. destruct (str_eqb c t); [lia|]. specialize (IH p H). lia.
Qed.

Lemma first_hit_miss c : forall l p t,
  p <= first_hit c l -> nth_error l p = Some t -> str_eqb c t = false ->
  S p <= first_hit c l.
Proof.
  induction l as [|t0 l IH]; intros [|p] t; simpl; try discriminate.
  - intros _ [= ->] ->. lia.
  - destruct (str_eqb c t0); [lia|]. intros Hp H E.
    specialize (IH p t). apply le_S_n in Hp. specialize (IH Hp H E). lia.
Qed.

Lemma first_hit_le c l : first_hit c l <= List.length l.
Proof. induction l as [|t l IH]; simpl; [lia|]. destruct (str_eqb c t); lia. Qed.

Lemma tags_app a b : tags (a ++ b) = tags a ++ tags b.
Proof.
  induction a as [|[token v] a IH]; simpl; [reflexivity|].
  now rewrite IH, app_assoc.
Qed.

Lemma tags_nth pre token v post ps j :
  patterns_of v = Some ps -> j < List.length ps ->
  nth_error (tags (pre ++ (token, v) :: post)) (List.length (tags pre) + j)
  = Some (cause_tag token j).
Proof.
  intros Hv Hj. rewrite tags_app. simpl. rewrite Hv.
  rewrite nth_error_app2 by lia.
  replace (List.length (tags pre) + j - List.length (tags pre)) with j by lia.
  rewrite nth_error_app1 by (unfold rule_tags; rewrite length_map, length_seq; lia).
  unfold rule_tags. rewrite nth_error_map, nth_error_seq.
  apply Nat.ltb_lt in Hj. rewrite Hj. reflexivity.
Qed.


Lemma same_cause_extend rm n : same_cause rm (extend_reach rm n).
Proof.
  unfold same_cause, extend_reach. destruct rm as [r|]; [|reflexivity].
  now destruct (reach r <? n).
Qed.

Lemma same_cause_limit grammar rm rm' :
  same_cause rm rm' -> limit grammar rm' = limit grammar rm.
Proof.
  unfold same_cause, limit. destruct rm, rm'; simpl; congruence.
Qed.


Lemma lex3_ind (P : nat -> nat -> nat -> Prop) :
  (forall a b c,
     (forall a' b' c',
        a' < a \/ (a' = a /\ b' < b) \/ (a' = a /\ b' = b /\ c' < c) -> P a' b' c') ->
     P a b c) ->
  forall a b c, P a b c.
Proof.
  intros H a. induction a as [a IHa] using lt_wf_ind.
  intros b. induction b as [b IHb] using lt_wf_ind.
  intros c. induction c as [c IHc] using lt_wf_ind.
  apply H. intros a' b' c' [Ha|[[-> Hb]|(-> & -> & Hc)]]; auto.
Qed.

Lemma same_cause_refl rm : same_cause rm rm.
Proof. reflexivity. Qed.

Lemma same_cause_trans a b c : same_cause a b -> same_cause b c -> same_cause a c.
Proof. unfold same_cause. congruence. Qed.

Section Cause.

Variable tokenize_ : Store -> str -> gid -> outcome (Store * TokenStream).
Variable text : str.
Variable grammar : list (str * GValue).


(** An invocation keeps the cause of its rematch object. *)
Lemma cause_step : forall fuel,
  (forall token j po s0 c pos,
     cause_post (rematch s0) fst (mgNodes tokenize_ text grammar fuel token j po s0 c pos)) /\
  (forall token ps j s0 sn sp,
     cause_post (rematch s0) fst (mgPatterns tokenize_ text grammar fuel token ps j s0 sn sp)) /\
  (forall keys s0 sn sp,
     cause_post (rematch s0) (fun s => s) (mgKeys tokenize_ text grammar fuel keys s0 sn sp)).
Proof.
  induction fuel as [|fuel (IHn & IHp & IHk)].
  { repeat split; intros; exact I. }
  split; [|split].
  - intros token j po s0 c pos. simpl mgNodes.
    destruct (turn text po s0 c pos) as [b| |c' pos'|cn p str0 mt rc].
    + apply same_cause_refl.
    + exact I.
    + apply IHn.
    + destruct (match inside po with
                | Some g => r <- tokenize_ (st s0) (m0 mt) g ;; Done (fst r, CArr (snd r))
                | None => Done (st s0, CStr (m0 mt))
                end) as [r|e|]; [|exact I|exact I].
      cbn [bind].
      destruct (splice _ _ _ _ _ _ _) as [[list4 cn1] p1].
      destruct (1 <? rc).
      * destruct (mgKeys _ _ _ fuel _ _ _ _) as [n| |]; [|exact I|exact I].
        cbn [bind].
        match goal with |- cause_post _ _ (mgNodes _ _ _ _ _ _ _ ?s1 _ _) =>
          specialize (IHn token j po s1 (S cn1) (p1 + elem_length
            (ETok (new_Token token (snd r) (opt_alias (gt_alias po)) (Some (m0 mt))))));
          assert (Hs1 : same_cause (rematch s0) (rematch s1))
        end.
        { cbn [rematch]. destruct (rematch n) as [nr|].
          - eapply same_cause_trans; apply same_cause_extend.
          - apply same_cause_extend. }
        unfold cause_post in *.
        destruct (mgNodes _ _ _ fuel _ _ _ _ _ _) as [[s' b]| |]; auto.
        exact (same_cause_trans Hs1 IHn).
      * cbn [bind].
        match goal with |- cause_post _ _ (mgNodes _ _ _ _ _ _ _ ?s1 _ _) =>
          specialize (IHn token j po s1 (S cn1) (p1 + elem_length
            (ETok (new_Token token (snd r) (opt_alias (gt_alias po)) (Some (m0 mt))))))
        end.
        unfold cause_post in *. cbn [rematch] in IHn.
        destruct (mgNodes _ _ _ fuel _ _ _ _ _ _) as [[s' b]| |]; auto.
        exact (same_cause_trans (same_cause_extend _ _) IHn).
  - intros token ps j s0 sn sp. simpl mgPatterns.
    destruct ps as [|po ps]; [apply same_cause_refl|].
    destruct (is_cause (rematch s0) token j); [apply same_cause_refl|].
    specialize (IHn token j po s0 (S sn) sp). unfold cause_post in *.
    destruct (mgNodes _ _ _ fuel _ _ _ _ _ _) as [[s1 b]| |]; auto.
    cbn [bind snd fst] in *. destruct b; [exact IHn|].
    specialize (IHp token ps (S j) s1 sn sp).
    destruct (mgPatterns _ _ _ fuel _ _ _ _ _ _) as [[s2 b2]| |]; auto.
    exact (same_cause_trans IHn IHp).
  - intros keys s0 sn sp. simpl mgKeys.
    destruct keys as [|[token v] keys]; [apply same_cause_refl|].
    destruct (patterns_of v) as [ps|]; [|apply IHk].
    specialize (IHp token ps 0 s0 sn sp). unfold cause_post in *.
    destruct (mgPatterns _ _ _ fuel _ _ _ _ _ _) as [[s1 b]| |]; auto.
    cbn [bind snd fst] in *. destruct b; [exact IHp|].
    specialize (IHk keys s1 sn sp).
    destruct (mgKeys _ _ _ fuel _ _ _ _) as [s2| |]; auto.
    exact (same_cause_trans IHp IHk).
Qed.

End Cause.

Lemma tidy_nth_str : forall L i s,
  tidy L = true -> nth_error L i = Some (EStr s) ->
  truthy s = true /\ (forall k, nth_error L (S i) = Some k -> is_string k = false).
Proof.
  induction L as [|e L IH]; intros [|i] s Ht H; simpl in H; try discriminate.
  - injection H as ->. apply andb_true_iff in Ht. destruct Ht as [Ht _].
    apply andb_true_iff in Ht. destruct Ht as [H1 H2].
    split; [exact H1|]. intros k Hk. simpl in Hk.
    destruct L as [|[a|t] L]; simpl in *; try discriminate; now injection Hk as <-.
  - apply (IH i s); [|exact H]. exact (tidy_tail [e] L Ht).
Qed.

Lemma lift_nodes text grammar N N' M token j po s0 c pos r :
  N <= N' -> N <= M ->
  mgNodes (tokenize N) text grammar N token j po s0 c pos = Done r ->
  mgNodes (tokenize N') text grammar M token j po s0 c pos = Done r.
Proof.
  intros H1 H2.
  apply (proj1 (@mg_mono (tokenize N) (tokenize N') text grammar
                  (fun st0 s g x => @tokenize_mono N N' st0 s g x H1) N)); exact H2.
Qed.

Lemma lift_patterns text grammar N N' M token ps j s0 sn sp r :
  N <= N' -> N <= M ->
  mgPatterns (tokenize N) text grammar N token ps j s0 sn sp = Done r ->
  mgPatterns (tokenize N') text grammar M token ps j s0 sn sp = Done r.
Proof.
  intros H1 H2.
  apply (proj1 (proj2 (@mg_mono (tokenize N) (tokenize N') text grammar
                  (fun st0 s g x => @tokenize_mono N N' st0 s g x H1) N))); exact H2.
Qed.

Lemma lift_keys text grammar N N' M keys s0 sn sp r :
  N <= N' -> N <= M ->
  mgKeys (tokenize N) text grammar N keys s0 sn sp = Done r ->
  mgKeys (tokenize N') text grammar M keys s0 sn sp = Done r.
Proof.
  intros H1 H2.
  apply (proj2 (proj2 (@mg_mono (tokenize N) (tokenize N') text grammar
                  (fun st0 s g x => @tokenize_mono N N' st0 s g x H1) N))); exact H2.
Qed.

Lemma mgNodes_S tok text grammar fuel token j po s0 c pos :
  mgNodes tok text grammar (S fuel) token j po s0 c pos =
  match turn text po s0 c pos with
  | TExit returned => Done (s0, returned)
  | TRaise => Thrown TypeError
  | TContinue c' pos' => mgNodes tok text grammar fuel token j po s0 c' pos'
  | TMatch cn p str0 mt rc =>
      r <- match inside po with
           | Some g => r <- tok (st s0) (m0 mt) g ;; Done (fst r, CArr (snd r))
           | None => Done (st s0, CStr (m0 mt))
           end ;;
      let wrapped :=
        ETok (new_Token token (snd r) (opt_alias (gt_alias po)) (Some (m0 mt))) in
      let '(list4, cn1, p1) := splice (tokenList s0) cn p str0 mt rc wrapped in
      s1 <- (if 1 <? rc then
               n <- mgKeys tok text grammar fuel grammar
                      {| st := fst r; tokenList := list4;
                         rematch := Some {| cause := cause_tag token j;
                                            reach := p + List.length str0 |} |}
                      (pred cn1) p1 ;;
               Done {| st := st n; tokenList := tokenList n;
                       rematch := match rematch n with
                                  | Some nr =>
                                      extend_reach
                                        (extend_reach (rematch s0) (p + List.length str0))
                                        (reach nr)
                                  | None => extend_reach (rematch s0) (p + List.length str0)
                                  end |}
             else Done {| st := fst r; tokenList := list4;
                          rematch := extend_reach (rematch s0) (p + List.length str0) |}) ;;
      mgNodes tok text grammar fuel token j po s1 (S cn1) (p1 + elem_length wrapped)
  end.
Proof. reflexivity. Qed.


Lemma mgPatterns_S tok text grammar fuel token ps j s0 sn sp :
  mgPatterns tok text grammar (S fuel) token ps j s0 sn sp =
  match ps with
  | [] => Done (s0, false)
  | po :: ps' =>
      if is_cause (rematch s0) token j then Done (s0, true)
      else
        r <- mgNodes tok text grammar fuel token j po s0 (S sn) sp ;;
        if snd r then Done r
        else mgPatterns tok text grammar fuel token ps' (S j) (fst r) sn sp
  end.
Proof. reflexivity. Qed.

Lemma mgKeys_S tok text grammar fuel keys s0 sn sp :
  mgKeys tok text grammar (S fuel) keys s0 sn sp =
  match keys with
  | [] => Done s0
  | (token, v) :: keys' =>
      match patterns_of v with
      | None => mgKeys tok text grammar fuel keys' s0 sn sp
      | Some ps =>
          r <- mgPatterns tok text grammar fuel token ps 0 s0 sn sp ;;
          if snd r then Done (fst r)
          else mgKeys tok text grammar fuel keys' (fst r) sn sp
      end
  end.
Proof. reflexivity. Qed.

Lemma stream_of_done o stream :
  stream_of o = Done stream -> exists st', o = Done (st', stream).
Proof.
  destruct o as [[st' s]| |]; simpl; try discriminate.
  intros [= <-]. now exists st'.
Qed.

(** ** A property of the list that every write keeps *)

Section Keeps.

Variable tokenize_ : Store -> str -> gid -> outcome (Store * TokenStream).
Variable text : str.
Variable grammar : list (str * GValue).

Hypothesis tokenize_safe : forall st0 s g e, tokenize_ st0 s g <> Thrown e.

Variable P : LinkedList -> Prop.
Variable Q : str -> Prop.

Hypothesis grammar_Q : forall token v, In (token, v) grammar -> Q token.

Hypothesis step : forall token po s0 c pos cn p str0 mt rc r list4 cn1 p1,
  Q token -> ok_at text (tokenList s0) c pos -> P (tokenList s0) ->
  turn text po s0 c pos = TMatch cn p str0 mt rc ->
  match inside po with
  | Some g => x <- tokenize_ (st s0) (m0 mt) g ;; Done (fst x, CArr (snd x))
  | None => Done (st s0, CStr (m0 mt))
  end = Done r ->
  splice (tokenList s0) cn p str0 mt rc
    (ETok (new_Token token (snd r) (opt_alias (gt_alias po)) (Some (m0 mt))))
  = (list4, cn1, p1) ->
  P list4.

Lemma keeps_step : forall fuel,
  (forall token j po s0 c pos,
     Q token -> ok_at text (tokenList s0) c pos -> P (tokenList s0) ->
     keeps_post P fst (mgNodes tokenize_ text grammar fuel token j po s0 c pos)) /\
  (forall token ps j s0 sn sp,
     Q token -> ok_at text (tokenList s0) (S sn) sp -> P (tokenList s0) ->
     keeps_post P fst (mgPatterns tokenize_ text grammar fuel token ps j s0 sn sp)) /\
  (forall keys s0 sn sp,
     (forall token v, In (token, v) keys -> Q token) ->
     ok_at text (tokenList s0) (S sn) sp -> P (tokenList s0) ->
     keeps_post P (fun s => s) (mgKeys tokenize_ text grammar fuel keys s0 sn sp)).
Proof.
  induction fuel as [|fuel (IHn & IHp & IHk)].
  { repeat split; intros; exact I. }
  destruct (@cover_step tokenize_ text grammar tokenize_safe fuel) as (Cn & Cp & Ck).
  split; [|split].
  - (* the loop over the nodes *)
    intros token j po s0 c pos HQ Hok HP. simpl mgNodes.
    pose proof (turn_spec po s0 Hok) as Ht. cbv zeta in Ht.
    destruct (turn text po s0 c pos) as [b| |c' pos'|cn p str0 mt rc] eqn:Eturn.
    + exact HP.
    + exact I.
    + destruct Ht as [_ Hok']. apply IHn; assumption.
    + destruct Ht as (Hle & Hokn & Hpos & [s Hs] & Hrc & Hrcl & Hoff & Hm & Hvalve & _).
      destruct Hokn as (Hsum & Hcn & Hcnl & Hp).
      destruct (match inside po with
                | Some g => r <- tokenize_ (st s0) (m0 mt) g ;; Done (fst r, CArr (snd r))
                | None => Done (st s0, CStr (m0 mt))
                end) as [r|e|] eqn:Etk; [|exact I|exact I].
      cbn [bind].
      set (w := ETok (new_Token token (snd r) (opt_alias (gt_alias po)) (Some (m0 mt)))).
      destruct (splice (tokenList s0) cn p str0 mt rc w) as [[list4 cn1] p1] eqn:Esp.
      assert (HP4 : P list4) by (eapply step; eauto).
      apply splice_spec in Esp; auto.
      destruct Esp as (P1 & P2 & P3 & P4 & P5 & P6 & P7 & P8).
      pose proof (node_offset _ _ P4) as Hoffw.
      assert (Hrest : forall s1,
        sumlen (tokenList s1) = List.length text ->
        kept list4 (tokenList s1) cn1 ->
        P (tokenList s1) ->
        keeps_post P fst
          (mgNodes tokenize_ text grammar fuel token j po s1 (S cn1) (p1 + elem_length w))).
      { intros s1 Hs1 Hk1 HP1.
        apply IHn; [exact HQ| |exact HP1].
        unfold ok_at. simpl pred. split; [exact Hs1|]. split; [lia|].
        split; [apply (prefix_length _ _ Hk1); lia|].
        rewrite (offset_prefix _ _ Hk1 (Nat.le_refl _)). lia. }
      destruct (1 <? rc).
      * assert (Hokk : ok_at text list4 (S (pred cn1)) p1).
        { unfold ok_at. simpl pred. repeat split; auto; lia. }
        set (sk := {| st := fst r; tokenList := list4;
                      rematch := Some {| cause := cause_tag token j;
                                         reach := p + List.length str0 |} |}).
        specialize (Ck grammar sk (pred cn1) p1 Hokk).
        specialize (IHk grammar sk (pred cn1) p1 grammar_Q Hokk HP4).
        unfold cover_post in Ck. unfold keeps_post in IHk. cbn [tokenList sk] in Ck.
        destruct (mgKeys _ _ _ fuel grammar sk (pred cn1) p1) as [n| |]; [|exact I|exact I].
        destruct Ck as (K1 & K2 & K3). cbn [bind].
        apply Hrest; [exact K1| |exact IHk].
        replace (S (pred cn1)) with cn1 in K3 by lia.
        unfold w in P4. apply (K3 _ P4).
      * cbn [bind]. apply Hrest; [cbn [tokenList]; lia | apply kept_refl | exact HP4].
  - (* the loop over the rules of one token name *)
    intros token ps j s0 sn sp HQ Hok HP. simpl mgPatterns.
    destruct ps as [|po ps]; [exact HP|].
    destruct (is_cause (rematch s0) token j); [exact HP|].
    specialize (IHn token j po s0 (S sn) sp HQ Hok HP).
    specialize (Cn token j po s0 (S sn) sp Hok).
    unfold cover_post in Cn. unfold keeps_post in *.
    destruct (mgNodes _ _ _ fuel token j po s0 (S sn) sp) as [[s1 b]| |]; auto.
    cbn [bind snd fst] in *. destruct Cn as (I1 & I2 & I3).
    destruct b; [exact IHn|].
    apply IHp; [exact HQ| |exact IHn].
    destruct Hok as (H1 & H2 & H3 & H4). unfold ok_at. simpl pred in *.
    split; [exact I1|]. split; [lia|].
    split; [apply (prefix_length _ _ I2); lia|].
    rewrite (offset_prefix _ _ I2 (Nat.le_refl _)). exact H4.
  - (* the loop over the token names *)
    intros keys s0 sn sp HQk Hok HP. simpl mgKeys.
    destruct keys as [|[token v] keys]; [exact HP|].
    assert (HQk' : forall token' v', In (token', v') keys -> Q token')
      by (intros token' v' Hin; apply (HQk token' v'); now right).
    destruct (patterns_of v) as [ps|]; [|apply IHk; assumption].
    assert (HQ : Q token) by (apply (HQk token v); now left).
    specialize (IHp token ps 0 s0 sn sp HQ Hok HP).
    specialize (Cp token ps 0 s0 sn sp Hok).
    unfold cover_post in Cp. unfold keeps_post in *.
    destruct (mgPatterns _ _ _ fuel token ps 0 s0 sn sp) as [[s1 b]| |]; auto.
    cbn [bind snd fst] in *. destruct Cp as (I1 & I2 & I3).
    destruct b; [exact IHp|].
    apply IHk; [exact HQk'| |exact IHp].
    destruct Hok as (H1 & H2 & H3 & H4). unfold ok_at. simpl pred in *.
    split; [exact I1|]. split; [lia|].
    split; [apply (prefix_length _ _ I2); lia|].
    rewrite (offset_prefix _ _ I2 (Nat.le_refl _)). exact H4.
Qed.

End Keeps.

(** ** The text of a list *)

Lemma stringify_each (l : list Elem) :
  (fix each (l : list Elem) : str :=
     match l with
     | [] => []
     | e :: l' => TagWalker.stringifyToken e ++ each l'
     end) l = flat l.
Proof. induction l as [|e l IH]; [reflexivity|]. unfold flat. simpl. now rewrite IH. Qed.

Lemma flat_cons e l : flat (e :: l) = TagWalker.stringifyToken e ++ flat l.
Proof. reflexivity. Qed.

Lemma flat_app a b : flat (a ++ b) = flat a ++ flat b.
Proof. unfold flat. now rewrite map_app, concat_app. Qed.

Lemma flat_opt (s : str) : flat (if truthy s then [EStr s] else []) = s.
Proof. destruct s; [reflexivity|]. unfold flat. simpl. now rewrite app_nil_r. Qed.

Lemma well_formed_all (l : list Elem) :
  (fix all (l : list Elem) : bool :=
     match l with
     | [] => true
     | x :: l' => well_formed x && all l'
     end) l = forallb well_formed l.
Proof. induction l as [|e l IH]; [reflexivity|]. simpl. now rewrite IH. Qed.

Lemma well_formed_length e :
  well_formed e = true -> List.length (TagWalker.stringifyToken e) = elem_length e.
Proof.
  destruct e as [s|[ty [s|l] a n]]; simpl; [reflexivity| |].
  - intros H. apply Nat.eqb_eq in H. now subst.
  - intros H. apply andb_true_iff in H. destruct H as [H _].
    apply Nat.eqb_eq in H. now subst.
Qed.

Lemma well_formed_opt (s : str) :
  forallb well_formed (if truthy s then [EStr s] else []) = true.
Proof. now destruct s. Qed.

Lemma flat_length l :
  forallb well_formed l = true -> List.length (flat l) = sumlen l.
Proof.
  induction l as [|e l IH]; [reflexivity|]. simpl. intros H.
  apply andb_true_iff in H. destruct H as [H1 H2].
  rewrite flat_cons, length_app, (@well_formed_length e H1), (IH H2). reflexivity.
Qed.

Lemma forallb_firstn (A : Type) (f : A -> bool) n (l : list A) :
  forallb f l = true -> forallb f (firstn n l) = true.
Proof.
  intros H. rewrite <- (firstn_skipn n l), forallb_app in H.
  now apply andb_true_iff in H.
Qed.

Lemma forallb_skipn (A : Type) (f : A -> bool) n (l : list A) :
  forallb f l = true -> forallb f (skipn n l) = true.
Proof.
  intros H. rewrite <- (firstn_skipn n l), forallb_app in H.
  now apply andb_true_iff in H.
Qed.

Lemma flat_firstn l k :
  forallb well_formed l = true -> flat (firstn k l) = firstn (offset l k) (flat l).
Proof.
  intros H.
  assert (E : flat l = flat (firstn k l) ++ flat (skipn k l))
    by (now rewrite <- flat_app, firstn_skipn).
  rewrite E. symmetry. apply firstn_at_app.
  rewrite flat_length by (now apply forallb_firstn). reflexivity.
Qed.

Lemma flat_skipn l k :
  forallb well_formed l = true -> flat (skipn k l) = skipn (offset l k) (flat l).
Proof.
  intros H.
  assert (E : flat l = flat (firstn k l) ++ flat (skipn k l))
    by (now rewrite <- flat_app, firstn_skipn).
  rewrite E. symmetry. apply skipn_at_app0.
  rewrite flat_length by (now apply forallb_firstn). reflexivity.
Qed.

(** The text of [n] nodes in a row is the part of the text between their
    offsets. *)
Lemma flat_segment l k n :
  forallb well_formed l = true ->
  flat (firstn n (skipn k l)) = slice (flat l) (offset l k) (offset l (k + n)).
Proof.
  intros H. unfold slice.
  rewrite flat_firstn by (now apply forallb_skipn).
  rewrite (@flat_skipn l k H). f_equal.
  assert (E1 : firstn k (firstn (k + n) l) = firstn k l)
    by (rewrite firstn_firstn; f_equal; lia).
  assert (E2 : skipn k (firstn (k + n) l) = firstn n (skipn k l))
    by (rewrite skipn_firstn_comm; f_equal; lia).
  assert (E : offset l (k + n) = offset l k + offset (skipn k l) n).
  { unfold offset. rewrite <- E1, <- E2, <- sumlen_app, firstn_skipn. reflexivity. }
  rewrite E. lia.
Qed.

(** ** The match and the string it is cut from *)

Lemma firstn_self (A : Type) (n : nat) (l : list A) :
  firstn n l = firstn (List.length (firstn n l)) l.
Proof.
  revert l; induction n as [|n IH]; intros [|x l]; simpl; try reflexivity.
  now rewrite <- IH.
Qed.

Lemma matchPattern_text r p s lb m :
  matchPattern r p s lb = Some m ->
  m0 m = firstn (List.length (m0 m)) (skipn (index m) s).
Proof.
  unfold matchPattern, exec.
  destruct (search r _ s) as [m'|] eqn:E; [|discriminate].
  apply (search_ok r) in E. destruct E as (_ & _ & E3).
  assert (Hsame : m0 m' = firstn (List.length (m0 m')) (skipn (index m') s)).
  { rewrite E3 at 1. unfold slice. f_equal. lia. }
  destruct lb; [|now intros [= <-]].
  destruct (m1 m') as [[|c g]|]; [now intros [= <-]| |now intros [= <-]].
  cbv zeta. remember (List.length (c :: g)) as L eqn:EL. clear EL.
  intros [= <-]. cbn [m0 index]. unfold slice_from.
  set (n := List.length (m0 m')) in Hsame. clearbody n. rewrite Hsame.
  rewrite skipn_firstn_comm, skipn_skipn.
  replace (index m' + L) with (L + index m') by lia.
  apply firstn_self.
Qed.

Lemma pieces_text (s : str) (k : nat) (m : str) :
  m = firstn (List.length m) (skipn k s) ->
  slice s 0 k ++ m ++ slice_from s (k + List.length m) = s.
Proof.
  intros H. unfold slice, slice_from. rewrite Nat.sub_0_r. simpl skipn at 1.
  rewrite H at 1.
  replace (k + List.length m) with (List.length m + k) by lia.
  rewrite <- skipn_skipn, firstn_skipn, firstn_skipn. reflexivity.
Qed.

Lemma sub_piece (t : str) (a b i : nat) (m : str) :
  a <= i -> i + List.length m <= b ->
  m = firstn (List.length m) (skipn i t) ->
  m = firstn (List.length m) (skipn (i - a) (slice t a b)).
Proof.
  intros Ha Hb H. unfold slice.
  rewrite skipn_firstn_comm, skipn_skipn, firstn_firstn.
  replace (i - a + a) with i by lia.
  replace (Nat.min (List.length m) (b - a - (i - a))) with (List.length m) by lia.
  exact H.
Qed.

(** The string a match is cut from is the text of the nodes it replaces,
    and the match is a part of that string. *)
Lemma turn_text text po s0 c pos :
  let L := tokenList s0 in
  ok_at text L c pos -> lossless text L ->
  match turn text po s0 c pos with
  | TMatch cn p str0 mt rc =>
      str0 = flat (firstn rc (skipn (pred cn) L)) /\
      m0 mt = firstn (List.length (m0 mt)) (skipn (index mt) str0)
  | _ => True
  end.
Proof.
  intros L (Hsum & Hc & Hl & Hpos) [Hflat Hwf]. unfold turn. fold L.
  destruct (node_value L c) as [value|] eqn:Ev; [|exact I].
  destruct (reached (rematch s0) pos); [exact I|].
  destruct (List.length text <? List.length L) eqn:Evalve; [exact I|].
  apply Nat.ltb_ge in Evalve.
  pose proof (node_offset _ _ Ev) as Hoff.
  pose proof (node_value_nth _ _ Ev) as (_ & Hnth & Hcl).
  destruct value as [str0|t]; [|exact I].
  destruct (greedy po) eqn:Eg.
  - destruct (matchPattern _ pos text _) as [mt|] eqn:Em; [|exact I].
    destruct (List.length text <=? index mt) eqn:Eend; [exact I|].
    apply Nat.leb_gt in Eend.
    pose proof (matchPattern_text _ _ _ _ Em) as Hm0.
    apply matchPattern_spec in Em. simpl in Em. destruct Em as [Em1 Em2].
    replace (pos + elem_length (EStr str0)) with (offset L c) by lia.
    destruct (find_node (skipn c L) c (offset L c) (index mt)) as [[c' p]|] eqn:Ef;
      [|exact I].
    apply (@find_node_spec L (index mt) (List.length L - c)) in Ef; [|lia].
    destruct Ef as (F1 & F2 & F3 & F4 & F5).
    assert (Hc' : c' <= List.length L) by lia.
    destruct (node_value L c') as [value'|] eqn:Ev'; [|exact I].
    pose proof (node_offset _ _ Ev') as Hoff'.
    pose proof (node_value_nth _ _ Ev') as (Hc1 & Hnth' & _).
    assert (Hp' : p - elem_length value' = offset L (pred c')) by lia.
    rewrite Hp'.
    assert (Hfrom : offset L (pred c') <= index mt).
    { destruct F5 as [->|F5]; [lia | exact F5]. }
    destruct value' as [s'|t']; [|exact I].
    destruct (span (skipn (pred c') L) 1 (offset L (pred c'))
                (index mt + List.length (m0 mt))) as [count p'] eqn:Es.
    apply (@span_spec L _ (List.length L - pred c')) in Es; [|lia].
    destruct Es as (S1 & S2 & S3 & S4 & S5).
    specialize (S5 _ Hnth' eq_refl).
    assert (Hcnt : pred c' + pred count <= List.length L) by lia.
    replace (pred c' + (count - 1)) with (pred c' + pred count) in * by lia.
    assert (Hto : index mt + List.length (m0 mt) <= p').
    { destruct (nth_error L (pred c' + pred count)) as [k|] eqn:Ek.
      - now apply (S4 k).
      - apply nth_error_None in Ek. rewrite S3, (offset_all _ Ek). lia. }
    cbn [index m0]. split.
    + rewrite (@flat_segment L (pred c') (pred count) Hwf), Hflat, S3. reflexivity.
    + apply sub_piece; [exact Hfrom | exact Hto | exact Hm0].
  - destruct (matchPattern _ 0 str0 _) as [mt|] eqn:Em; [|exact I].
    split.
    + destruct (skipn (pred c) L) as [|e r] eqn:E.
      { apply skipn_nil_length in E. apply nth_error_lt in Hnth. lia. }
      apply skipn_cons_nth in E. destruct E as (E1 & _).
      rewrite Hnth in E1. injection E1 as <-.
      simpl. unfold flat. simpl. now rewrite app_nil_r.
    + exact (matchPattern_text _ _ _ _ Em).
Qed.

(** The writes after a match keep the text and the tokens well formed, once
    the content of the new token reads as the match. *)
Lemma lossless_splice text L cn p str0 mt rc w L4 cn1 p1 :
  1 <= cn -> pred cn + rc <= List.length L ->
  lossless text L ->
  str0 = flat (firstn rc (skipn (pred cn) L)) ->
  m0 mt = firstn (List.length (m0 mt)) (skipn (index mt) str0) ->
  TagWalker.stringifyToken w = m0 mt -> well_formed w = true ->
  splice L cn p str0 mt rc w = (L4, cn1, p1) ->
  lossless text L4.
Proof.
  intros Hcn Hrc [Hflat Hwf] Hstr Hm0 Hw Hwwf H.
  rewrite splice_eq in H by lia. cbv zeta in H.
  injection H as <- _ _.
  pose proof (pieces_text str0 (index mt) Hm0) as Hp.
  split.
  - assert (E : flat L = flat (firstn (pred cn) L) ++ str0 ++ flat (skipn (pred cn + rc) L)).
    { rewrite Hstr, <- !flat_app. f_equal.
      replace (pred cn + rc) with (rc + pred cn) by lia.
      now rewrite <- skipn_skipn, !firstn_skipn. }
    rewrite !flat_app, flat_cons, flat_app, !flat_opt, Hw, <- Hflat, E.
    transitivity (flat (firstn (pred cn) L)
                  ++ (slice str0 0 (index mt) ++ m0 mt
                      ++ slice_from str0 (index mt + List.length (m0 mt)))
                  ++ flat (skipn (pred cn + rc) L)).
    + now rewrite <- !app_assoc.
    + now rewrite Hp.
  - rewrite !forallb_app. cbn [forallb]. rewrite !forallb_app, !well_formed_opt, Hwwf.
    rewrite (forallb_firstn _ _ _ Hwf), (forallb_skipn _ _ _ Hwf). reflexivity.
Qed.

Lemma lossless_start text : lossless text [EStr text].
Proof. split; [unfold flat; simpl; apply app_nil_r | reflexivity]. Qed.

(** The stream [tokenize] returns reads as the text, and its tokens are well
    formed. *)
Lemma tokenize_lossless : forall fuel st0 text g st' stream,
  tokenize fuel st0 text g = Done (st', stream) -> lossless text stream.
Proof.
  induction fuel as [|fuel IH]; intros st0 text g st' stream; [discriminate|].
  rewrite !tokenize_unfold. unfold matchGrammar.
  set (st1 := merged st0 g).
  assert (Hstep : forall token po s0 c pos cn p str0 mt rc r list4 cn1 p1,
    True -> ok_at text (tokenList s0) c pos -> lossless text (tokenList s0) ->
    turn text po s0 c pos = TMatch cn p str0 mt rc ->
    match inside po with
    | Some g => x <- tokenize fuel (st s0) (m0 mt) g ;; Done (fst x, CArr (snd x))
    | None => Done (st s0, CStr (m0 mt))
    end = Done r ->
    splice (tokenList s0) cn p str0 mt rc
      (ETok (new_Token token (snd r) (opt_alias (gt_alias po)) (Some (m0 mt))))
    = (list4, cn1, p1) ->
    lossless text list4).
  { intros token po s0 c pos cn p str0 mt rc r list4 cn1 p1 _ Hok HP Ht Hr Hs.
    pose proof (turn_spec po s0 Hok) as T1. pose proof (turn_text po s0 Hok HP) as T2.
    cbv zeta in T1, T2. rewrite Ht in T1, T2.
    destruct T1 as (_ & (_ & Hcn & _ & _) & _ & _ & _ & Hrcl & _).
    destruct T2 as [Hstr Hm0].
    eapply lossless_splice; [exact Hcn | exact Hrcl | exact HP | exact Hstr | exact Hm0 | | | exact Hs].
    - destruct (inside po) as [gi|].
      + destruct (tokenize fuel (st s0) (m0 mt) gi) as [[sti si]| |] eqn:Ei; try discriminate.
        injection Hr as <-. cbn [snd new_Token TagWalker.stringifyToken].
        rewrite stringify_each. exact (proj1 (IH _ _ _ _ _ Ei)).
      + injection Hr as <-. reflexivity.
    - destruct (inside po) as [gi|].
      + destruct (tokenize fuel (st s0) (m0 mt) gi) as [[sti si]| |] eqn:Ei; try discriminate.
        injection Hr as <-. cbn [snd new_Token well_formed TagWalker.stringifyToken].
        rewrite stringify_each, well_formed_all.
        destruct (IH _ _ _ _ _ Ei) as [E1 E2]. rewrite E1, E2, Nat.eqb_refl. reflexivity.
      + injection Hr as <-. cbn [snd new_Token well_formed]. apply Nat.eqb_refl. }
  destruct (@keeps_step (tokenize fuel) text (rules (st1 g)) (tokenize_safe fuel)
              (lossless text) (fun _ => True) (fun _ _ _ => I) Hstep fuel) as (_ & _ & Hk).
  specialize (Hk (rules (st1 g)) {| st := st1; tokenList := [EStr text]; rematch := None |} 0 0
                 (fun _ _ _ => I) (ok_at_start text) (lossless_start text)).
  unfold keeps_post in Hk.
  destruct (mgKeys _ _ _ fuel _ _ 0 0) as [n| |]; try discriminate.
  cbn [bind]. intros [= _ <-]. exact Hk.
Qed.

(** ** Termination

    [Prism.tokenize] calls itself on the [inside] grammar of a rule, with
    the text of the match, so it may recurse for ever (the source says so
    at [inside]).  It returns when the nested calls descend: when some
    measure of the grammar and the text gets smaller from a tokenization
    to the ones it starts. *)

Lemma lossless_step N text token po s0 c pos cn p str0 mt rc r list4 cn1 p1 :
  ok_at text (tokenList s0) c pos -> lossless text (tokenList s0) ->
  turn text po s0 c pos = TMatch cn p str0 mt rc ->
  match inside po with
  | Some g => x <- tokenize N (st s0) (m0 mt) g ;; Done (fst x, CArr (snd x))
  | None => Done (st s0, CStr (m0 mt))
  end = Done r ->
  splice (tokenList s0) cn p str0 mt rc
    (ETok (new_Token token (snd r) (opt_alias (gt_alias po)) (Some (m0 mt))))
  = (list4, cn1, p1) ->
  lossless text list4.
Proof.
  intros Hok HP Ht Hr Hs.
  pose proof (turn_spec po s0 Hok) as T1. pose proof (turn_text po s0 Hok HP) as T2.
  cbv zeta in T1, T2. rewrite Ht in T1, T2.
  destruct T1 as (_ & (_ & Hcn & _ & _) & _ & _ & _ & Hrcl & _).
  destruct T2 as [Hstr Hm0].
  eapply lossless_splice; [exact Hcn | exact Hrcl | exact HP | exact Hstr | exact Hm0 | | | exact Hs].
  - destruct (inside po) as [gi|].
    + destruct (tokenize N (st s0) (m0 mt) gi) as [[sti si]| |] eqn:Ei; try discriminate.
      injection Hr as <-. cbn [snd new_Token TagWalker.stringifyToken].
      rewrite stringify_each. exact (proj1 (tokenize_lossless _ _ _ _ Ei)).
    + injection Hr as <-. reflexivity.
  - destruct (inside po) as [gi|].
    + destruct (tokenize N (st s0) (m0 mt) gi) as [[sti si]| |] eqn:Ei; try discriminate.
      injection Hr as <-. cbn [snd new_Token well_formed TagWalker.stringifyToken].
      rewrite stringify_each, well_formed_all.
      destruct (tokenize_lossless _ _ _ _ Ei) as [E1 E2]. rewrite E1, E2, Nat.eqb_refl.
      reflexivity.
    + injection Hr as <-. cbn [snd new_Token well_formed]. apply Nat.eqb_refl.
Qed.

(** Every loop of the engine keeps the list reading as the text. *)
Lemma lossless_keeps N text grammar : forall fuel,
  (forall token j po s0 c pos,
     ok_at text (tokenList s0) c pos -> lossless text (tokenList s0) ->
     keeps_post (lossless text) fst
       (mgNodes (tokenize N) text grammar fuel token j po s0 c pos)) /\
  (forall token ps j s0 sn sp,
     ok_at text (tokenList s0) (S sn) sp -> lossless text (tokenList s0) ->
     keeps_post (lossless text) fst
       (mgPatterns (tokenize N) text grammar fuel token ps j s0 sn sp)) /\
  (forall keys s0 sn sp,
     ok_at text (tokenList s0) (S sn) sp -> lossless text (tokenList s0) ->
     keeps_post (lossless text) (fun s => s)
       (mgKeys (tokenize N) text grammar fuel keys s0 sn sp)).
Proof.
  intros fuel.
  assert (Hstep : forall token po s0 c pos cn p str0 mt rc r list4 cn1 p1,
    True -> ok_at text (tokenList s0) c pos -> lossless text (tokenList s0) ->
    turn text po s0 c pos = TMatch cn p str0 mt rc ->
    match inside po with
    | Some g => x <- tokenize N (st s0) (m0 mt) g ;; Done (fst x, CArr (snd x))
    | None => Done (st s0, CStr (m0 mt))
    end = Done r ->
    splice (tokenList s0) cn p str0 mt rc
      (ETok (new_Token token (snd r) (opt_alias (gt_alias po)) (Some (m0 mt))))
    = (list4, cn1, p1) ->
    lossless text list4).
  { intros token po s0 c pos cn p str0 mt rc r list4 cn1 p1 _ Hok HP Ht Hr Hs.
    exact (@lossless_step N text token po s0 c pos cn p str0 mt rc r list4 cn1 p1
             Hok HP Ht Hr Hs). }
  destruct (@keeps_step (tokenize N) text grammar (tokenize_safe N)
              (lossless text) (fun _ => True) (fun _ _ _ => I) Hstep fuel) as (Kn & Kp & Kk).
  split; [|split].
  - intros token j po s0 c pos Hok HP. exact (Kn token j po s0 c pos I Hok HP).
  - intros token ps j s0 sn sp Hok HP. exact (Kp token ps j s0 sn sp I Hok HP).
  - intros keys s0 sn sp Hok HP. exact (Kk keys s0 sn sp (fun _ _ _ => I) Hok HP).
Qed.

Lemma substring_refl s : substring s s.
Proof. exists [], []. now rewrite app_nil_r. Qed.

(** The string of a node is a part of the text. *)
Lemma node_substring text L c s :
  lossless text L -> node_value L c = Some (EStr s) -> substring s text.
Proof.
  intros [Hflat _] Hv. pose proof (node_value_nth _ _ Hv) as (_ & Hnth & _).
  apply nth_error_split in Hnth. destruct Hnth as (l1 & l2 & -> & _).
  exists (flat l1), (flat l2). rewrite <- Hflat, flat_app, flat_cons. reflexivity.
Qed.

(** What a rule matches in a turn is a match of its expression on a part
    of the text. *)
Lemma turn_yields text po s0 c pos :
  let L := tokenList s0 in
  ok_at text L c pos -> lossless text L ->
  match turn text po s0 c pos with
  | TMatch cn p str0 mt rc => yields po text (m0 mt)
  | _ => True
  end.
Proof.
  intros L Hok Hll. unfold turn. fold L.
  destruct (node_value L c) as [value|] eqn:Ev; [|exact I].
  destruct (reached (rematch s0) pos); [exact I|].
  destruct (List.length text <? List.length L); [exact I|].
  destruct value as [str0|t]; [|exact I].
  destruct (greedy po).
  - destruct (matchPattern _ pos text _) as [mt|] eqn:Em; [|exact I].
    destruct (List.length text <=? index mt); [exact I|].
    destruct (find_node _ _ _ _) as [[c' p]|]; [|exact I].
    destruct (node_value L c') as [[s'|t']|]; try exact I.
    destruct (span _ _ _ _) as [count p'].
    exists text, pos, mt. split; [apply substring_refl|]. split; [now right | reflexivity].
  - destruct (matchPattern _ 0 str0 _) as [mt|] eqn:Em; [|exact I].
    exists str0, 0, mt. split; [exact (@node_substring text L c str0 Hll Ev)|].
    split; [now left | reflexivity].
Qed.

Lemma merged_descends W mu st0 g : descends W mu st0 -> descends W mu (merged st0 g).
Proof.
  intros H. unfold merged.
  destruct (rest (st0 g)) as [r|] eqn:Er; [|exact H].
  intros h text HW. unfold upd. destruct (Nat.eqb h g) eqn:E.
  - apply Nat.eqb_eq in E. subst h. simpl. split; [|discriminate].
    intros token v ps po h' m H1 H2 H3 H4 H5.
    apply obj_assign_In in H1. destruct H1 as [H1|H1].
    + exact (proj1 (H g text HW) token v ps po h' m H1 H2 H3 H4 H5).
    + destruct (proj2 (H g text HW) r Er) as [HWr Hmu].
      destruct (proj1 (H r text HWr) token v ps po h' m H1 H2 H3 H4 H5) as [Hw Hlt].
      split; [exact Hw | lia].
  - exact (H h text HW).
Qed.

Section Terminate.

(** [Inv] is what is known of the store; [callable h s] says that the
    tokenization of [s] with the grammar [h] is below the one at hand. *)
Variable Inv : Store -> Prop.
Variable text : str.
Variable grammar : list (str * GValue).
Variable callable : gid -> str -> Prop.

(** Nested tokenization returns, on what is below this one. *)
Hypothesis inner : forall st0 s h,
  Inv st0 -> callable h s ->
  exists N r, tokenize N st0 s h = Done r /\ Inv (fst r).


Lemma good_after A (proj : A -> MG) s0 sn sp (r : outcome A) a :
  good Inv text s0 (S sn) sp ->
  cover_post text (tokenList s0) (S sn) proj r ->
  tidy_post proj r -> keeps_post (lossless text) proj r ->
  r = Done a -> Inv (st (proj a)) ->
  good Inv text (proj a) (S sn) sp.
Proof.
  intros ((H1 & H2 & H3 & H4) & Ht & Hll & Hr) Hc Hty Hkl -> Hrk.
  simpl in Hc, Hty, Hkl. destruct Hc as (I1 & I2 & I3). simpl pred in *.
  split; [|split; [exact Hty | split; [exact Hkl | exact Hrk]]].
  unfold ok_at. simpl pred.
  split; [exact I1|]. split; [lia|].
  split; [apply (prefix_length _ _ I2); lia|].
  rewrite (offset_prefix _ _ I2 (Nat.le_refl _)). exact H4.
Qed.

Section Nodes.

Variable token : str.
Variable j : nat.
Variable po : GrammarToken.

Hypothesis po_below : forall h m,
  inside po = Some h -> yields po text m -> callable h m.

(** The rematch that this rule starts returns. *)
Hypothesis nested : forall s sn sp,
  good Inv text s (S sn) sp ->
  option_map cause (rematch s) = Some (cause_tag token j) ->
  exists N r, mgKeys (tokenize N) text grammar N grammar s sn sp = Done r /\
              Inv (st r).

Lemma nodes_terminate : forall a b d s0 c pos,
  a = List.length text - pos ->
  b = List.length text + 1 - List.length (tokenList s0) ->
  d = List.length (tokenList s0) + 1 - c ->
  good Inv text s0 c pos ->
  exists N r, mgNodes (tokenize N) text grammar N token j po s0 c pos = Done r /\
              Inv (st (fst r)).
Proof.
  intros a b d. pattern a, b, d. apply lex3_ind. clear a b d.
  intros a b d IH s0 c pos Ha Hb Hd (Hok & Htidy & Hll & Hrk).
  pose proof (@turn_yields text po s0 c pos Hok Hll) as Hy. cbv zeta in Hy.
  pose proof (turn_spec po s0 Hok) as Ht. cbv zeta in Ht.
  destruct (turn text po s0 c pos) as [ret| |c' pos'|cn p str0 mt rc] eqn:Eturn.
  - exists 1, (s0, ret). rewrite mgNodes_S, Eturn. now split.
  - contradiction.
  - destruct Ht as [Hlt Hok'].
    assert (Hpos : pos <= pos').
    { destruct Hok as (_ & _ & _ & ->), Hok' as (_ & _ & _ & ->).
      apply offset_mono. lia. }
    assert (Hc' : pred c' <= List.length (tokenList s0)) by apply Hok'.
    assert (Hg : good Inv text s0 c' pos')
      by (split; [exact Hok' | split; [exact Htidy | split; [exact Hll | exact Hrk]]]).
    assert (Hm : List.length text - pos' < a \/
                 (List.length text - pos' = a /\ b < b) \/
                 (List.length text - pos' = a /\ b = b /\
                  List.length (tokenList s0) + 1 - c' < d)) by lia.
    destruct (IH _ _ _ Hm s0 c' pos' eq_refl Hb eq_refl Hg) as (N & r & HN & Hr).
    exists (S N), r. split; [|exact Hr].
    rewrite mgNodes_S, Eturn. apply lift_nodes with (N := N); auto.
  - destruct Ht as (Hle & Hokn & Hpos & [s Hs] & Hrc & Hrcl & Hoff & Hm & Hvalve & Hfol & Hone).
    destruct Hokn as (Hsum & Hcn & Hcnl & Hp).
    pose proof (node_value_nth _ _ Hs) as (_ & Hnth & Hcnl').
    destruct (tidy_nth_str _ _ Htidy Hnth) as [Hsne Hnext].
    replace (S (pred cn)) with cn in Hnext by lia.
    apply truthy_true in Hsne. destruct Hsne as [_ Hslen].
    assert (Hstr0 : List.length s <= List.length str0).
    { pose proof (node_offset _ _ Hs) as Ho. simpl in Ho.
      pose proof (@offset_mono (tokenList s0) cn (pred cn + rc)). lia. }
    (* the content of the token *)
    assert (Htk : exists N1 r, Inv (fst r) /\ forall N, N1 <= N ->
              match inside po with
              | Some g => r <- tokenize N (st s0) (m0 mt) g ;; Done (fst r, CArr (snd r))
              | None => Done (st s0, CStr (m0 mt))
              end = Done r).
    { destruct (inside po) as [h|] eqn:Ei.
      - try rewrite Eturn in Hy.
        destruct (@inner (st s0) (m0 mt) h Hrk (@po_below h (m0 mt) eq_refl Hy))
          as (N1 & r1 & H1 & H2).
        exists N1, (fst r1, CArr (snd r1)). split; [exact H2|].
        intros N HN. now rewrite (tokenize_mono _ _ _ HN H1).
      - exists 0, (st s0, CStr (m0 mt)). split; [exact Hrk | reflexivity]. }
    destruct Htk as (N1 & r & Hrr & Htk).
    set (w := ETok (new_Token token (snd r) (opt_alias (gt_alias po)) (Some (m0 mt)))).
    destruct (splice (tokenList s0) cn p str0 mt rc w) as [[list4 cn1] p1] eqn:Esp.
    pose proof Esp as Esp0. pose proof Esp as Esp'.
    apply splice_spec in Esp; auto.
    destruct Esp as (P1 & P2 & P3 & P4 & P5 & P6 & P7 & P8).
    rewrite splice_eq in Esp' by lia. cbv zeta in Esp'.
    assert (Htidy4 : tidy list4 = true).
    { injection Esp' as <- _ _. now apply tidy_splice with (s := s). }
    clear Esp'.
    assert (Hll4 : lossless text list4).
    { apply (@lossless_step (Nat.max N1 1) text token po s0 c pos cn p str0 mt rc r
               list4 cn1 p1 Hok Hll Eturn); [|exact Esp0].
      apply Htk. lia. }
    pose proof (node_offset _ _ P4) as Hoffw.
    assert (Hwlen : elem_length w = List.length (m0 mt)) by reflexivity.
    (* when nothing is consumed, the list grows by the token alone *)
    assert (Hgrow : List.length (slice str0 0 (index mt)) + List.length (m0 mt) = 0 ->
                    rc = 1 /\ List.length list4 = List.length (tokenList s0) + 1).
    { intros Hz.
      assert (Hi : index mt = 0).
      { unfold slice in Hz. rewrite length_firstn, length_skipn in Hz. simpl in Hz. lia. }
      assert (Hrc1 : rc = 1).
      { apply (Hone s Hs); [lia | exact Hnext]. }
      split; [exact Hrc1|].
      assert (Hbf : truthy (slice str0 0 (index mt)) = false).
      { destruct (slice str0 0 (index mt)); [reflexivity | simpl in Hz; lia]. }
      assert (Ha' : truthy (slice_from str0 (index mt + List.length (m0 mt))) = true).
      { replace (index mt + List.length (m0 mt)) with 0 by lia.
        unfold slice_from. simpl. destruct str0; [simpl in Hstr0; lia | reflexivity]. }
      rewrite Hbf, Ha' in P8. lia. }
    (* the rest of the loop *)
    assert (Hrest : forall s1,
      sumlen (tokenList s1) = List.length text ->
      kept list4 (tokenList s1) cn1 -> tidy (tokenList s1) = true ->
      lossless text (tokenList s1) ->
      Inv (st s1) ->
      (List.length (slice str0 0 (index mt)) + List.length (m0 mt) = 0 ->
       tokenList s1 = list4) ->
      exists N r', mgNodes (tokenize N) text grammar N token j po s1 (S cn1)
                     (p1 + elem_length w) = Done r' /\ Inv (st (fst r'))).
    { intros s1 Hs1 Hk1 Ht1 Hl1 Hr1 Hsame.
      assert (Hok1 : ok_at text (tokenList s1) (S cn1) (p1 + elem_length w)).
      { unfold ok_at. simpl pred. split; [exact Hs1|]. split; [lia|].
        split; [apply (prefix_length _ _ Hk1); lia|].
        rewrite (offset_prefix _ _ Hk1 (Nat.le_refl _)). lia. }
      assert (Hin : p1 + elem_length w <= List.length text).
      { destruct Hok1 as (_ & _ & _ & ->). rewrite <- Hs1. apply offset_le. }
      assert (Hmu : List.length text - (p1 + elem_length w) < a \/
                   (List.length text - (p1 + elem_length w) = a /\
                    List.length text + 1 - List.length (tokenList s1) < b) \/
                   (List.length text - (p1 + elem_length w) = a /\
                    List.length text + 1 - List.length (tokenList s1) = b /\
                    List.length (tokenList s1) + 1 - S cn1 < d)).
      { destruct (Nat.eq_dec (List.length (slice str0 0 (index mt)) + List.length (m0 mt)) 0)
          as [Hz|Hz].
        - destruct (Hgrow Hz) as [_ Hlen]. rewrite (Hsame Hz).
          destruct (Nat.eq_dec p pos) as [Hpp|Hpp]; [right; left | left]; lia.
        - left. lia. }
      apply (IH _ _ _ Hmu s1 (S cn1) (p1 + elem_length w) eq_refl eq_refl eq_refl).
      split; [exact Hok1 | split; [exact Ht1 | split; [exact Hl1 | exact Hr1]]]. }
    destruct (1 <? rc) eqn:Erc.
    + pose proof Erc as Erc'. apply Nat.ltb_lt in Erc'.
      set (sk := {| st := fst r; tokenList := list4;
           rematch := Some {| cause := cause_tag token j; reach := p + List.length str0 |} |}).
      assert (Hgk : good Inv text sk (S (pred cn1)) p1).
      { split; [|split; [exact Htidy4 | split; [exact Hll4 | exact Hrr]]].
        unfold ok_at. simpl pred. cbn [tokenList sk]. repeat split; auto; lia. }
      destruct (@nested sk (pred cn1) p1 Hgk eq_refl) as (N2 & n & HN2 & Hrn).
      destruct (@cover_step (tokenize N2) text grammar (tokenize_safe N2) N2) as (_ & _ & Ck).
      specialize (Ck grammar sk (pred cn1) p1 (proj1 Hgk)).
      destruct (@tidy_step (tokenize N2) text grammar (tokenize_safe N2) N2) as (_ & _ & Tk).
      specialize (Tk grammar sk (pred cn1) p1 (proj1 Hgk) Htidy4).
      pose proof (proj2 (proj2 (lossless_keeps N2 text grammar N2))
                    grammar sk (pred cn1) p1 (proj1 Hgk) Hll4) as Lk.
      unfold cover_post in Ck. unfold tidy_post in Tk. unfold keeps_post in Lk.
      rewrite HN2 in Ck, Tk, Lk. cbv beta iota in Ck, Tk, Lk. cbn [tokenList sk] in Ck.
      destruct Ck as (K1 & K2 & K3).
      replace (S (pred cn1)) with cn1 in K3 by lia.
      set (s1 := {| st := st n; tokenList := tokenList n;
                    rematch := match rematch n with
                               | Some nr => extend_reach
                                   (extend_reach (rematch s0) (p + List.length str0)) (reach nr)
                               | None => extend_reach (rematch s0) (p + List.length str0)
                               end |}).
      destruct (Hrest s1) as (N3 & r3 & HN3 & Hr3); auto.
      { apply (K3 _ P4). }
      { intros Hz. destruct (Hgrow Hz). lia. }
      exists (S (Nat.max N1 (Nat.max N2 N3))), r3. split; [|exact Hr3].
      rewrite mgNodes_S, Eturn.
      rewrite Htk by lia. cbn [bind]. cbv zeta. fold w. rewrite Esp0.
      rewrite Erc.
      assert (HK : mgKeys (tokenize (S (Nat.max N1 (Nat.max N2 N3)))) text grammar
                     (Nat.max N1 (Nat.max N2 N3)) grammar sk (pred cn1) p1 = Done n)
        by (apply lift_keys with (N := N2); [lia|lia|exact HN2]).
      fold sk. rewrite HK.
      cbn [bind]. fold s1.
      apply lift_nodes with (N := N3); [lia|lia|exact HN3].
    + set (s1 := {| st := fst r; tokenList := list4;
                    rematch := extend_reach (rematch s0) (p + List.length str0) |}).
      destruct (Hrest s1) as (N3 & r3 & HN3 & Hr3); auto.
      { cbn [tokenList s1]. lia. }
      { apply kept_refl. }
      exists (S (Nat.max N1 N3)), r3. split; [|exact Hr3].
      rewrite mgNodes_S, Eturn.
      rewrite Htk by lia. cbn [bind]. cbv zeta. fold w. rewrite Esp0.
      rewrite Erc. cbn [bind]. fold s1.
      apply lift_nodes with (N := N3); [lia|lia|exact HN3].
Qed.

End Nodes.

End Terminate.

Section Rules.

Variable Inv : Store -> Prop.
Variable text : str.
Variable grammar : list (str * GValue).
Variable callable : gid -> str -> Prop.

Hypothesis inner : forall st0 s h,
  Inv st0 -> callable h s ->
  exists N r, tokenize N st0 s h = Done r /\ Inv (fst r).

(** What a rule of the grammar nests is below the tokenization at hand. *)
Hypothesis below : forall token v ps po h m,
  In (token, v) grammar -> patterns_of v = Some ps -> In po ps ->
  inside po = Some h -> yields po text m -> callable h m.

Lemma nodes_done_good N token j po s0 sn sp s1 b :
  good Inv text s0 (S sn) sp ->
  mgNodes (tokenize N) text grammar N token j po s0 (S sn) sp = Done (s1, b) ->
  Inv (st s1) ->
  good Inv text s1 (S sn) sp /\ same_cause (rematch s0) (rematch s1).
Proof.
  intros Hg E Hr.
  destruct (@cover_step (tokenize N) text grammar (tokenize_safe N) N) as (Cn & _ & _).
  destruct (@tidy_step (tokenize N) text grammar (tokenize_safe N) N) as (Tn & _ & _).
  destruct (cause_step (tokenize N) text grammar N) as (Sn & _ & _).
  pose proof (proj1 (lossless_keeps N text grammar N) token j po s0 (S sn) sp
                (proj1 Hg) (proj1 (proj2 (proj2 Hg)))) as Ln.
  specialize (Cn token j po s0 (S sn) sp (proj1 Hg)).
  specialize (Tn token j po s0 (S sn) sp (proj1 Hg) (proj1 (proj2 Hg))).
  specialize (Sn token j po s0 (S sn) sp).
  split.
  - apply (@good_after Inv text _ fst s0 sn sp _ (s1, b) Hg Cn Tn Ln E Hr).
  - unfold cause_post in Sn. now rewrite E in Sn.
Qed.

Lemma patterns_done_good N token ps j s0 sn sp s1 b :
  good Inv text s0 (S sn) sp ->
  mgPatterns (tokenize N) text grammar N token ps j s0 sn sp = Done (s1, b) ->
  Inv (st s1) ->
  good Inv text s1 (S sn) sp /\ same_cause (rematch s0) (rematch s1).
Proof.
  intros Hg E Hr.
  destruct (@cover_step (tokenize N) text grammar (tokenize_safe N) N) as (_ & Cp & _).
  destruct (@tidy_step (tokenize N) text grammar (tokenize_safe N) N) as (_ & Tp & _).
  destruct (cause_step (tokenize N) text grammar N) as (_ & Sp & _).
  pose proof (proj1 (proj2 (lossless_keeps N text grammar N)) token ps j s0 sn sp
                (proj1 Hg) (proj1 (proj2 (proj2 Hg)))) as Lp.
  specialize (Cp token ps j s0 sn sp (proj1 Hg)).
  specialize (Tp token ps j s0 sn sp (proj1 Hg) (proj1 (proj2 Hg))).
  specialize (Sp token ps j s0 sn sp).
  split.
  - apply (@good_after Inv text _ fst s0 sn sp _ (s1, b) Hg Cp Tp Lp E Hr).
  - unfold cause_post in Sp. now rewrite E in Sp.
Qed.

(** Every invocation of [matchGrammar] returns: by induction on the
    number of rules it goes through, which is smaller for the rematch a
    rule starts than for the invocation that runs the rule. *)
Lemma keys_terminate : forall d s0 sn sp,
  good Inv text s0 (S sn) sp ->
  limit grammar (rematch s0) <= d ->
  exists N r, mgKeys (tokenize N) text grammar N grammar s0 sn sp = Done r /\
              Inv (st r).
Proof.
  induction d as [d IHd] using lt_wf_ind.
  intros s0 sn sp Hg0 Hd0.
  (* the loop over the rules of one token name *)
  assert (Hpat : forall pre token v post ps0,
    grammar = pre ++ (token, v) :: post -> patterns_of v = Some ps0 ->
    forall ps done s, ps0 = done ++ ps ->
    good Inv text s (S sn) sp ->
    limit grammar (rematch s) <= d ->
    List.length (tags pre) + List.length done <= limit grammar (rematch s) ->
    exists N s1 b,
      mgPatterns (tokenize N) text grammar N token ps (List.length done) s sn sp
        = Done (s1, b) /\
      Inv (st s1) /\
      (b = false ->
       List.length (tags pre) + List.length ps0 <= limit grammar (rematch s))).
  { intros pre token v post ps0 Hgr Hv.
    induction ps as [|po ps IHps]; intros done s Hps Hg Hd Hlim.
    - exists 1, s, false. rewrite mgPatterns_S.
      split; [reflexivity|]. split; [apply Hg|].
      intros _. rewrite Hps, app_nil_r. exact Hlim.
    - destruct (is_cause (rematch s) token (List.length done)) eqn:Ec.
      { exists 1, s, true. rewrite mgPatterns_S, Ec.
        split; [reflexivity|]. split; [apply Hg | discriminate]. }
      assert (Hj : List.length done < List.length ps0)
        by (rewrite Hps, length_app; simpl; lia).
      pose proof (@tags_nth pre token v post ps0 (List.length done) Hv Hj) as Htag.
      rewrite <- Hgr in Htag.
      set (q := List.length (tags pre) + List.length done) in *.
      assert (Hq : S q <= limit grammar (rematch s)).
      { unfold limit in *. destruct (rematch s) as [rm|].
        - simpl in Ec. eapply first_hit_miss; eauto.
        - apply nth_error_lt in Htag. lia. }
      assert (Hbelow : forall h m, inside po = Some h -> yields po text m -> callable h m).
      { intros h m Hh Hm.
        apply (@below token v ps0 po h m); [| exact Hv | | exact Hh | exact Hm].
        - rewrite Hgr. apply in_or_app. right. now left.
        - rewrite Hps. apply in_or_app. right. now left. }
      assert (Hnested : forall s' sn' sp',
        good Inv text s' (S sn') sp' ->
        option_map cause (rematch s') = Some (cause_tag token (List.length done)) ->
        exists N r, mgKeys (tokenize N) text grammar N grammar s' sn' sp' = Done r /\
                    Inv (st r)).
      { intros s' sn' sp' Hg' Hc'.
        apply (IHd q); [lia | exact Hg'|].
        unfold limit. destruct (rematch s') as [rm'|]; [|discriminate].
        simpl in Hc'. injection Hc' as ->.
        eapply first_hit_nth; eauto. }
      destruct (@nodes_terminate Inv text grammar callable inner token (List.length done) po
                  Hbelow Hnested _ _ _ s (S sn) sp eq_refl eq_refl eq_refl Hg)
        as (N1 & [s1 b] & HN1 & Hr1).
      cbn [fst] in Hr1.
      destruct (@nodes_done_good _ _ _ _ _ _ _ _ _ Hg HN1 Hr1) as [Hg1 Hc1].
      destruct b.
      { exists (S N1), s1, true. rewrite mgPatterns_S, Ec.
        rewrite (@lift_nodes text grammar N1 (S N1) N1 _ _ _ _ _ _ _
                   (Nat.le_succ_diag_r N1) (Nat.le_refl N1) HN1).
        split; [reflexivity|]. split; [exact Hr1 | discriminate]. }
      pose proof (same_cause_limit grammar Hc1) as Hl1.
      destruct (IHps (done ++ [po]) s1) as (N2 & s2 & b2 & HN2 & Hr2 & Hlim2).
      { rewrite <- app_assoc. exact Hps. }
      { exact Hg1. }
      { lia. }
      { rewrite length_app. simpl. lia. }
      rewrite length_app in HN2. simpl in HN2.
      replace (List.length done + 1) with (S (List.length done)) in HN2 by lia.
      exists (S (Nat.max N1 N2)), s2, b2. rewrite mgPatterns_S, Ec.
      assert (L1 : N1 <= S (Nat.max N1 N2)) by lia.
      assert (L2 : N1 <= Nat.max N1 N2) by lia.
      rewrite (@lift_nodes text grammar N1 _ _ _ _ _ _ _ _ _ L1 L2 HN1).
      cbn [bind snd fst].
      split; [apply lift_patterns with (N := N2); [lia|lia|exact HN2]|].
      split; [exact Hr2|]. intros Hb. specialize (Hlim2 Hb). lia. }
  (* the loop over the token names *)
  assert (Hkeys : forall keys pre s,
    grammar = pre ++ keys ->
    good Inv text s (S sn) sp ->
    limit grammar (rematch s) <= d ->
    List.length (tags pre) <= limit grammar (rematch s) ->
    exists N r, mgKeys (tokenize N) text grammar N keys s sn sp = Done r /\
                Inv (st r)).
  { induction keys as [|[token v] keys IHkeys]; intros pre s Hgr Hg Hd Hlim.
    - exists 1, s. rewrite mgKeys_S. split; [reflexivity | apply Hg].
    - assert (Hgr' : grammar = (pre ++ [(token, v)]) ++ keys)
        by (rewrite <- app_assoc; exact Hgr).
      destruct (patterns_of v) as [ps0|] eqn:Hv.
      + destruct (Hpat pre token v keys ps0 Hgr Hv ps0 [] s eq_refl Hg Hd)
          as (N1 & s1 & b & HN1 & Hr1 & Hlim1).
        { simpl. lia. }
        simpl List.length in HN1.
        destruct (@patterns_done_good _ _ _ _ _ _ _ _ _ Hg HN1 Hr1) as [Hg1 Hc1].
        destruct b.
        { exists (S N1), s1. rewrite mgKeys_S, Hv.
          rewrite (@lift_patterns text grammar N1 (S N1) N1 _ _ _ _ _ _ _
                     (Nat.le_succ_diag_r N1) (Nat.le_refl N1) HN1).
          split; [reflexivity | exact Hr1]. }
        pose proof (same_cause_limit grammar Hc1) as Hl1.
        destruct (IHkeys (pre ++ [(token, v)]) s1 Hgr' Hg1) as (N2 & r2 & HN2 & Hr2).
        { lia. }
        { rewrite tags_app. simpl. rewrite Hv, app_nil_r, length_app.
          unfold rule_tags. rewrite length_map, length_seq.
          specialize (Hlim1 eq_refl). lia. }
        exists (S (Nat.max N1 N2)), r2. rewrite mgKeys_S, Hv.
        assert (L1 : N1 <= S (Nat.max N1 N2)) by lia.
        assert (L2 : N1 <= Nat.max N1 N2) by lia.
        rewrite (@lift_patterns text grammar N1 _ _ _ _ _ _ _ _ _ L1 L2 HN1).
        cbn [bind snd fst].
        split; [apply lift_keys with (N := N2); [lia|lia|exact HN2] | exact Hr2].
      + destruct (IHkeys (pre ++ [(token, v)]) s Hgr' Hg Hd) as (N2 & r2 & HN2 & Hr2).
        { rewrite tags_app. simpl. rewrite Hv. simpl. rewrite app_nil_r. exact Hlim. }
        exists (S N2), r2. rewrite mgKeys_S, Hv.
        split; [apply lift_keys with (N := N2); [lia|lia|exact HN2] | exact Hr2]. }
  apply (Hkeys grammar [] s0 eq_refl Hg0 Hd0). simpl. lia.
Qed.

End Rules.

(** [tokenize] returns on every text from which nested tokenization
    descends. *)
Lemma tokenize_descends W mu : forall n st0 text g,
  mu g text = n -> descends W mu st0 -> W g text ->
  exists N r, tokenize N st0 text g = Done r /\ descends W mu (fst r).
Proof.
  induction n as [n IH] using lt_wf_ind.
  intros st0 text g Hn Hd HW.
  pose proof (@merged_descends W mu st0 g Hd) as Hm.
  destruct text as [|ch text].
  { exists (S (valve_fuel (rules (merged st0 g g)))), (merged st0 g, [EStr []]).
    split; [apply tokenize_empty; lia | exact Hm]. }
  set (callable := fun (h : gid) (s : str) => W h s /\ mu h s < n).
  assert (Hinner : forall st1 s h, descends W mu st1 -> callable h s ->
            exists N r, tokenize N st1 s h = Done r /\ descends W mu (fst r)).
  { intros st1 s h H1 [H2 H3]. exact (IH (mu h s) H3 st1 s h eq_refl H1 H2). }
  assert (Hbelow : forall token v ps po h m,
            In (token, v) (rules (merged st0 g g)) -> patterns_of v = Some ps ->
            In po ps -> inside po = Some h -> yields po (ch :: text) m -> callable h m).
  { intros token v ps po h m H1 H2 H3 H4 H5. unfold callable. rewrite <- Hn.
    exact (proj1 (Hm g (ch :: text) HW) token v ps po h m H1 H2 H3 H4 H5). }
  destruct (@keys_terminate (descends W mu) (ch :: text) (rules (merged st0 g g)) callable
              Hinner Hbelow
              (List.length (tags (rules (merged st0 g g))))
              {| st := merged st0 g; tokenList := [EStr (ch :: text)]; rematch := None |} 0 0)
    as (N & r & HN & Hr).
  { split; [apply ok_at_start|]. split; [reflexivity|].
    split; [apply lossless_start | exact Hm]. }
  { simpl. lia. }
  exists (S N), (st r, toArray (tokenList r)). split; [|exact Hr].
  rewrite tokenize_unfold. unfold matchGrammar.
  rewrite HN. reflexivity.
Qed.

(** Grammars ranked along [inside] are a case of it. *)
Lemma ranked_descends rank st0 :
  ranked rank st0 -> descends (fun _ _ => True) (fun g _ => rank g) st0.
Proof.
  intros H g text _. split.
  - intros token v ps po h m H1 H2 H3 H4 _. split; [exact I|].
    exact (proj1 (H g) token v ps po h H1 H2 H3 H4).
  - intros r Hr. split; [exact I | exact (proj2 (H g) r Hr)].
Qed.

Lemma tokenize_returns rank st0 text g :
  ranked rank st0 -> exists N r, tokenize N st0 text g = Done r.
Proof.
  intros H.
  destruct (@tokenize_descends (fun _ _ => True) (fun g _ => rank g) (rank g) st0 text g
              eq_refl (@ranked_descends rank st0 H) I) as (N & r & HN & _).
  now exists N, r.
Qed.


(** *** The invocation a cause was given to stops before the rule of the cause *)



(** *** The expressions of the tag grammar *)









Lemma in_firstn_in (A : Type) (x : A) n (l : list A) : In x (firstn n l) -> In x l.
Proof. intros H. rewrite <- (firstn_skipn n l). apply in_or_app. now left. Qed.

Lemma in_skipn_in (A : Type) (x : A) n (l : list A) : In x (skipn n l) -> In x l.
Proof. intros H. rewrite <- (firstn_skipn n l). apply in_or_app. now right. Qed.

Lemma typed_start names text : typed names [EStr text].
Proof. intros t [H|[]]. discriminate. Qed.

(** The type of every token of the stream is a key of the grammar (with its
    [rest] merged). *)
Lemma tokenize_typed : forall fuel st0 text g st' stream,
  tokenize fuel st0 text g = Done (st', stream) ->
  typed (map fst (rules (merged st0 g g))) stream.
Proof.
  intros [|fuel] st0 text g st' stream; [discriminate|].
  rewrite !tokenize_unfold. unfold matchGrammar.
  set (st1 := merged st0 g).
  set (names := map fst (rules (st1 g))).
  assert (Hstep : forall token po s0 c pos cn p str0 mt rc r list4 cn1 p1,
    In token names -> ok_at text (tokenList s0) c pos -> typed names (tokenList s0) ->
    turn text po s0 c pos = TMatch cn p str0 mt rc ->
    match inside po with
    | Some g => x <- tokenize fuel (st s0) (m0 mt) g ;; Done (fst x, CArr (snd x))
    | None => Done (st s0, CStr (m0 mt))
    end = Done r ->
    splice (tokenList s0) cn p str0 mt rc
      (ETok (new_Token token (snd r) (opt_alias (gt_alias po)) (Some (m0 mt))))
    = (list4, cn1, p1) ->
    typed names list4).
  { intros token po s0 c pos cn p str0 mt rc r list4 cn1 p1 HQ Hok HP Ht Hr Hs.
    pose proof (turn_spec po s0 Hok) as T1. cbv zeta in T1. rewrite Ht in T1.
    destruct T1 as (_ & (_ & Hcn & _ & _) & _ & _ & _ & Hrcl & _).
    rewrite splice_eq in Hs by lia. cbv zeta in Hs. injection Hs as <- _ _.
    intros t Hin. apply in_app_or in Hin. destruct Hin as [Hin|Hin].
    { apply HP. eapply in_firstn_in; exact Hin. }
    apply in_app_or in Hin. destruct Hin as [Hin|Hin].
    { destruct (truthy _); [destruct Hin as [Hin|[]]; discriminate | destruct Hin]. }
    destruct Hin as [Hin|Hin].
    { injection Hin as <-. exact HQ. }
    apply in_app_or in Hin. destruct Hin as [Hin|Hin].
    { destruct (truthy _); [destruct Hin as [Hin|[]]; discriminate | destruct Hin]. }
    apply HP. eapply in_skipn_in; exact Hin. }
  assert (Hnames : forall token v, In (token, v) (rules (st1 g)) -> In token names).
  { intros token v Hin. unfold names. apply in_map_iff. now exists (token, v). }
  destruct (@keeps_step (tokenize fuel) text (rules (st1 g)) (tokenize_safe fuel)
              (typed names) (fun token => In token names) Hnames Hstep fuel) as (_ & _ & Hk).
  specialize (Hk (rules (st1 g)) {| st := st1; tokenList := [EStr text]; rematch := None |} 0 0
                 Hnames (ok_at_start text) (@typed_start names text)).
  unfold keeps_post in Hk.
  destruct (mgKeys _ _ _ fuel _ _ 0 0) as [n| |]; try discriminate.
  cbn [bind]. intros [= _ <-]. exact Hk.
Qed.

(** An element of a well-formed list reads as the part of the text at its
    offset. *)
Lemma flat_nth l i e :
  forallb well_formed l = true -> nth_error l i = Some e ->
  TagWalker.stringifyToken e = slice (flat l) (offset l i) (offset l i + elem_length e).
Proof.
  intros Hwf Hi.
  rewrite <- (offset_S _ _ Hi). replace (S i) with (i + 1) by lia.
  rewrite <- (@flat_segment l i 1 Hwf).
  destruct (skipn i l) as [|x r] eqn:E.
  { apply skipn_nil_length in E. apply nth_error_lt in Hi. lia. }
  apply skipn_cons_nth in E. destruct E as (E1 & _).
  rewrite Hi in E1. injection E1 as <-.
  simpl. unfold flat. simpl. now rewrite app_nil_r.
Qed.

Lemma merged_keys st0 g k :
  In k (map fst (rules (merged st0 g g))) ->
  In k (map fst (rules (st0 g))) \/
  exists r, rest (st0 g) = Some r /\ In k (map fst (rules (st0 r))).
Proof.
  unfold merged. destruct (rest (st0 g)) as [r|] eqn:Er; [|now left].
  unfold upd. rewrite Nat.eqb_refl. cbn [rules].
  intros H. apply in_map_iff in H. destruct H as ([k' v] & <- & H).
  apply obj_assign_In in H. destruct H as [H|H].
  - left. apply in_map_iff. now exists (k', v).
  - right. exists r. split; [reflexivity|]. apply in_map_iff. now exists (k', v).
Qed.

(** ** Induction on nested streams *)

Lemma Elem_nested_ind (P : Elem -> Prop) :
  (forall s, P (EStr s)) ->
  (forall ty s a n, P (ETok (mkToken ty (CStr s) a n))) ->
  (forall ty l a n, Forall P l -> P (ETok (mkToken ty (CArr l) a n))) ->
  forall e, P e.
Proof.
  intros Hs Hc Ha.
  fix IH 1. intros [s|[ty [s|l] a n]].
  - apply Hs.
  - apply Hc.
  - apply Ha. induction l as [|x l IHl]; constructor; [apply IH | exact IHl].
Qed.

(** ** Ordered objects: a read after writes *)

Lemma str_eqb_neq a b : str_eqb a b = false -> a <> b.
Proof. unfold str_eqb. destruct (list_eq_dec ascii_dec a b); [discriminate | auto]. Qed.

Lemma str_eqb_sym a b : str_eqb a b = str_eqb b a.
Proof.
  unfold str_eqb.
  destruct (list_eq_dec ascii_dec a b), (list_eq_dec ascii_dec b a); congruence.
Qed.

Lemma obj_get_set (V : Type) (o : list (str * V)) k v k' :
  obj_get (obj_set o k v) k' = if str_eqb k k' then Some v else obj_get o k'.
Proof.
  induction o as [|[k0 v0] o IH]; simpl.
  - reflexivity.
  - destruct (str_eqb k0 k) eqn:E; simpl.
    + apply str_eqb_eq in E. subst k0. now destruct (str_eqb k k').
    + destruct (str_eqb k0 k') eqn:E'.
      * apply str_eqb_eq in E'. subst k0. rewrite str_eqb_sym, E. reflexivity.
      * exact IH.
Qed.

(** ** The ranges of a stream *)

Lemma ranges_under_add highlights type range name :
  ranges_under (add_range highlights type range) name
  = ranges_under highlights name ++ (if str_eqb type name then [range] else []).
Proof.
  unfold ranges_under, add_range.
  destruct (obj_get highlights type) as [h|] eqn:E; rewrite obj_get_set;
    destruct (str_eqb type name) eqn:En.
  - apply str_eqb_eq in En. subst name. now rewrite E.
  - now rewrite app_nil_r.
  - apply str_eqb_eq in En. subst name. now rewrite E.
  - now rewrite app_nil_r.
Qed.

Lemma ranges_under_fold l : forall highlights name,
  ranges_under (fold_left (fun h tr => add_range h (fst tr) (snd tr)) l highlights) name
  = ranges_under highlights name ++ under name l.
Proof.
  induction l as [|[ty r] l IH]; intros highlights name; simpl.
  - unfold under. simpl. now rewrite app_nil_r.
  - rewrite IH, ranges_under_add. unfold under. simpl.
    rewrite <- app_assoc. now destruct (str_eqb ty name).
Qed.

Lemma spans_each (l : list Elem) (ty : str) : forall index,
  (fix each (l : list Elem) (index : nat) : list (str * StaticRange) :=
     match l with
     | [] => []
     | x :: l' => spans_of x ty index ++ each l' (index + elem_length x)
     end) l index = spans l ty index.
Proof. induction l as [|e l IH]; intros index; [reflexivity|]. simpl. now rewrite IH. Qed.

Lemma highlight_each (l : list Elem) (ty : str) : forall index highlights,
  (fix each (l : list Elem) (index : nat) (highlights : HighlightRegistry)
     : HighlightRegistry :=
     match l with
     | [] => highlights
     | e :: l' => each l' (index + elem_length e) (highlight_token e ty index highlights)
     end) l index highlights = _highlightTextNode l ty index highlights.
Proof.
  induction l as [|e l IH]; intros index highlights; [reflexivity|]. simpl. now rewrite IH.
Qed.

Lemma highlight_list_spans l :
  Forall (fun e => forall type index highlights,
            highlight_token e type index highlights
            = fold_left (fun h tr => add_range h (fst tr) (snd tr))
                (spans_of e type index) highlights) l ->
  forall type index highlights,
    _highlightTextNode l type index highlights
    = fold_left (fun h tr => add_range h (fst tr) (snd tr)) (spans l type index) highlights.
Proof.
  induction 1 as [|e l He _ IH]; intros type index highlights; [reflexivity|].
  simpl. now rewrite fold_left_app, IH, He.
Qed.

(** The writes of [_highlightTextNode] are the spans of the stream, added in
    text order. *)
Lemma highlight_token_spans e : forall type index highlights,
  highlight_token e type index highlights
  = fold_left (fun h tr => add_range h (fst tr) (snd tr)) (spans_of e type index) highlights.
Proof.
  induction e as [s|ty s a n|ty l a n IH] using Elem_nested_ind;
    intros type index highlights; try reflexivity.
  cbn [highlight_token spans_of]. rewrite highlight_each, spans_each.
  now apply highlight_list_spans.
Qed.

Lemma highlight_spans l type index highlights :
  _highlightTextNode l type index highlights
  = fold_left (fun h tr => add_range h (fst tr) (snd tr)) (spans l type index) highlights.
Proof.
  apply highlight_list_spans. apply Forall_forall. intros e _. apply highlight_token_spans.
Qed.

Lemma chain_app l1 : forall a b l2 c,
  chain a l1 b -> chain b l2 c -> chain a (l1 ++ l2) c.
Proof.
  induction l1 as [|r l1 IH]; simpl; intros a b l2 c H1 H2.
  - now subst.
  - destruct H1 as (E1 & E2 & E3). repeat split; auto. eapply IH; eauto.
Qed.

Lemma chain_list l : forall type index,
  Forall (fun e => well_formed e = true ->
            forall type index,
              chain index (map snd (spans_of e type index)) (index + elem_length e)) l ->
  forallb well_formed l = true ->
  chain index (map snd (spans l type index)) (index + sumlen l).
Proof.
  induction l as [|e l IH]; intros type index HF Hwf.
  - simpl. unfold sumlen. simpl. lia.
  - simpl in Hwf. apply andb_true_iff in Hwf. destruct Hwf as [H1 H2].
    inversion HF as [|? ? He Hl]; subst.
    simpl. rewrite map_app. eapply chain_app; [apply (He H1)|].
    rewrite sumlen_cons, Nat.add_assoc. now apply IH.
Qed.

(** The spans of a well-formed element follow one another over exactly the
    part of the text that the element covers. *)
Lemma chain_spans_of e :
  well_formed e = true ->
  forall type index,
    chain index (map snd (spans_of e type index)) (index + elem_length e).
Proof.
  induction e as [s|ty s a n|ty l a n IH] using Elem_nested_ind; intros Hwf type index.
  - simpl. repeat split; lia.
  - simpl in *. apply Nat.eqb_eq in Hwf. subst n. repeat split; lia.
  - cbn [well_formed] in Hwf. apply andb_true_iff in Hwf. destruct Hwf as [H1 H2].
    rewrite well_formed_all in H2. apply Nat.eqb_eq in H1.
    cbn [TagWalker.stringifyToken] in H1. rewrite stringify_each in H1.
    rewrite (flat_length _ H2) in H1.
    cbn [spans_of elem_length tlength]. rewrite spans_each, H1.
    now apply chain_list.
Qed.

Lemma chain_spans l type index :
  forallb well_formed l = true ->
  chain index (map snd (spans l type index)) (index + sumlen l).
Proof.
  intros Hwf. apply chain_list; [|exact Hwf].
  apply Forall_forall. intros e _ He. now apply chain_spans_of.
Qed.

(** ** Escaping *)

Lemma encode_str_app a b : encode_str (a ++ b) = encode_str a ++ encode_str b.
Proof. unfold encode_str. apply flat_map_app. Qed.

Lemma encode_str_safe s c :
  In c (encode_str s) -> c <> ascii_of_nat 60 /\ c <> ascii_of_nat 160.
Proof.
  unfold encode_str. intros H. apply in_flat_map in H. destruct H as (x & _ & H).
  destruct (Ascii.eqb x (ascii_of_nat 38)) eqn:E1.
  { simpl in H. repeat (destruct H as [<-|H]; [split; discriminate|]). destruct H. }
  destruct (Ascii.eqb x (ascii_of_nat 60)) eqn:E2.
  { simpl in H. repeat (destruct H as [<-|H]; [split; discriminate|]). destruct H. }
  destruct (Ascii.eqb x (ascii_of_nat 160)) eqn:E3.
  { simpl in H. repeat (destruct H as [<-|H]; [split; discriminate|]). destruct H. }
  destruct H as [<-|[]].
  apply Ascii.eqb_neq in E2, E3. now split.
Qed.

Lemma encode_str_plain s :
  (forall c, In c s ->
     c <> ascii_of_nat 38 /\ c <> ascii_of_nat 60 /\ c <> ascii_of_nat 160) ->
  encode_str s = s.
Proof.
  induction s as [|c s IH]; intros H; [reflexivity|].
  unfold encode_str in *. simpl.
  destruct (H c (or_introl eq_refl)) as (H1 & H2 & H3).
  apply Ascii.eqb_neq in H1, H2, H3. rewrite H1, H2, H3. simpl.
  f_equal. apply IH. intros x Hx. apply H. now right.
Qed.

Lemma encode_list_flat l :
  Forall (fun e => TagWalker.stringifyToken (encode_elem e)
                   = encode_str (TagWalker.stringifyToken e)) l ->
  flat (map encode_elem l) = encode_str (flat l).
Proof.
  induction 1 as [|e l He _ IH]; [reflexivity|].
  simpl. rewrite !flat_cons, encode_str_app, He, IH. reflexivity.
Qed.

(** The text of an encoded element is the encoding of its text. *)
Lemma stringify_encode e :
  TagWalker.stringifyToken (encode_elem e) = encode_str (TagWalker.stringifyToken e).
Proof.
  induction e as [s|ty s a n|ty l a n IH] using Elem_nested_ind; try reflexivity.
  cbn [encode_elem encode_token encode_content new_Token TagWalker.stringifyToken].
  rewrite !stringify_each. now apply encode_list_flat.
Qed.

Lemma encode_flat o : flat (encode o) = encode_str (flat o).
Proof.
  apply encode_list_flat. apply Forall_forall. intros e _. apply stringify_encode.
Qed.

(** ** A text that no rule matches *)

Section Quiet.

Variable tokenize_ : Store -> str -> gid -> outcome (Store * TokenStream).
Variable text : str.
Variable grammar : list (str * GValue).
Variable st1 : Store.

Lemma quiet_nodes fuel token j po :
  (forall p, search (pattern po) p text = None) ->
  exists b,
    mgNodes tokenize_ text grammar (S (S fuel)) token j po
      {| st := st1; tokenList := [EStr text]; rematch := None |} 1 0
    = Done ({| st := st1; tokenList := [EStr text]; rematch := None |}, b).
Proof.
  intros Hq. rewrite mgNodes_S. unfold turn.
  cbn [tokenList rematch node_value nth_error reached List.length].
  destruct (List.length text <? 1); [now exists true|].
  destruct (greedy po).
  - unfold matchPattern, exec, with_global. cbn [search global sticky].
    rewrite Hq. now exists false.
  - unfold matchPattern, exec. rewrite Hq, mgNodes_S. unfold turn.
    cbn [tokenList rematch node_value nth_error]. now exists false.
Qed.

Lemma quiet_patterns token : forall ps fuel j,
  (forall po, In po ps -> forall p, search (pattern po) p text = None) ->
  List.length ps + 2 < fuel ->
  exists b,
    mgPatterns tokenize_ text grammar fuel token ps j
      {| st := st1; tokenList := [EStr text]; rematch := None |} 0 0
    = Done ({| st := st1; tokenList := [EStr text]; rematch := None |}, b).
Proof.
  induction ps as [|po ps IH]; intros [|fuel] j Hq Hf; try lia.
  - now exists false.
  - simpl in Hf. rewrite mgPatterns_S. cbn [is_cause rematch].
    destruct fuel as [|[|fuel]]; try lia.
    destruct (@quiet_nodes fuel token j po (Hq po (or_introl eq_refl))) as [b ->].
    cbn [bind snd fst]. destruct b; [now exists true|].
    apply IH; [|lia]. intros po' Hin. apply Hq. now right.
Qed.

Lemma quiet_keys : forall keys fuel,
  (forall token v ps po, In (token, v) keys -> patterns_of v = Some ps -> In po ps ->
     forall p, search (pattern po) p text = None) ->
  valve_fuel keys <= fuel ->
  mgKeys tokenize_ text grammar fuel keys
    {| st := st1; tokenList := [EStr text]; rematch := None |} 0 0
  = Done {| st := st1; tokenList := [EStr text]; rematch := None |}.
Proof.
  induction keys as [|[token v] keys IH]; intros [|fuel] Hq Hf; simpl in Hf; try lia.
  - reflexivity.
  - assert (Hq' : forall token' v' ps po, In (token', v') keys ->
              patterns_of v' = Some ps -> In po ps ->
              forall p, search (pattern po) p text = None).
    { intros token' v' ps po Hin. apply (Hq token' v' ps po). now right. }
    rewrite mgKeys_S. destruct (patterns_of v) as [ps|] eqn:Ep; [|apply IH; [exact Hq' | lia]].
    assert (Hvf : 1 <= valve_fuel keys) by (destruct keys as [|[? ?] ?]; simpl; lia).
    destruct (@quiet_patterns token ps fuel 0) as [b ->].
    + intros po Hin. exact (Hq token v ps po (or_introl eq_refl) Ep Hin).
    + lia.
    + cbn [bind snd fst]. destruct b; [reflexivity|]. apply IH; [exact Hq' | lia].
Qed.

End Quiet.

Lemma tokenize_quiet st0 text g fuel :
  (forall token v ps po, In (token, v) (rules (merged st0 g g)) ->
     patterns_of v = Some ps -> In po ps ->
     forall p, search (pattern po) p text = None) ->
  valve_fuel (rules (merged st0 g g)) < fuel ->
  tokenize fuel st0 text g = Done (merged st0 g, [EStr text]).
Proof.
  intros Hq Hf. destruct fuel as [|fuel]; [lia|].
  rewrite tokenize_unfold. unfold matchGrammar.
  cbn [addAfter fst firstn skipn app].
  rewrite quiet_keys; [reflexivity | exact Hq | lia].
Qed.

(** ** The stringifier and concatenation *)

Lemma stringify_cons hooks language0 st e l :
  stringify hooks language0 st (e :: l)
  = (r <- stringify_elem hooks language0 st e ;;
     r' <- stringify hooks language0 (fst r) l ;;
     Done (fst r', snd r ++ snd r')).
Proof. reflexivity. Qed.

Lemma stringify_nil hooks language0 st :
  stringify hooks language0 st [] = Done (st, []).
Proof. reflexivity. Qed.

Lemma stringify_app hooks language0 : forall a st b,
  stringify hooks language0 st (a ++ b)
  = (r <- stringify hooks language0 st a ;;
     r' <- stringify hooks language0 (fst r) b ;;
     Done (fst r', snd r ++ snd r')).
Proof.
  induction a as [|e a IH]; intros st b.
  - rewrite app_nil_l, stringify_nil. cbn [bind fst snd app].
    destruct (stringify hooks language0 st b) as [[st' s]| |]; reflexivity.
  - rewrite <- app_comm_cons, !stringify_cons.
    destruct (stringify_elem hooks language0 st e) as [[st1 s1]| |]; [|reflexivity|reflexivity].
    cbn [bind fst snd]. rewrite IH.
    destruct (stringify hooks language0 st1 a) as [[st2 s2]| |]; [|reflexivity|reflexivity].
    cbn [bind fst snd].
    destruct (stringify hooks language0 st2 b) as [[st3 s3]| |]; [|reflexivity|reflexivity].
    cbn [bind fst snd]. now rewrite app_assoc.
Qed.

Lemma x_re_quiet p : search Examples.x_re p (lit "yz") = None.
Proof. destruct p as [|[|[|p]]]; reflexivity. Qed.

(** ** The walker of [prism-lang-tsx.ts] *)

Lemma nth_error_mid (A : Type) (P : list A) x R :
  nth_error (P ++ x :: R) (List.length P) = Some x.
Proof. rewrite nth_error_app2 by lia. now rewrite Nat.sub_diag. Qed.

Lemma set_at_mid P x R v :
  TagWalker.set_at (P ++ x :: R) (List.length P) v = P ++ v :: R.
Proof.
  unfold TagWalker.set_at.
  rewrite (firstn_at_app _ _ eq_refl).
  replace (P ++ x :: R) with ((P ++ [x]) ++ R) by (now rewrite <- app_assoc).
  rewrite skipn_at_app0; [reflexivity|]. rewrite length_app. simpl. lia.
Qed.

Lemma splice1_mid P x R :
  TagWalker.splice1 (P ++ x :: R) (List.length P) = P ++ R.
Proof.
  unfold TagWalker.splice1.
  rewrite (firstn_at_app _ _ eq_refl).
  replace (P ++ x :: R) with ((P ++ [x]) ++ R) by (now rewrite <- app_assoc).
  rewrite skipn_at_app0; [reflexivity|]. rewrite length_app. simpl. lia.
Qed.

Lemma last_or_nil (A : Type) (P : list A) : P = [] \/ exists P0 x, P = P0 ++ [x].
Proof.
  destruct P as [|a P] using rev_ind; [now left|]. right. now exists P, a.
Qed.

Lemma nth_error_next (A : Type) (P : list A) x y R :
  nth_error (P ++ x :: y :: R) (S (List.length P)) = Some y.
Proof.
  replace (P ++ x :: y :: R) with ((P ++ [x]) ++ y :: R) by (now rewrite <- app_assoc).
  replace (S (List.length P)) with (List.length (P ++ [x]))
    by (rewrite length_app; simpl; lia).
  apply nth_error_mid.
Qed.

Lemma splice1_next P x y R :
  TagWalker.splice1 (P ++ x :: y :: R) (S (List.length P)) = P ++ x :: R.
Proof.
  replace (P ++ x :: y :: R) with ((P ++ [x]) ++ y :: R) by (now rewrite <- app_assoc).
  replace (S (List.length P)) with (List.length (P ++ [x]))
    by (rewrite length_app; simpl; lia).
  rewrite splice1_mid. now rewrite <- app_assoc.
Qed.

(** What the merge of a plain text with its neighbours leaves: one
    [plain-text] token in place of the element and of the neighbours it
    took, with their texts joined. *)
Lemma merge_plain_shape P token R :
  exists P' R' s,
    TagWalker.merge_plain (P ++ token :: R) (List.length P) token
    = (P' ++ ETok (new_Token (lit "plain-text") (CStr s) None (Some s)) :: R',
       List.length P') /\
    (R' = R \/ exists nxt, R = nxt :: R') /\
    (P' = P \/ exists prv, P = P' ++ [prv]) /\
    flat P' ++ s ++ flat R' = flat P ++ TagWalker.stringifyToken token ++ flat R.
Proof.
  unfold TagWalker.merge_plain.
  set (t0 := TagWalker.stringifyToken token).
  assert (Hstep1 : exists R1 t1,
    (match nth_error (P ++ token :: R) (S (List.length P)) with
     | Some nxt =>
         if TagWalker.mergeable nxt
         then (TagWalker.splice1 (P ++ token :: R) (S (List.length P)),
               t0 ++ TagWalker.stringifyToken nxt)
         else (P ++ token :: R, t0)
     | None => (P ++ token :: R, t0)
     end) = (P ++ token :: R1, t1) /\
    (R1 = R \/ exists nxt, R = nxt :: R1) /\
    t1 ++ flat R1 = t0 ++ flat R).
  { destruct R as [|nxt R0].
    - assert (E : nth_error (P ++ [token]) (S (List.length P)) = None)
        by (apply nth_error_None; rewrite length_app; simpl; lia).
      rewrite E. exists [], t0. repeat split; auto.
    - rewrite nth_error_next. destruct (TagWalker.mergeable nxt).
      + rewrite splice1_next.
        exists R0, (t0 ++ TagWalker.stringifyToken nxt).
        split; [reflexivity|]. split; [right; now exists nxt|].
        now rewrite flat_cons, app_assoc.
      + exists (nxt :: R0), t0. repeat split; auto. }
  destruct Hstep1 as (R1 & t1 & -> & HR1 & Ht1). cbv beta iota.
  destruct (last_or_nil P) as [->|(P0 & prv & ->)].
  - change (List.length (@nil Elem)) with 0. cbv beta iota. rewrite !app_nil_l.
    exists [], R1, t1. rewrite !app_nil_l.
    split; [reflexivity|]. split; [exact HR1|]. split; [now left|].
    exact Ht1.
  - rewrite length_app. cbn [List.length]. rewrite Nat.add_1_r. cbv beta iota.
    rewrite <- (app_assoc P0 [prv]), <- app_comm_cons, app_nil_l.
    rewrite nth_error_mid.
    destruct (TagWalker.mergeable prv).
    + rewrite splice1_mid, set_at_mid.
      exists P0, R1, (TagWalker.stringifyToken prv ++ t1).
      split; [reflexivity|]. split; [exact HR1|]. split; [right; now exists prv|].
      rewrite flat_app, <- !app_assoc. f_equal.
      rewrite (flat_cons prv []). cbn [flat map concat]. rewrite app_nil_r.
      f_equal. exact Ht1.
    + replace (P0 ++ prv :: token :: R1) with ((P0 ++ [prv]) ++ token :: R1)
        by (now rewrite <- app_assoc).
      replace (S (List.length P0)) with (List.length (P0 ++ [prv]))
        by (rewrite length_app; simpl; lia).
      rewrite set_at_mid.
      exists (P0 ++ [prv]), R1, t1.
      split; [reflexivity|]. split; [exact HR1|]. split; [now left|].
      f_equal. exact Ht1.
Qed.

Lemma walk_from_S fuel tokens i openedTags :
  TagWalker.walk_from (S fuel) tokens i openedTags =
  match nth_error tokens i with
  | None => Done tokens
  | Some token =>
    c <- match token with
         | ETok t => TagWalker.classify t openedTags
         | EStr _ => Done (openedTags, false)
         end ;;
    let openedTags1 := fst c in
    let notTagNorBrace := snd c in
    let '(tokens1, i1, replaced) :=
      if (notTagNorBrace || is_string token) &&
         match TagWalker.top_braces openedTags1 with Some 0 => true | _ => false end
      then let '(l, k) := TagWalker.merge_plain tokens i token in (l, k, true)
      else (tokens, i, false) in
    tokens2 <- match token with
               | ETok (mkToken ty (CArr l) a n) =>
                   w <- TagWalker.walkTokens fuel l ;;
                   Done (if replaced then tokens1
                         else TagWalker.set_at tokens1 i1 (ETok (mkToken ty (CArr w) a n)))
               | _ => Done tokens1
               end ;;
    TagWalker.walk_from fuel tokens2 (S i1) openedTags1
  end.
Proof. reflexivity. Qed.

Lemma walkTokens_S fuel tokens :
  TagWalker.walkTokens (S fuel) tokens = TagWalker.walk_from fuel tokens 0 [].
Proof. reflexivity. Qed.

Lemma well_formed_mid P x R :
  forallb well_formed (P ++ x :: R) = true ->
  forallb well_formed P = true /\ well_formed x = true /\ forallb well_formed R = true.
Proof.
  rewrite forallb_app. cbn [forallb]. intros H.
  apply andb_true_iff in H. destruct H as [H1 H2].
  apply andb_true_iff in H2. tauto.
Qed.

Lemma well_formed_join P x R :
  forallb well_formed P = true -> well_formed x = true -> forallb well_formed R = true ->
  forallb well_formed (P ++ x :: R) = true.
Proof. intros H1 H2 H3. rewrite forallb_app. cbn [forallb]. now rewrite H1, H2, H3. Qed.

(** The walker changes neither the text of the stream nor the fit of the
    lengths of its tokens. *)
Lemma walk_keeps : forall fuel,
  (forall tokens out,
     TagWalker.walkTokens fuel tokens = Done out ->
     flat out = flat tokens /\
     (forallb well_formed tokens = true -> forallb well_formed out = true)) /\
  (forall tokens i openedTags out,
     TagWalker.walk_from fuel tokens i openedTags = Done out ->
     flat out = flat tokens /\
     (forallb well_formed tokens = true -> forallb well_formed out = true)).
Proof.
  induction fuel as [|fuel [IHw IHf]]; [split; intros; discriminate|].
  split.
  - intros tokens out. rewrite walkTokens_S. apply IHf.
  - intros tokens i openedTags out. rewrite walk_from_S.
    destruct (nth_error tokens i) as [token|] eqn:Ei; [|intros [= <-]; split; auto].
    destruct (nth_error_split _ _ Ei) as (P & R & -> & <-).
    destruct (match token with
              | ETok t => TagWalker.classify t openedTags
              | EStr _ => Done (openedTags, false)
              end) as [[openedTags1 ntb]| |]; try discriminate.
    cbn [bind fst snd]. cbv zeta.
    destruct ((ntb || is_string token) &&
              match TagWalker.top_braces openedTags1 with Some 0 => true | _ => false end).
    + destruct (merge_plain_shape P token R) as (P' & R' & s & -> & HR & HP & Hflat).
      cbv beta iota.
      set (plain := ETok (new_Token (lit "plain-text") (CStr s) None (Some s))).
      assert (Hcont : forall out,
        TagWalker.walk_from fuel (P' ++ plain :: R') (S (List.length P')) openedTags1
        = Done out ->
        flat out = flat (P ++ token :: R) /\
        (forallb well_formed (P ++ token :: R) = true -> forallb well_formed out = true)).
      { intros out' H. apply IHf in H. destruct H as [H1 H2]. split.
        - rewrite H1, !flat_app, !flat_cons. exact Hflat.
        - intros Hwf. apply H2. apply well_formed_mid in Hwf. destruct Hwf as (W1 & _ & W3).
          apply well_formed_join.
          + destruct HP as [->|[prv ->]]; [exact W1|].
            rewrite forallb_app in W1. now apply andb_true_iff in W1.
          + unfold plain. cbn [new_Token well_formed]. apply Nat.eqb_refl.
          + destruct HR as [->|[nxt ->]]; [exact W3|].
            cbn [forallb] in W3. now apply andb_true_iff in W3. }
      destruct token as [s0|[ty [s0|l] a n]]; cbn [bind]; try apply Hcont.
      destruct (TagWalker.walkTokens fuel l) as [w| |]; try discriminate.
      cbn [bind]. apply Hcont.
    + cbv beta iota.
      destruct token as [s0|[ty [s0|l] a n]]; cbn [bind]; try apply IHf.
      destruct (TagWalker.walkTokens fuel l) as [w| |] eqn:Ew; try discriminate.
      cbn [bind]. rewrite set_at_mid. intros H. apply IHf in H. destruct H as [H1 H2].
      apply IHw in Ew. destruct Ew as [E1 E2].
      split.
      * rewrite H1, !flat_app, !flat_cons. do 2 f_equal.
        cbn [TagWalker.stringifyToken]. now rewrite !stringify_each.
      * intros Hwf. apply H2. apply well_formed_mid in Hwf. destruct Hwf as (W1 & W2 & W3).
        apply well_formed_join; [exact W1| |exact W3].
        cbn [well_formed TagWalker.stringifyToken] in *.
        rewrite stringify_each, well_formed_all in *.
        apply andb_true_iff in W2. destruct W2 as [W2 W4].
        rewrite E1, W2, (E2 W4). reflexivity.
Qed.

Lemma classify_returns t openedTags : TagWalker.classify t openedTags <> Timeout.
Proof.
  unfold TagWalker.classify.
  destruct (TagWalker.tag_head t) as [inner|]; [|discriminate].
  destruct (TagWalker.content_get (content inner) 0) as [first|]; [|discriminate].
  destruct (TagWalker.content_is first (lit "</")).
  - destruct openedTags as [|top below]; [discriminate|].
    destruct (str_eqb _ _); discriminate.
  - destruct (TagWalker.content_last (content t)) as [lastElem|]; [|discriminate].
    destruct (TagWalker.content_is lastElem (lit "/>")); discriminate.
Qed.

Lemma walk_cost_sum (l : list Elem) :
  (fix sum (l : list Elem) : nat :=
     match l with
     | [] => 0
     | x :: l' => S (walk_cost x) + sum l'
     end) l = list_sum (map (fun e => S (walk_cost e)) l).
Proof.
  induction l as [|x l IH]; [reflexivity|].
  transitivity (S (walk_cost x) + list_sum (map (fun e => S (walk_cost e)) l));
    [rewrite <- IH; reflexivity | reflexivity].
Qed.

Lemma walk_cost_nested ty l a n :
  walk_cost (ETok (mkToken ty (CArr l) a n)) = S (walk_fuel l).
Proof.
  cbn [walk_cost]. rewrite walk_cost_sum. unfold walk_fuel. lia.
Qed.

Lemma walk_fuel_cons e l : walk_fuel (e :: l) = S (walk_cost e) + walk_fuel l.
Proof.
  unfold walk_fuel. cbn [map].
  change (list_sum (S (walk_cost e) :: map (fun e => S (walk_cost e)) l))
    with (S (walk_cost e) + list_sum (map (fun e => S (walk_cost e)) l)).
  lia.
Qed.

Lemma walk_fuel_pos l : 1 <= walk_fuel l.
Proof. unfold walk_fuel. lia. Qed.

(** The walker returns, or raises: it goes once through every element and
    every nested stream. *)
Lemma walk_returns : forall fuel,
  (forall tokens, walk_fuel tokens < fuel -> TagWalker.walkTokens fuel tokens <> Timeout) /\
  (forall tokens i openedTags,
     walk_fuel (skipn i tokens) <= fuel ->
     TagWalker.walk_from fuel tokens i openedTags <> Timeout).
Proof.
  induction fuel as [|fuel [IHw IHf]].
  { split; [intros; lia|]. intros tokens i o H. pose proof (walk_fuel_pos (skipn i tokens)). lia. }
  split.
  - intros tokens H. rewrite walkTokens_S. apply IHf. cbn [skipn]. lia.
  - intros tokens i openedTags Hf. rewrite walk_from_S.
    destruct (nth_error tokens i) as [token|] eqn:Ei; [|discriminate].
    destruct (nth_error_split _ _ Ei) as (P & R & -> & <-).
    rewrite (skipn_at_app0 _ _ eq_refl), walk_fuel_cons in Hf.
    assert (Hc : match token with
                 | ETok t => TagWalker.classify t openedTags
                 | EStr _ => Done (openedTags, false)
                 end <> Timeout)
      by (destruct token; [discriminate | apply classify_returns]).
    destruct (match token with
              | ETok t => TagWalker.classify t openedTags
              | EStr _ => Done (openedTags, false)
              end) as [[openedTags1 ntb]| |]; [|discriminate|congruence].
    cbn [bind fst snd]. cbv zeta.
    assert (Hnest : forall ty l a n, token = ETok (mkToken ty (CArr l) a n) ->
              TagWalker.walkTokens fuel l <> Timeout).
    { intros ty l a n ->. apply IHw. rewrite walk_cost_nested in Hf.
      pose proof (walk_fuel_pos R). lia. }
    destruct ((ntb || is_string token) &&
              match TagWalker.top_braces openedTags1 with Some 0 => true | _ => false end).
    + destruct (merge_plain_shape P token R) as (P' & R' & s & -> & HR & _ & _).
      cbv beta iota.
      set (plain := ETok (new_Token (lit "plain-text") (CStr s) None (Some s))).
      assert (Hcont :
        TagWalker.walk_from fuel (P' ++ plain :: R') (S (List.length P')) openedTags1
        <> Timeout).
      { apply IHf.
        replace (P' ++ plain :: R') with ((P' ++ [plain]) ++ R') by (now rewrite <- app_assoc).
        rewrite skipn_at_app0 by (rewrite length_app; simpl; lia).
        destruct HR as [->|[nxt ->]]; [lia|]. rewrite walk_fuel_cons in Hf. lia. }
      destruct token as [s0|[ty [s0|l] a n]]; cbn [bind]; try exact Hcont.
      specialize (Hnest ty l a n eq_refl).
      destruct (TagWalker.walkTokens fuel l) as [w| |]; [|discriminate|congruence].
      cbn [bind]. exact Hcont.
    + cbv beta iota.
      assert (Hcont : forall x,
        TagWalker.walk_from fuel (P ++ x :: R) (S (List.length P)) openedTags1 <> Timeout).
      { intros x. apply IHf.
        replace (P ++ x :: R) with ((P ++ [x]) ++ R) by (now rewrite <- app_assoc).
        rewrite skipn_at_app0 by (rewrite length_app; simpl; lia). lia. }
      destruct token as [s0|[ty [s0|l] a n]]; cbn [bind]; try apply Hcont.
      specialize (Hnest ty l a n eq_refl).
      destruct (TagWalker.walkTokens fuel l) as [w| |]; [|discriminate|congruence].
      cbn [bind]. rewrite set_at_mid. apply Hcont.
Qed.

(** ** The object that [insertBefore] builds *)

Lemma obj_set_fresh (V : Type) (o : list (str * V)) k v :
  ~ In k (map fst o) -> obj_set o k v = o ++ [(k, v)].
Proof.
  induction o as [|[k0 v0] o IH]; simpl; intros H; [reflexivity|].
  destruct (str_eqb k0 k) eqn:E.
  - apply str_eqb_eq in E. subst. exfalso. apply H. now left.
  - f_equal. apply IH. intros Hin. apply H. now right.
Qed.

Lemma obj_get_nodup (V : Type) (o : list (str * V)) k v :
  NoDup (map fst o) -> In (k, v) o -> obj_get o k = Some v.
Proof.
  induction o as [|[k0 v0] o IH]; simpl; intros Hnd Hin; [destruct Hin|].
  inversion Hnd as [|? ? Hk0 Hnd']; subst.
  destruct Hin as [[= -> ->]|Hin]; [now rewrite str_eqb_refl|].
  destruct (str_eqb k0 k) eqn:E.
  - apply str_eqb_eq in E. subst k0. exfalso. apply Hk0.
    apply in_map_iff. now exists (k, v).
  - now apply IH.
Qed.

Lemma obj_get_none (V : Type) (o : list (str * V)) k :
  obj_get o k = None <-> ~ In k (map fst o).
Proof.
  induction o as [|[k0 v0] o IH]; simpl; [tauto|].
  destruct (str_eqb k0 k) eqn:E.
  - apply str_eqb_eq in E. subst. split; [discriminate | intros H; exfalso; apply H; now left].
  - apply str_eqb_neq in E. rewrite IH. split; [intros H [H'|H']; auto | auto].
Qed.





(** ** What the traversal keeps *)

Section DFSKeeps.

Variable callback : str -> option Registry.Value -> Registry.Heap -> Registry.Heap.
Variable Inv : Registry.Heap -> Prop.

Hypothesis callback_keeps : forall k v h, Inv h -> Inv (callback k v h).

Lemma DFS_keys_keeps : forall fuel o ks h visited r,
  Registry.DFS_keys callback fuel o ks h visited = Done r -> Inv h -> Inv (fst r).
Proof.
  induction fuel as [|fuel IH]; intros o ks h visited r; [discriminate|].
  cbn [Registry.DFS_keys]. destruct ks as [|i ks]; [intros [= <-]; auto|].
  set (h1 := callback i (obj_get (Registry.objs h o) i) h).
  intros H Hinv. assert (H1 : Inv h1) by (apply callback_keeps; exact Hinv).
  destruct (obj_get (Registry.objs h1 o) i) as [[p|p|x]|].
  - destruct (existsb (Nat.eqb p) visited).
    + cbn [bind fst snd] in H. exact (IH _ _ _ _ _ H H1).
    + destruct (Registry.DFS_keys callback fuel p _ h1 (p :: visited)) as [r1| |] eqn:E1;
        try discriminate.
      cbn [bind] in H. apply (IH _ _ _ _ _ H). exact (IH _ _ _ _ _ E1 H1).
  - destruct (existsb (Nat.eqb p) visited).
    + cbn [bind fst snd] in H. exact (IH _ _ _ _ _ H H1).
    + destruct (Registry.DFS_keys callback fuel p _ h1 (p :: visited)) as [r1| |] eqn:E1;
        try discriminate.
      cbn [bind] in H. apply (IH _ _ _ _ _ H). exact (IH _ _ _ _ _ E1 H1).
  - cbn [bind fst snd] in H. exact (IH _ _ _ _ _ H H1).
  - cbn [bind fst snd] in H. exact (IH _ _ _ _ _ H H1).
Qed.

End DFSKeeps.

(** What [insertBefore] leaves in the heap. *)
Lemma insertBefore_effects fuel languages h inside before insert root h' ret g :
  Registry.insertBefore fuel languages h inside before insert root
  = Reply (Done (h', ret)) ->
  obj_get (Registry.objs h root) inside = Some (Registry.VObject g) ->
  languages < Registry.next h -> root < Registry.next h ->
  ret = Registry.next h /\
  Registry.next h' = S (Registry.next h) /\
  Registry.objs h' ret
  = Registry.build_ret (Registry.objs h g) (Registry.objs h g) before
      (Registry.objs h insert) [] /\
  obj_get (Registry.objs h' root) inside = Some (Registry.VObject ret) /\
  (forall l, l <> languages -> l <> root -> l <> ret ->
     Registry.objs h' l = Registry.objs h l) /\
  (root <> languages ->
   forall k, str_eqb inside k = false ->
     obj_get (Registry.objs h' root) k = obj_get (Registry.objs h root) k).
Proof.
  intros H Hg Hl Hr.
  set (R := Registry.next h) in *.
  set (h2 := {| Registry.objs := fun l =>
                  if Nat.eqb l R
                  then Registry.build_ret (Registry.objs h g) (Registry.objs h g) before
                         (Registry.objs h insert) []
                  else if Nat.eqb l R then [] else Registry.objs h l;
                Registry.next := S R |}).
  set (h3 := Registry.heap_set h2 root inside (Registry.VObject R)).
  set (cb := fun (key : str) (value : option Registry.Value) (hh : Registry.Heap) =>
               match value with
               | Some v =>
                   match obj_get (Registry.objs h2 root) inside with
                   | Some o =>
                       if Registry.value_eqb v o && negb (str_eqb key inside)
                       then Registry.heap_set hh languages key (Registry.VObject R)
                       else hh
                   | None => hh
                   end
               | None => hh
               end).
  assert (E : Registry.insertBefore fuel languages h inside before insert root
              = Reply (r <- Registry.DFS_keys cb fuel languages
                             (Registry.keys (Registry.objs h3 languages)) h3 [] ;;
                       Done (fst r, R))).
  { unfold Registry.insertBefore. rewrite Hg. reflexivity. }
  rewrite E in H. clear E. injection H as H.
  destruct (Registry.DFS_keys cb fuel languages _ h3 []) as [[hf vis]| |] eqn:ED;
    try discriminate.
  cbn [bind fst] in H. injection H as <- <-.
  set (Inv := fun hh : Registry.Heap =>
                Registry.next hh = S R /\
                (forall l, l <> languages -> Registry.objs hh l = Registry.objs h3 l) /\
                obj_get (Registry.objs hh languages) inside
                = obj_get (Registry.objs h3 languages) inside).
  assert (Hcb : forall k v hh, Inv hh -> Inv (cb k v hh)).
  { intros k v hh (I1 & I2 & I3). unfold cb.
    destruct v as [v|]; [|now split].
    destruct (obj_get (Registry.objs h2 root) inside) as [o|]; [|now split].
    destruct (Registry.value_eqb v o && negb (str_eqb k inside)) eqn:E; [|now split].
    apply andb_true_iff in E. destruct E as [_ E]. apply negb_true_iff in E.
    unfold Inv, Registry.heap_set. cbn [Registry.objs Registry.next].
    split; [exact I1|]. split.
    - intros l Hne. rewrite (proj2 (Nat.eqb_neq l languages) Hne). now apply I2.
    - rewrite Nat.eqb_refl, obj_get_set, E. exact I3. }
  assert (H3 : Inv h3) by (unfold Inv; repeat split; reflexivity).
  pose proof (@DFS_keys_keeps cb Inv Hcb _ _ _ _ _ _ ED H3) as (I1 & I2 & I3).
  cbn [fst] in I1, I2, I3.
  assert (HRl : R <> languages) by (unfold R; lia).
  assert (HRr : R <> root) by (unfold R; lia).
  assert (Eroot : obj_get (Registry.objs h3 root) inside = Some (Registry.VObject R)).
  { unfold h3, Registry.heap_set. cbn [Registry.objs].
    now rewrite Nat.eqb_refl, obj_get_set, str_eqb_refl. }
  split; [reflexivity|]. split; [exact I1|]. split.
  { rewrite (I2 R HRl). unfold h3, Registry.heap_set, h2. cbn [Registry.objs].
    apply Nat.eqb_neq in HRr. now rewrite HRr, Nat.eqb_refl. }
  split.
  { destruct (Nat.eq_dec root languages) as [->|Hne].
    - now rewrite I3.
    - now rewrite (I2 root Hne). }
  split.
  { intros l H1 H2 H4. rewrite (I2 l H1).
    unfold h3, Registry.heap_set, h2. cbn [Registry.objs].
    apply Nat.eqb_neq in H2, H4. now rewrite H2, H4. }
  intros Hne k Hk. rewrite (I2 root Hne).
  unfold h3, Registry.heap_set. cbn [Registry.objs].
  rewrite Nat.eqb_refl, obj_get_set, Hk. unfold h2. cbn [Registry.objs].
  apply Nat.neq_sym, Nat.eqb_neq in HRr. now rewrite HRr.
Qed.

(** ** The traversal ends *)

Lemma filter_length_le (A : Type) (f g : A -> bool) (L : list A) :
  (forall x, g x = true -> f x = true) ->
  List.length (filter g L) <= List.length (filter f L).
Proof.
  intros H. induction L as [|x L IH]; simpl; [lia|].
  destruct (g x) eqn:Eg; [rewrite (H x Eg); simpl; lia|].
  destruct (f x); simpl; lia.
Qed.

Lemma filter_length_lt (A : Type) (f g : A -> bool) (L : list A) p :
  (forall x, g x = true -> f x = true) ->
  In p L -> f p = true -> g p = false ->
  List.length (filter g L) < List.length (filter f L).
Proof.
  intros H. induction L as [|x L IH]; simpl; intros Hin Hf Hg; [destruct Hin|].
  destruct Hin as [->|Hin].
  - rewrite Hf, Hg. simpl. pose proof (filter_length_le f g L H). lia.
  - specialize (IH Hin Hf Hg).
    destruct (g x) eqn:Eg; [rewrite (H x Eg); simpl; lia|].
    destruct (f x); simpl; lia.
Qed.

Lemma unvisited_le h h' visited visited' :
  Registry.next h' = Registry.next h -> incl visited visited' ->
  unvisited h' visited' <= unvisited h visited.
Proof.
  intros Hn Hi. unfold unvisited. rewrite Hn. apply filter_length_le.
  intros x Hx. apply negb_true_iff in Hx. apply negb_true_iff.
  destruct (existsb (Nat.eqb x) visited) eqn:E; [|reflexivity].
  apply existsb_exists in E. destruct E as (y & Hy & Exy).
  assert (E' : existsb (Nat.eqb x) visited' = true)
    by (apply existsb_exists; exists y; split; [apply Hi; exact Hy | exact Exy]).
  congruence.
Qed.

Lemma unvisited_lt h visited p :
  p < Registry.next h -> existsb (Nat.eqb p) visited = false ->
  unvisited h (p :: visited) < unvisited h visited.
Proof.
  intros Hp Hv. unfold unvisited.
  apply filter_length_lt with (p := p).
  - intros x Hx. apply negb_true_iff in Hx. apply negb_true_iff.
    cbn [existsb] in Hx. now apply orb_false_iff in Hx.
  - apply in_seq. lia.
  - now rewrite Hv.
  - cbn [existsb]. now rewrite Nat.eqb_refl.
Qed.

Section DFSReturns.

Variable callback : str -> option Registry.Value -> Registry.Heap -> Registry.Heap.

Variable good : Registry.Heap -> Prop.

Hypothesis good_closed : forall h, good h -> closed h.
Hypothesis callback_next : forall k v h, Registry.next (callback k v h) = Registry.next h.
Hypothesis callback_good : forall k v h, good h -> good (callback k v h).

Lemma DFS_keys_mono : forall fuel fuel' o ks h visited r,
  fuel <= fuel' ->
  Registry.DFS_keys callback fuel o ks h visited = Done r ->
  Registry.DFS_keys callback fuel' o ks h visited = Done r.
Proof.
  induction fuel as [|fuel IH]; intros [|fuel'] o ks h visited r Hle; try discriminate; [lia|].
  assert (Hle' : fuel <= fuel') by lia.
  cbn [Registry.DFS_keys]. destruct ks as [|i ks]; [auto|].
  set (h1 := callback i (obj_get (Registry.objs h o) i) h).
  destruct (obj_get (Registry.objs h1 o) i) as [[p|p|x]|].
  - destruct (existsb (Nat.eqb p) visited).
    + cbn [bind]. apply IH; exact Hle'.
    + destruct (Registry.DFS_keys callback fuel p _ h1 (p :: visited)) as [r1| |] eqn:E1;
        try discriminate.
      rewrite (IH _ _ _ _ _ _ Hle' E1). cbn [bind]. apply IH; exact Hle'.
  - destruct (existsb (Nat.eqb p) visited).
    + cbn [bind]. apply IH; exact Hle'.
    + destruct (Registry.DFS_keys callback fuel p _ h1 (p :: visited)) as [r1| |] eqn:E1;
        try discriminate.
      rewrite (IH _ _ _ _ _ _ Hle' E1). cbn [bind]. apply IH; exact Hle'.
  - cbn [bind]. apply IH; exact Hle'.
  - cbn [bind]. apply IH; exact Hle'.
Qed.

(** On a heap whose references all lead to allocated objects the traversal
    returns, cycles or not: it enters an object at most once. *)
Lemma DFS_keys_returns : forall n ks o h visited,
  good h -> unvisited h visited <= n ->
  exists fuel r,
    Registry.DFS_keys callback fuel o ks h visited = Done r /\
    good (fst r) /\ Registry.next (fst r) = Registry.next h /\ incl visited (snd r).
Proof.
  induction n as [|n IHn].
  - (* every allocated object has been entered *)
    induction ks as [|i ks IHks]; intros o h visited Hc Hu.
    + exists 1, (h, visited). repeat split; auto. apply incl_refl.
    + set (h1 := callback i (obj_get (Registry.objs h o) i) h).
      assert (Hc1 : good h1) by (apply callback_good; exact Hc).
      assert (Hn1 : Registry.next h1 = Registry.next h) by apply callback_next.
      assert (Hu1 : unvisited h1 visited <= 0)
        by (pose proof (@unvisited_le h h1 visited visited Hn1 (incl_refl _)); lia).
      destruct (IHks o h1 visited Hc1 Hu1) as (f & r & E & R1 & R2 & R3).
      assert (Hseen : forall p, p < Registry.next h1 -> existsb (Nat.eqb p) visited = true).
      { intros p Hp. destruct (existsb (Nat.eqb p) visited) eqn:Ev; [reflexivity|].
        pose proof (@unvisited_lt h1 visited p Hp Ev). lia. }
      exists (S f), r. cbn [Registry.DFS_keys]. fold h1.
      split; [|split; [exact R1 | split; [congruence | exact R3]]].
      destruct (obj_get (Registry.objs h1 o) i) as [[p|p|x]|] eqn:Ep; cbn [bind]; try exact E.
      * rewrite (Hseen p (@good_closed h1 Hc1 o i p (or_introl Ep))). exact E.
      * rewrite (Hseen p (@good_closed h1 Hc1 o i p (or_intror Ep))). exact E.
  - induction ks as [|i ks IHks]; intros o h visited Hc Hu.
    + exists 1, (h, visited). repeat split; auto. apply incl_refl.
    + set (h1 := callback i (obj_get (Registry.objs h o) i) h).
      assert (Hc1 : good h1) by (apply callback_good; exact Hc).
      assert (Hn1 : Registry.next h1 = Registry.next h) by apply callback_next.
      assert (Hu1 : unvisited h1 visited <= S n)
        by (pose proof (@unvisited_le h h1 visited visited Hn1 (incl_refl _)); lia).
      assert (Hskip : exists fuel r,
        (r0 <- Done (h1, visited) ;; Registry.DFS_keys callback fuel o ks (fst r0) (snd r0))
        = Done r /\
        good (fst r) /\ Registry.next (fst r) = Registry.next h /\ incl visited (snd r)).
      { destruct (IHks o h1 visited Hc1 Hu1) as (f & r & E & R1 & R2 & R3).
        exists f, r. cbn [bind fst snd]. repeat split; auto. congruence. }
      assert (Henter : forall p, p < Registry.next h1 ->
        existsb (Nat.eqb p) visited = false ->
        exists fuel r,
          (r0 <- Registry.DFS_keys callback fuel p (Registry.keys (Registry.objs h1 p)) h1
                   (p :: visited) ;;
           Registry.DFS_keys callback fuel o ks (fst r0) (snd r0)) = Done r /\
          good (fst r) /\ Registry.next (fst r) = Registry.next h /\ incl visited (snd r)).
      { intros p Hp Ev.
        pose proof (@unvisited_lt h1 visited p Hp Ev) as Hlt.
        destruct (IHn (Registry.keys (Registry.objs h1 p)) p h1 (p :: visited) Hc1)
          as (f1 & [h2 v2] & E1 & R1 & R2 & R3); [lia|].
        cbn [fst snd] in R1, R2, R3.
        assert (Hu2 : unvisited h2 v2 <= S n).
        { pose proof (@unvisited_le h1 h2 (p :: visited) v2 R2 R3). lia. }
        destruct (IHks o h2 v2 R1 Hu2) as (f2 & r & E2 & S1 & S2 & S3).
        exists (Nat.max f1 f2), r.
        rewrite (DFS_keys_mono _ _ _ _ (Nat.le_max_l f1 f2) E1). cbn [bind fst snd].
        rewrite (DFS_keys_mono _ _ _ _ (Nat.le_max_r f1 f2) E2).
        split; [reflexivity|]. split; [exact S1|]. split; [congruence|].
        intros x Hx. apply S3, R3. now right. }
      destruct (obj_get (Registry.objs h1 o) i) as [[p|p|x]|] eqn:Ep.
      * destruct (existsb (Nat.eqb p) visited) eqn:Ev.
        -- destruct Hskip as (f & r & E & R). exists (S f), r.
           cbn [Registry.DFS_keys]. fold h1. rewrite Ep, Ev. now split.
        -- destruct (Henter p (@good_closed h1 Hc1 o i p (or_introl Ep)) Ev) as (f & r & E & R).
           exists (S f), r. cbn [Registry.DFS_keys]. fold h1. rewrite Ep, Ev. now split.
      * destruct (existsb (Nat.eqb p) visited) eqn:Ev.
        -- destruct Hskip as (f & r & E & R). exists (S f), r.
           cbn [Registry.DFS_keys]. fold h1. rewrite Ep, Ev. now split.
        -- destruct (Henter p (@good_closed h1 Hc1 o i p (or_intror Ep)) Ev) as (f & r & E & R).
           exists (S f), r. cbn [Registry.DFS_keys]. fold h1. rewrite Ep, Ev. now split.
      * destruct Hskip as (f & r & E & R). exists (S f), r.
        cbn [Registry.DFS_keys]. fold h1. rewrite Ep. now split.
      * destruct Hskip as (f & r & E & R). exists (S f), r.
        cbn [Registry.DFS_keys]. fold h1. rewrite Ep. now split.
Qed.

End DFSReturns.

Lemma build_ret_values (Q : Registry.Value -> Prop) all before insert :
  (forall k v, obj_get all k = Some v -> Q v) ->
  (forall k v, obj_get insert k = Some v -> Q v) ->
  forall G ret,
    (forall k v, obj_get ret k = Some v -> Q v) ->
    forall k v, obj_get (Registry.build_ret G all before insert ret) k = Some v -> Q v.
Proof.
  intros Hall Hins. induction G as [|[token w] G IH]; intros ret Hret; [exact Hret|].
  cbn [Registry.build_ret]. apply IH.
  assert (H1 : forall ks r, (forall k v, obj_get r k = Some v -> Q v) ->
            forall k v,
              obj_get (fold_left (fun r newToken =>
                                    match obj_get insert newToken with
                                    | Some w => obj_set r newToken w
                                    | None => r
                                    end) ks r) k = Some v -> Q v).
  { induction ks as [|n ks IHks]; intros r Hr; [exact Hr|].
    cbn [fold_left]. apply IHks.
    destruct (obj_get insert n) as [x|] eqn:En; [|exact Hr].
    intros k v. rewrite obj_get_set. destruct (str_eqb n k); [|apply Hr].
    intros [= <-]. exact (Hins _ _ En). }
  assert (H2 : forall k v,
            obj_get (if str_eqb token before
                     then fold_left (fun r newToken =>
                                       match obj_get insert newToken with
                                       | Some w => obj_set r newToken w
                                       | None => r
                                       end) (Registry.keys insert) ret
                     else ret) k = Some v -> Q v).
  { destruct (str_eqb token before); [now apply H1 | exact Hret]. }
  destruct (Registry.hasOwn insert token); [exact H2|].
  destruct (obj_get all token) as [x|] eqn:Et; [|exact H2].
  intros k v. rewrite obj_get_set. destruct (str_eqb token k); [|apply H2].
  intros [= <-]. exact (Hall _ _ Et).
Qed.

Lemma closed_heap_set h o k v :
  closed h ->
  match v with
  | Registry.VObject p | Registry.VArray p => p < Registry.next h
  | Registry.VOther _ => True
  end ->
  closed (Registry.heap_set h o k v).
Proof.
  intros Hc Hv l k' p. unfold Registry.heap_set. cbn [Registry.objs Registry.next].
  destruct (Nat.eqb l o); [|apply Hc].
  rewrite obj_get_set. destruct (str_eqb k k'); [|apply Hc].
  intros [[= ->]|[= ->]]; exact Hv.
Qed.

(** [insertBefore] returns whenever [root[inside]] is an object and the
    references of the registry lead to allocated objects, whatever cycles
    the grammars form. *)
Lemma insertBefore_returns languages h inside before insert root g :
  closed h ->
  obj_get (Registry.objs h root) inside = Some (Registry.VObject g) ->
  exists fuel h',
    Registry.insertBefore fuel languages h inside before insert root
    = Reply (Done (h', Registry.next h)).
Proof.
  intros Hc Hg.
  set (R := Registry.next h) in *.
  set (h2 := {| Registry.objs := fun l =>
                  if Nat.eqb l R
                  then Registry.build_ret (Registry.objs h g) (Registry.objs h g) before
                         (Registry.objs h insert) []
                  else if Nat.eqb l R then [] else Registry.objs h l;
                Registry.next := S R |}).
  set (h3 := Registry.heap_set h2 root inside (Registry.VObject R)).
  set (cb := fun (key : str) (value : option Registry.Value) (hh : Registry.Heap) =>
               match value with
               | Some v =>
                   match obj_get (Registry.objs h2 root) inside with
                   | Some o =>
                       if Registry.value_eqb v o && negb (str_eqb key inside)
                       then Registry.heap_set hh languages key (Registry.VObject R)
                       else hh
                   | None => hh
                   end
               | None => hh
               end).
  assert (E : forall fuel,
              Registry.insertBefore fuel languages h inside before insert root
              = Reply (r <- Registry.DFS_keys cb fuel languages
                             (Registry.keys (Registry.objs h3 languages)) h3 [] ;;
                       Done (fst r, R))).
  { intros fuel. unfold Registry.insertBefore. rewrite Hg. reflexivity. }
  set (good := fun hh : Registry.Heap => closed hh /\ Registry.next hh = S R).
  assert (Hq : forall k v, obj_get (Registry.objs h g) k = Some v ->
                 match v with
                 | Registry.VObject p | Registry.VArray p => p < S R
                 | Registry.VOther _ => True
                 end).
  { intros k [p|p|x] Hk; [| |exact I].
    - pose proof (Hc g k p (or_introl Hk)). unfold R. lia.
    - pose proof (Hc g k p (or_intror Hk)). unfold R. lia. }
  assert (Hqi : forall k v, obj_get (Registry.objs h insert) k = Some v ->
                 match v with
                 | Registry.VObject p | Registry.VArray p => p < S R
                 | Registry.VOther _ => True
                 end).
  { intros k [p|p|x] Hk; [| |exact I].
    - pose proof (Hc insert k p (or_introl Hk)). unfold R. lia.
    - pose proof (Hc insert k p (or_intror Hk)). unfold R. lia. }
  assert (Hc2 : closed h2).
  { intros l k p. unfold h2. cbn [Registry.objs Registry.next].
    destruct (Nat.eqb l R).
    - intros [Hk|Hk];
        exact (@build_ret_values _ _ before _ Hq Hqi (Registry.objs h g) []
                 (fun _ _ (H : None = Some _) => match H with end) k _ Hk).
    - intros Hk. pose proof (Hc l k p Hk). unfold R. lia. }
  assert (H3 : good h3).
  { split; [|reflexivity]. apply closed_heap_set; [exact Hc2|].
    cbn [Registry.next h2]. lia. }
  assert (Hcb : forall k v hh, good hh -> good (cb k v hh)).
  { intros k v hh [G1 G2]. unfold cb.
    destruct v as [v|]; [|now split].
    destruct (obj_get (Registry.objs h2 root) inside) as [o|]; [|now split].
    destruct (Registry.value_eqb v o && negb (str_eqb k inside)); [|now split].
    split; [|exact G2]. apply closed_heap_set; [exact G1|]. rewrite G2. lia. }
  assert (Hnx : forall k v hh, Registry.next (cb k v hh) = Registry.next hh).
  { intros k v hh. unfold cb.
    destruct v as [v|]; [|reflexivity].
    destruct (obj_get (Registry.objs h2 root) inside) as [o|]; [|reflexivity].
    destruct (Registry.value_eqb v o && negb (str_eqb k inside)); reflexivity. }
  destruct (@DFS_keys_returns cb good (fun hh H => proj1 H) Hnx Hcb
              (unvisited h3 []) (Registry.keys (Registry.objs h3 languages))
              languages h3 [] H3 (Nat.le_refl _))
    as (fuel & [hf vis] & ED & _).
  exists fuel, hf. rewrite E, ED. reflexivity.
Qed.

Lemma obj_get_In (V : Type) (o : list (str * V)) k v :
  obj_get o k = Some v -> In (k, v) o.
Proof.
  induction o as [|[k0 v0] o IH]; simpl; [discriminate|].
  destruct (str_eqb k0 k) eqn:E.
  - apply str_eqb_eq in E. subst. intros [= ->]. now left.
  - intros H. right. now apply IH.
Qed.

Lemma closed_of_entries (h : Registry.Heap) :
  (forall l k v, In (k, v) (Registry.objs h l) ->
     match v with
     | Registry.VObject p | Registry.VArray p => p < Registry.next h
     | Registry.VOther _ => True
     end) ->
  closed h.
Proof.
  intros H l k p [Hk|Hk]; apply obj_get_In in Hk; exact (H _ _ _ Hk).
Qed.

Lemma heap0_closed : closed RegistryExample.heap0.
Proof.
  apply closed_of_entries. intros l k v H.
  do 5 (destruct l as [|l];
        [simpl in H;
         repeat (destruct H as [H|H]; [injection H as <- <-; simpl; try exact I; lia|]);
         destruct H|]).
  destruct H.
Qed.

Lemma heap0_after :
  Registry.insertBefore 20 0 RegistryExample.heap0 (lit "markup") (lit "comment") 4 0
  = Reply (Done (heap_after_insert, 5)).
Proof. reflexivity. Qed.



(** ** The span list, node by node *)

Lemma seg_cons2 f a b l :
  seg f (a :: b :: l) <->
  Linked.next (f a) = Some b /\ Linked.prev (f b) = Some a /\ seg f (b :: l).
Proof. reflexivity. Qed.

Lemma seg_split f X : forall a Y,
  seg f (X ++ a :: Y) -> seg f (X ++ [a]) /\ seg f (a :: Y).
Proof.
  induction X as [|x X IH]; intros a Y H.
  - split; [exact I | exact H].
  - destruct X as [|x' X].
    + cbn [app] in *. apply seg_cons2 in H. destruct H as (H1 & H2 & H3).
      split; [|exact H3]. apply seg_cons2. repeat split; auto.
    + rewrite <- !app_comm_cons in *. apply seg_cons2 in H. destruct H as (H1 & H2 & H3).
      rewrite app_comm_cons in H3. destruct (IH _ _ H3) as [H4 H5].
      split; [|exact H5]. apply seg_cons2. repeat split; auto.
Qed.

Lemma seg_join f X : forall a Y,
  seg f (X ++ [a]) -> seg f (a :: Y) -> seg f (X ++ a :: Y).
Proof.
  induction X as [|x X IH]; intros a Y H1 H2.
  - exact H2.
  - destruct X as [|x' X].
    + cbn [app] in *. apply seg_cons2 in H1. destruct H1 as (H3 & H4 & _).
      apply seg_cons2. repeat split; auto.
    + rewrite <- !app_comm_cons in *. apply seg_cons2 in H1. destruct H1 as (H3 & H4 & H5).
      apply seg_cons2. split; [exact H3|]. split; [exact H4|].
      rewrite app_comm_cons. apply IH; [exact H5 | exact H2].
Qed.

(** A row stays linked under writes that keep the [next] of all its nodes
    but the last and the [prev] of all but the first. *)
Lemma seg_frame f f' : forall l,
  seg f l ->
  (forall n, In n (removelast l) -> Linked.next (f' n) = Linked.next (f n)) ->
  (forall n, In n (List.tl l) -> Linked.prev (f' n) = Linked.prev (f n)) ->
  seg f' l.
Proof.
  induction l as [|a l IH]; intros H Hn Hp; [exact I|].
  destruct l as [|b l]; [exact I|].
  apply seg_cons2 in H. destruct H as (H1 & H2 & H3).
  apply seg_cons2. split; [|split].
  - rewrite Hn; [exact H1|]. now left.
  - rewrite Hp; [exact H2|]. now left.
  - apply IH; [exact H3| |].
    + intros n Hin. apply Hn. cbn [removelast]. right. exact Hin.
    + intros n Hin. apply Hp. cbn [List.tl]. right. exact Hin.
Qed.

Lemma in_removelast (A : Type) (l : list A) x : In x (removelast l) -> In x l.
Proof.
  induction l as [|a l IH]; [auto|]. destruct l as [|b l]; [intros []|].
  intros [H|H]; [now left | right; now apply IH].
Qed.

Lemma nodup_insert (A : Type) (x : A) l1 : forall l2,
  NoDup (l1 ++ l2) -> ~ In x (l1 ++ l2) -> NoDup (l1 ++ x :: l2).
Proof.
  induction l1 as [|a l1 IH]; intros l2 Hnd Hx.
  - now constructor.
  - rewrite <- app_comm_cons in *. inversion Hnd as [|? ? Ha Hnd']; subst.
    constructor.
    + intros Hin. apply in_app_or in Hin. destruct Hin as [Hin|[->|Hin]].
      * apply Ha. apply in_or_app. now left.
      * apply Hx. now left.
      * apply Ha. apply in_or_app. now right.
    + apply IH; [exact Hnd'|]. intros Hin. apply Hx. now right.
Qed.

Lemma nodup_drop (A : Type) (l1 M l2 : list A) :
  NoDup (l1 ++ M ++ l2) -> NoDup (l1 ++ l2).
Proof.
  induction M as [|m M IH]; [auto|]. intros H. apply IH.
  rewrite <- app_comm_cons in H. now apply NoDup_remove_1 in H.
Qed.

Ltac eqb_cases :=
  repeat match goal with
         | |- context [Nat.eqb ?x ?y] => destruct (Nat.eqb_spec x y)
         end;
  subst; cbn [Linked.set_next Linked.set_prev Linked.next Linked.prev Linked.value];
  try reflexivity; try congruence; try lia.

(** [addAfter] on a node of a row: the new node sits right after it, and
    nothing else changes. *)
Lemma addAfter_row L X a b Y v :
  row L (X ++ a :: b :: Y) ->
  exists L',
    Linked.addAfter L a v = Done (L', Linked.fresh L) /\
    row L' (X ++ a :: Linked.fresh L :: b :: Y) /\
    Linked.value (Linked.nodes L' (Linked.fresh L)) = Some v /\
    (forall n, n <> Linked.fresh L ->
       Linked.value (Linked.nodes L' n) = Linked.value (Linked.nodes L n)) /\
    (forall n, n <> a -> n <> Linked.fresh L ->
       Linked.next (Linked.nodes L' n) = Linked.next (Linked.nodes L n)) /\
    Linked.head L' = Linked.head L /\ Linked.tail L' = Linked.tail L /\
    Linked.length L' = (Linked.length L + 1)%Z.
Proof.
  intros (Hnd & Hfr & Hseg).
  destruct (seg_split _ _ _ _ Hseg) as [HsX HsY].
  pose proof HsY as HsY'. apply seg_cons2 in HsY'. destruct HsY' as (Hab & Hba & HsbY).
  set (new := Linked.fresh L).
  assert (Ha : a < new) by (apply Hfr; apply in_or_app; right; now left).
  assert (Hb : b < new) by (apply Hfr; apply in_or_app; right; right; now left).
  pose proof (NoDup_remove_2 _ _ _ Hnd) as HaN.
  assert (Hab' : a <> b) by (intros ->; apply HaN; apply in_or_app; right; now left).
  assert (HaX : ~ In a X) by (intros H; apply HaN; apply in_or_app; now left).
  assert (HaY : ~ In a Y) by (intros H; apply HaN; apply in_or_app; right; now right).
  assert (Hnd2 : NoDup ((X ++ [a]) ++ b :: Y)) by (now rewrite <- app_assoc).
  pose proof (NoDup_remove_2 _ _ _ Hnd2) as HbN.
  assert (HbX : ~ In b (X ++ [a])) by (intros H; apply HbN; apply in_or_app; now left).
  assert (HbY : ~ In b Y) by (intros H; apply HbN; apply in_or_app; now right).
  unfold Linked.addAfter. rewrite Hab. fold new.
  eexists. split; [reflexivity|].
  cbn [Linked.nodes Linked.fresh Linked.head Linked.tail Linked.length].
  set (f := Linked.nodes L) in *.
  set (f' := Linked.write _ a _).
  assert (Fnext : forall n, n <> a -> n <> new -> Linked.next (f' n) = Linked.next (f n))
    by (intros n H1 H2; unfold f', Linked.write; eqb_cases).
  assert (Fprev : forall n, n <> b -> n <> new -> Linked.prev (f' n) = Linked.prev (f n))
    by (intros n H1 H2; unfold f', Linked.write; eqb_cases).
  assert (Fval : forall n, n <> new -> Linked.value (f' n) = Linked.value (f n))
    by (intros n H1; unfold f', Linked.write; eqb_cases).
  assert (Fa : Linked.next (f' a) = Some new) by (unfold f', Linked.write; eqb_cases).
  assert (Fb : Linked.prev (f' b) = Some new) by (unfold f', Linked.write; eqb_cases).
  assert (Fn : Linked.next (f' new) = Some b /\ Linked.prev (f' new) = Some a /\
               Linked.value (f' new) = Some v)
    by (unfold f', Linked.write; repeat split; eqb_cases).
  destruct Fn as (Fn1 & Fn2 & Fn3).
  assert (Hlt : forall n, In n (X ++ a :: b :: Y) -> n <> new)
    by (intros n Hin; specialize (Hfr n Hin); fold new in Hfr; lia).
  split; [|repeat split; auto].
  split; [|split].
  - replace (X ++ a :: new :: b :: Y) with ((X ++ [a]) ++ new :: b :: Y)
      by (now rewrite <- app_assoc).
    apply nodup_insert; [exact Hnd2|].
    rewrite <- app_assoc. intros Hin. exact (Hlt new Hin eq_refl).
  - intros n Hin. cbn [Linked.fresh]. fold new.
    apply in_app_or in Hin. destruct Hin as [Hin|[<-|[<-|Hin]]]; try lia.
    + assert (n < new) by (apply Hfr; apply in_or_app; now left). lia.
    + assert (n < new) by (apply Hfr; apply in_or_app; right; right; exact Hin). lia.
  - apply seg_join.
    + apply (seg_frame f f' _ HsX).
      * intros n Hin. rewrite removelast_last in Hin.
        apply Fnext; [intros ->; exact (HaX Hin)|].
        apply Hlt. apply in_or_app. now left.
      * intros n Hin. assert (Hin' : In n (X ++ [a])) by (destruct X; [destruct Hin | now right]).
        apply Fprev; [intros ->; exact (HbX Hin')|].
        apply Hlt. apply in_app_or in Hin'. apply in_or_app.
        destruct Hin' as [H|[<-|[]]]; [now left | right; now left].
    + apply seg_cons2. split; [exact Fa|]. split; [exact Fn2|].
      apply seg_cons2. split; [exact Fn1|]. split; [exact Fb|].
      apply (seg_frame f f' _ HsbY).
      * intros n Hin. apply in_removelast in Hin.
        apply Fnext.
        -- intros ->. destruct Hin as [E|Hin]; [now apply Hab' | exact (HaY Hin)].
        -- apply Hlt. apply in_or_app. right. right. exact Hin.
      * intros n Hin. cbn [List.tl] in Hin.
        apply Fprev; [intros ->; exact (HbY Hin)|].
        apply Hlt. apply in_or_app. right. right. now right.
Qed.

(** The loop of [removeRange] stops on the node after the [count] it
    passed, or on [tail]. *)
Lemma removeRange_walk_row L e Y : forall M a count r,
  seg (Linked.nodes L) (a :: M ++ e :: Y) ->
  ~ In (Linked.tail L) M ->
  List.length M = count \/ (e = Linked.tail L /\ List.length M <= count) ->
  Linked.removeRange_walk L (Linked.next (Linked.nodes L a)) count r
  = Done (Some e, r + List.length M).
Proof.
  induction M as [|m M IH]; intros a count r Hseg Ht Hc.
  - cbn [app] in Hseg. apply seg_cons2 in Hseg. destruct Hseg as (H1 & _).
    rewrite H1, Nat.add_0_r. destruct count as [|count]; [reflexivity|].
    destruct Hc as [Hc|[-> _]]; [discriminate|].
    cbn [Linked.removeRange_walk]. now rewrite Nat.eqb_refl.
  - rewrite <- app_comm_cons in Hseg. apply seg_cons2 in Hseg.
    destruct Hseg as (H1 & _ & H3). rewrite H1.
    destruct count as [|count]; [cbn [List.length] in Hc; destruct Hc as [Hc|[_ Hc]]; lia|].
    cbn [Linked.removeRange_walk].
    assert (Hm : m <> Linked.tail L) by (intros ->; apply Ht; now left).
    apply Nat.eqb_neq in Hm. rewrite Hm.
    rewrite (IH m count (S r) H3).
    + cbn [List.length]. do 2 f_equal. lia.
    + intros Hin. apply Ht. now right.
    + cbn [List.length] in Hc. destruct Hc as [Hc|[He Hc]]; [left | right; split; auto]; lia.
Qed.

(** [removeRange] on a node of a row unlinks the nodes it passed, and
    changes nothing else. *)
Lemma removeRange_row L X a M e Y count :
  row L (X ++ a :: M ++ e :: Y) ->
  ~ In (Linked.tail L) M ->
  List.length M = count \/ (e = Linked.tail L /\ List.length M <= count) ->
  exists L',
    Linked.removeRange L a count = Done L' /\
    row L' (X ++ a :: e :: Y) /\
    (forall n, Linked.value (Linked.nodes L' n) = Linked.value (Linked.nodes L n)) /\
    (forall n, n <> a ->
       Linked.next (Linked.nodes L' n) = Linked.next (Linked.nodes L n)) /\
    Linked.head L' = Linked.head L /\ Linked.tail L' = Linked.tail L /\
    Linked.length L' = (Linked.length L - Z.of_nat (List.length M))%Z.
Proof.
  intros (Hnd & Hfr & Hseg) Ht Hc.
  destruct (seg_split _ _ _ _ Hseg) as [HsX HsaM].
  pose proof (@removeRange_walk_row L e Y M a count 0 HsaM Ht Hc) as Hw.
  rewrite app_comm_cons in HsaM. destruct (seg_split _ _ _ _ HsaM) as [_ HseY].
  assert (Hnd2 : NoDup ((X ++ [a]) ++ e :: Y)).
  { apply nodup_drop with (M := M). now rewrite <- app_assoc. }
  assert (Hnd3 : NoDup (X ++ a :: e :: Y)) by (now rewrite <- app_assoc in Hnd2).
  pose proof (NoDup_remove_2 _ _ _ Hnd3) as HaN.
  assert (Hae : a <> e) by (intros ->; apply HaN; apply in_or_app; right; now left).
  assert (HaX : ~ In a X) by (intros H; apply HaN; apply in_or_app; now left).
  assert (HaY : ~ In a Y) by (intros H; apply HaN; apply in_or_app; right; now right).
  pose proof (NoDup_remove_2 _ _ _ Hnd2) as HeN.
  assert (HeX : ~ In e (X ++ [a])) by (intros H; apply HeN; apply in_or_app; now left).
  assert (HeY : ~ In e Y) by (intros H; apply HeN; apply in_or_app; now right).
  unfold Linked.removeRange. rewrite Hw. cbn [bind fst snd].
  eexists. split; [reflexivity|].
  cbn [Linked.nodes Linked.fresh Linked.head Linked.tail Linked.length].
  set (f := Linked.nodes L) in *.
  set (f' := Linked.write _ e _).
  assert (Fnext : forall n, n <> a -> Linked.next (f' n) = Linked.next (f n))
    by (intros n H1; unfold f', Linked.write; eqb_cases).
  assert (Fprev : forall n, n <> e -> Linked.prev (f' n) = Linked.prev (f n))
    by (intros n H1; unfold f', Linked.write; eqb_cases).
  assert (Fval : forall n, Linked.value (f' n) = Linked.value (f n))
    by (intros n; unfold f', Linked.write; eqb_cases).
  assert (Fa : Linked.next (f' a) = Some e) by (unfold f', Linked.write; eqb_cases).
  assert (Fe : Linked.prev (f' e) = Some a) by (unfold f', Linked.write; eqb_cases).
  split; [|repeat split; auto].
  split; [exact Hnd3|]. split.
  - intros n Hin. cbn [Linked.fresh]. apply Hfr.
    apply in_app_or in Hin. apply in_or_app. destruct Hin as [Hin|[<-|Hin]].
    + now left.
    + right. now left.
    + right. right. apply in_or_app. now right.
  - apply seg_join.
    + apply (seg_frame f f' _ HsX).
      * intros n Hin. rewrite removelast_last in Hin.
        apply Fnext. intros ->. exact (HaX Hin).
      * intros n Hin. assert (Hin' : In n (X ++ [a])) by (destruct X; [destruct Hin | now right]).
        apply Fprev. intros ->. exact (HeX Hin').
    + apply seg_cons2. split; [exact Fa|]. split; [exact Fe|].
      apply (seg_frame f f' _ HseY).
      * intros n Hin. apply in_removelast in Hin.
        apply Fnext. intros ->. destruct Hin as [E|Hin]; [now apply Hae | exact (HaY Hin)].
      * intros n Hin. cbn [List.tl] in Hin.
        apply Fprev. intros ->. exact (HeY Hin).
Qed.

(** The loop of [toArray] collects the values of the nodes up to [tail]. *)
Lemma toArray_row L : forall M a fuel acc,
  seg (Linked.nodes L) (a :: M ++ [Linked.tail L]) ->
  ~ In (Linked.tail L) M ->
  List.length M < fuel ->
  Linked.toArray_from fuel L (Linked.next (Linked.nodes L a)) acc
  = Done (acc ++ map (fun n => Linked.value (Linked.nodes L n)) M).
Proof.
  induction M as [|m M IH]; intros a fuel acc Hseg Ht Hf; (destruct fuel as [|fuel]; [lia|]).
  - cbn [app] in Hseg. apply seg_cons2 in Hseg. destruct Hseg as (H1 & _).
    rewrite H1. cbn [Linked.toArray_from map]. now rewrite Nat.eqb_refl, app_nil_r.
  - rewrite <- app_comm_cons in Hseg. apply seg_cons2 in Hseg.
    destruct Hseg as (H1 & _ & H3). rewrite H1. cbn [Linked.toArray_from].
    assert (Hm : m <> Linked.tail L) by (intros ->; apply Ht; now left).
    apply Nat.eqb_neq in Hm. rewrite Hm.
    rewrite (IH m fuel _ H3).
    + cbn [map]. now rewrite <- app_assoc.
    + intros Hin. apply Ht. now right.
    + cbn [List.length] in Hf. lia.
Qed.

Lemma rank_split (L : Linked.LinkedList) ns k :
  k <= List.length ns ->
  exists X, Linked.head L :: firstn k ns = X ++ [rank_node L ns k].
Proof.
  intros Hk.
  destruct (@exists_last _ (Linked.head L :: firstn k ns)) as (X & a & E); [discriminate|].
  exists X. rewrite E. do 2 f_equal.
  assert (HX : List.length X = k).
  { apply (f_equal (@List.length _)) in E. cbn [List.length] in E.
    rewrite length_app, length_firstn in E. cbn [List.length] in E. lia. }
  unfold rank_node.
  assert (E2 : Linked.head L :: ns = X ++ a :: skipn k ns).
  { rewrite <- (firstn_skipn k ns) at 1. rewrite app_comm_cons, E, <- app_assoc. reflexivity. }
  rewrite E2, app_nth2 by lia. rewrite HX, Nat.sub_diag. reflexivity.
Qed.

Lemma map_value_same (f f' : Linked.node -> Linked.Node) (l : list Linked.node) :
  (forall n, In n l -> Linked.value (f' n) = Linked.value (f n)) ->
  map (fun n => Linked.value (f' n)) l = map (fun n => Linked.value (f n)) l.
Proof. intros H. apply map_ext_in. exact H. Qed.

Lemma holds_lengths L ns vs : holds L ns vs -> List.length vs = List.length ns.
Proof.
  intros (_ & _ & Hv & _). apply (f_equal (@List.length _)) in Hv.
  now rewrite !length_map in Hv.
Qed.

Lemma holds_tail_out L ns vs : holds L ns vs -> ~ In (Linked.tail L) (Linked.head L :: ns).
Proof.
  intros ((Hnd & _) & _) Hin.
  rewrite app_comm_cons in Hnd. apply NoDup_remove_2 in Hnd. apply Hnd.
  now rewrite app_nil_r.
Qed.

(** A new list is empty. *)
Lemma linked_new : holds Linked.new_LinkedList [] [].
Proof.
  unfold holds, row. cbn.
  repeat split; auto.
  - constructor; [intros [H|[]]; discriminate|]. constructor; [intros []|constructor].
  - intros n [<-|[<-|[]]]; lia.
Qed.

(** [addAfter] on the node of rank [k] is the insertion at index [k]. *)
Lemma linked_addAfter L ns vs k v :
  holds L ns vs -> k <= List.length ns ->
  exists L',
    Linked.addAfter L (rank_node L ns k) v = Done (L', Linked.fresh L) /\
    holds L' (firstn k ns ++ Linked.fresh L :: skipn k ns) (fst (addAfter vs k v)) /\
    rank_node L' (firstn k ns ++ Linked.fresh L :: skipn k ns) (snd (addAfter vs k v))
    = Linked.fresh L.
Proof.
  intros Hh Hk. pose proof (holds_lengths Hh) as Hlen.
  pose proof (holds_tail_out Hh) as Htail.
  destruct Hh as (Hrow & Hnt & Hv & Hl).
  destruct (rank_split L ns Hk) as (X & EX).
  set (a := rank_node L ns k) in *.
  destruct (skipn k ns ++ [Linked.tail L]) as [|b Y] eqn:EY;
    [destruct (skipn k ns); discriminate|].
  assert (Eall : Linked.head L :: ns ++ [Linked.tail L] = X ++ a :: b :: Y).
  { rewrite <- (firstn_skipn k ns) at 1.
    rewrite <- app_assoc, EY, app_comm_cons, EX, <- app_assoc. reflexivity. }
  rewrite Eall in Hrow.
  assert (Hat : a <> Linked.tail L).
  { intros E. apply Htail. rewrite <- E.
    rewrite <- (firstn_skipn k ns), app_comm_cons, EX.
    apply in_or_app. left. apply in_or_app. right. now left. }
  assert (Hfresh : forall n, In n (Linked.head L :: ns ++ [Linked.tail L]) ->
                     n <> Linked.fresh L).
  { intros n Hin. rewrite Eall in Hin. destruct Hrow as (_ & Hfr & _).
    specialize (Hfr n Hin). lia. }
  destruct (@addAfter_row L X a b Y v Hrow) as (L' & E & Hrow' & Hnew & Hval & Hnext & Hhd & Htl & Hlen').
  exists L'. split; [exact E|].
  assert (Eall' : Linked.head L' :: (firstn k ns ++ Linked.fresh L :: skipn k ns)
                    ++ [Linked.tail L']
                  = X ++ a :: Linked.fresh L :: b :: Y).
  { rewrite Hhd, Htl, <- app_assoc, <- app_comm_cons, EY, app_comm_cons, EX, <- app_assoc.
    reflexivity. }
  split; [split; [|split; [|split]]|].
  - now rewrite Eall'.
  - rewrite Htl, Hnext; [exact Hnt | congruence |].
    apply Hfresh. right. apply in_or_app. right. now left.
  - unfold addAfter. cbn [fst].
    rewrite !map_app. cbn [map]. rewrite Hnew.
    rewrite !(map_value_same (Linked.nodes L) (Linked.nodes L')).
    + rewrite <- !firstn_map, <- !skipn_map, Hv. reflexivity.
    + intros n Hin. apply Hval. apply Hfresh. right. apply in_or_app. left.
      eapply in_skipn_in; exact Hin.
    + intros n Hin. apply Hval. apply Hfresh. right. apply in_or_app. left.
      eapply in_firstn_in; exact Hin.
  - rewrite Hlen', Hl, length_app. cbn [List.length].
    rewrite length_firstn, length_skipn. lia.
  - unfold addAfter, rank_node. cbn [snd nth].
    rewrite app_nth2 by (rewrite length_firstn; lia).
    rewrite length_firstn. replace (k - Nat.min k (List.length ns)) with 0 by lia.
    reflexivity.
Qed.

(** [removeRange] on the node of rank [k] removes the [count] values from
    index [k] on, or all that are left when they are fewer. *)
Lemma linked_removeRange L ns vs k count :
  holds L ns vs -> k <= List.length ns ->
  exists L',
    Linked.removeRange L (rank_node L ns k) count = Done L' /\
    holds L' (firstn k ns ++ skipn (k + count) ns) (removeRange vs k count) /\
    Linked.fresh L' = Linked.fresh L.
Proof.
  intros Hh Hk. pose proof (holds_lengths Hh) as Hlen.
  pose proof (holds_tail_out Hh) as Htail.
  destruct Hh as (Hrow & Hnt & Hv & Hl).
  destruct (rank_split L ns Hk) as (X & EX).
  set (a := rank_node L ns k) in *.
  set (M := firstn count (skipn k ns)).
  destruct (skipn (k + count) ns ++ [Linked.tail L]) as [|e Y] eqn:EY;
    [destruct (skipn (k + count) ns); discriminate|].
  assert (Ens : ns = firstn k ns ++ M ++ skipn (k + count) ns).
  { unfold M. replace (k + count) with (count + k) by lia.
    now rewrite <- skipn_skipn, !firstn_skipn. }
  assert (Eall : Linked.head L :: ns ++ [Linked.tail L] = X ++ a :: M ++ e :: Y).
  { rewrite Ens at 1.
    rewrite <- !app_assoc, EY, app_comm_cons, EX, <- app_assoc. reflexivity. }
  rewrite Eall in Hrow.
  assert (HtM : ~ In (Linked.tail L) M).
  { intros Hin. apply Htail. right. unfold M in Hin.
    eapply in_skipn_in. eapply in_firstn_in. exact Hin. }
  assert (HM : List.length M = Nat.min count (List.length ns - k))
    by (unfold M; now rewrite length_firstn, length_skipn).
  assert (Hc : List.length M = count \/ (e = Linked.tail L /\ List.length M <= count)).
  { destruct (Nat.le_gt_cases count (List.length ns - k)) as [Hle|Hgt]; [left; lia|].
    right. split; [|lia].
    rewrite skipn_all2 in EY by lia. now injection EY as <- _. }
  assert (Hat : a <> Linked.tail L).
  { intros E. apply Htail. rewrite <- E.
    rewrite <- (firstn_skipn k ns), app_comm_cons, EX.
    apply in_or_app. left. apply in_or_app. right. now left. }
  destruct (@removeRange_row L X a M e Y count Hrow HtM Hc)
    as (L' & E & Hrow' & Hval & Hnext & Hhd & Htl & Hlen').
  exists L'. split; [exact E|].
  assert (Hfr' : Linked.fresh L' = Linked.fresh L).
  { unfold Linked.removeRange in E.
    destruct (Linked.removeRange_walk _ _ _ _) as [[[nx|] rc]| |]; try discriminate.
    cbn [bind fst snd] in E. now injection E as <-. }
  split; [|exact Hfr'].
  split; [|split; [|split]].
  - rewrite Hhd, Htl, <- app_assoc, EY, app_comm_cons, EX, <- app_assoc. exact Hrow'.
  - rewrite Htl, Hnext; [exact Hnt | congruence].
  - unfold removeRange.
    rewrite !map_app, !(map_value_same (Linked.nodes L) (Linked.nodes L'))
      by (intros; apply Hval).
    rewrite <- !firstn_map, <- !skipn_map, Hv. reflexivity.
  - rewrite Hlen', Hl, HM, length_app, length_firstn, length_skipn. lia.
Qed.

(** [toArray] returns the values in order. *)
Lemma linked_toArray L ns vs fuel :
  holds L ns vs -> List.length ns < fuel ->
  Linked.toArray fuel L = Done (map Some vs).
Proof.
  intros Hh Hf. pose proof (holds_tail_out Hh) as Htail.
  destruct Hh as ((_ & _ & Hseg) & _ & Hv & _).
  unfold Linked.toArray. rewrite (@toArray_row L ns (Linked.head L) fuel [] Hseg).
  - cbn [app]. now rewrite Hv.
  - intros Hin. apply Htail. now right.
  - exact Hf.
Qed.

Lemma linked_addAfter_tail L ns vs v :
  holds L ns vs -> Linked.addAfter L (Linked.tail L) v = Thrown TypeError.
Proof. intros (_ & Hnt & _). unfold Linked.addAfter. now rewrite Hnt. Qed.

Lemma linked_one_holds : holds linked_one [2] [EStr (lit "ab")].
Proof.
  destruct (@linked_addAfter Linked.new_LinkedList [] [] 0 (EStr (lit "ab")) linked_new
              (Nat.le_refl 0)) as (L' & E & H & _).
  unfold rank_node in E. cbn in E. injection E as <-. exact H.
Qed.

(** ** What the engine keeps of the grammar store *)

Section StoreKeeps.

Variable tokenize_ : Store -> str -> gid -> outcome (Store * TokenStream).
Variable text : str.
Variable grammar : list (str * GValue).
Variable Q : Store -> Prop.

Hypothesis tokenize_Q : forall st0 s g r, tokenize_ st0 s g = Done r -> Q st0 -> Q (fst r).


End StoreKeeps.



(** ** Assigning the keys of one object into another *)

Lemma obj_set_keys (V : Type) (o : list (str * V)) k v :
  map fst (obj_set o k v) = if has_key o k then map fst o else map fst o ++ [k].
Proof.
  unfold has_key. induction o as [|[k0 v0] o IH]; [reflexivity|].
  cbn [obj_set obj_get]. destruct (str_eqb k0 k) eqn:E.
  - apply str_eqb_eq in E. now subst.
  - cbn [map fst]. rewrite IH. now destruct (obj_get o k).
Qed.

Lemma has_key_in (V : Type) (o : list (str * V)) k :
  has_key o k = true <-> In k (map fst o).
Proof.
  unfold has_key. pose proof (obj_get_none o k) as H.
  destruct (obj_get o k); split; intros H'; try reflexivity; try discriminate.
  - destruct (in_dec (list_eq_dec ascii_dec) k (map fst o)) as [Hin|Hout]; [exact Hin|].
    apply H in Hout. discriminate.
  - exfalso. now apply (proj1 H).
Qed.

(** The keys after [for (const token in src) dst[token] = src[token]]: those
    of [dst] in their places, then the new ones of [src] in their order. *)
Lemma obj_assign_keys (V : Type) (src : list (str * V)) : forall dst,
  NoDup (map fst src) ->
  map fst (obj_assign dst src)
  = map fst dst ++ filter (fun k => negb (has_key dst k)) (map fst src).
Proof.
  unfold obj_assign. induction src as [|[k v] src IH]; intros dst Hnd.
  - simpl. now rewrite app_nil_r.
  - inversion Hnd as [|? ? Hk Hnd']; subst.
    cbn [fold_left fst snd map filter]. rewrite (IH _ Hnd'), obj_set_keys.
    assert (Hsame : forall d' : list (str * V),
              (forall x, In x (map fst src) -> has_key d' x = has_key dst x) ->
              filter (fun x => negb (has_key d' x)) (map fst src)
              = filter (fun x => negb (has_key dst x)) (map fst src)).
    { intros d' H. apply filter_ext_in. intros x Hx. now rewrite H. }
    destruct (has_key dst k) eqn:Ek; cbn [negb].
    + f_equal. apply Hsame. intros x Hx. unfold has_key. rewrite obj_get_set.
      destruct (str_eqb k x) eqn:E; [|reflexivity].
      apply str_eqb_eq in E. subst x. contradiction.
    + rewrite <- app_assoc. f_equal. change ([k] ++ ?x) with (k :: x). f_equal.
      apply Hsame. intros x Hx. unfold has_key. rewrite obj_get_set.
      destruct (str_eqb k x) eqn:E; [|reflexivity].
      apply str_eqb_eq in E. subst x. contradiction.
Qed.



Lemma tagless_all (l : list Elem) :
  (fix all (l : list Elem) : bool :=
     match l with
     | [] => true
     | x :: l' => tagless x && all l'
     end) l = forallb tagless l.
Proof. induction l as [|e l IH]; [reflexivity|]. simpl. now rewrite IH. Qed.

Lemma tagless_head t : tagless (ETok t) = true -> TagWalker.tag_head t = None.
Proof.
  destruct t as [ty [s|l] a n]; cbn [tagless];
    destruct (TagWalker.tag_head _); [discriminate|reflexivity|discriminate|reflexivity].
Qed.

Lemma tagless_nested ty l a n :
  tagless (ETok (mkToken ty (CArr l) a n)) = true -> forallb tagless l = true.
Proof.
  cbn [tagless]. destruct (TagWalker.tag_head _); [discriminate|].
  now rewrite tagless_all.
Qed.

(** Outside any tag the walker changes nothing. *)
Lemma walk_tagless : forall fuel,
  (forall tokens,
     walk_fuel tokens < fuel -> forallb tagless tokens = true ->
     TagWalker.walkTokens fuel tokens = Done tokens) /\
  (forall tokens i,
     walk_fuel (skipn i tokens) <= fuel -> forallb tagless tokens = true ->
     TagWalker.walk_from fuel tokens i [] = Done tokens).
Proof.
  induction fuel as [|fuel [IHw IHf]].
  { split; [intros; lia|]. intros tokens i H. pose proof (walk_fuel_pos (skipn i tokens)). lia. }
  split.
  - intros tokens H Ht. rewrite walkTokens_S. apply IHf; [cbn [skipn]; lia | exact Ht].
  - intros tokens i Hf Ht. rewrite walk_from_S.
    destruct (nth_error tokens i) as [token|] eqn:Ei; [|reflexivity].
    destruct (nth_error_split _ _ Ei) as (P & R & -> & <-).
    rewrite (skipn_at_app0 _ _ eq_refl), walk_fuel_cons in Hf.
    assert (Htok : tagless token = true).
    { rewrite forallb_app in Ht. apply andb_true_iff in Ht. destruct Ht as [_ Ht].
      cbn [forallb] in Ht. now apply andb_true_iff in Ht. }
    assert (Hc : match token with
                 | ETok t => TagWalker.classify t []
                 | EStr _ => Done ([], false)
                 end = Done ([], negb (is_string token))).
    { destruct token as [s|t]; [reflexivity|].
      unfold TagWalker.classify. now rewrite (tagless_head _ Htok). }
    rewrite Hc. cbn [bind fst snd TagWalker.top_braces]. cbv zeta.
    rewrite andb_false_r. cbv beta iota.
    assert (Hcont : TagWalker.walk_from fuel (P ++ token :: R) (S (List.length P)) []
                    = Done (P ++ token :: R)).
    { apply IHf; [|exact Ht].
      replace (P ++ token :: R) with ((P ++ [token]) ++ R) at 1 by (now rewrite <- app_assoc).
      rewrite skipn_at_app0 by (rewrite length_app; simpl; lia). lia. }
    destruct token as [s0|[ty [s0|l] a n]]; cbn [bind]; try exact Hcont.
    rewrite IHw.
    + cbn [bind]. rewrite set_at_mid. exact Hcont.
    + rewrite walk_cost_nested in Hf. pose proof (walk_fuel_pos R). lia.
    + exact (tagless_nested _ _ _ _ Htok).
Qed.

(** ** [util.clone] *)

Lemma clone_S fuel o h visited :
  Util.clone (S fuel) o h visited =
  match o with
  | Registry.VObject l =>
      match Util.visited_get visited l with
      | Some c => Done (Registry.VObject c, h, visited)
      | None =>
          r <- Util.clone_keys fuel l
                 (Registry.keys (Registry.objs (fst (Registry.heap_new h)) l))
                 (Registry.next h) (fst (Registry.heap_new h))
                 ((l, Registry.next h) :: visited) ;;
          Done (Registry.VObject (Registry.next h), fst r, snd r)
      end
  | Registry.VArray l =>
      match Util.visited_get visited l with
      | Some c => Done (Registry.VArray c, h, visited)
      | None =>
          r <- Util.clone_keys fuel l
                 (Registry.keys (Registry.objs (fst (Registry.heap_new h)) l))
                 (Registry.next h) (fst (Registry.heap_new h))
                 ((l, Registry.next h) :: visited) ;;
          Done (Registry.VArray (Registry.next h), fst r, snd r)
      end
  | Registry.VOther _ => Done (o, h, visited)
  end.
Proof. reflexivity. Qed.

Lemma clone_keys_S fuel o ks c h visited :
  Util.clone_keys (S fuel) o ks c h visited =
  match ks with
  | [] => Done (h, visited)
  | key :: ks' =>
      match obj_get (Registry.objs h o) key with
      | Some v =>
          r <- Util.clone fuel v h visited ;;
          Util.clone_keys fuel o ks' c
            (Registry.heap_set (snd (fst r)) c key (fst (fst r))) (snd r)
      | None => Util.clone_keys fuel o ks' c h visited
      end
  end.
Proof.
  cbn [Util.clone_keys]. destruct ks as [|key ks]; [reflexivity|].
  destruct (obj_get (Registry.objs h o) key); [|reflexivity].
  destruct (Util.clone fuel v h visited) as [[[v' h'] visited']| |]; reflexivity.
Qed.

Lemma heap_new_next h : Registry.next (fst (Registry.heap_new h)) = S (Registry.next h).
Proof. reflexivity. Qed.

Lemma heap_new_objs h x :
  x <> Registry.next h -> Registry.objs (fst (Registry.heap_new h)) x = Registry.objs h x.
Proof.
  intros H. unfold Registry.heap_new. cbn [fst Registry.objs].
  apply Nat.eqb_neq in H. now rewrite H.
Qed.

Lemma heap_new_empty h : Registry.objs (fst (Registry.heap_new h)) (Registry.next h) = [].
Proof. unfold Registry.heap_new. cbn [fst Registry.objs]. now rewrite Nat.eqb_refl. Qed.

Lemma heap_set_objs h c k v x :
  x <> c -> Registry.objs (Registry.heap_set h c k v) x = Registry.objs h x.
Proof.
  intros H. unfold Registry.heap_set. cbn [Registry.objs].
  apply Nat.eqb_neq in H. now rewrite H.
Qed.

Lemma heap_set_at h c k v :
  Registry.objs (Registry.heap_set h c k v) c = obj_set (Registry.objs h c) k v.
Proof. unfold Registry.heap_set. cbn [Registry.objs]. now rewrite Nat.eqb_refl. Qed.

(** [clone] writes only to the objects it allocates. *)
Lemma clone_frame : forall fuel,
  (forall o h visited r,
     Util.clone fuel o h visited = Done r ->
     Registry.next h <= Registry.next (snd (fst r)) /\
     forall x, x < Registry.next h ->
       Registry.objs (snd (fst r)) x = Registry.objs h x) /\
  (forall o ks c h visited r,
     Util.clone_keys fuel o ks c h visited = Done r ->
     Registry.next h <= Registry.next (fst r) /\
     forall x, x < Registry.next h -> x <> c ->
       Registry.objs (fst r) x = Registry.objs h x).
Proof.
  induction fuel as [|fuel [IHc IHk]]; [split; intros; discriminate|].
  assert (Hnew : forall l h visited r,
    Util.clone_keys fuel l
      (Registry.keys (Registry.objs (fst (Registry.heap_new h)) l))
      (Registry.next h) (fst (Registry.heap_new h))
      ((l, Registry.next h) :: visited) = Done r ->
    Registry.next h <= Registry.next (fst r) /\
    forall x, x < Registry.next h -> Registry.objs (fst r) x = Registry.objs h x).
  { intros l h visited r Hr. destruct (IHk _ _ _ _ _ _ Hr) as [H1 H2].
    rewrite heap_new_next in H1, H2. split; [lia|].
    intros x Hx. rewrite H2 by lia. apply heap_new_objs. lia. }
  split.
  - intros o h visited r. rewrite clone_S.
    destruct o as [l|l|x].
    + destruct (Util.visited_get visited l) as [c|]; [intros [= <-]; cbn; split; auto|].
      destruct (Util.clone_keys fuel l _ _ _ _) as [r1| |] eqn:E1; try discriminate.
      cbn [bind]. intros [= <-]. cbn [fst snd]. exact (Hnew _ _ _ _ E1).
    + destruct (Util.visited_get visited l) as [c|]; [intros [= <-]; cbn; split; auto|].
      destruct (Util.clone_keys fuel l _ _ _ _) as [r1| |] eqn:E1; try discriminate.
      cbn [bind]. intros [= <-]. cbn [fst snd]. exact (Hnew _ _ _ _ E1).
    + intros [= <-]. cbn. split; auto.
  - intros o ks c h visited r. rewrite clone_keys_S.
    destruct ks as [|key ks]; [intros [= <-]; cbn; split; auto|].
    destruct (obj_get (Registry.objs h o) key) as [v|]; [|apply IHk].
    destruct (Util.clone fuel v h visited) as [r1| |] eqn:E1; try discriminate.
    cbn [bind]. intros Hr.
    destruct (IHc _ _ _ _ E1) as [H1 H2]. destruct (IHk _ _ _ _ _ _ Hr) as [H3 H4].
    cbn [Registry.heap_set Registry.next] in H3, H4.
    split; [lia|]. intros x Hx Hxc.
    rewrite H4 by (auto; lia). rewrite <- (H2 x Hx).
    unfold Registry.heap_set. cbn [Registry.objs].
    apply Nat.eqb_neq in Hxc. now rewrite Hxc.
Qed.

Lemma extends_refl visited : extends visited visited.
Proof. intros x c H. exact H. Qed.

Lemma extends_trans a b c : extends a b -> extends b c -> extends a c.
Proof. intros H1 H2 x y H. apply H2, H1, H. Qed.

Lemma extends_cons visited l c :
  Util.visited_get visited l = None -> extends visited ((l, c) :: visited).
Proof.
  intros Hl x y H. cbn [Util.visited_get].
  destruct (Nat.eqb l x) eqn:E; [|exact H].
  apply Nat.eqb_eq in E. subst x. congruence.
Qed.

Lemma renamed_extends visited visited' v v' :
  extends visited visited' -> renamed visited v = Some v' -> renamed visited' v = Some v'.
Proof.
  intros He. destruct v as [p|p|x]; cbn [renamed]; auto.
  - destruct (Util.visited_get visited p) as [c|] eqn:E; [|discriminate].
    now rewrite (He _ _ E).
  - destruct (Util.visited_get visited p) as [c|] eqn:E; [|discriminate].
    now rewrite (He _ _ E).
Qed.

Lemma uncloned_le n visited visited' :
  extends visited visited' -> uncloned n visited' <= uncloned n visited.
Proof.
  intros He. unfold uncloned. apply filter_length_le. intros x Hx.
  destruct (Util.visited_get visited x) as [c|] eqn:E; [|reflexivity].
  now rewrite (He _ _ E) in Hx.
Qed.

Lemma uncloned_lt n visited l c :
  l < n -> Util.visited_get visited l = None ->
  uncloned n ((l, c) :: visited) < uncloned n visited.
Proof.
  intros Hl Hv. unfold uncloned. apply filter_length_lt with (p := l).
  - intros x Hx. cbn [Util.visited_get] in Hx.
    destruct (Nat.eqb l x); [discriminate|exact Hx].
  - apply in_seq. lia.
  - now rewrite Hv.
  - cbn [Util.visited_get]. now rewrite Nat.eqb_refl.
Qed.

Lemma filter_nil_length (A : Type) (f : A -> bool) (L : list A) x :
  List.length (filter f L) = 0 -> In x L -> f x = false.
Proof.
  intros H Hin. destruct (f x) eqn:E; [|reflexivity].
  assert (Hf : In x (filter f L)) by (apply filter_In; split; assumption).
  destruct (filter f L); [destruct Hf | discriminate].
Qed.

Lemma uncloned_zero n visited l :
  uncloned n visited = 0 -> l < n -> exists c, Util.visited_get visited l = Some c.
Proof.
  unfold uncloned. intros H Hl.
  assert (Hin : In l (seq 0 n)) by (apply in_seq; lia).
  pose proof (filter_nil_length _ _ l H Hin) as E. cbv beta in E.
  destruct (Util.visited_get visited l) as [c|]; [now exists c | discriminate].
Qed.

Lemma clone_mono : forall fuel,
  (forall fuel' o h visited r, fuel <= fuel' ->
     Util.clone fuel o h visited = Done r -> Util.clone fuel' o h visited = Done r) /\
  (forall fuel' o ks c h visited r, fuel <= fuel' ->
     Util.clone_keys fuel o ks c h visited = Done r ->
     Util.clone_keys fuel' o ks c h visited = Done r).
Proof.
  induction fuel as [|fuel [IHc IHk]]; [split; intros; discriminate|].
  split.
  - intros [|fuel'] o h visited r Hle; [lia|]. assert (Hle' : fuel <= fuel') by lia.
    rewrite !clone_S. destruct o as [l|l|x]; auto.
    + destruct (Util.visited_get visited l); auto.
      destruct (Util.clone_keys fuel l _ _ _ _) as [r1| |] eqn:E1; try discriminate.
      now rewrite (IHk _ _ _ _ _ _ _ Hle' E1).
    + destruct (Util.visited_get visited l); auto.
      destruct (Util.clone_keys fuel l _ _ _ _) as [r1| |] eqn:E1; try discriminate.
      now rewrite (IHk _ _ _ _ _ _ _ Hle' E1).
  - intros [|fuel'] o ks c h visited r Hle; [lia|]. assert (Hle' : fuel <= fuel') by lia.
    rewrite !clone_keys_S. destruct ks as [|key ks]; auto.
    destruct (obj_get (Registry.objs h o) key) as [v|]; [|apply IHk; exact Hle'].
    destruct (Util.clone fuel v h visited) as [r1| |] eqn:E1; try discriminate.
    rewrite (IHc _ _ _ _ _ Hle' E1). cbn [bind]. apply IHk; exact Hle'.
Qed.

Section CloneKeeps.

(** The objects below [n0] are the ones to clone, and [h0] holds them. *)
Variable n0 : nat.
Variable h0 : Registry.Heap.

Hypothesis closed0 : forall x k v,
  x < n0 -> obj_get (Registry.objs h0 x) k = Some v -> below n0 v.

Lemma clone_state_new h visited l :
  clone_state n0 h0 h visited -> l < n0 -> Util.visited_get visited l = None ->
  clone_state n0 h0 (fst (Registry.heap_new h)) ((l, Registry.next h) :: visited).
Proof.
  intros (H1 & H2 & H3 & H4 & H5) Hl Hv.
  split; [|split; [|split; [|split]]].
  - rewrite heap_new_next. lia.
  - intros x Hx. rewrite heap_new_objs by lia. auto.
  - intros a c H. cbn [Util.visited_get] in H. rewrite heap_new_next.
    destruct (Nat.eqb l a) eqn:E.
    + apply Nat.eqb_eq in E. injection H as <-. subst a. lia.
    + apply H3 in H. lia.
  - intros a b c. cbn [Util.visited_get].
    destruct (Nat.eqb l a) eqn:Ea; destruct (Nat.eqb l b) eqn:Eb.
    + apply Nat.eqb_eq in Ea, Eb. congruence.
    + intros [= <-] Hb. apply H3 in Hb. lia.
    + intros Ha [= <-]. apply H3 in Ha. lia.
    + apply H4.
  - intros c Hc. rewrite heap_new_next in Hc.
    destruct (Nat.eq_dec c (Registry.next h)) as [->|Hne].
    + exists l. cbn [Util.visited_get]. now rewrite Nat.eqb_refl.
    + destruct (H5 c) as [a Ha]; [lia|]. exists a.
      apply (@extends_cons visited l (Registry.next h) Hv). exact Ha.
Qed.

Lemma clone_state_set h visited c k v :
  clone_state n0 h0 h visited -> n0 <= c ->
  clone_state n0 h0 (Registry.heap_set h c k v) visited.
Proof.
  intros (H1 & H2 & H3 & H4 & H5) Hc.
  split; [|split; [|split; [|split]]]; auto.
  intros x Hx. rewrite heap_set_objs by lia. auto.
Qed.

Lemma clone_keeps_state : forall fuel,
  (forall o h visited r,
     clone_state n0 h0 h visited -> below n0 o ->
     Util.clone fuel o h visited = Done r ->
     clone_state n0 h0 (snd (fst r)) (snd r) /\ extends visited (snd r) /\
     renamed (snd r) o = Some (fst (fst r))) /\
  (forall l ks c h visited r,
     clone_state n0 h0 h visited -> l < n0 -> n0 <= c ->
     Util.clone_keys fuel l ks c h visited = Done r ->
     clone_state n0 h0 (fst r) (snd r) /\ extends visited (snd r)).
Proof.
  induction fuel as [|fuel [IHc IHk]]; [split; intros; discriminate|].
  assert (Hnew : forall l h visited r,
    clone_state n0 h0 h visited -> l < n0 -> Util.visited_get visited l = None ->
    Util.clone_keys fuel l
      (Registry.keys (Registry.objs (fst (Registry.heap_new h)) l))
      (Registry.next h) (fst (Registry.heap_new h))
      ((l, Registry.next h) :: visited) = Done r ->
    clone_state n0 h0 (fst r) (snd r) /\ extends visited (snd r) /\
    Util.visited_get (snd r) l = Some (Registry.next h)).
  { intros l h visited r Hs Hl Hv Hr.
    destruct (IHk _ _ _ _ _ _ (@clone_state_new h visited l Hs Hl Hv) Hl (proj1 Hs) Hr) as [Ha Hb].
    split; [exact Ha|]. split.
    - apply (@extends_trans _ _ _ (@extends_cons visited l (Registry.next h) Hv) Hb).
    - apply Hb. cbn [Util.visited_get]. now rewrite Nat.eqb_refl. }
  split.
  - intros o h visited r Hs Ho. rewrite clone_S. destruct o as [l|l|x].
    + destruct (Util.visited_get visited l) as [c|] eqn:Ev.
      * intros [= <-]. cbn [fst snd renamed]. rewrite Ev.
        split; [exact Hs|]. split; [apply extends_refl | reflexivity].
      * destruct (Util.clone_keys fuel l _ _ _ _) as [r1| |] eqn:E1; try discriminate.
        cbn [bind]. intros [= <-]. cbn [fst snd renamed].
        destruct (Hnew _ _ _ _ Hs Ho Ev E1) as (Ha & Hb & Hc). rewrite Hc. auto.
    + destruct (Util.visited_get visited l) as [c|] eqn:Ev.
      * intros [= <-]. cbn [fst snd renamed]. rewrite Ev.
        split; [exact Hs|]. split; [apply extends_refl | reflexivity].
      * destruct (Util.clone_keys fuel l _ _ _ _) as [r1| |] eqn:E1; try discriminate.
        cbn [bind]. intros [= <-]. cbn [fst snd renamed].
        destruct (Hnew _ _ _ _ Hs Ho Ev E1) as (Ha & Hb & Hc). rewrite Hc. auto.
    + intros [= <-]. cbn [fst snd renamed].
      split; [exact Hs|]. split; [apply extends_refl | reflexivity].
  - intros l ks c h visited r Hs Hl Hc. rewrite clone_keys_S.
    destruct ks as [|key ks];
      [intros [= <-]; cbn [fst snd]; split; [exact Hs | apply extends_refl]|].
    destruct (obj_get (Registry.objs h l) key) as [v|] eqn:Ek; [|apply IHk; auto].
    destruct (Util.clone fuel v h visited) as [r1| |] eqn:E1; try discriminate.
    cbn [bind]. intros Hr.
    assert (Hv : below n0 v).
    { apply (@closed0 l key v Hl).
      rewrite <- (proj1 (proj2 Hs) l Hl). exact Ek. }
    destruct (IHc _ _ _ _ Hs Hv E1) as (Ha & Hb & _).
    destruct (IHk _ _ _ _ _ _ (@clone_state_set (snd (fst r1)) (snd r1) c key (fst (fst r1)) Ha Hc) Hl Hc Hr)
      as (Ha' & Hb').
    split; [exact Ha'|]. apply (@extends_trans _ _ _ Hb Hb').
Qed.

End CloneKeeps.

Lemma copy_of_keeps h h' visited visited' l c :
  copy_of h visited l c -> extends visited visited' ->
  Registry.objs h' l = Registry.objs h l -> Registry.objs h' c = Registry.objs h c ->
  copy_of h' visited' l c.
Proof.
  intros [Hk Hv] He El Ec. unfold copy_of. rewrite El, Ec. split; [exact Hk|].
  intros k v Hg. destruct (Hv k v Hg) as (v' & Hr & Hc).
  exists v'. split; [exact (@renamed_extends visited visited' v v' He Hr) | exact Hc].
Qed.

Lemma obj_get_key (V : Type) (o : list (str * V)) k v :
  obj_get o k = Some v -> In k (map fst o).
Proof.
  intros H. apply obj_get_In in H. apply in_map_iff. now exists (k, v).
Qed.

Section CloneCopies.

Variable n0 : nat.
Variable h0 : Registry.Heap.

Hypothesis closed0 : forall x k v,
  x < n0 -> obj_get (Registry.objs h0 x) k = Some v -> below n0 v.

Hypothesis distinct0 : forall x, x < n0 -> NoDup (Registry.keys (Registry.objs h0 x)).

Lemma partial_copy_done h visited l c :
  clone_state n0 h0 h visited -> l < n0 ->
  partial_copy h visited l c (Registry.keys (Registry.objs h0 l)) ->
  copy_of h visited l c.
Proof.
  intros Hs Hl [Hk Hv]. split.
  - rewrite Hk. now rewrite (proj1 (proj2 Hs) l Hl).
  - intros k v Hg. apply (Hv k v); [|exact Hg].
    rewrite <- (proj1 (proj2 Hs) l Hl). exact (@obj_get_key _ _ k v Hg).
Qed.

Lemma partial_copy_step h h1 visited visited1 l c dn key ks v v' :
  clone_state n0 h0 h visited -> l < n0 ->
  Util.visited_get visited l = Some c ->
  Registry.keys (Registry.objs h0 l) = dn ++ key :: ks ->
  partial_copy h visited l c dn ->
  obj_get (Registry.objs h l) key = Some v ->
  extends visited visited1 -> renamed visited1 v = Some v' ->
  (forall x, x < Registry.next h -> Registry.objs h1 x = Registry.objs h x) ->
  partial_copy (Registry.heap_set h1 c key v') visited1 l c (dn ++ [key]).
Proof.
  intros Hs Hl Hc Hks [Hk Hv] Hg He Hr Hf.
  destruct Hs as (H1 & H2 & H3 & H4 & H5).
  destruct (H3 _ _ Hc) as (_ & Hc1 & Hc2).
  assert (Hlc : l <> c) by lia.
  assert (Hnd : ~ In key dn).
  { pose proof (@distinct0 l Hl) as Hnd. rewrite Hks in Hnd.
    apply NoDup_remove_2 in Hnd. intros Hin. apply Hnd. apply in_or_app. now left. }
  assert (Ec : Registry.objs (Registry.heap_set h1 c key v') c
               = Registry.objs h c ++ [(key, v')]).
  { rewrite heap_set_at, (Hf c Hc2). apply obj_set_fresh.
    unfold Registry.keys in Hk. now rewrite Hk. }
  assert (El : Registry.objs (Registry.heap_set h1 c key v') l = Registry.objs h l).
  { rewrite heap_set_objs by exact Hlc. apply Hf. lia. }
  split.
  - rewrite Ec. unfold Registry.keys in *. rewrite map_app, Hk. reflexivity.
  - intros k w Hin Hw. rewrite El in Hw.
    rewrite heap_set_at, (Hf c Hc2), obj_get_set.
    destruct (str_eqb key k) eqn:E.
    + apply str_eqb_eq in E. subst k. exists v'. split; [|reflexivity].
      assert (w = v) by congruence. now subst w.
    + apply str_eqb_neq in E. apply in_app_or in Hin.
      destruct Hin as [Hin|[Hin|[]]]; [|now elim E].
      destruct (Hv k w Hin Hw) as (w' & Hr' & Hc').
      exists w'. split; [exact (@renamed_extends visited visited1 w w' He Hr') | exact Hc'].
Qed.

Lemma clone_copies : forall fuel,
  (forall o h visited stack r,
     clone_state n0 h0 h visited -> below n0 o -> copied h visited stack ->
     Util.clone fuel o h visited = Done r ->
     copied (snd (fst r)) (snd r) stack) /\
  (forall l ks c h visited stack dn r,
     clone_state n0 h0 h visited -> l < n0 ->
     Util.visited_get visited l = Some c -> In l stack ->
     copied h visited stack ->
     Registry.keys (Registry.objs h0 l) = dn ++ ks ->
     partial_copy h visited l c dn ->
     Util.clone_keys fuel l ks c h visited = Done r ->
     copied (fst r) (snd r) stack /\ copy_of (fst r) (snd r) l c).
Proof.
  induction fuel as [|fuel [IHc IHk]]; [split; intros; discriminate|].
  assert (Hnew : forall l h visited stack r,
    clone_state n0 h0 h visited -> l < n0 -> Util.visited_get visited l = None ->
    copied h visited stack ->
    Util.clone_keys fuel l
      (Registry.keys (Registry.objs (fst (Registry.heap_new h)) l))
      (Registry.next h) (fst (Registry.heap_new h))
      ((l, Registry.next h) :: visited) = Done r ->
    copied (fst r) (snd r) stack).
  { intros l h visited stack r Hs Hl Hv Hcp Hr.
    pose proof (@clone_state_new n0 h0 h visited l Hs Hl Hv) as Hs1.
    destruct Hs as (H1 & H2 & H3 & H4 & H5).
    assert (Eg : Util.visited_get ((l, Registry.next h) :: visited) l
                 = Some (Registry.next h))
      by (cbn [Util.visited_get]; now rewrite Nat.eqb_refl).
    assert (Ek : Registry.keys (Registry.objs h0 l)
                 = [] ++ Registry.keys (Registry.objs (fst (Registry.heap_new h)) l)).
    { cbn [app]. rewrite heap_new_objs by lia. now rewrite H2. }
    assert (Hcp1 : copied (fst (Registry.heap_new h)) ((l, Registry.next h) :: visited)
                     (l :: stack)).
    { intros a c Ha Hout. cbn [Util.visited_get] in Ha.
      destruct (Nat.eqb l a) eqn:E.
      - apply Nat.eqb_eq in E. subst a. exfalso. apply Hout. now left.
      - destruct (H3 _ _ Ha) as (Ha1 & Ha2 & Ha3).
        apply (@copy_of_keeps h _ visited _ a c).
        + apply Hcp; [exact Ha|]. intros Hin. apply Hout. now right.
        + exact (@extends_cons visited l (Registry.next h) Hv).
        + apply heap_new_objs. lia.
        + apply heap_new_objs. lia. }
    assert (Hpc : partial_copy (fst (Registry.heap_new h)) ((l, Registry.next h) :: visited)
                    l (Registry.next h) []).
    { split; [now rewrite heap_new_empty|]. intros k v []. }
    destruct (IHk _ _ _ _ _ (l :: stack) [] _ Hs1 Hl Eg (or_introl eq_refl) Hcp1 Ek Hpc Hr)
      as [Hd Hc].
    destruct (proj2 (@clone_keeps_state n0 h0 closed0 fuel) _ _ _ _ _ _ Hs1 Hl H1 Hr) as [_ He].
    intros a c Ha Hout. destruct (Nat.eq_dec a l) as [->|Hne].
    - rewrite (He _ _ Eg) in Ha. injection Ha as <-. exact Hc.
    - apply Hd; [exact Ha|]. intros [E|Hin]; [now apply Hne | now apply Hout]. }
  split.
  - intros o h visited stack r Hs Ho Hcp. rewrite clone_S. destruct o as [l|l|x].
    + destruct (Util.visited_get visited l) as [c|] eqn:Ev; [intros [= <-]; exact Hcp|].
      destruct (Util.clone_keys fuel l _ _ _ _) as [r1| |] eqn:E1; try discriminate.
      cbn [bind]. intros [= <-]. cbn [fst snd]. exact (Hnew _ _ _ _ _ Hs Ho Ev Hcp E1).
    + destruct (Util.visited_get visited l) as [c|] eqn:Ev; [intros [= <-]; exact Hcp|].
      destruct (Util.clone_keys fuel l _ _ _ _) as [r1| |] eqn:E1; try discriminate.
      cbn [bind]. intros [= <-]. cbn [fst snd]. exact (Hnew _ _ _ _ _ Hs Ho Ev Hcp E1).
    + intros [= <-]. exact Hcp.
  - intros l ks c h visited stack dn r Hs Hl Hc Hin Hcp Hks Hpc. rewrite clone_keys_S.
    destruct ks as [|key ks].
    + intros [= <-]. cbn [fst snd]. split; [exact Hcp|].
      rewrite app_nil_r in Hks. rewrite <- Hks in Hpc.
      exact (@partial_copy_done h visited l c Hs Hl Hpc).
    + destruct (obj_get (Registry.objs h l) key) as [v|] eqn:Ek.
      2:{ exfalso. apply obj_get_none in Ek. apply Ek.
          rewrite (proj1 (proj2 Hs) l Hl).
          change (In key (Registry.keys (Registry.objs h0 l))). rewrite Hks.
          apply in_or_app. right. now left. }
      destruct (Util.clone fuel v h visited) as [r1| |] eqn:E1; try discriminate.
      cbn [bind]. intros Hr.
      assert (Hv : below n0 v).
      { apply (@closed0 l key v Hl). rewrite <- (proj1 (proj2 Hs) l Hl). exact Ek. }
      destruct (proj1 (@clone_keeps_state n0 h0 closed0 fuel) _ _ _ _ Hs Hv E1) as (Hs1 & He & Hrn).
      destruct (proj1 (clone_frame fuel) _ _ _ _ E1) as [Hn Hf].
      pose proof (IHc _ _ _ _ _ Hs Hv Hcp E1) as Hcp1.
      destruct (proj1 (proj2 (proj2 Hs)) _ _ Hc) as (_ & Hc1 & Hc2).
      pose proof (@clone_state_set n0 h0 (snd (fst r1)) (snd r1) c key (fst (fst r1)) Hs1 Hc1)
        as Hs2.
      assert (Hcp2 : copied (Registry.heap_set (snd (fst r1)) c key (fst (fst r1)))
                       (snd r1) stack).
      { intros a d Ha Hout.
        destruct (proj1 (proj2 (proj2 Hs1)) _ _ Ha) as (Ha1 & Ha2 & Ha3).
        assert (Had : d <> c).
        { intros ->. apply Hout.
          rewrite (proj1 (proj2 (proj2 (proj2 Hs1))) a l c Ha (He _ _ Hc)). exact Hin. }
        apply (@copy_of_keeps (snd (fst r1)) _ (snd r1) _ a d).
        - exact (Hcp1 _ _ Ha Hout).
        - apply extends_refl.
        - apply heap_set_objs. lia.
        - apply heap_set_objs. exact Had. }
      assert (Hks' : Registry.keys (Registry.objs h0 l) = (dn ++ [key]) ++ ks)
        by (rewrite <- app_assoc; exact Hks).
      pose proof (@partial_copy_step h (snd (fst r1)) visited (snd r1) l c dn key ks v
                    (fst (fst r1)) Hs Hl Hc Hks Hpc Ek He Hrn Hf) as Hpc2.
      destruct (IHk _ _ _ _ _ _ _ _ Hs2 Hl (He _ _ Hc) Hin Hcp2 Hks' Hpc2 Hr) as [Hd Hcc].
      split; assumption.
Qed.

End CloneCopies.

Section CloneReturns.

Variable n0 : nat.
Variable h0 : Registry.Heap.

Hypothesis closed0 : forall x k v,
  x < n0 -> obj_get (Registry.objs h0 x) k = Some v -> below n0 v.

(** The loop over the keys returns when every call on a value does. *)
Lemma clone_keys_returns n :
  (forall o h visited,
     clone_state n0 h0 h visited -> below n0 o -> uncloned n0 visited <= n ->
     exists fuel r, Util.clone fuel o h visited = Done r) ->
  forall ks l c h visited,
    clone_state n0 h0 h visited -> l < n0 -> n0 <= c -> uncloned n0 visited <= n ->
    exists fuel r, Util.clone_keys fuel l ks c h visited = Done r.
Proof.
  intros HC. induction ks as [|key ks IH]; intros l c h visited Hs Hl Hc Hu.
  - exists 1, (h, visited). reflexivity.
  - destruct (obj_get (Registry.objs h l) key) as [v|] eqn:Ek.
    + assert (Hv : below n0 v).
      { apply (@closed0 l key v Hl). rewrite <- (proj1 (proj2 Hs) l Hl). exact Ek. }
      destruct (HC v h visited Hs Hv Hu) as (f1 & r1 & E1).
      destruct (proj1 (@clone_keeps_state n0 h0 closed0 f1) _ _ _ _ Hs Hv E1)
        as (Hs1 & He & _).
      pose proof (@clone_state_set n0 h0 (snd (fst r1)) (snd r1) c key (fst (fst r1)) Hs1 Hc)
        as Hs2.
      assert (Hu1 : uncloned n0 (snd r1) <= n)
        by (pose proof (@uncloned_le n0 visited (snd r1) He); lia).
      destruct (IH l c _ _ Hs2 Hl Hc Hu1) as (f2 & r2 & E2).
      exists (S (Nat.max f1 f2)), r2. rewrite clone_keys_S, Ek.
      rewrite (proj1 (clone_mono f1) (Nat.max f1 f2) _ _ _ _ (Nat.le_max_l f1 f2) E1).
      cbn [bind].
      exact (proj2 (clone_mono f2) (Nat.max f1 f2) _ _ _ _ _ _ (Nat.le_max_r f1 f2) E2).
    + destruct (IH l c h visited Hs Hl Hc Hu) as (f & r & E).
      exists (S f), r. rewrite clone_keys_S, Ek. exact E.
Qed.

(** Every object is entered once, so the recursion ends, cycles or not. *)
Lemma clone_returns : forall n o h visited,
  clone_state n0 h0 h visited -> below n0 o -> uncloned n0 visited <= n ->
  exists fuel r, Util.clone fuel o h visited = Done r.
Proof.
  induction n as [n IHn] using lt_wf_ind. intros o h visited Hs Ho Hu.
  assert (Hnew : forall l : Registry.loc, l < n0 -> Util.visited_get visited l = None ->
    exists fuel r,
      Util.clone_keys fuel l
        (Registry.keys (Registry.objs (fst (Registry.heap_new h)) l))
        (Registry.next h) (fst (Registry.heap_new h))
        ((l, Registry.next h) :: visited) = Done r).
  { intros l Hl Hv.
    pose proof (@uncloned_lt n0 visited l (Registry.next h) Hl Hv) as Hlt.
    apply (@clone_keys_returns (uncloned n0 ((l, Registry.next h) :: visited))).
    - apply IHn. exact (Nat.lt_le_trans _ _ _ Hlt Hu).
    - exact (@clone_state_new n0 h0 h visited l Hs Hl Hv).
    - exact Hl.
    - exact (proj1 Hs).
    - apply Nat.le_refl. }
  destruct o as [l|l|x].
  - destruct (Util.visited_get visited l) as [c|] eqn:Ev.
    + exists 1, (Registry.VObject c, h, visited). rewrite clone_S, Ev. reflexivity.
    + destruct (Hnew l Ho Ev) as (f & r & E).
      exists (S f), (Registry.VObject (Registry.next h), fst r, snd r).
      rewrite clone_S, Ev, E. reflexivity.
  - destruct (Util.visited_get visited l) as [c|] eqn:Ev.
    + exists 1, (Registry.VArray c, h, visited). rewrite clone_S, Ev. reflexivity.
    + destruct (Hnew l Ho Ev) as (f & r & E).
      exists (S f), (Registry.VArray (Registry.next h), fst r, snd r).
      rewrite clone_S, Ev, E. reflexivity.
  - exists 1, (Registry.VOther x, h, visited). reflexivity.
Qed.

End CloneReturns.

(** ** A call of [util.clone] from outside *)

Lemma clone_state_start h : clone_state (Registry.next h) h h [].
Proof.
  split; [lia|]. split; [reflexivity|]. split; [|split].
  - intros l c H. discriminate H.
  - intros l l' c H. discriminate H.
  - intros c Hc. lia.
Qed.

Lemma closed_below h x k v :
  closed h -> obj_get (Registry.objs h x) k = Some v -> below (Registry.next h) v.
Proof.
  intros Hc Hg. destruct v as [p|p|y]; cbn [below]; [| |exact I].
  - apply (Hc x k p). now left.
  - apply (Hc x k p). now right.
Qed.

Lemma clone_top fuel o h r :
  closed h -> distinct_keys h -> below (Registry.next h) o ->
  Util.clone fuel o h [] = Done r ->
  clone_state (Registry.next h) h (snd (fst r)) (snd r) /\
  renamed (snd r) o = Some (fst (fst r)) /\
  copied (snd (fst r)) (snd r) [].
Proof.
  intros Hc Hd Ho Hr.
  assert (C0 : forall x k v, x < Registry.next h ->
                 obj_get (Registry.objs h x) k = Some v -> below (Registry.next h) v)
    by (intros x k v _ Hg; exact (@closed_below h x k v Hc Hg)).
  assert (D0 : forall x, x < Registry.next h -> NoDup (Registry.keys (Registry.objs h x)))
    by (intros x _; apply Hd).
  destruct (proj1 (@clone_keeps_state (Registry.next h) h C0 fuel) _ _ _ _
              (clone_state_start h) Ho Hr) as (Hs & _ & Hrn).
  split; [exact Hs|]. split; [exact Hrn|].
  apply (proj1 (@clone_copies (Registry.next h) h C0 D0 fuel) o h [] [] r
           (clone_state_start h) Ho); [|exact Hr].
  intros l c H. discriminate H.
Qed.

Lemma heap0_distinct : distinct_keys RegistryExample.heap0.
Proof.
  intros l.
  do 5 (destruct l as [|l];
        [repeat constructor; cbv; intuition discriminate|]).
  constructor.
Qed.

(** ** [Object.assign] and [extend] *)

Lemma obj_assign_get (V : Type) (src : list (str * V)) k : forall dst,
  NoDup (map fst src) ->
  obj_get (obj_assign dst src) k
  = match obj_get src k with Some w => Some w | None => obj_get dst k end.
Proof.
  unfold obj_assign. induction src as [|[k0 v0] src IH]; intros dst Hnd; [reflexivity|].
  inversion Hnd as [|? ? Hk Hnd']; subst.
  cbn [fold_left fst snd obj_get]. rewrite (IH _ Hnd'), obj_get_set.
  destruct (str_eqb k0 k) eqn:E.
  - apply str_eqb_eq in E. subst k0.
    apply obj_get_none in Hk. now rewrite Hk.
  - reflexivity.
Qed.

(** [Object.assign] on the heap is the assignment of the entries, when the
    target is another object than the source. *)
Lemma object_assign_fold target source : forall (sfx : Registry.Obj) h,
  target <> source ->
  (forall k v, In (k, v) sfx -> obj_get (Registry.objs h source) k = Some v) ->
  let h' := fold_left (fun hh key =>
                         match obj_get (Registry.objs hh source) key with
                         | Some w => Registry.heap_set hh target key w
                         | None => hh
                         end) (map fst sfx) h in
  Registry.objs h' target = obj_assign (Registry.objs h target) sfx /\
  (forall x, x <> target -> Registry.objs h' x = Registry.objs h x) /\
  Registry.next h' = Registry.next h.
Proof.
  induction sfx as [|[k v] sfx IH]; intros h Hne Hs.
  - cbn. auto.
  - cbn [map fst fold_left]. rewrite (Hs k v (or_introl eq_refl)).
    assert (Hs' : forall k' v', In (k', v') sfx ->
              obj_get (Registry.objs (Registry.heap_set h target k v) source) k' = Some v').
    { intros k' v' Hin. rewrite heap_set_objs by auto. apply Hs. now right. }
    destruct (IH (Registry.heap_set h target k v) Hne Hs') as (H1 & H2 & H3).
    cbv zeta. split; [|split].
    + rewrite H1, heap_set_at. reflexivity.
    + intros x Hx. rewrite (H2 x Hx). now apply heap_set_objs.
    + rewrite H3. reflexivity.
Qed.

Lemma object_assign_spec h target source :
  target <> source -> NoDup (Registry.keys (Registry.objs h source)) ->
  Registry.objs (object_assign h target source) target
  = obj_assign (Registry.objs h target) (Registry.objs h source) /\
  (forall x, x <> target ->
     Registry.objs (object_assign h target source) x = Registry.objs h x) /\
  Registry.next (object_assign h target source) = Registry.next h.
Proof.
  intros Hne Hnd.
  apply (@object_assign_fold target source (Registry.objs h source) h Hne).
  intros k v Hin. now apply obj_get_nodup.
Qed.

Lemma clone_object_new fuel g h r :
  Util.clone fuel (Registry.VObject g) h [] = Done r ->
  fst (fst r) = Registry.VObject (Registry.next h).
Proof.
  destruct fuel as [|fuel]; [discriminate|]. rewrite clone_S. cbn [Util.visited_get].
  destruct (Util.clone_keys fuel g _ _ _ _) as [r1| |]; try discriminate.
  cbn [bind]. now intros [= <-].
Qed.

Lemma has_key_keys (V : Type) (a b : list (str * V)) k :
  map fst a = map fst b -> has_key a k = has_key b k.
Proof.
  intros H. destruct (has_key b k) eqn:E.
  - apply has_key_in. rewrite H. now apply has_key_in.
  - destruct (has_key a k) eqn:E'; [|reflexivity].
    apply has_key_in in E'. rewrite H in E'. apply has_key_in in E'. congruence.
Qed.

(** What [extend] returns and leaves. *)
Lemma extend_spec fuel languages h id redef g r :
  closed h -> distinct_keys h ->
  obj_get (Registry.objs h languages) id = Some (Registry.VObject g) ->
  redef < Registry.next h ->
  extend fuel languages h id redef = Reply (Done r) ->
  snd r = Registry.VObject (Registry.next h) /\
  (forall x, x < Registry.next h -> Registry.objs (fst r) x = Registry.objs h x) /\
  Registry.keys (Registry.objs (fst r) (Registry.next h))
  = Registry.keys (Registry.objs h g)
    ++ filter (fun k => negb (has_key (Registry.objs h g) k))
         (Registry.keys (Registry.objs h redef)) /\
  (forall k w, obj_get (Registry.objs h redef) k = Some w ->
     obj_get (Registry.objs (fst r) (Registry.next h)) k = Some w) /\
  (forall k v0, obj_get (Registry.objs h redef) k = None ->
     obj_get (Registry.objs h g) k = Some v0 ->
     exists v1, obj_get (Registry.objs (fst r) (Registry.next h)) k = Some v1 /\
       match v0 with
       | Registry.VObject _ => exists p, v1 = Registry.VObject p /\ Registry.next h <= p
       | Registry.VArray _ => exists p, v1 = Registry.VArray p /\ Registry.next h <= p
       | Registry.VOther _ => v1 = v0
       end).
Proof.
  intros Hc Hd Hl Hredef. unfold extend. rewrite Hl. intros H. injection H as H. revert H.
  destruct (Util.clone fuel (Registry.VObject g) h []) as [r1| |] eqn:E1; try discriminate.
  cbn [bind]. pose proof (@clone_object_new fuel g h r1 E1) as Hv. rewrite Hv.
  intros [= <-]. cbn [fst snd].
  assert (Hg : g < Registry.next h) by (apply (Hc languages id g); now left).
  destruct (@clone_top fuel (Registry.VObject g) h r1 Hc Hd Hg E1) as (Hs & Hrn & Hcp).
  destruct Hs as (H1 & H2 & H3 & H4 & H5).
  set (c := Registry.next h) in *. set (h1 := snd (fst r1)) in *.
  assert (Hgc : Util.visited_get (snd r1) g = Some c).
  { rewrite Hv in Hrn. cbn [renamed] in Hrn.
    destruct (Util.visited_get (snd r1) g) as [d|]; [|discriminate].
    cbn [option_map] in Hrn. congruence. }
  destruct (Hcp g c Hgc (fun F => F)) as [Hk Hvals].
  assert (Hne : c <> redef) by (unfold c; lia).
  assert (Er : Registry.objs h1 redef = Registry.objs h redef) by (apply H2; exact Hredef).
  assert (Eg : Registry.objs h1 g = Registry.objs h g) by (apply H2; exact Hg).
  assert (Hnd : NoDup (Registry.keys (Registry.objs h1 redef))) by (rewrite Er; apply Hd).
  destruct (@object_assign_spec h1 c redef Hne Hnd) as (A1 & A2 & A3).
  rewrite Er in A1. rewrite Er in Hnd. rewrite Eg in Hk, Hvals.
  split; [reflexivity|]. split; [|split; [|split]].
  - intros x Hx. rewrite A2 by (unfold c; lia). apply H2. exact Hx.
  - rewrite A1. unfold Registry.keys in *. rewrite (@obj_assign_keys _ (Registry.objs h redef) (Registry.objs h1 c) Hnd), Hk.
    f_equal. apply filter_ext. intros k. f_equal. now apply has_key_keys.
  - intros k w Hw. rewrite A1, (@obj_assign_get _ (Registry.objs h redef) k (Registry.objs h1 c) Hnd), Hw. reflexivity.
  - intros k v0 Hn Hv0. rewrite A1, (@obj_assign_get _ (Registry.objs h redef) k (Registry.objs h1 c) Hnd), Hn.
    destruct (Hvals k v0 Hv0) as (v1 & Hr1 & Hg1). exists v1. split; [exact Hg1|].
    destruct v0 as [q|q|y]; cbn [renamed] in Hr1.
    + destruct (Util.visited_get (snd r1) q) as [p|] eqn:Eq; [|discriminate].
      exists p. split; [cbn [option_map] in Hr1; congruence|].
      exact (proj1 (proj2 (H3 _ _ Eq))).
    + destruct (Util.visited_get (snd r1) q) as [p|] eqn:Eq; [|discriminate].
      exists p. split; [cbn [option_map] in Hr1; congruence|].
      exact (proj1 (proj2 (H3 _ _ Eq))).
    + congruence.
Qed.


(** ** Hooks that return, hooks that raise *)

Lemma bind_done (A : Type) (x : outcome A) : (a <- x ;; Done a) = x.
Proof. now destruct x. Qed.

Lemma hooks_run_app (E : Type) (a b : list (HookCallback E)) : forall e,
  hooks_run (a ++ b) e = (e' <- hooks_run a e ;; hooks_run b e').
Proof.
  induction a as [|c a IH]; intros e; [reflexivity|].
  rewrite <- app_comm_cons. cbn [hooks_run].
  destruct (c e) as [e1| |]; [|reflexivity|reflexivity]. cbn [bind]. apply IH.
Qed.

Lemma hooks_run_runs (E : Type) (cs : list (HookCallback E)) : forall e e',
  hooks_run cs e = Done e' <-> runs cs e e'.
Proof.
  induction cs as [|c cs IH]; intros e e'; cbn [hooks_run].
  - split; [intros [= <-]; constructor | intros H; inversion H; reflexivity].
  - split.
    + destruct (c e) as [e1| |] eqn:Ec; cbn [bind]; try discriminate.
      intros H. eapply runs_cons; [exact Ec|]. now apply IH.
    + intros H. inversion H as [|? ? ? e1 ? Hc Hr]; subst.
      rewrite Hc. cbn [bind]. now apply IH.
Qed.

Lemma hooks_run_raises (E : Type) (cs : list (HookCallback E)) : forall e err,
  hooks_run cs e = Thrown err <-> raises cs e err.
Proof.
  induction cs as [|c cs IH]; intros e err; cbn [hooks_run].
  - split; [discriminate | intros H; inversion H].
  - split.
    + destruct (c e) as [e1|err1|] eqn:Ec; cbn [bind]; try discriminate.
      * intros H. eapply raises_later; [exact Ec|]. now apply IH.
      * intros [= <-]. now apply raises_here.
    + intros H. inversion H as [? ? ? ? Hc|? ? ? e1 ? Hc Hr]; subst.
      * now rewrite Hc.
      * rewrite Hc. cbn [bind]. now apply IH.
Qed.

Lemma returning_tail (E : Type) (c : HookCallback E) cs :
  returning (c :: cs) -> returning cs.
Proof. intros H c' Hin. apply H. now right. Qed.

Lemma returning_runs (E : Type) (cs : list (HookCallback E)) :
  returning cs -> forall e, exists e', hooks_run cs e = Done e'.
Proof.
  induction cs as [|c cs IH]; intros Hr e; cbn [hooks_run].
  - now exists e.
  - destruct (Hr c (or_introl eq_refl) e) as [e1 H1]. rewrite H1. cbn [bind].
    apply IH. exact (@returning_tail E c cs Hr).
Qed.

(** With [wrap] hooks that return, the stringifier returns. *)
Lemma stringify_returns hooks language0 :
  returning (wrap hooks) ->
  forall l st, exists r, stringify hooks language0 st l = Done r.
Proof.
  intros Hw.
  assert (Hrender : forall st t inner, exists r, render hooks language0 st t inner = Done r).
  { intros st t inner. unfold render.
    destruct (@returning_runs _ (wrap hooks) Hw
                (st, {| w_type := type t; w_content := inner; w_tag := lit "span";
                        w_classes := [lit "token"; type t] ++
                          match alias t with
                          | ANone => []
                          | AOne a => if truthy a then [a] else []
                          | AMany l => l
                          end;
                        w_attributes := []; w_language := language0 |})) as [r Hr].
    rewrite Hr. cbn [bind]. eexists. reflexivity. }
  assert (Hall : forall l, Forall (fun e => forall st, exists r,
                               stringify_elem hooks language0 st e = Done r) l ->
                 forall st, exists r, stringify hooks language0 st l = Done r).
  { induction l as [|e l IH]; intros HF st.
    - eexists. apply stringify_nil.
    - inversion HF as [|? ? He Hl]; subst. rewrite stringify_cons.
      destruct (He st) as [r1 H1]. rewrite H1. cbn [bind].
      destruct (IH Hl (fst r1)) as [r2 H2]. rewrite H2. cbn [bind].
      eexists. reflexivity. }
  assert (Helem : forall (e : Elem) (st0 : Store), exists r,
            stringify_elem hooks language0 st0 e = Done r).
  { apply (@Elem_nested_ind (fun e => forall st, exists r,
                               stringify_elem hooks language0 st e = Done r)).
    - intros s st. eexists. reflexivity.
    - intros ty s a n st. cbn [stringify_elem stringify_token stringify_content bind fst snd].
      apply Hrender.
    - intros ty l a n HF st.
      change (stringify_elem hooks language0 st (ETok (mkToken ty (CArr l) a n)))
        with (r <- stringify hooks language0 st l ;;
              render hooks language0 (fst r) (mkToken ty (CArr l) a n) (snd r)).
      destruct (Hall l HF st) as [r Hr]. rewrite Hr. cbn [bind]. apply Hrender. }
  intros l st. apply Hall. apply Forall_forall. intros e _. apply Helem.
Qed.

(** What [Prism.highlight] does, step by step. *)
Lemma highlight_steps fuel hooks st0 text grammar language0 :
  highlight fuel hooks st0 text grammar language0
  = (b <- hooks_run (before_tokenize hooks) (st0, env_before text grammar language0) ;;
     match env_grammar (snd b) with
     | None => Thrown (NoGrammarError (language (snd b)))
     | Some g =>
         r <- tokenize fuel (fst b) (code (snd b)) g ;;
         a <- hooks_run (after_tokenize hooks) (fst r, env_after (snd b) (snd r)) ;;
         stringify hooks (language (snd a)) (fst a) (encode (tokens (snd a)))
     end).
Proof. reflexivity. Qed.

(** ** The names that [Prism.languages] answers to *)

Lemma is_member_in name : is_member name = true <-> In name language_members.
Proof.
  unfold is_member. rewrite existsb_exists. split.
  - intros (x & Hx & E). apply str_eqb_eq in E. now subst.
  - intros H. exists name. split; [exact H | apply str_eqb_refl].
Qed.

Lemma languages_get_none languages name :
  registry_shape languages ->
  (languages_get languages name = None <->
   has_key (registered languages) name = false /\ is_member name = false).
Proof.
  intros Hs. unfold languages_get, has_key.
  destruct (obj_get (registered languages) name) as [g|] eqn:Er.
  - split; [discriminate | intros [H _]; discriminate].
  - rewrite obj_get_none, Hs. split.
    + intros H. split; [reflexivity|].
      destruct (is_member name) eqn:E; [|reflexivity].
      apply is_member_in in E. contradiction.
    + intros [_ H] Hin. apply is_member_in in Hin. congruence.
Qed.

Lemma languages_get_member languages name :
  registry_shape languages ->
  has_key (registered languages) name = false -> is_member name = true ->
  exists g, languages_get languages name = Some g /\ In (name, g) (inherited languages).
Proof.
  intros Hs Hr Hm. unfold languages_get, has_key in *.
  destruct (obj_get (registered languages) name) as [g|]; [discriminate|].
  destruct (obj_get (inherited languages) name) as [g|] eqn:Ei.
  - exists g. split; [reflexivity | now apply obj_get_In].
  - apply obj_get_none in Ei. rewrite Hs in Ei. apply is_member_in in Hm. contradiction.
Qed.

Lemma merged_none st0 g : rest (st0 g) = None -> merged st0 g = st0.
Proof. intros H. unfold merged. now rewrite H. Qed.

(** [Prism.highlight] on an object without enumerable keys, with no hook
    before or after [tokenize]: the encoded text. *)
Lemma highlight_empty fuel hooks st0 text g language0 :
  rules (st0 g) = [] -> rest (st0 g) = None ->
  before_tokenize hooks = [] -> after_tokenize hooks = [] -> 1 < fuel ->
  highlight fuel hooks st0 text (Some g) language0 = Done (st0, encode_str text).
Proof.
  intros Hr Hn Hb Ha Hf. rewrite highlight_steps, Hb.
  cbn [hooks_run bind snd fst env_before env_grammar code].
  assert (Ht : tokenize fuel st0 text g = Done (st0, [EStr text])).
  { rewrite <- (merged_none st0 g Hn) at 2. apply tokenize_quiet.
    - rewrite (merged_none st0 g Hn), Hr. intros token v ps po [].
    - rewrite (merged_none st0 g Hn), Hr. simpl. lia. }
  rewrite Ht. cbn [bind fst snd]. rewrite Ha.
  cbn [hooks_run bind snd fst env_after tokens language encode map encode_elem].
  rewrite stringify_cons. cbn [stringify_elem bind fst snd]. rewrite stringify_nil.
  cbn [bind fst snd]. now rewrite app_nil_r.
Qed.

Lemma prism_languages_shape : registry_shape Examples.prism_languages.
Proof. reflexivity. Qed.

(** * The specification, statement by statement *)


(** ** C1: the lengths of the stream add up to the length of the text *)

(** C1.  For every grammar store, grammar [g] and text [T]: whenever
    [tokenize(T, g)] returns a stream, the lengths of its elements (the
    length of a plain string, the [length] field of a [Token]) add up to
    the length of [T]; and it does return one, raising nothing, whenever
    the grammars can be ranked along [inside]. *)
Theorem C1_length_conservation (st0 : Store) (text : str) (g : gid) :
  (forall fuel st' stream,
     tokenize fuel st0 text g = Done (st', stream) ->
     sumlen stream = List.length text) /\
  (forall fuel e, tokenize fuel st0 text g <> Thrown e) /\
  (forall rank, ranked rank st0 ->
     exists fuel st' stream,
       tokenize fuel st0 text g = Done (st', stream) /\
       sumlen stream = List.length text).
Proof.
  split; [|split].
  - intros fuel st' stream H. exact (tokenize_cover _ _ _ _ H).
  - intros fuel e. apply tokenize_safe.
  - intros rank Hr.
    destruct (@tokenize_returns rank st0 text g Hr) as (N & [st' stream] & H).
    exists N, st', stream. split; [exact H | exact (tokenize_cover _ _ _ _ H)].
Qed.

Lemma only_ranked (G : Grammar) :
  (forall token v ps po, In (token, v) (rules G) -> patterns_of v = Some ps ->
     In po ps -> inside po = None) ->
  rest G = None ->
  ranked (fun _ => 0) (Examples.only G).
Proof.
  intros Hin Hrest g. unfold Examples.only. split.
  - intros token v ps po h H1 H2 H3 H4. rewrite (Hin token v ps po H1 H2 H3) in H4.
    discriminate.
  - intros r H. congruence.
Qed.

Lemma phrase_ranked : ranked (fun _ => 0) (Examples.only Examples.phrase_grammar).
Proof.
  apply only_ranked; [|reflexivity].
  intros token v ps po H1 H2 H3. simpl in H1.
  destruct H1 as [H1|[H1|[]]]; injection H1 as <- <-; simpl in H2;
    injection H2 as <-; destruct H3 as [<-|[]]; reflexivity.
Qed.

Lemma C1_witness :
  sumlen [Examples.word_token "ab"; EStr (lit " "); Examples.word_token "cd"]
  = List.length (lit "ab cd").
Proof.
  apply (proj1 (C1_length_conservation (Examples.only Examples.phrase_grammar) (lit "ab cd") 0)
           7 (Examples.only Examples.phrase_grammar)).
  reflexivity.
Defined.

(** ** C2: the shape of the stream *)


Lemma tidy_shape stream :
  tidy stream = true -> no_adjacent_strings stream /\ no_empty_string stream.
Proof.
  intros Ht. split.
  - intros i a b Ha Hb.
    destruct (tidy_nth_str _ _ Ht Ha) as [_ Hn]. specialize (Hn _ Hb). discriminate.
  - intros i Hi.
    destruct (tidy_nth_str _ _ Ht Hi) as [Hn _]. discriminate.
Qed.

Lemma tokenize_empty_stream fuel st0 g st' stream :
  tokenize fuel st0 [] g = Done (st', stream) -> stream = [EStr []].
Proof.
  intros H.
  set (N := Nat.max fuel (S (valve_fuel (rules (merged st0 g g))))).
  assert (H1 : tokenize N st0 [] g = Done (st', stream))
    by (apply tokenize_mono with (fuel := fuel); [lia | exact H]).
  assert (H2 : tokenize N st0 [] g = Done (merged st0 g, [EStr []]))
    by (apply tokenize_empty; lia).
  rewrite H1 in H2. now injection H2.
Qed.

(** C2.  For every grammar and text, a stream that [tokenize] returns has
    no two adjacent plain strings and no empty string, except that the
    stream of the empty text is [[""]]; the empty text always gets that
    stream, whatever the grammar. *)
Theorem C2_stream_shape (st0 : Store) (text : str) (g : gid) :
  (forall fuel st' stream,
     tokenize fuel st0 text g = Done (st', stream) ->
     (text = [] /\ stream = [EStr []]) \/
     (text <> [] /\ no_adjacent_strings stream /\ no_empty_string stream)) /\
  (exists fuel st', tokenize fuel st0 [] g = Done (st', [EStr []])).
Proof.
  split.
  - intros fuel st' stream H. destruct text as [|c text].
    + left. split; [reflexivity | exact (tokenize_empty_stream _ _ _ H)].
    + right. split; [discriminate|]. apply tidy_shape.
      apply (tokenize_tidy fuel st0 g (text := c :: text) (st' := st')); [discriminate | exact H].
  - exists (S (valve_fuel (rules (merged st0 g g)))), (merged st0 g).
    apply tokenize_empty. lia.
Qed.

Lemma C2_witness :
  (lit "ab cd" = [] /\
   [Examples.word_token "ab"; EStr (lit " "); Examples.word_token "cd"] = [EStr []]) \/
  (lit "ab cd" <> [] /\
   no_adjacent_strings [Examples.word_token "ab"; EStr (lit " "); Examples.word_token "cd"] /\
   no_empty_string [Examples.word_token "ab"; EStr (lit " "); Examples.word_token "cd"]).
Proof.
  apply (proj1 (C2_stream_shape (Examples.only Examples.phrase_grammar) (lit "ab cd") 0)
           7 (Examples.only Examples.phrase_grammar)).
  reflexivity.
Defined.

(** ** C8: the earlier rule wins *)

(** C8.  Tokenizing ["x"] with [{"a": /x/, "b": /x/}] returns a stream of
    exactly one element, a [Token] of type ["a"]: the rule of the earlier
    key takes the span, and the later rule finds a [Token] and skips it.
    With the keys in the other order the token is of type ["b"]. *)
Theorem C8_declaration_order (n : nat) :
  tokenize (6 + n) (Examples.only Examples.ab_grammar) (lit "x") 0
  = Done (Examples.only Examples.ab_grammar,
          [ETok (mkToken (lit "a") (CStr (lit "x")) (AMany []) 1)]) /\
  tokenize (6 + n)
    (Examples.only {| rules := List.rev (rules Examples.ab_grammar); rest := None |}) (lit "x") 0
  = Done (Examples.only {| rules := List.rev (rules Examples.ab_grammar); rest := None |},
          [ETok (mkToken (lit "b") (CStr (lit "x")) (AMany []) 1)]).
Proof.
  split; apply tokenize_mono with (fuel := 6); try lia; reflexivity.
Qed.

(** ** C4: a greedy rule and the tokens made before it *)

(** C4 as stated fails: on ["ab cd"] the stream is never one [phrase] token. *)
Lemma C4_counterexample :
  ~ (exists fuel st' t,
       tokenize fuel (Examples.only Examples.phrase_grammar) (lit "ab cd") 0
       = Done (st', [ETok t]) /\
       type t = lit "phrase" /\ tlength t = 5).
Proof.
  intros (fuel & st' & t & H & _).
  assert (H1 : tokenize (Nat.max fuel 7) (Examples.only Examples.phrase_grammar) (lit "ab cd") 0
               = Done (st', [ETok t]))
    by (apply tokenize_mono with (fuel := fuel); [lia | exact H]).
  assert (H2 : tokenize (Nat.max fuel 7) (Examples.only Examples.phrase_grammar) (lit "ab cd") 0
               = Done (Examples.only Examples.phrase_grammar,
                       [Examples.word_token "ab"; EStr (lit " "); Examples.word_token "cd"]))
    by (apply tokenize_mono with (fuel := 7); [lia | reflexivity]).
  rewrite H1 in H2. discriminate.
Qed.

(** C4, amended.  Tokenizing ["ab cd"] with
    [{"word": /\w+/, "phrase": {pattern: /\w+\s\w+/, greedy: true}}] returns
    the [word] token of ["ab"], the string [" "] and the [word] token of
    ["cd"]: the greedy rule is tried from plain strings only, here from the
    [" "] at offset 2, where it finds no match, and a match may not start
    inside a [Token].  A greedy rule does take tokens made before it when
    its match starts in a plain string: with the pattern [/\s\w+\s/] on
    ["a b c"] the [phrase] token covers [" b "], the [word] token of ["b"]
    included. *)
Theorem C4_greedy_rematch (n : nat) :
  stream_of (tokenize (7 + n) (Examples.only Examples.phrase_grammar) (lit "ab cd") 0)
  = Done [Examples.word_token "ab"; EStr (lit " "); Examples.word_token "cd"] /\
  stream_of (tokenize (10 + n) (Examples.only Examples.inner_grammar) (lit "a b c") 0)
  = Done [Examples.word_token "a";
          ETok (mkToken (lit "phrase") (CStr (lit " b ")) (AMany []) 3);
          Examples.word_token "c"].
Proof.
  split.
  - rewrite (@tokenize_mono 7 (7 + n) (Examples.only Examples.phrase_grammar)
               (lit "ab cd") 0
               (Examples.only Examples.phrase_grammar,
                [Examples.word_token "ab"; EStr (lit " "); Examples.word_token "cd"]));
      [reflexivity | lia | reflexivity].
  - rewrite (@tokenize_mono 10 (10 + n) (Examples.only Examples.inner_grammar)
               (lit "a b c") 0
               (Examples.only Examples.inner_grammar,
                [Examples.word_token "a";
                 ETok (mkToken (lit "phrase") (CStr (lit " b ")) (AMany []) 3);
                 Examples.word_token "c"]));
      [reflexivity | lia | reflexivity].
Qed.

(** ** C5: the cause tag, and termination *)







(** ** C6: the safety valve *)


(** C6.  Once the list has more nodes than the text has code units, every
    loop of the engine ends at its next turn and leaves the list and the
    store as they are, whatever the node, the offset, the rule and the
    rematch object: the loop over the nodes, the loop over the rules of a
    token name, and [matchGrammar] as a whole return the state they were
    given, and raise nothing.  So [tokenize] returns the list as it was when
    it grew too long: with the rule [/x*/], which matches the empty string
    for ever, the text ["ab"] gets two empty tokens and then itself. *)
Theorem C6_safety_valve :
  (forall tok text grammar s0,
     List.length text < List.length (tokenList s0) ->
     (forall fuel token j po c pos,
        exists b, mgNodes tok text grammar (S fuel) token j po s0 c pos = Done (s0, b)) /\
     (forall fuel token ps j sn sp,
        List.length ps + 1 < fuel ->
        exists b, mgPatterns tok text grammar fuel token ps j s0 sn sp = Done (s0, b)) /\
     (forall fuel sn sp,
        valve_fuel grammar <= fuel ->
        matchGrammar tok text grammar fuel s0 sn sp = Done s0)) /\
  (forall n,
     tokenize (7 + n) (Examples.only Examples.empty_grammar) (lit "ab") 0
     = Done (Examples.only Examples.empty_grammar, [empty_token; empty_token; EStr (lit "ab")])).
Proof.
  split.
  - intros tok text grammar s0 Hlong. split; [|split].
    + intros. now apply valve_nodes.
    + intros. now apply valve_patterns.
    + intros. unfold matchGrammar. now apply valve_keys.
  - intros n. apply tokenize_mono with (fuel := 7); [lia | reflexivity].
Qed.

Lemma C6_witness :
  matchGrammar (tokenize 0) (lit "ab") (rules Examples.empty_grammar) 5
    {| st := Examples.only Examples.empty_grammar;
       tokenList := [empty_token; empty_token; EStr (lit "ab")];
       rematch := None |} 0 0
  = Done {| st := Examples.only Examples.empty_grammar;
            tokenList := [empty_token; empty_token; EStr (lit "ab")];
            rematch := None |}.
Proof.
  apply (proj1 C6_safety_valve (tokenize 0) (lit "ab") (rules Examples.empty_grammar)
           {| st := Examples.only Examples.empty_grammar;
              tokenList := [empty_token; empty_token; EStr (lit "ab")];
              rematch := None |}).
  - simpl. lia.
  - simpl. lia.
Defined.

(** ** C9: [Prism.highlight] and a missing grammar *)

Lemma empty_tag_tokens :
  tokenize 12 empty_tag_store (lit "x") 0
  = Done (empty_tag_store,
          [ETok (mkToken (lit "tag")
                   (CArr [ETok (mkToken (lit "tag") (CStr []) (AMany []) 0); EStr (lit "x")])
                   (AMany []) 1)]).
Proof. reflexivity. Qed.

(** C9 as stated fails: with the grammar at hand, [Prism.highlight] still
    raises when a hook does.  On ['x'] with the grammar
    [{tag: {pattern: /x/, inside: {tag: /^/}}}] and the language name
    ['tsx'], the [after-tokenize] hook of [prism-lang-tsx.ts] reads
    [token.content[0].content[0].content] where [token.content[0].content]
    is the empty string, and raises a [TypeError]. *)
Lemma C9_counterexample :
  ~ (forall fuel hooks st0 text g language0 err,
       before_tokenize hooks = [] ->
       highlight fuel hooks st0 text (Some g) language0 <> Thrown err).
Proof.
  intros H.
  apply (H 12 tsx_hooks empty_tag_store (lit "x") 0 (lit "tsx") TypeError eq_refl).
  rewrite highlight_steps. cbn [tsx_hooks before_tokenize after_tokenize hooks_run bind
                                  snd fst env_before env_grammar code].
  rewrite empty_tag_tokens. reflexivity.
Qed.

(** C9, amended.  [Prism.highlight(text, grammar, language)] raises in
    three cases only: a [before-tokenize] hook raises; or these hooks
    return and leave no grammar in the environment, and the error names
    the language of the environment; or [tokenize] returns and an
    [after-tokenize] hook or the stringifier, that is a [wrap] hook,
    raises.  When no hook raises it raises exactly when the grammar is
    absent once the [before-tokenize] hooks have run; otherwise, when
    [tokenize] returns, it runs the [after-tokenize] hooks and returns the
    stringified rendering of the encoded tokens, and [tokenize] does
    return, so [Prism.highlight] does, when nested tokenization descends
    from the grammar and the text the hooks have left. *)
Theorem C9_highlight_error (fuel : nat) (hooks : Hooks) (st0 : Store)
    (text : str) (grammar : option gid) (language0 : str) :
  (forall err,
     highlight fuel hooks st0 text grammar language0 = Thrown err <->
     raises (before_tokenize hooks) (st0, env_before text grammar language0) err \/
     exists b,
       runs (before_tokenize hooks) (st0, env_before text grammar language0) b /\
       match env_grammar (snd b) with
       | None => err = NoGrammarError (language (snd b))
       | Some g =>
           exists r,
             tokenize fuel (fst b) (code (snd b)) g = Done r /\
             (raises (after_tokenize hooks) (fst r, env_after (snd b) (snd r)) err \/
              exists a,
                runs (after_tokenize hooks) (fst r, env_after (snd b) (snd r)) a /\
                stringify hooks (language (snd a)) (fst a) (encode (tokens (snd a)))
                = Thrown err)
       end) /\
  (returning (before_tokenize hooks) -> returning (after_tokenize hooks) ->
   returning (wrap hooks) ->
   exists b,
     runs (before_tokenize hooks) (st0, env_before text grammar language0) b /\
     (forall err,
        highlight fuel hooks st0 text grammar language0 = Thrown err <->
        env_grammar (snd b) = None /\ err = NoGrammarError (language (snd b))) /\
     (forall g r,
        env_grammar (snd b) = Some g ->
        tokenize fuel (fst b) (code (snd b)) g = Done r ->
        exists a res,
          runs (after_tokenize hooks) (fst r, env_after (snd b) (snd r)) a /\
          stringify hooks (language (snd a)) (fst a) (encode (tokens (snd a))) = Done res /\
          highlight fuel hooks st0 text grammar language0 = Done res) /\
     (forall W mu g,
        env_grammar (snd b) = Some g ->
        descends W mu (fst b) -> W g (code (snd b)) ->
        exists fuel' res, highlight fuel' hooks st0 text grammar language0 = Done res)).
Proof.
  split.
  - intros err. rewrite highlight_steps.
    destruct (hooks_run (before_tokenize hooks) (st0, env_before text grammar language0))
      as [b|e0|] eqn:Eb; cbn [bind].
    + pose proof (proj1 (hooks_run_runs _ _ _) Eb) as Rb.
      assert (Hb : forall b', runs (before_tokenize hooks)
                                (st0, env_before text grammar language0) b' -> b' = b).
      { intros b' H'. apply hooks_run_runs in H'. congruence. }
      assert (Hn : forall e, ~ raises (before_tokenize hooks)
                                 (st0, env_before text grammar language0) e).
      { intros e H'. apply hooks_run_raises in H'. congruence. }
      destruct (env_grammar (snd b)) as [g|] eqn:Eg.
      * pose proof (tokenize_safe fuel (fst b) (code (snd b)) g) as Hs.
        destruct (tokenize fuel (fst b) (code (snd b)) g) as [r|e1|] eqn:Et; cbn [bind].
        -- destruct (hooks_run (after_tokenize hooks) (fst r, env_after (snd b) (snd r)))
             as [a|e2|] eqn:Ea; cbn [bind].
           ++ split.
              ** intros Hs'. right. exists b. split; [exact Rb|]. rewrite Eg.
                 exists r. split; [exact Et|]. right. exists a.
                 split; [now apply hooks_run_runs | exact Hs'].
              ** intros [H'|(b' & Rb' & H')]; [now elim (Hn err)|].
                 rewrite (Hb b' Rb') in H'. rewrite Eg in H'.
                 destruct H' as (r' & Et' & [H'|(a' & Ra' & H')]).
                 --- rewrite Et in Et'. injection Et' as <-.
                     apply hooks_run_raises in H'. congruence.
                 --- rewrite Et in Et'. injection Et' as <-.
                     apply hooks_run_runs in Ra'. rewrite Ea in Ra'. injection Ra' as <-.
                     exact H'.
           ++ split.
              ** intros [= <-]. right. exists b. split; [exact Rb|]. rewrite Eg.
                 exists r. split; [exact Et|]. left. now apply hooks_run_raises.
              ** intros [H'|(b' & Rb' & H')]; [now elim (Hn err)|].
                 rewrite (Hb b' Rb') in H'. rewrite Eg in H'.
                 destruct H' as (r' & Et' & [H'|(a' & Ra' & H')]).
                 --- rewrite Et in Et'. injection Et' as <-.
                     apply hooks_run_raises in H'. congruence.
                 --- rewrite Et in Et'. injection Et' as <-.
                     apply hooks_run_runs in Ra'. congruence.
           ++ split; [discriminate|].
              intros [H'|(b' & Rb' & H')]; [now elim (Hn err)|].
              rewrite (Hb b' Rb') in H'. rewrite Eg in H'.
              destruct H' as (r' & Et' & [H'|(a' & Ra' & H')]).
              ** rewrite Et in Et'. injection Et' as <-.
                 apply hooks_run_raises in H'. congruence.
              ** rewrite Et in Et'. injection Et' as <-.
                 apply hooks_run_runs in Ra'. congruence.
        -- exfalso. exact (Hs e1 eq_refl).
        -- split; [discriminate|].
           intros [H'|(b' & Rb' & H')]; [now elim (Hn err)|].
           rewrite (Hb b' Rb') in H'. rewrite Eg in H'.
           destruct H' as (r' & Et' & _). congruence.
      * split.
        -- intros [= <-]. right. exists b. split; [exact Rb|]. now rewrite Eg.
        -- intros [H'|(b' & Rb' & H')]; [now elim (Hn err)|].
           rewrite (Hb b' Rb') in H'. rewrite Eg in H'. now subst err.
    + split.
      * intros [= <-]. left. now apply hooks_run_raises.
      * intros [H'|(b' & Rb' & _)].
        -- apply hooks_run_raises in H'. congruence.
        -- apply hooks_run_runs in Rb'. congruence.
    + split; [discriminate|].
      intros [H'|(b' & Rb' & _)].
      * apply hooks_run_raises in H'. congruence.
      * apply hooks_run_runs in Rb'. congruence.
  - intros Hrb Hra Hrw.
    destruct (@returning_runs _ (before_tokenize hooks) Hrb (st0, env_before text grammar language0)) as [b Eb].
    exists b. split; [now apply hooks_run_runs|].
    rewrite highlight_steps, Eb. cbn [bind]. split; [|split].
    + intros err. destruct (env_grammar (snd b)) as [g|] eqn:Eg.
      * split; [|intros [H' _]; discriminate].
        pose proof (tokenize_safe fuel (fst b) (code (snd b)) g) as Hs.
        destruct (tokenize fuel (fst b) (code (snd b)) g) as [r|e1|] eqn:Et; cbn [bind].
        -- destruct (@returning_runs _ (after_tokenize hooks) Hra (fst r, env_after (snd b) (snd r))) as [a Ea].
           rewrite Ea. cbn [bind].
           destruct (@stringify_returns hooks (language (snd a)) Hrw
                       (encode (tokens (snd a))) (fst a)) as [res Hres].
           rewrite Hres. discriminate.
        -- exfalso. exact (Hs e1 eq_refl).
        -- discriminate.
      * split; [intros [= <-]; now split | intros [_ ->]; reflexivity].
    + intros g r Eg Et. rewrite Eg, Et. cbn [bind].
      destruct (@returning_runs _ (after_tokenize hooks) Hra (fst r, env_after (snd b) (snd r))) as [a Ea].
      destruct (@stringify_returns hooks (language (snd a)) Hrw
                  (encode (tokens (snd a))) (fst a)) as [res Hres].
      exists a, res. split; [now apply hooks_run_runs|]. split; [exact Hres|].
      rewrite Ea. cbn [bind]. exact Hres.
    + intros W mu g Eg Hd HW.
      destruct (@tokenize_descends W mu (mu g (code (snd b))) (fst b) (code (snd b)) g
                  eq_refl Hd HW) as (N & r & Et & _).
      destruct (@returning_runs _ (after_tokenize hooks) Hra
                  (fst r, env_after (snd b) (snd r))) as [a Ea].
      destruct (@stringify_returns hooks (language (snd a)) Hrw
                  (encode (tokens (snd a))) (fst a)) as [res Hres].
      exists N, res. rewrite highlight_steps, Eb. cbn [bind]. rewrite Eg, Et. cbn [bind].
      rewrite Ea. cbn [bind]. exact Hres.
Qed.

Lemma no_hooks_return :
  returning (before_tokenize Examples.no_hooks) /\
  returning (after_tokenize Examples.no_hooks) /\
  returning (wrap Examples.no_hooks).
Proof. repeat split; intros c []. Qed.

Lemma C9_witness :
  (exists b,
     runs (before_tokenize Examples.no_hooks)
       (Examples.only Examples.ab_grammar, env_before (lit "x") (Some 0) (lit "x")) b /\
     (forall err,
        highlight 6 Examples.no_hooks (Examples.only Examples.ab_grammar) (lit "x")
          (Some 0) (lit "x") = Thrown err <->
        env_grammar (snd b) = None /\ err = NoGrammarError (language (snd b))) /\
     (forall g r,
        env_grammar (snd b) = Some g ->
        tokenize 6 (fst b) (code (snd b)) g = Done r ->
        exists a res,
          runs (after_tokenize Examples.no_hooks) (fst r, env_after (snd b) (snd r)) a /\
          stringify Examples.no_hooks (language (snd a)) (fst a) (encode (tokens (snd a)))
          = Done res /\
          highlight 6 Examples.no_hooks (Examples.only Examples.ab_grammar) (lit "x")
            (Some 0) (lit "x") = Done res) /\
     (forall W mu g,
        env_grammar (snd b) = Some g ->
        descends W mu (fst b) -> W g (code (snd b)) ->
        exists fuel' res,
          highlight fuel' Examples.no_hooks (Examples.only Examples.ab_grammar) (lit "x")
            (Some 0) (lit "x") = Done res)) /\
  highlight 6 Examples.no_hooks (Examples.only Examples.ab_grammar) (lit "x") (Some 0) (lit "x")
  = Done (Examples.only Examples.ab_grammar, rendered_x) /\
  highlight 6 Examples.no_hooks (Examples.only Examples.ab_grammar) (lit "x") None (lit "nolang")
  = Thrown (NoGrammarError (lit "nolang")).
Proof.
  split; [|split; reflexivity].
  apply (proj2 (C9_highlight_error 6 Examples.no_hooks (Examples.only Examples.ab_grammar)
                  (lit "x") (Some 0) (lit "x"))).
  - exact (proj1 no_hooks_return).
  - exact (proj1 (proj2 no_hooks_return)).
  - exact (proj2 (proj2 no_hooks_return)).
Defined.

(** ** C10: [highlightText] and a name without a grammar *)

(** C10 as stated fails: no grammar is registered under [toString], yet
    [highlightText("a<b", "toString")] does not return the text: the
    property read finds the member that every object inherits, which is
    truthy, and [Prism.highlight] runs on it as on a grammar without rules
    and returns the encoded text.  So it is under [extend]. *)
Lemma C10_counterexample :
  ~ (forall text name,
       obj_get (registered Examples.prism_languages) name = None ->
       exists fuel,
         highlightText fuel Examples.no_hooks Examples.prism_languages Examples.prism_store
           text name
         = Done (Examples.prism_store, text)).
Proof.
  intros H. destruct (H (lit "a<b") (lit "toString") eq_refl) as [fuel Hf].
  unfold highlightText in Hf.
  change (languages_get Examples.prism_languages (lit "toString")) with (Some 12) in Hf.
  destruct fuel as [|[|fuel]]; [discriminate Hf | discriminate Hf |].
  rewrite (@highlight_empty (S (S fuel)) Examples.no_hooks Examples.prism_store (lit "a<b")
             12 (lit "toString") eq_refl eq_refl eq_refl eq_refl) in Hf by lia.
  discriminate Hf.
Qed.

(** C10, amended.  [Prism.languages[language]] finds nothing exactly when
    no grammar is registered under the name and the name is not one of
    those the registry inherits from [LanguageMethods] and from
    [Object.prototype] ([extend], [insertBefore], [DFS], [constructor],
    [toString], [hasOwnProperty], [valueOf], [__proto__] and the like).
    For such a name, and every text, [highlightText] returns the text
    unchanged and raises nothing, where [Prism.highlight], given no
    grammar, raises.  For an inherited name it calls [Prism.highlight] on
    the member, and with no hook to change it the text comes back
    encoded. *)
Theorem C10_highlightText_fallback (fuel : nat) (hooks : Hooks) (languages : Languages)
    (st0 : Store) (text : str) (language0 : str) :
  registry_shape languages ->
  (languages_get languages language0 = None <->
   has_key (registered languages) language0 = false /\ is_member language0 = false) /\
  (has_key (registered languages) language0 = false -> is_member language0 = false ->
   highlightText fuel hooks languages st0 text language0 = Done (st0, text) /\
   (before_tokenize hooks = [] ->
    highlight fuel hooks st0 text None language0 = Thrown (NoGrammarError language0))) /\
  (has_key (registered languages) language0 = false -> is_member language0 = true ->
   exists g,
     In (language0, g) (inherited languages) /\
     highlightText fuel hooks languages st0 text language0
     = highlight fuel hooks st0 text (Some g) language0 /\
     (rules (st0 g) = [] -> rest (st0 g) = None ->
      before_tokenize hooks = [] -> after_tokenize hooks = [] -> 1 < fuel ->
      highlightText fuel hooks languages st0 text language0
      = Done (st0, encode_str text))).
Proof.
  intros Hs. split; [exact (@languages_get_none languages language0 Hs)|]. split.
  - intros Hr Hm.
    assert (Hg : languages_get languages language0 = None)
      by (apply (@languages_get_none languages language0 Hs); now split).
    unfold highlightText. rewrite Hg. split; [reflexivity|].
    intros Hb. rewrite highlight_steps, Hb. reflexivity.
  - intros Hr Hm.
    destruct (@languages_get_member languages language0 Hs Hr Hm) as (g & Hg & Hin).
    exists g. split; [exact Hin|]. unfold highlightText. rewrite Hg.
    split; [reflexivity|]. apply highlight_empty.
Qed.

Lemma C10_witness :
  (highlightText 2 Examples.no_hooks Examples.prism_languages Examples.prism_store
     (lit "a<b") (lit "nolang")
   = Done (Examples.prism_store, lit "a<b") /\
   (before_tokenize Examples.no_hooks = [] ->
    highlight 2 Examples.no_hooks Examples.prism_store (lit "a<b") None (lit "nolang")
    = Thrown (NoGrammarError (lit "nolang")))) /\
  (exists g,
     In (lit "valueOf", g) (inherited Examples.prism_languages) /\
     highlightText 2 Examples.no_hooks Examples.prism_languages Examples.prism_store
       (lit "a<b") (lit "valueOf")
     = highlight 2 Examples.no_hooks Examples.prism_store (lit "a<b") (Some g)
         (lit "valueOf") /\
     (rules (Examples.prism_store g) = [] -> rest (Examples.prism_store g) = None ->
      before_tokenize Examples.no_hooks = [] -> after_tokenize Examples.no_hooks = [] ->
      1 < 2 ->
      highlightText 2 Examples.no_hooks Examples.prism_languages Examples.prism_store
        (lit "a<b") (lit "valueOf")
      = Done (Examples.prism_store, encode_str (lit "a<b")))).
Proof.
  split.
  - apply (proj1 (proj2 (@C10_highlightText_fallback 2 Examples.no_hooks
                           Examples.prism_languages Examples.prism_store (lit "a<b")
                           (lit "nolang") prism_languages_shape)));
      reflexivity.
  - apply (proj2 (proj2 (@C10_highlightText_fallback 2 Examples.no_hooks
                           Examples.prism_languages Examples.prism_store (lit "a<b")
                           (lit "valueOf") prism_languages_shape)));
      reflexivity.
Defined.

(** ** C3: [insertBefore] and the other references to the old mapping *)


(** C3, on the code.  [insertBefore('markup', 'comment', {style})] builds
    the new mapping (object 5) and stores it in the container's slot, but
    the reference to the old mapping in [other.tag.inside] still leads to
    the old mapping (object 1): the callback of the traversal writes
    [Prism.languages[key]], not the slot of the object it is visiting, so it
    adds a language named [inside] to the registry instead. *)
Theorem C3_insertBefore_nested_reference :
  exists h,
    RegistryExample.after_insert = Reply (Done (h, 5)) /\
    Registry.objs h 5 = [(lit "tag", Registry.VOther (Registry.OAtom 10));
                         (lit "style", Registry.VOther (Registry.OAtom 13));
                         (lit "comment", Registry.VOther (Registry.OAtom 11))] /\
    obj_get (Registry.objs h 0) (lit "markup") = Some (Registry.VObject 5) /\
    obj_get (Registry.objs h 3) (lit "inside") = Some (Registry.VObject 1) /\
    obj_get (Registry.objs h 0) (lit "inside") = Some (Registry.VObject 5).
Proof.
  exists heap_after_insert. split; [exact heap0_after|].
  vm_compute. repeat split; reflexivity.
Qed.

(** ** C7: the tag-context walker *)


(** C7.  The tag-embedded-expression grammar tokenizes
    [<Foo bar={1}> some text {expr} </Foo>] into the two tag tokens, the
    strings and the braces; walking that stream replaces the body text
    [" some text "] by one token of type [plain-text] and leaves [{expr}] as
    the expression grammar tokenized it.  A token met in the body at brace
    depth 0 (the number of [<Foo>a 1 b</Foo>]) is merged with the plain
    strings next to it into one [plain-text] token.  After the self-closing
    [<Bar />] nothing is replaced, and the walker never pushes a context
    for a tag whose last element is [/>]. *)
Theorem C7_tag_walker :
  (exists st', tokenize 20 Tsx.store WalkerExample.text_Foo 0
               = Done (st', WalkerExample.stream_Foo)) /\
  TagWalker.walkTokens 20 WalkerExample.stream_Foo
  = Done [WalkerExample.open_Foo; WalkerExample.plain " some text ";
          WalkerExample.punct "{"; EStr (lit "expr"); WalkerExample.punct "}";
          WalkerExample.plain " "; WalkerExample.close_Foo] /\
  (exists st', tokenize 20 Tsx.store WalkerExample.text_number 0
               = Done (st', WalkerExample.stream_number)) /\
  TagWalker.walkTokens 20 WalkerExample.stream_number
  = Done [WalkerExample.bare_Foo; WalkerExample.plain "a 1 b"; WalkerExample.close_Foo] /\
  (exists st', tokenize 20 Tsx.store WalkerExample.text_Bar 0
               = Done (st', WalkerExample.stream_Bar)) /\
  TagWalker.walkTokens 20 WalkerExample.stream_Bar = Done WalkerExample.stream_Bar /\
  (forall t inner first lastElem openedTags,
     TagWalker.tag_head t = Some inner ->
     TagWalker.content_get (content inner) 0 = Some first ->
     TagWalker.content_is first (lit "</") = false ->
     TagWalker.content_last (content t) = Some lastElem ->
     TagWalker.content_is lastElem (lit "/>") = true ->
     TagWalker.classify t openedTags = Done (openedTags, false)).
Proof.
  split; [apply stream_of_done; vm_compute; reflexivity|].
  split; [vm_compute; reflexivity|].
  split; [apply stream_of_done; vm_compute; reflexivity|].
  split; [vm_compute; reflexivity|].
  split; [apply stream_of_done; vm_compute; reflexivity|].
  split; [vm_compute; reflexivity|].
  intros t inner first lastElem openedTags H1 H2 H3 H4 H5.
  unfold TagWalker.classify. now rewrite H1, H2, H3, H4, H5.
Qed.

Lemma C7_witness :
  TagWalker.classify
    (mkToken (lit "tag")
       (CArr [WalkerExample.tok "tag"
                (CArr [WalkerExample.punct "<";
                       WalkerExample.tok "class-name" (CStr (lit "Bar")) 3]) 4;
              EStr (lit " "); WalkerExample.punct "/>"])
       (AMany []) 7)
    [{| TagWalker.tagName := lit "Foo"; TagWalker.openedBraces := 0 |}]
  = Done ([{| TagWalker.tagName := lit "Foo"; TagWalker.openedBraces := 0 |}], false).
Proof.
  apply (proj2 (proj2 (proj2 (proj2 (proj2 (proj2 C7_tag_walker))))) _
           (mkToken (lit "tag")
              (CArr [WalkerExample.punct "<";
                     WalkerExample.tok "class-name" (CStr (lit "Bar")) 3])
              (AMany []) 4)
           (WalkerExample.punct "<") (WalkerExample.punct "/>")); reflexivity.
Defined.

(** * Further properties of the code *)

(** ** The stream and the text *)

(** X1.  Tokenizing loses nothing: the stream that [tokenize] returns reads
    back as the text (the [stringifyToken] of its elements, joined); the
    [length] of every token, at every depth, is the length of the text it
    covers; and every element is the part of the text at the offset that the
    lengths of the elements before it add up to. *)
Theorem X1_tokenize_lossless (st0 : Store) (text : str) (g : gid)
    (fuel : nat) (st' : Store) (stream : TokenStream) :
  tokenize fuel st0 text g = Done (st', stream) ->
  flat stream = text /\
  forallb well_formed stream = true /\
  (forall i e, nth_error stream i = Some e ->
     TagWalker.stringifyToken e
     = slice text (offset stream i) (offset stream i + elem_length e)).
Proof.
  intros H. destruct (tokenize_lossless _ _ _ _ H) as [Hflat Hwf].
  split; [exact Hflat|]. split; [exact Hwf|].
  intros i e Hi. rewrite <- Hflat. now apply flat_nth.
Qed.

Lemma X1_witness :
  flat [Examples.word_token "ab"; EStr (lit " "); Examples.word_token "cd"] = lit "ab cd" /\
  forallb well_formed
    [Examples.word_token "ab"; EStr (lit " "); Examples.word_token "cd"] = true /\
  (forall i e,
     nth_error [Examples.word_token "ab"; EStr (lit " "); Examples.word_token "cd"] i = Some e ->
     TagWalker.stringifyToken e
     = slice (lit "ab cd")
         (offset [Examples.word_token "ab"; EStr (lit " "); Examples.word_token "cd"] i)
         (offset [Examples.word_token "ab"; EStr (lit " "); Examples.word_token "cd"] i
          + elem_length e)).
Proof.
  apply (@X1_tokenize_lossless (Examples.only Examples.phrase_grammar) (lit "ab cd") 0 7
           (Examples.only Examples.phrase_grammar)).
  reflexivity.
Defined.

(** X2.  [tokenize] invents no token type: the type of every token of the
    stream it returns is a key of the grammar or of the grammar's [rest]. *)
Theorem X2_token_types (st0 : Store) (text : str) (g : gid)
    (fuel : nat) (st' : Store) (stream : TokenStream) (t : Token) :
  tokenize fuel st0 text g = Done (st', stream) ->
  In (ETok t) stream ->
  In (type t) (map fst (rules (st0 g))) \/
  exists r, rest (st0 g) = Some r /\ In (type t) (map fst (rules (st0 r))).
Proof.
  intros H Hin. apply merged_keys. exact (tokenize_typed _ _ _ _ H t Hin).
Qed.

Lemma X2_witness :
  In (lit "word") (map fst (rules Examples.phrase_grammar)) \/
  exists r, rest Examples.phrase_grammar = Some r /\
            In (lit "word") (map fst (rules Examples.phrase_grammar)).
Proof.
  apply (@X2_token_types (Examples.only Examples.phrase_grammar) (lit "ab cd") 0 7
           (Examples.only Examples.phrase_grammar)
           [Examples.word_token "ab"; EStr (lit " "); Examples.word_token "cd"]
           (mkToken (lit "word") (CStr (lit "ab")) (AMany []) 2)).
  - reflexivity.
  - left. reflexivity.
Defined.

(** ** The ranges of [highlightTextNode] *)

(** X3.  For a registered language, [highlightTextNode] adds to
    [CSS.highlights] one range for every plain string of the stream, at
    every depth, in text order; these ranges follow one another without gap
    or overlap from offset [0] to the length of the text of the node. *)
Theorem X3_highlightTextNode_tiles (fuel : nat) (languages : Languages) (st0 : Store)
    (data lang : str) (grammar : gid) (highlights : HighlightRegistry)
    (st' : Store) (out : option HighlightRegistry) :
  languages_get languages lang = Some grammar ->
  highlightTextNode fuel languages st0 data lang (Some highlights) = Done (st', out) ->
  exists stream,
    tokenize fuel st0 data grammar = Done (st', stream) /\
    out = Some (fold_left (fun h tr => add_range h (fst tr) (snd tr))
                  (spans stream (lit "source") 0) highlights) /\
    chain 0 (map snd (spans stream (lit "source") 0)) (List.length data).
Proof.
  intros Hg. unfold highlightTextNode. rewrite Hg.
  destruct (tokenize fuel st0 data grammar) as [[st1 stream]| |] eqn:E; try discriminate.
  cbn [bind fst snd option_map]. intros [= <- <-].
  exists stream. split; [reflexivity|]. split; [now rewrite highlight_spans|].
  destruct (tokenize_lossless _ _ _ _ E) as [Hflat Hwf].
  rewrite <- (tokenize_cover _ _ _ _ E). exact (chain_spans _ (lit "source") 0 Hwf).
Qed.

Lemma X3_witness :
  exists stream,
    tokenize 7 (Examples.only Examples.phrase_grammar) (lit "ab cd") 0
    = Done (Examples.only Examples.phrase_grammar, stream) /\
    Some [(lit "word", [mkStaticRange 0 2; mkStaticRange 3 5]);
          (lit "source", [mkStaticRange 2 3])]
    = Some (fold_left (fun h tr => add_range h (fst tr) (snd tr))
              (spans stream (lit "source") 0) []) /\
    chain 0 (map snd (spans stream (lit "source") 0)) (List.length (lit "ab cd")).
Proof.
  apply (@X3_highlightTextNode_tiles 7 words_languages
           (Examples.only Examples.phrase_grammar) (lit "ab cd") (lit "words") 0 []
           (Examples.only Examples.phrase_grammar)).
  - reflexivity.
  - reflexivity.
Defined.

(** X4.  [_highlightTextNode] only ever adds: under every name, the ranges
    registered before are still there, in the same order, followed by the
    new ranges of that name in text order.  Nothing is removed or replaced,
    so highlighting again does not clear what an earlier call registered. *)
Theorem X4_highlights_accumulate (tokens : TokenStream) (type : str) (index : nat)
    (highlights : HighlightRegistry) (name : str) :
  ranges_under (_highlightTextNode tokens type index highlights) name
  = ranges_under highlights name ++ under name (spans tokens type index).
Proof. rewrite highlight_spans. apply ranges_under_fold. Qed.

(** ** Escaping and rendering *)

(** X5.  [util.encode] escapes the text and keeps the structure: the text
    of the encoded stream is the escaped text of the stream, so it holds no
    [<] and no no-break space; but the [length] of every [Token] it returns
    is [0], because it builds the new tokens without the matched string. *)
Theorem X5_encode_text (o : TokenStream) :
  flat (encode o) = encode_str (flat o) /\
  (forall c, In c (flat (encode o)) -> c <> ascii_of_nat 60 /\ c <> ascii_of_nat 160) /\
  (forall t, In (ETok t) (encode o) -> tlength t = 0).
Proof.
  split; [apply encode_flat|]. split.
  - intros c. rewrite encode_flat. apply encode_str_safe.
  - intros t H. unfold encode in H. apply in_map_iff in H.
    destruct H as ([s|[ty c a n]] & E & _); [discriminate|].
    simpl in E. injection E as <-. reflexivity.
Qed.

(** X6.  A text that no rule of the grammar matches anywhere stays one plain
    string: [tokenize] returns the stream [[text]] (and has merged the
    [rest] of the grammar into it). *)
Theorem X6_no_match (st0 : Store) (text : str) (g : gid) (fuel : nat) :
  (forall token v ps po, In (token, v) (rules (merged st0 g g)) ->
     patterns_of v = Some ps -> In po ps ->
     forall p, search (pattern po) p text = None) ->
  valve_fuel (rules (merged st0 g g)) < fuel ->
  tokenize fuel st0 text g = Done (merged st0 g, [EStr text]).
Proof. apply tokenize_quiet. Qed.

Lemma X6_witness :
  tokenize 10 (Examples.only Examples.ab_grammar) (lit "yz") 0
  = Done (merged (Examples.only Examples.ab_grammar) 0, [EStr (lit "yz")]).
Proof.
  apply (@X6_no_match (Examples.only Examples.ab_grammar) (lit "yz") 0 10).
  - intros token v ps po H1 H2 H3 p. simpl in H1.
    destruct H1 as [H1|[H1|[]]]; injection H1 as <- <-; simpl in H2;
      injection H2 as <-; destruct H3 as [<-|[]]; apply x_re_quiet.
  - simpl. lia.
Defined.

(** X7.  Highlighting a text that no rule matches is escaping it: with no
    [before-tokenize] and no [after-tokenize] hook, [highlightText] returns
    the text with [&] and [<] escaped and no-break spaces replaced, and no
    markup; so it does for every text in the language [plaintext], whose
    grammar is empty. *)
Theorem X7_highlight_plain (fuel : nat) (hooks : Hooks) (languages : Languages)
    (st0 : Store) (text lang : str) (g : gid) :
  languages_get languages lang = Some g ->
  before_tokenize hooks = [] -> after_tokenize hooks = [] ->
  (forall token v ps po, In (token, v) (rules (merged st0 g g)) ->
     patterns_of v = Some ps -> In po ps ->
     forall p, search (pattern po) p text = None) ->
  valve_fuel (rules (merged st0 g g)) < fuel ->
  highlightText fuel hooks languages st0 text lang = Done (merged st0 g, encode_str text).
Proof.
  intros Hg Hb Ha Hq Hf. unfold highlightText. rewrite Hg, highlight_steps, Hb.
  cbn [hooks_run bind snd fst env_before env_grammar code].
  rewrite (tokenize_quiet _ _ _ Hq Hf). cbn [bind fst snd]. rewrite Ha.
  cbn [hooks_run bind snd fst env_after tokens language encode map encode_elem].
  rewrite stringify_cons. cbn [stringify_elem bind fst snd]. rewrite stringify_nil.
  cbn [bind fst snd]. now rewrite app_nil_r.
Qed.

Lemma X7_witness :
  highlightText 2 Examples.no_hooks Examples.prism_languages Examples.prism_store
    (lit "a<b & c") (lit "plaintext")
  = Done (merged Examples.prism_store 0, encode_str (lit "a<b & c")).
Proof.
  apply (@X7_highlight_plain 2 Examples.no_hooks Examples.prism_languages
           Examples.prism_store (lit "a<b & c") (lit "plaintext") 0).
  - reflexivity.
  - reflexivity.
  - reflexivity.
  - intros token v ps po [].
  - simpl. lia.
Defined.

(** X8.  [Token.stringify] goes through a stream element by element: the
    rendering of two streams in a row is the two renderings in a row, the
    first before the second, and what a [wrap] hook raises in either is
    passed on; a stream of plain strings renders as the strings joined,
    with no markup and no hook run. *)
Theorem X8_stringify_concat (hooks : Hooks) (language0 : str) (st0 : Store) :
  (forall a b,
     stringify hooks language0 st0 (a ++ b)
     = (r <- stringify hooks language0 st0 a ;;
        r' <- stringify hooks language0 (fst r) b ;;
        Done (fst r', snd r ++ snd r'))) /\
  (forall l, stringify hooks language0 st0 (map EStr l) = Done (st0, concat l)).
Proof.
  split; [intros a b; apply stringify_app|].
  induction l as [|s l IH]; [reflexivity|].
  cbn [map concat]. rewrite stringify_cons. cbn [stringify_elem bind fst snd].
  now rewrite IH.
Qed.

(** ** The walker of [prism-lang-tsx.ts] *)

(** X9.  [walkTokens] rewrites tokens but never the text: the stream it
    leaves reads as the stream it was given; and when the lengths of the
    tokens fit their texts before the walk, they still do after it, so the
    lengths still add up to the same total. *)
Theorem X9_walk_keeps_text (fuel : nat) (tokens out : list Elem) :
  TagWalker.walkTokens fuel tokens = Done out ->
  flat out = flat tokens /\
  (forallb well_formed tokens = true ->
   forallb well_formed out = true /\ sumlen out = sumlen tokens).
Proof.
  intros H. destruct (proj1 (walk_keeps fuel) _ _ H) as [H1 H2].
  split; [exact H1|]. intros Hwf. split; [exact (H2 Hwf)|].
  rewrite <- (flat_length _ (H2 Hwf)), <- (flat_length _ Hwf). now rewrite H1.
Qed.

Lemma X9_witness :
  flat [WalkerExample.bare_Foo; WalkerExample.plain "a 1 b"; WalkerExample.close_Foo]
  = flat WalkerExample.stream_number /\
  (forallb well_formed WalkerExample.stream_number = true ->
   forallb well_formed
     [WalkerExample.bare_Foo; WalkerExample.plain "a 1 b"; WalkerExample.close_Foo] = true /\
   sumlen [WalkerExample.bare_Foo; WalkerExample.plain "a 1 b"; WalkerExample.close_Foo]
   = sumlen WalkerExample.stream_number).
Proof.
  apply (@X9_walk_keeps_text 20 WalkerExample.stream_number).
  reflexivity.
Defined.

(** X10.  [walkTokens] always ends: it goes once through every element and
    every nested stream, whatever it merges on the way, and either returns
    the stream or raises (on a [tag] token whose inner [tag] has no first
    element, or that has no last element). *)
Theorem X10_walk_returns (fuel : nat) (tokens : list Elem) :
  walk_fuel tokens < fuel ->
  (exists out, TagWalker.walkTokens fuel tokens = Done out) \/
  (exists e, TagWalker.walkTokens fuel tokens = Thrown e).
Proof.
  intros H. pose proof (proj1 (walk_returns fuel) tokens H) as Hr.
  destruct (TagWalker.walkTokens fuel tokens) as [out|e|]; [left|right|congruence]; eauto.
Qed.

Lemma X10_witness :
  (exists out, TagWalker.walkTokens 40 WalkerExample.stream_number = Done out) \/
  (exists e, TagWalker.walkTokens 40 WalkerExample.stream_number = Thrown e).
Proof.
  apply (@X10_walk_returns 40 WalkerExample.stream_number).
  vm_compute. lia.
Defined.

(** ** [insertBefore] *)



(** X12.  [insertBefore] returns a new object and stores it at
    [root[inside]]; besides that it writes only to [Prism.languages].
    Every other object is left as it was: the old grammar and [insert] are
    not changed, and neither is any rule that refers to the old grammar.
    When [root] is not [Prism.languages], its other keys are untouched. *)
Theorem X12_insertBefore_writes (fuel : nat) (languages : Registry.loc) (h : Registry.Heap)
    (inside before : str) (insert root : Registry.loc) (h' : Registry.Heap)
    (ret g : Registry.loc) :
  Registry.insertBefore fuel languages h inside before insert root
  = Reply (Done (h', ret)) ->
  obj_get (Registry.objs h root) inside = Some (Registry.VObject g) ->
  languages < Registry.next h -> root < Registry.next h ->
  ret = Registry.next h /\
  Registry.next h' = S (Registry.next h) /\
  obj_get (Registry.objs h' root) inside = Some (Registry.VObject ret) /\
  (forall l, l <> languages -> l <> root -> l <> ret ->
     Registry.objs h' l = Registry.objs h l) /\
  (root <> languages ->
   forall k, str_eqb inside k = false ->
     obj_get (Registry.objs h' root) k = obj_get (Registry.objs h root) k).
Proof.
  intros H Hg Hl Hr.
  destruct (@insertBefore_effects fuel languages h inside before insert root h' ret g H Hg Hl Hr) as (E1 & E2 & _ & E4 & E5 & E6).
  repeat split; assumption.
Qed.

Lemma X12_witness :
  5 = Registry.next RegistryExample.heap0 /\
  Registry.next heap_after_insert = S (Registry.next RegistryExample.heap0) /\
  obj_get (Registry.objs heap_after_insert 0) (lit "markup") = Some (Registry.VObject 5) /\
  (forall l, l <> 0 -> l <> 0 -> l <> 5 ->
     Registry.objs heap_after_insert l = Registry.objs RegistryExample.heap0 l) /\
  (0 <> 0 ->
   forall k, str_eqb (lit "markup") k = false ->
     obj_get (Registry.objs heap_after_insert 0) k
     = obj_get (Registry.objs RegistryExample.heap0 0) k).
Proof.
  apply (@X12_insertBefore_writes 20 0 RegistryExample.heap0 (lit "markup") (lit "comment")
           4 0 heap_after_insert 5 1).
  - exact heap0_after.
  - reflexivity.
  - simpl. lia.
  - simpl. lia.
Defined.

(** X13.  [insertBefore] ends: whenever [root[inside]] is an object and
    every reference of the registry leads to an allocated object, the call
    returns the new object, whatever cycles the grammars form (the
    traversal enters an object at most once). *)
Theorem X13_insertBefore_returns (languages : Registry.loc) (h : Registry.Heap)
    (inside before : str) (insert root g : Registry.loc) :
  closed h ->
  obj_get (Registry.objs h root) inside = Some (Registry.VObject g) ->
  exists fuel h',
    Registry.insertBefore fuel languages h inside before insert root
    = Reply (Done (h', Registry.next h)).
Proof. apply insertBefore_returns. Qed.

Lemma X13_witness :
  exists fuel h',
    Registry.insertBefore fuel 0 RegistryExample.heap0 (lit "markup") (lit "comment") 4 0
    = Reply (Done (h', Registry.next RegistryExample.heap0)).
Proof.
  apply (@X13_insertBefore_returns 0 RegistryExample.heap0 (lit "markup") (lit "comment")
           4 0 1).
  - exact heap0_closed.
  - reflexivity.
Defined.

(** ** The span list, node by node *)

(** X14.  [addAfter(list, node, value)] on a well-linked list inserts the
    value right after the node: with the node at rank [k] (0 for [head])
    the list then holds the values with [value] inserted at index [k], the
    links and the counter are right again, and the node returned is the one
    of rank [k + 1].  On [tail] it raises a [TypeError], the list
    unchanged. *)
Theorem X14_addAfter_inserts (L : Linked.LinkedList) (ns : list Linked.node)
    (vs : list Elem) (k : nat) (v : Elem) :
  holds L ns vs -> k <= List.length ns ->
  (exists L',
     Linked.addAfter L (rank_node L ns k) v = Done (L', Linked.fresh L) /\
     holds L' (firstn k ns ++ Linked.fresh L :: skipn k ns) (fst (addAfter vs k v)) /\
     rank_node L' (firstn k ns ++ Linked.fresh L :: skipn k ns) (snd (addAfter vs k v))
     = Linked.fresh L) /\
  Linked.addAfter L (Linked.tail L) v = Thrown TypeError.
Proof.
  intros Hh Hk. split; [now apply linked_addAfter|].
  exact (linked_addAfter_tail v Hh).
Qed.

Lemma X14_witness :
  (exists L',
     Linked.addAfter linked_one (rank_node linked_one [2] 1) (EStr (lit "cd"))
     = Done (L', Linked.fresh linked_one) /\
     holds L' (firstn 1 [2] ++ Linked.fresh linked_one :: skipn 1 [2])
       (fst (addAfter [EStr (lit "ab")] 1 (EStr (lit "cd")))) /\
     rank_node L' (firstn 1 [2] ++ Linked.fresh linked_one :: skipn 1 [2])
       (snd (addAfter [EStr (lit "ab")] 1 (EStr (lit "cd"))))
     = Linked.fresh linked_one) /\
  Linked.addAfter linked_one (Linked.tail linked_one) (EStr (lit "cd")) = Thrown TypeError.
Proof.
  apply (@X14_addAfter_inserts linked_one [2] [EStr (lit "ab")] 1 (EStr (lit "cd"))).
  - exact linked_one_holds.
  - simpl. lia.
Defined.

(** X15.  [removeRange(list, node, count)] on a well-linked list removes
    the [count] values that follow the node, or all that follow it when
    they are fewer than [count]: it stops at [tail], the counter goes down
    by the number of nodes it did unlink, and the node itself stays. *)
Theorem X15_removeRange_removes (L : Linked.LinkedList) (ns : list Linked.node)
    (vs : list Elem) (k count : nat) :
  holds L ns vs -> k <= List.length ns ->
  exists L',
    Linked.removeRange L (rank_node L ns k) count = Done L' /\
    holds L' (firstn k ns ++ skipn (k + count) ns) (removeRange vs k count) /\
    Linked.length L'
    = (Linked.length L - Z.of_nat (Nat.min count (List.length ns - k)))%Z.
Proof.
  intros Hh Hk.
  destruct (linked_removeRange count Hh Hk) as (L' & E & H' & _).
  exists L'. split; [exact E|]. split; [exact H'|].
  destruct Hh as (_ & _ & _ & Hl). destruct H' as (_ & _ & _ & Hl').
  rewrite Hl, Hl', length_app, length_firstn, length_skipn. lia.
Qed.

Lemma X15_witness :
  exists L',
    Linked.removeRange linked_one (rank_node linked_one [2] 0) 3 = Done L' /\
    holds L' (firstn 0 [2] ++ skipn (0 + 3) [2]) (removeRange [EStr (lit "ab")] 0 3) /\
    Linked.length L'
    = (Linked.length linked_one - Z.of_nat (Nat.min 3 (List.length [2] - 0)))%Z.
Proof.
  apply (@X15_removeRange_removes linked_one [2] [EStr (lit "ab")] 0 3).
  - exact linked_one_holds.
  - simpl. lia.
Defined.

(** X16.  A new list is empty and well linked, and [toArray] returns the
    values of a well-linked list in order, from the node after [head] up
    to [tail]. *)
Theorem X16_toArray_values :
  holds Linked.new_LinkedList [] [] /\
  (forall L ns vs fuel,
     holds L ns vs -> List.length ns < fuel ->
     Linked.toArray fuel L = Done (map Some vs)).
Proof. split; [exact linked_new | intros; now apply linked_toArray with (ns := ns)]. Qed.

Lemma X16_witness :
  Linked.toArray 2 linked_one = Done (map Some [EStr (lit "ab")]).
Proof.
  apply (proj2 X16_toArray_values linked_one [2] [EStr (lit "ab")] 2).
  - exact linked_one_holds.
  - simpl. lia.
Defined.

(** ** [tokenize] and the [rest] of a grammar *)



(** ** The hook registry *)

(** X18.  [hooks.add] appends: once a callback is added under a name,
    [hooks.run] of that name runs the callbacks that were there, in their
    order, and then, when they have returned, the new one; the hooks of
    every other name run as before.  Under a name that the table inherits
    from [Object.prototype] nothing can be added: [add] raises a
    [TypeError]. *)
Theorem X18_hooks_add_run (E : Type) (all all' : HookTable E) (name : str)
    (callback : HookCallback E) :
  hooks_add all name callback = Done all' ->
  (forall env,
     hooks_run_name all' name env
     = (env0 <- hooks_run_name all name env ;; callback env0)) /\
  (forall name' env, name' <> name ->
     hooks_run_name all' name' env = hooks_run_name all name' env) /\
  (forall name' n callback',
     obj_get (registered_hooks all') name' = None ->
     obj_get (inherited_hooks all') name' = Some n ->
     hooks_add all' name' callback' = Thrown TypeError).
Proof.
  unfold hooks_add, hooks_run_name. intros H.
  destruct (obj_get (registered_hooks all) name) as [callbacks|] eqn:Eo.
  - injection H as <-. cbn [registered_hooks inherited_hooks]. split; [|split].
    + intros env. rewrite obj_get_set, str_eqb_refl, hooks_run_app.
      destruct (hooks_run callbacks env) as [e| |]; [|reflexivity|reflexivity].
      cbn [bind hooks_run]. apply bind_done.
    + intros name' env Hne. rewrite obj_get_set.
      destruct (str_eqb name name') eqn:En; [|reflexivity].
      apply str_eqb_eq in En. congruence.
    + intros name' n callback' H1 H2. now rewrite H1, H2.
  - destruct (obj_get (inherited_hooks all) name) as [n|] eqn:Ei; [discriminate|].
    injection H as <-. cbn [registered_hooks inherited_hooks]. split; [|split].
    + intros env. rewrite obj_get_set, str_eqb_refl.
      cbn [bind hooks_run]. apply bind_done.
    + intros name' env Hne. rewrite obj_get_set.
      destruct (str_eqb name name') eqn:En; [|reflexivity].
      apply str_eqb_eq in En. congruence.
    + intros name' n callback' H1 H2. now rewrite H1, H2.
Qed.

Lemma X18_witness :
  (forall env,
     hooks_run_name
       {| registered_hooks := [(lit "wrap", [fun e => Done (2 + e); fun e => Done (3 * e)])];
          inherited_hooks := [(lit "toString", 0)] |} (lit "wrap") env
     = (env0 <- hooks_run_name
                  {| registered_hooks := [(lit "wrap", [fun e => Done (2 + e)])];
                     inherited_hooks := [(lit "toString", 0)] |} (lit "wrap") env ;;
        Done (3 * env0))) /\
  (forall name' env, name' <> lit "wrap" ->
     hooks_run_name
       {| registered_hooks := [(lit "wrap", [fun e => Done (2 + e); fun e => Done (3 * e)])];
          inherited_hooks := [(lit "toString", 0)] |} name' env
     = hooks_run_name
         {| registered_hooks := [(lit "wrap", [fun e => Done (2 + e)])];
            inherited_hooks := [(lit "toString", 0)] |} name' env) /\
  (forall name' n callback',
     obj_get (registered_hooks
                {| registered_hooks :=
                     [(lit "wrap", [fun e => Done (2 + e); fun e => Done (3 * e)])];
                   inherited_hooks := [(lit "toString", 0)] |}) name' = None ->
     obj_get (inherited_hooks
                {| registered_hooks :=
                     [(lit "wrap", [fun e => Done (2 + e); fun e => Done (3 * e)])];
                   inherited_hooks := [(lit "toString", 0)] |}) name' = Some n ->
     hooks_add
       {| registered_hooks := [(lit "wrap", [fun e => Done (2 + e); fun e => Done (3 * e)])];
          inherited_hooks := [(lit "toString", 0)] |} name' callback'
     = Thrown TypeError).
Proof.
  apply (@X18_hooks_add_run nat
           {| registered_hooks := [(lit "wrap", [fun e => Done (2 + e)])];
              inherited_hooks := [(lit "toString", 0)] |}
           {| registered_hooks := [(lit "wrap", [fun e => Done (2 + e); fun e => Done (3 * e)])];
              inherited_hooks := [(lit "toString", 0)] |}
           (lit "wrap") (fun e => Done (3 * e))).
  reflexivity.
Defined.

(** ** The walker outside tags *)

(** X19.  Outside any tag the walker changes nothing: a stream in which no
    token, at any depth, is a [tag] token that starts with a [tag] token
    comes back from [walkTokens] as it was. *)
Theorem X19_walk_without_tags (fuel : nat) (tokens : list Elem) :
  walk_fuel tokens < fuel -> forallb tagless tokens = true ->
  TagWalker.walkTokens fuel tokens = Done tokens.
Proof. apply (proj1 (walk_tagless fuel)). Qed.

Lemma X19_witness :
  TagWalker.walkTokens 20
    [WalkerExample.punct "{"; EStr (lit "a "); WalkerExample.tok "number" (CStr (lit "1")) 1;
     WalkerExample.punct "}"]
  = Done [WalkerExample.punct "{"; EStr (lit "a ");
          WalkerExample.tok "number" (CStr (lit "1")) 1; WalkerExample.punct "}"].
Proof.
  apply (@X19_walk_without_tags 20).
  - vm_compute. lia.
  - reflexivity.
Defined.

(** ** [util.clone] *)

(** X20.  [util.clone(o)] on a registry whose references all lead to
    allocated objects returns the counterpart of [o]: the clone of the
    object or array it refers to, of the same kind, and [o] itself when it
    is neither.  Every object the call has entered has a clone with the
    same keys in the same order and, under each key, the counterpart of
    the value: shared objects and cycles are kept as they are. *)
Theorem X20_clone_copies (fuel : nat) (o : Registry.Value) (h : Registry.Heap)
    (r : Registry.Value * Registry.Heap * list (Registry.loc * Registry.loc)) :
  closed h -> distinct_keys h -> below (Registry.next h) o ->
  Util.clone fuel o h [] = Done r ->
  renamed (snd r) o = Some (fst (fst r)) /\
  forall l c, Util.visited_get (snd r) l = Some c -> copy_of (snd (fst r)) (snd r) l c.
Proof.
  intros Hc Hd Ho Hr. destruct (@clone_top fuel o h r Hc Hd Ho Hr) as (_ & Hrn & Hcp).
  split; [exact Hrn|]. intros l c Hl. apply Hcp; [exact Hl | intros []].
Qed.

Lemma X20_witness :
  renamed (snd clone_of_languages) (Registry.VObject 0)
    = Some (fst (fst clone_of_languages)) /\
  forall l c, Util.visited_get (snd clone_of_languages) l = Some c ->
    copy_of (snd (fst clone_of_languages)) (snd clone_of_languages) l c.
Proof.
  apply (@X20_clone_copies 30 (Registry.VObject 0) RegistryExample.heap0 clone_of_languages).
  - exact heap0_closed.
  - exact heap0_distinct.
  - cbn. lia.
  - reflexivity.
Defined.

(** X21.  [util.clone] writes to no object that was there before the call,
    and the copy is deep: the clones are objects allocated by the call, and
    every reference held in a clone leads to a clone, never to an object of
    the original. *)
Theorem X21_clone_deep (fuel : nat) (o : Registry.Value) (h : Registry.Heap)
    (r : Registry.Value * Registry.Heap * list (Registry.loc * Registry.loc)) :
  closed h -> distinct_keys h -> below (Registry.next h) o ->
  Util.clone fuel o h [] = Done r ->
  (forall x, x < Registry.next h ->
     Registry.objs (snd (fst r)) x = Registry.objs h x) /\
  (forall l c, Util.visited_get (snd r) l = Some c ->
     l < Registry.next h /\ Registry.next h <= c < Registry.next (snd (fst r))) /\
  (forall c k p,
     Registry.next h <= c < Registry.next (snd (fst r)) ->
     obj_get (Registry.objs (snd (fst r)) c) k = Some (Registry.VObject p) \/
     obj_get (Registry.objs (snd (fst r)) c) k = Some (Registry.VArray p) ->
     Registry.next h <= p < Registry.next (snd (fst r))).
Proof.
  intros Hc Hd Ho Hr. destruct (@clone_top fuel o h r Hc Hd Ho Hr) as (Hs & _ & Hcp).
  destruct Hs as (H1 & H2 & H3 & H4 & H5).
  split; [exact H2|]. split; [exact H3|].
  intros c k p Hrange Hg. destruct (H5 c Hrange) as [l Hl].
  destruct (Hcp l c Hl (fun F => F)) as [Hk Hv].
  assert (Hin : In k (Registry.keys (Registry.objs (snd (fst r)) l))).
  { rewrite <- Hk. destruct Hg as [Hg|Hg]; exact (@obj_get_key _ _ k _ Hg). }
  destruct (obj_get (Registry.objs (snd (fst r)) l) k) as [w|] eqn:Ew.
  2:{ apply obj_get_none in Ew. now elim Ew. }
  destruct (Hv k w Ew) as (w' & Hrn & Hw').
  assert (Hq : exists q, Util.visited_get (snd r) q = Some p).
  { destruct w as [q|q|y]; cbn [renamed] in Hrn.
    - destruct (Util.visited_get (snd r) q) as [d|] eqn:Eq; [|discriminate].
      exists q. cbn [option_map] in Hrn. destruct Hg as [Hg|Hg]; congruence.
    - destruct (Util.visited_get (snd r) q) as [d|] eqn:Eq; [|discriminate].
      exists q. cbn [option_map] in Hrn. destruct Hg as [Hg|Hg]; congruence.
    - destruct Hg as [Hg|Hg]; congruence. }
  destruct Hq as [q Hq]. exact (proj2 (H3 _ _ Hq)).
Qed.

Lemma X21_witness :
  (forall x, x < Registry.next RegistryExample.heap0 ->
     Registry.objs (snd (fst clone_of_languages)) x = Registry.objs RegistryExample.heap0 x) /\
  (forall l c, Util.visited_get (snd clone_of_languages) l = Some c ->
     l < Registry.next RegistryExample.heap0 /\
     Registry.next RegistryExample.heap0 <= c < Registry.next (snd (fst clone_of_languages))) /\
  (forall c k p,
     Registry.next RegistryExample.heap0 <= c < Registry.next (snd (fst clone_of_languages)) ->
     obj_get (Registry.objs (snd (fst clone_of_languages)) c) k = Some (Registry.VObject p) \/
     obj_get (Registry.objs (snd (fst clone_of_languages)) c) k = Some (Registry.VArray p) ->
     Registry.next RegistryExample.heap0 <= p < Registry.next (snd (fst clone_of_languages))).
Proof.
  apply (@X21_clone_deep 30 (Registry.VObject 0) RegistryExample.heap0 clone_of_languages).
  - exact heap0_closed.
  - exact heap0_distinct.
  - cbn. lia.
  - reflexivity.
Defined.

(** X22.  [util.clone(o)] returns on every registry whose references all
    lead to allocated objects, cycles or not: it enters an object at most
    once. *)
Theorem X22_clone_returns (o : Registry.Value) (h : Registry.Heap) :
  closed h -> below (Registry.next h) o ->
  exists fuel r, Util.clone fuel o h [] = Done r.
Proof.
  intros Hc Ho.
  assert (C0 : forall x k v, x < Registry.next h ->
                 obj_get (Registry.objs h x) k = Some v -> below (Registry.next h) v)
    by (intros x k v _ Hg; exact (@closed_below h x k v Hc Hg)).
  apply (@clone_returns (Registry.next h) h C0 (uncloned (Registry.next h) []) o h []).
  - apply clone_state_start.
  - exact Ho.
  - lia.
Qed.

Lemma X22_witness :
  exists fuel r, Util.clone fuel (Registry.VObject 0) RegistryExample.heap0 [] = Done r.
Proof.
  apply (@X22_clone_returns (Registry.VObject 0) RegistryExample.heap0).
  - exact heap0_closed.
  - cbn. lia.
Defined.

(** ** [LanguageMethods.extend] *)



(** X24.  In the object that [extend(id, redef)] returns, every token of
    [redef] has the very value it has in [redef], shared and not cloned;
    every other token of the language has a deep copy of its value: a
    value that is no object or array as it is, and for an object or an
    array a new one of the same kind. *)
Theorem X24_extend_values (fuel : nat) (languages : Registry.loc) (h : Registry.Heap)
    (id : str) (redef g : Registry.loc) (r : Registry.Heap * Registry.Value) :
  closed h -> distinct_keys h ->
  obj_get (Registry.objs h languages) id = Some (Registry.VObject g) ->
  redef < Registry.next h ->
  extend fuel languages h id redef = Reply (Done r) ->
  (forall k w, obj_get (Registry.objs h redef) k = Some w ->
     obj_get (Registry.objs (fst r) (Registry.next h)) k = Some w) /\
  (forall k v0, obj_get (Registry.objs h redef) k = None ->
     obj_get (Registry.objs h g) k = Some v0 ->
     exists v1, obj_get (Registry.objs (fst r) (Registry.next h)) k = Some v1 /\
       match v0 with
       | Registry.VObject _ => exists p, v1 = Registry.VObject p /\ Registry.next h <= p
       | Registry.VArray _ => exists p, v1 = Registry.VArray p /\ Registry.next h <= p
       | Registry.VOther _ => v1 = v0
       end).
Proof.
  intros Hc Hd Hl Hr E.
  destruct (@extend_spec fuel languages h id redef g r Hc Hd Hl Hr E)
    as (_ & _ & _ & H4 & H5).
  split; assumption.
Qed.

Lemma X24_witness :
  (forall k w, obj_get (Registry.objs RegistryExample.heap0 4) k = Some w ->
     obj_get (Registry.objs (fst extend_other) (Registry.next RegistryExample.heap0)) k
     = Some w) /\
  (forall k v0, obj_get (Registry.objs RegistryExample.heap0 4) k = None ->
     obj_get (Registry.objs RegistryExample.heap0 2) k = Some v0 ->
     exists v1,
       obj_get (Registry.objs (fst extend_other) (Registry.next RegistryExample.heap0)) k
       = Some v1 /\
       match v0 with
       | Registry.VObject _ =>
           exists p, v1 = Registry.VObject p /\ Registry.next RegistryExample.heap0 <= p
       | Registry.VArray _ =>
           exists p, v1 = Registry.VArray p /\ Registry.next RegistryExample.heap0 <= p
       | Registry.VOther _ => v1 = v0
       end).
Proof.
  apply (@X24_extend_values 30 0 RegistryExample.heap0 (lit "other") 4 2 extend_other).
  - exact heap0_closed.
  - exact heap0_distinct.
  - reflexivity.
  - cbn. lia.
  - reflexivity.
Defined.
